(** * A shallow embedding of the CPU triangle rasterizer

    Source: [src/triangle_rasterizer.cpp].

    - C++ [int] is a 32-bit two's complement integer, modelled as a [Z]
      with the wrap-around of every arithmetic operation written out
      ([wrap32]).
    - C++ [float] is IEEE-754 binary32 with round-to-nearest-even, taken
      from the Standard Library's [SpecFloat] at precision 24 and maximal
      exponent 128: every operation rounds to binary32, as the SSE
      instructions of x86-64 do.
    - [Uint32] is a [Z] in [0, 2^32).
    - The pixel buffer is a list of packed colours updated by index.
    - The [for] loops carry fuel and return [None] when it runs out:
      their bounds are inputs, and a loop whose bound is [INT_MAX] does
      not terminate.
    - Of SDL the model keeps what reaches the pixel buffer: whether
      [SDL_Init] succeeded. The contents of freshly allocated memory are
      a parameter.
    - The input of the custom mode is the sequence of the numbers that
      the reads [cin >> ...] deliver, a function of the position: every
      read is taken to succeed. After a failed read the program works
      on variables that were never set, which the model does not follow.

    The file has six parts: the model, which follows the source
    function by function; the vocabulary of the proofs; the properties
    of the model; the claims C1 to C10 of the specification; further
    properties of the model; and the theorems X1 to X30 on the code
    that the claims do not reach. *)

From Stdlib Require Import ZArith Lia Bool List SpecFloat.
From stdpp Require Import base list.

Local Open Scope Z_scope.

(** ** 32-bit integers *)

Module Int32.

Definition INT_MIN : Z := -2147483648.
Definition INT_MAX : Z := 2147483647.

(** The value that the 32 low bits of [z] have as a signed integer. *)
Definition wrap32 (z : Z) : Z := (z + 2147483648) mod 4294967296 - 2147483648.

(** Conversion to [Uint32]. *)
Definition to_u32 (z : Z) : Z := z mod 4294967296.

(** Conversion to [uint8_t]. *)
Definition to_u8 (z : Z) : Z := z mod 256.

Definition add32 (a b : Z) : Z := wrap32 (a + b).
Definition sub32 (a b : Z) : Z := wrap32 (a - b).
Definition mul32 (a b : Z) : Z := wrap32 (a * b).
Definition neg32 (a : Z) : Z := wrap32 (- a).
(** [abs] of <cstdlib>: [abs(INT_MIN)] wraps back to [INT_MIN]. *)
Definition abs32 (a : Z) : Z := if a <? 0 then neg32 a else a.

Definition int32 (z : Z) : Prop := INT_MIN <= z <= INT_MAX.
Definition uint32 (z : Z) : Prop := 0 <= z < 4294967296.

End Int32.
Export Int32.

(** ** binary32 floating point *)

Module Float32.

Definition float : Type := spec_float.

Definition prec : Z := 24.
Definition emax : Z := 128.

Definition fadd : float -> float -> float := SFadd prec emax.
Definition fmul : float -> float -> float := SFmul prec emax.
Definition fdiv : float -> float -> float := SFdiv prec emax.
Definition flt : float -> float -> bool := SFltb.

Definition fzero : float := S754_zero false.
Definition fone : float := S754_finite false 8388608 (-23).

(** [(float)z] for an [int] [z]: rounds to nearest even beyond 2^24. *)
Definition float_of_int (z : Z) : float := binary_normalize prec emax z 0 false.

(** The integral part of a float, rounded toward zero. *)
Definition ftrunc (f : float) : option Z :=
  match f with
  | S754_zero _ => Some 0
  | S754_finite s m e =>
      let a := match e with
               | Zneg p => Z.pos m / 2 ^ Z.pos p
               | _ => Z.pos m * 2 ^ e
               end in
      Some (if s then - a else a)
  | _ => None
  end.

(** [(int)f]: truncation toward zero. Where the result does not fit an
    [int] (and for infinities and NaN) C++ leaves the conversion
    undefined; the model takes what the x86-64 conversion instruction
    [cvttss2si] returns there, the "integer indefinite" value
    [INT_MIN]. *)
Definition int_of_float (f : float) : Z :=
  match ftrunc f with
  | Some z => if (INT_MIN <=? z) && (z <=? INT_MAX) then z else INT_MIN
  | None => INT_MIN
  end.

(** [(uint8_t)f]: the conversion to [int] followed by the narrowing to
    eight bits, as compilers for x86-64 emit it. For a value in
    [0, 256) this is plain truncation. *)
Definition uint8_of_float (f : float) : Z := to_u8 (int_of_float f).

(** [std::min] and [std::max] of <algorithm>, written with [<] only. *)
Definition fmin (a b : float) : float := if flt b a then b else a.
Definition fmax (a b : float) : float := if flt a b then b else a.

End Float32.
Export Float32.

(** ** Data model *)

(** [struct Vertex]; the fields [x], [y], [color] carry a [v] prefix so
    that the loop variables of the source keep their names. *)
Record Vertex : Type := mkVertex { vx : Z; vy : Z; vcolor : Z }.

(** [struct Screen], without the SDL handles. *)
Record Screen : Type := mkScreen { width : Z; height : Z; pixels : list Z }.

(** A vertex whose fields hold values of their C++ types. *)
Definition vertex_wf (v : Vertex) : Prop :=
  int32 (vx v) /\ int32 (vy v) /\ uint32 (vcolor v).

(** A screen as [drawScreen] allocates it: [width * height] entries. *)
Definition screen_wf (s : Screen) : Prop :=
  0 <= width s /\ 0 <= height s /\ width s * height s <= INT_MAX /\
  length (pixels s) = Z.to_nat (width s * height s).

Definition RED : Z := 0xFF0000FF.
Definition GREEN : Z := 0x00FF00FF.
Definition BLUE : Z := 0x0000FFFF.
Definition ORANGE : Z := 0xFFA500FF.
Definition GOLD : Z := 0xFFD700FF.
Definition PINK : Z := 0xFFC0CBFF.
Definition BLACK : Z := 0x000000FF.

Definition SCREEN_WIDTH : Z := 500.
Definition SCREEN_HEIGHT : Z := 500.

(** [pixels[index] = color]. An index outside the allocation is undefined
    behaviour in C++; the model leaves the buffer as it is there. No such
    index arises on a screen that satisfies [screen_wf]. *)
Definition store (l : list Z) (index : Z) (color : Z) : list Z :=
  if 0 <=? index then <[Z.to_nat index := color]> l else l.

(** [setPixel], lines 176-182. *)
Definition setPixel (screen : Screen) (x y : Z) (color : Z) : Screen :=
  if (x <? 0) || (x >=? width screen) || (y <? 0) || (y >=? height screen)
  then screen
  else
    let index := add32 (mul32 y (width screen)) x in
    mkScreen (width screen) (height screen) (store (pixels screen) index color).

(** The entry of the buffer for [(x, y)], row-major. *)
Definition pixel_at (s : Screen) (x y : Z) : option Z :=
  pixels s !! Z.to_nat (y * width s + x).

(** ** Colour interpolation *)

(** One channel: [(uint8_t)(c1 + (c2 - c1) * t)]. *)
Definition interpolateChannel (c1 c2 : Z) (t : float) : Z :=
  uint8_of_float (fadd (float_of_int c1) (fmul (float_of_int (sub32 c2 c1)) t)).

(** [interpolateColor], lines 188-211. *)
Definition interpolateColor (color0 color1 : Z) (t : float) : Z :=
  let r1 := to_u8 (Z.land (Z.shiftr color0 24) 255) in
  let g1 := to_u8 (Z.land (Z.shiftr color0 16) 255) in
  let b1 := to_u8 (Z.land (Z.shiftr color0 8) 255) in
  let a1 := to_u8 (Z.land color0 255) in
  let r2 := to_u8 (Z.land (Z.shiftr color1 24) 255) in
  let g2 := to_u8 (Z.land (Z.shiftr color1 16) 255) in
  let b2 := to_u8 (Z.land (Z.shiftr color1 8) 255) in
  let a2 := to_u8 (Z.land color1 255) in
  let r := interpolateChannel r1 r2 t in
  let g := interpolateChannel g1 g2 t in
  let b := interpolateChannel b1 b2 t in
  let a := interpolateChannel a1 a2 t in
  to_u32 (Z.lor (Z.lor (Z.lor (wrap32 (Z.shiftl r 24)) (Z.shiftl g 16))
                       (Z.shiftl b 8)) a).

(** ** Counted loops *)

(** [for (int i = lo; i <= hi; i++) st = body(i, st);] The increment
    wraps as 32-bit addition does, so a loop whose bound is [INT_MAX]
    never leaves; [fuel] bounds the number of iterations and [None]
    reports that it ran out (or that the body did). *)
Fixpoint for_le {S : Type} (fuel : nat) (body : Z -> S -> option S)
    (i hi : Z) (st : S) : option S :=
  match fuel with
  | O => None
  | Datatypes.S fuel' =>
      if i <=? hi then
        match body i st with
        | Some st' => for_le fuel' body (add32 i 1) hi st'
        | None => None
        end
      else Some st
  end.

(** [for (int i = lo; i < hi; i++) st = body(i, st);] *)
Fixpoint for_lt {S : Type} (fuel : nat) (body : Z -> S -> option S)
    (i hi : Z) (st : S) : option S :=
  match fuel with
  | O => None
  | Datatypes.S fuel' =>
      if i <? hi then
        match body i st with
        | Some st' => for_lt fuel' body (add32 i 1) hi st'
        | None => None
        end
      else Some st
  end.

(** ** Setting up the screen *)

(** How a call of [drawScreen] ends: [NoVideo] when [SDL_Init] failed
    and line 79 returned a [Screen] none of whose fields was set,
    [BadArrayLength] when [new Uint32[width * height]] threw
    [std::bad_array_new_length], and [Ready] with the screen whose
    buffer was allocated and cleared. *)
Inductive Started : Type :=
| NoVideo
| BadArrayLength
| Ready (screen : Screen).

(** [new Uint32[n]], line 128: an array of [n] entries whose contents
    are indeterminate, here the values of [fresh]; a negative [n] makes
    [new] throw. Running out of memory is not modelled. *)
Definition new_array (fresh : nat -> Z) (n : Z) : option (list Z) :=
  if n <? 0 then None else Some (map fresh (seq 0 (Z.to_nat n))).

(** [drawScreen], lines 61-152. [video] tells whether [SDL_Init]
    succeeds. The window, the renderer and the texture do not reach the
    pixel buffer: a failure to create them is reported, or passes
    unnoticed, and the function goes on. *)
Definition drawScreen (fuel : nat) (video : bool) (fresh : nat -> Z)
    (width height : Z) : option Started :=
  if negb video then Some NoVideo
  else
    match new_array fresh (mul32 width height) with
    | None => Some BadArrayLength
    | Some pixels =>
        match for_lt fuel (fun i pixels => Some (store pixels i BLACK))
                0 (mul32 width height) pixels with
        | Some pixels => Some (Ready (mkScreen width height pixels))
        | None => None
        end
    end.

(** ** Bresenham line rasterizer *)

(** The variables that the stepping loops update. *)
Record LineState : Type := mkLineState {
  ls_dep : Z;              (* the dependent coordinate: y (low), x (high) *)
  ls_D : Z;                (* the decision variable *)
  ls_currentStep : Z;
  ls_pixels : list Vertex
}.

(** [t] of both steppers (lines 239 and 280). *)
Definition stepFraction (currentStep totalSteps : Z) : float :=
  if totalSteps >? 0
  then fdiv (float_of_int currentStep) (float_of_int totalSteps)
  else fzero.

(** [bresenhamLow], lines 219-257. *)
Definition bresenhamLow (fuel : nat) (x0 y0 color0 x1 y1 color1 : Z)
    : option (list Vertex) :=
  let dx := sub32 x1 x0 in
  let dy := sub32 y1 y0 in
  let yi := if dy <? 0 then -1 else 1 in
  let dy := if dy <? 0 then neg32 dy else dy in
  let D := sub32 (mul32 2 dy) dx in
  let totalSteps := dx in
  let body x st :=
    let t := stepFraction (ls_currentStep st) totalSteps in
    let color := interpolateColor color0 color1 t in
    let pixels := ls_pixels st ++ [mkVertex x (ls_dep st) color] in
    let currentStep := add32 (ls_currentStep st) 1 in
    Some (if ls_D st >? 0
          then mkLineState (add32 (ls_dep st) yi)
                 (add32 (ls_D st) (mul32 2 (sub32 dy dx))) currentStep pixels
          else mkLineState (ls_dep st)
                 (add32 (ls_D st) (mul32 2 dy)) currentStep pixels) in
  option_map ls_pixels (for_le fuel body x0 x1 (mkLineState y0 D 0 [])).

(** [bresenhamHigh], lines 260-298. *)
Definition bresenhamHigh (fuel : nat) (x0 y0 color0 x1 y1 color1 : Z)
    : option (list Vertex) :=
  let dx := sub32 x1 x0 in
  let dy := sub32 y1 y0 in
  let xi := if dx <? 0 then -1 else 1 in
  let dx := if dx <? 0 then neg32 dx else dx in
  let D := sub32 (mul32 2 dx) dy in
  let totalSteps := dy in
  let body y st :=
    let t := stepFraction (ls_currentStep st) totalSteps in
    let color := interpolateColor color0 color1 t in
    let pixels := ls_pixels st ++ [mkVertex (ls_dep st) y color] in
    let currentStep := add32 (ls_currentStep st) 1 in
    Some (if ls_D st >? 0
          then mkLineState (add32 (ls_dep st) xi)
                 (add32 (ls_D st) (mul32 2 (sub32 dx dy))) currentStep pixels
          else mkLineState (ls_dep st)
                 (add32 (ls_D st) (mul32 2 dx)) currentStep pixels) in
  option_map ls_pixels (for_le fuel body y0 y1 (mkLineState x0 D 0 [])).

(** [bresenham], lines 301-316. *)
Definition bresenham (fuel : nat) (x0 y0 color0 x1 y1 color1 : Z)
    : option (list Vertex) :=
  if abs32 (sub32 y1 y0) <? abs32 (sub32 x1 x0) then
    if x0 >? x1
    then bresenhamLow fuel x1 y1 color1 x0 y0 color0
    else bresenhamLow fuel x0 y0 color0 x1 y1 color1
  else
    if y0 >? y1
    then bresenhamHigh fuel x1 y1 color1 x0 y0 color0
    else bresenhamHigh fuel x0 y0 color0 x1 y1 color1.

(** ** Triangle outline *)

(** The loops that draw the pixels of one edge (lines 327-335). *)
Definition drawPixels (screen : Screen) (edge : list Vertex) : Screen :=
  fold_left (fun s v => setPixel s (vx v) (vy v) (vcolor v)) edge screen.

(** [drawTriangle], lines 320-336: the three edges are rasterized first
    and drawn afterwards, one after the other. *)
Definition drawTriangle (fuel : nat) (screen : Screen) (v0 v1 v2 : Vertex)
    : option Screen :=
  match bresenham fuel (vx v0) (vy v0) (vcolor v0) (vx v1) (vy v1) (vcolor v1),
        bresenham fuel (vx v1) (vy v1) (vcolor v1) (vx v2) (vy v2) (vcolor v2),
        bresenham fuel (vx v2) (vy v2) (vcolor v2) (vx v0) (vy v0) (vcolor v0)
  with
  | Some edge1, Some edge2, Some edge3 =>
      Some (drawPixels (drawPixels (drawPixels screen edge1) edge2) edge3)
  | _, _, _ => None
  end.

(** ** Triangle fill *)

(** The two ends of the span of one scanline, as [fillTriangle] has them
    in its local variables before the inner loop. *)
Record Span : Type := mkSpan {
  x_left : Z; x_right : Z; color_left : Z; color_right : Z
}.

(** The first half of the body of the scanline loop (lines 351-388).
    [None] stands for the two [continue] statements. *)
Definition scanEdges (v0 v1 v2 : Vertex) (y : Z) : option Span :=
  let topHalf := y <? vy v1 in
  let half :=
    if topHalf
    then (if vy v1 =? vy v0 then None else Some (vy v0, vy v1, v0, v1))
    else (if vy v2 =? vy v1 then None else Some (vy v1, vy v2, v1, v2)) in
  match half with
  | None => None
  | Some (y_start, y_end, v_start, v_end) =>
      let t_long :=
        fdiv (float_of_int (sub32 y (vy v0)))
             (float_of_int (sub32 (vy v2) (vy v0))) in
      let x_long :=
        fadd (float_of_int (vx v0))
             (fmul (float_of_int (sub32 (vx v2) (vx v0))) t_long) in
      let t_short :=
        fdiv (float_of_int (sub32 y y_start))
             (float_of_int (sub32 y_end y_start)) in
      let x_short :=
        fadd (float_of_int (vx v_start))
             (fmul (float_of_int (sub32 (vx v_end) (vx v_start))) t_short) in
      let color_long := interpolateColor (vcolor v0) (vcolor v2) t_long in
      let color_short :=
        interpolateColor (vcolor v_start) (vcolor v_end) t_short in
      Some (mkSpan (int_of_float (fmin x_long x_short))
                   (int_of_float (fmax x_long x_short))
                   (if flt x_long x_short then color_long else color_short)
                   (if flt x_long x_short then color_short else color_long))
  end.

(** The three compare-and-swap steps at the head of [fillTriangle]
    (lines 341-343). *)
Definition sortByY (v0 v1 v2 : Vertex) : Vertex * Vertex * Vertex :=
  let '(v0, v1) := if vy v0 >? vy v1 then (v1, v0) else (v0, v1) in
  let '(v0, v2) := if vy v0 >? vy v2 then (v2, v0) else (v0, v2) in
  let '(v1, v2) := if vy v1 >? vy v2 then (v2, v1) else (v1, v2) in
  (v0, v1, v2).

(** [fillTriangle] reaches the screen through [setPixel] only and never
    reads it. Its code is written once over the receiver [put] of the
    writes: on [setPixel] it is the function of the source, on [record]
    it yields the sequence of [setPixel] calls that the function issues. *)
Section FillTriangle.
Context {Sink : Type} (put : Sink -> Z -> Z -> Z -> Sink).

(** The inner loop over [x] (lines 391-399). *)
Definition fillSpan (fuel : nat) (screen : Sink) (sp : Span) (y : Z)
    : option Sink :=
  for_le fuel
    (fun x screen =>
       Some (if x_right sp =? x_left sp
             then put screen x y (color_left sp)
             else
               let t_span :=
                 fdiv (float_of_int (sub32 x (x_left sp)))
                      (float_of_int (sub32 (x_right sp) (x_left sp))) in
               let color :=
                 interpolateColor (color_left sp) (color_right sp) t_span in
               put screen x y color))
    (x_left sp) (x_right sp) screen.

(** The body of the outer loop over [y], for sorted vertices. *)
Definition scanline (fuel : nat) (v0 v1 v2 : Vertex) (y : Z)
    (screen : Sink) : option Sink :=
  match scanEdges v0 v1 v2 y with
  | None => Some screen
  | Some sp => fillSpan fuel screen sp y
  end.

(** [fillTriangle], lines 338-401. *)
Definition fillTriangleOn (fuel : nat) (screen : Sink)
    (v0 v1 v2 : Vertex) : option Sink :=
  let '(v0, v1, v2) := sortByY v0 v1 v2 in
  if vy v0 =? vy v2 then Some screen
  else for_le fuel (scanline fuel v0 v1 v2) (vy v0) (vy v2) screen.

End FillTriangle.

Definition fillTriangle (fuel : nat) (screen : Screen) (v0 v1 v2 : Vertex)
    : option Screen :=
  fillTriangleOn setPixel fuel screen v0 v1 v2.

(** One call [setPixel(screen, x, y, color)]. *)
Definition Call : Type := Z * Z * Z.

(** A log of calls, the latest first. *)
Definition record (log : list Call) (x y color : Z) : list Call :=
  (x, y, color) :: log.

(** The [setPixel] calls that [fillTriangle] issues, the latest first. *)
Definition fillTriangle_calls (fuel : nat) (v0 v1 v2 : Vertex)
    : option (list Call) :=
  fillTriangleOn record fuel [] v0 v1 v2.

(** Carrying out a log of calls on a screen, the oldest call first. *)
Fixpoint replay (screen : Screen) (log : list Call) : Screen :=
  match log with
  | [] => screen
  | (x, y, color) :: older => setPixel (replay screen older) x y color
  end.

(** ** Collinearity check *)

(** [isCollinear], lines 404-409. *)
Definition isCollinear (v0 v1 v2 : Vertex) : bool :=
  let area :=
    sub32 (mul32 (sub32 (vx v1) (vx v0)) (sub32 (vy v2) (vy v0)))
          (mul32 (sub32 (vx v2) (vx v0)) (sub32 (vy v1) (vy v0))) in
  area =? 0.

(** The signed area in exact integer arithmetic. *)
Definition signedArea (v0 v1 v2 : Vertex) : Z :=
  (vx v1 - vx v0) * (vy v2 - vy v0) - (vx v2 - vx v0) * (vy v1 - vy v0).

(** ** The caller: custom mode of [main] *)

Definition Triangle : Type := Vertex * Vertex * Vertex.

Definition WHITE : Z := 0xFFFFFFFF.

(** The colour that a choice typed by the user stands for (lines
    464-470); any other number gives white. *)
Definition chooseColor (colorChoice : Z) : Z :=
  if colorChoice =? 1 then RED
  else if colorChoice =? 2 then GREEN
  else if colorChoice =? 3 then BLUE
  else if colorChoice =? 4 then ORANGE
  else if colorChoice =? 5 then GOLD
  else if colorChoice =? 6 then PINK
  else WHITE.

(** One vertex (lines 452-472): [cin >> vertex.x], [cin >> vertex.y]
    and [cin >> colorChoice] take the three numbers of the input from
    position [pos] on. *)
Definition readVertex (input : nat -> Z) (pos : nat) : Vertex :=
  mkVertex (input pos) (input (pos + 1)%nat)
           (chooseColor (input (pos + 2)%nat)).

(** The three vertices of one triangle (lines 449-473). *)
Definition readTriangle (input : nat -> Z) (pos : nat) : Triangle :=
  (readVertex input pos, readVertex input (pos + 3)%nat,
   readVertex input (pos + 6)%nat).

(** The loop of [main] that gathers triangles (lines 444-484), from the
    state in which [pos] numbers were read, the loop variable is [i] and
    [triangles] were kept. A collinear triple is reported and asked
    again ([i--], then the [i++] of the loop), so it never reaches
    [triangles]; the loop leaves when [i] reaches [numTriangles], and
    not before. *)
Fixpoint readTriangles (fuel : nat) (input : nat -> Z) (pos : nat)
    (i numTriangles : Z) (triangles : list Triangle)
    : option (list Triangle) :=
  match fuel with
  | O => None
  | S fuel' =>
      if i <? numTriangles then
        let '(v0, v1, v2) := readTriangle input pos in
        if isCollinear v0 v1 v2
        then readTriangles fuel' input (pos + 9)%nat
               (add32 (sub32 i 1) 1) numTriangles triangles
        else readTriangles fuel' input (pos + 9)%nat
               (add32 i 1) numTriangles (triangles ++ [(v0, v1, v2)])
      else Some triangles
  end.

Section DrawAll.
Context {Sink : Type} (put : Sink -> Z -> Z -> Z -> Sink).

(** [for (const auto& triangle : triangles) fillTriangle(...)], lines
    487-489. *)
Fixpoint drawAll (fuel : nat) (screen : Sink) (triangles : list Triangle)
    : option Sink :=
  match triangles with
  | [] => Some screen
  | (v0, v1, v2) :: rest =>
      match fillTriangleOn put fuel screen v0 v1 v2 with
      | Some screen' => drawAll fuel screen' rest
      | None => None
      end
  end.

(** The custom mode of [main] (lines 430-490), once [numTriangles] was
    read: [input] is what the reads deliver from there on. *)
Definition customMode (fuel : nat) (screen : Sink) (numTriangles : Z)
    (input : nat -> Z) : option Sink :=
  match readTriangles fuel input 0 0 numTriangles [] with
  | Some triangles => drawAll fuel screen triangles
  | None => None
  end.

End DrawAll.

(** The first default triangle of [main] (lines 495-497). *)
Definition tri_v0 : Vertex := mkVertex 250 100 RED.
Definition tri_v1 : Vertex := mkVertex 100 400 GREEN.
Definition tri_v2 : Vertex := mkVertex 400 400 BLUE.

(** * Vocabulary of the proofs *)

(** ** Floats *)

(** A float whose mantissa fits the 24 bits of binary32. *)
Definition short_mantissa (f : float) : Prop :=
  match f with
  | S754_finite _ m _ => Z.pos m < 2 ^ prec
  | _ => True
  end.

(** A float that is a zero or a finite number: no infinity and no NaN. *)
Definition finite_float (f : float) : Prop :=
  match f with
  | S754_zero _ | S754_finite _ _ _ => True
  | _ => False
  end.

(** The floats that the conversion of an [int] yields: a zero, or a
    24-bit mantissa with an exponent between -23 and 9. *)
Definition int_float (f : float) : Prop :=
  match f with
  | S754_zero _ => True
  | S754_finite _ m e => Z.pos m < 2 ^ prec /\ -23 <= e <= 9
  | _ => False
  end.

(** The float [f] is the normalised binary32 form of the integer [z]:
    a zero for 0, and otherwise a mantissa of exactly 24 bits with
    [m * 2^e = |z|] and the sign of [z]. Every integer below 2^24 in
    magnitude has such a form. *)
Definition holds_int (f : float) (z : Z) : Prop :=
  match f with
  | S754_zero _ => z = 0
  | S754_finite s m e =>
      -23 <= e <= 0 /\ 2 ^ 23 <= Z.pos m < 2 ^ 24 /\
      Z.pos m = Z.abs z * 2 ^ (- e) /\ s = (z <? 0)
  | _ => False
  end.

(** ** Reading a log of calls *)

(** The index that [setPixel(x, y, _)] writes on a screen of the given
    size, when it writes at all. *)
Definition target (w h x y : Z) : option nat :=
  if (x <? 0) || (x >=? w) || (y <? 0) || (y >=? h) then None
  else
    let index := add32 (mul32 y w) x in
    if 0 <=? index then Some (Z.to_nat index) else None.

(** The colour of the latest call of a log that writes index [i]. *)
Fixpoint latest (w h : Z) (log : list Call) (i : nat) : option Z :=
  match log with
  | [] => None
  | (x, y, color) :: older =>
      if decide (target w h x y = Some i) then Some color
      else latest w h older i
  end.

(** The colour of the latest call of a log for the position [(x, y)]. *)
Fixpoint find_call (log : list Call) (x y : Z) : option Z :=
  match log with
  | [] => None
  | (x', y', color) :: older =>
      if (x' =? x) && (y' =? y) then Some color else find_call older x y
  end.

(** The calls of a log for the row [y], the latest first. *)
Definition calls_on_row (log : list Call) (y : Z) : list Call :=
  List.filter (fun c : Call => snd (fst c) =? y) log.

(** The screen of a fill in progress is the replay of the calls made so
    far on the screen it started from. *)
Definition replays (s0 : Screen) (s : Screen) (log : list Call) : Prop :=
  s = replay s0 log.

(** A call whose row lies between [lo] and [hi]. *)
Definition row_within (lo hi : Z) (c : Call) : Prop :=
  lo <= snd (fst c) <= hi.

(** ** The common shape of the two Bresenham steppers *)

(** [bresenhamLow] and [bresenhamHigh] are the same loop with the roles of
    the coordinates exchanged: [i] is the coordinate that the loop walks,
    [d] the dependent one, and [mk i d color] builds the pixel. *)
Definition stepLine (mk : Z -> Z -> Z -> Vertex) (fuel : nat)
    (i0 d0 color0 i1 d1 color1 : Z) : option (list Vertex) :=
  let di := sub32 i1 i0 in
  let dd := sub32 d1 d0 in
  let si := if dd <? 0 then -1 else 1 in
  let dd := if dd <? 0 then neg32 dd else dd in
  let D := sub32 (mul32 2 dd) di in
  let totalSteps := di in
  let body i st :=
    let t := stepFraction (ls_currentStep st) totalSteps in
    let color := interpolateColor color0 color1 t in
    let pixels := ls_pixels st ++ [mk i (ls_dep st) color] in
    let currentStep := add32 (ls_currentStep st) 1 in
    Some (if ls_D st >? 0
          then mkLineState (add32 (ls_dep st) si)
                 (add32 (ls_D st) (mul32 2 (sub32 dd di))) currentStep pixels
          else mkLineState (ls_dep st)
                 (add32 (ls_D st) (mul32 2 dd)) currentStep pixels) in
  option_map ls_pixels (for_le fuel body i0 i1 (mkLineState d0 D 0 [])).

(** The pixel on the walked coordinate [i] and the dependent one [d]. *)
Definition lowPixel (i d color : Z) : Vertex := mkVertex i d color.
Definition highPixel (i d color : Z) : Vertex := mkVertex d i color.

(** The decision variable keeps the dependent coordinate within half a
    step of the ideal line: after [k] steps along a line of [di] by [dd]
    the offset [j] satisfies [-2 di < 2 dd k - di - 2 di j <= 0]. *)
Definition on_line (di dd k j : Z) : Prop :=
  - 2 * di < 2 * dd * k - di - 2 * di * j <= 0.

(** Coordinates for which no operation of the line rasterizer wraps. *)
Definition line_in_range (x0 y0 x1 y1 : Z) : Prop :=
  (int32 x0 /\ x0 < INT_MAX) /\ (int32 y0 /\ y0 < INT_MAX) /\
  (int32 x1 /\ x1 < INT_MAX) /\ (int32 y1 /\ y1 < INT_MAX) /\
  Z.abs (x1 - x0) < 1073741824 /\ Z.abs (y1 - y0) < 1073741824.

(** The coordinate along the dominant axis of the line. *)
Definition dominant (x0 y0 x1 y1 : Z) (p : Vertex) : Z :=
  if Z.abs (y1 - y0) <? Z.abs (x1 - x0) then vx p else vy p.

(** ** Colour channels *)

(** One 8-bit channel of a packed colour: 24 is red, 16 green, 8 blue and
    0 alpha. *)
Definition channel (shift color : Z) : Z := Z.land (Z.shiftr color shift) 255.

(** A channel of [color] lies between the least and the greatest value
    that the channel has in the colours [c0], [c1] and [c2]. *)
Definition channel_within (c0 c1 c2 color shift : Z) : bool :=
  (Z.min (channel shift c0) (Z.min (channel shift c1) (channel shift c2))
     <=? channel shift color) &&
  (channel shift color
     <=? Z.max (channel shift c0) (Z.max (channel shift c1) (channel shift c2))).

Definition color_within (c0 c1 c2 color : Z) : bool :=
  channel_within c0 c1 c2 color 24 && channel_within c0 c1 c2 color 16 &&
  channel_within c0 c1 c2 color 8 && channel_within c0 c1 c2 color 0.

(** ** The cleared screen *)

(** The screen of the given size with every entry black. *)
Definition black_screen (w h : Z) : Screen :=
  mkScreen w h (replicate (Z.to_nat (w * h)) BLACK).

(** What [drawScreen] comes to when the video system is up: the size
    [width * height] is computed in [int]; a negative one makes [new]
    throw, and any other gives a buffer of that many black entries. *)
Definition started (w h : Z) : Started :=
  if mul32 w h <? 0 then BadArrayLength
  else Ready (mkScreen w h (replicate (Z.to_nat (mul32 w h)) BLACK)).

(** ** Termination of the fill *)

(** No vertex lies on the row [INT_MAX], where [y <= v2.y] cannot fail. *)
Definition rows_below_max (v0 v1 v2 : Vertex) : Prop :=
  (int32 (vy v0) /\ vy v0 < INT_MAX) /\
  (int32 (vy v1) /\ vy v1 < INT_MAX) /\
  (int32 (vy v2) /\ vy v2 < INT_MAX).

(** More fuel than any loop over 32-bit values can use. *)
Definition ample_fuel : nat := Z.to_nat 4294967297.

(** ** Small inputs on which the theorems are run *)

Definition small_screen : Screen := black_screen 8 8.
Definition small_v0 : Vertex := mkVertex 2 0 RED.
Definition small_v1 : Vertex := mkVertex 0 3 GREEN.
Definition small_v2 : Vertex := mkVertex 4 3 BLUE.

(** ** Further vocabulary *)

(** The test of the gathering loop of [main] on one triple. *)
Definition proper (t : Triangle) : bool :=
  let '(v0, v1, v2) := t in negb (isCollinear v0 v1 v2).

(** The [k]-th triple of the input, counted from 0: nine numbers each. *)
Definition tripleAt (input : nat -> Z) (k : nat) : Triangle :=
  readTriangle input (9 * k).

(** The triples [j], [j + 1], ... of the input, [m] of them. *)
Definition triplesFrom (input : nat -> Z) (j m : nat) : list Triangle :=
  map (tripleAt input) (seq j m).

(** The input without its [k]-th triple. *)
Definition without (input : nat -> Z) (k : nat) : nat -> Z :=
  fun pos => if (pos <? 9 * k)%nat then input pos else input (pos + 9)%nat.

(** The unending input that brings the given numbers and then zeros,
    on which the theorems are run. *)
Definition typed (numbers : list Z) : nat -> Z :=
  fun pos => nth pos numbers 0.

(** The direction in which a stepper moves the dependent coordinate. *)
Definition stepSign (d0 d1 : Z) : Z := if d1 - d0 <? 0 then -1 else 1.

(** The end from which [bresenham] walks a line, and the other end: the
    walk goes up the dominant axis. *)
Definition lineStart (x0 y0 color0 x1 y1 color1 : Z) : Vertex :=
  if Z.abs (y1 - y0) <? Z.abs (x1 - x0)
  then (if x0 >? x1 then mkVertex x1 y1 color1 else mkVertex x0 y0 color0)
  else (if y0 >? y1 then mkVertex x1 y1 color1 else mkVertex x0 y0 color0).

Definition lineEnd (x0 y0 color0 x1 y1 color1 : Z) : Vertex :=
  if Z.abs (y1 - y0) <? Z.abs (x1 - x0)
  then (if x0 >? x1 then mkVertex x0 y0 color0 else mkVertex x1 y1 color1)
  else (if y0 >? y1 then mkVertex x0 y0 color0 else mkVertex x1 y1 color1).

(** The position [k] steps along the dominant axis and [j] steps along
    the other axis from the start [a] of the line to [b]. *)
Definition linePixel (a b : Vertex) (k j color : Z) : Vertex :=
  if Z.abs (vy b - vy a) <? Z.abs (vx b - vx a)
  then mkVertex (vx a + k) (vy a + stepSign (vy a) (vy b) * j) color
  else mkVertex (vx a + stepSign (vx a) (vx b) * j) (vy a + k) color.

(** Twice the area of the triangle that a point spans with the two ends
    of a line: the distance of the point from the line, times the length
    of the line. *)
Definition lineOffset (x0 y0 x1 y1 : Z) (p : Vertex) : Z :=
  (vx p - x0) * (y1 - y0) - (vy p - y0) * (x1 - x0).

(** The call of [setPixel] that draws one pixel of an edge. *)
Definition call_of (v : Vertex) : Call := (vx v, vy v, vcolor v).

(** The three edges of an outline are lines in the range of the
    rasterizer. *)
Definition outline_in_range (v0 v1 v2 : Vertex) : Prop :=
  line_in_range (vx v0) (vy v0) (vx v1) (vy v1) /\
  line_in_range (vx v1) (vy v1) (vx v2) (vy v2) /\
  line_in_range (vx v2) (vy v2) (vx v0) (vy v0).

(** The number of pixels of the longest edge of an outline. *)
Definition lineLength (a b : Vertex) : Z :=
  Z.max (Z.abs (vx b - vx a)) (Z.abs (vy b - vy a)) + 1.

Definition outlineLength (v0 v1 v2 : Vertex) : Z :=
  Z.max (lineLength v0 v1) (Z.max (lineLength v1 v2) (lineLength v2 v0)).

(** A position inside the screen. *)
Definition on_screen (s : Screen) (x y : Z) : Prop :=
  0 <= x < width s /\ 0 <= y < height s.

(** A position inside the bounding box of three vertices. *)
Definition in_box (v0 v1 v2 : Vertex) (x y : Z) : Prop :=
  Z.min (vx v0) (Z.min (vx v1) (vx v2)) <= x
    <= Z.max (vx v0) (Z.max (vx v1) (vx v2)) /\
  Z.min (vy v0) (Z.min (vy v1) (vy v2)) <= y
    <= Z.max (vy v0) (Z.max (vy v1) (vy v2)).

(** Coordinates below 2^23 in magnitude: they and their differences are
    binary32 values, so the conversions of [fillTriangle] are exact. *)
Definition small_coords (v : Vertex) : Prop :=
  Z.abs (vx v) < 8388608 /\ Z.abs (vy v) < 8388608.

(** An opaque colour: alpha is 255. *)
Definition opaque (color : Z) : Prop := channel 0 color = 255.

(** The value of a float lies between two integers: the float is a zero
    or a finite number [m * 2^e] with [e <= 0], compared with the bounds
    after scaling them by [2^(-e)]. *)
Definition float_between (lo hi : Z) (f : float) : Prop :=
  match f with
  | S754_zero _ => lo <= 0 <= hi
  | S754_finite s m e =>
      e <= 0 /\
      lo * 2 ^ (- e) <= cond_Zopp s (Z.pos m) <= hi * 2 ^ (- e)
  | _ => False
  end.

(** The mantissa that a rounding must not exceed: the mantissa itself
    when it is exact, and the next one when digits were lost. *)
Definition mantissa_above (m : Z) (l : location) : Z :=
  match l with
  | loc_Exact => m
  | loc_Inexact _ => m + 1
  end.

(** The colour that the inner loop of [fillTriangle] gives the position
    [x] of a span (lines 392-398). *)
Definition spanColor (sp : Span) (x : Z) : Z :=
  if x_right sp =? x_left sp then color_left sp
  else interpolateColor (color_left sp) (color_right sp)
         (fdiv (float_of_int (sub32 x (x_left sp)))
               (float_of_int (sub32 (x_right sp) (x_left sp)))).

(** A binary32 value in normal form: a zero, or a mantissa of exactly
    24 bits with an exponent of at least [k]. *)
Definition normal_float (k : Z) (f : float) : Prop :=
  match f with
  | S754_zero _ => True
  | S754_finite _ m e => 2 ^ 23 <= Z.pos m < 2 ^ 24 /\ k <= e
  | _ => False
  end.

(** What a rounding of a mantissa of 24 bits or more yields, short of
    an overflow: a normal form. *)
Definition normal_or_overflow (k : Z) (f : float) : Prop :=
  match f with
  | S754_finite _ m e => 2 ^ 23 <= Z.pos m < 2 ^ 24 /\ k <= e
  | S754_infinity _ => True
  | _ => False
  end.

(** * Properties *)

(** Side conditions on 32-bit ranges, and on the exponent range of
    binary32. *)
Ltac int32_arith := unfold int32, uint32, INT_MIN, INT_MAX in *; lia.
Ltac fexp_arith := unfold fexp, emin, prec, emax in *; lia.

(** ** 32-bit arithmetic *)

Section Int32Facts.

Lemma wrap32_id (z : Z) : int32 z -> wrap32 z = z.
Proof.
  unfold int32, INT_MIN, INT_MAX, wrap32. intros H.
  rewrite Z.mod_small by lia. lia.
Qed.

Lemma wrap32_range (z : Z) : int32 (wrap32 z).
Proof.
  unfold int32, INT_MIN, INT_MAX, wrap32.
  pose proof (Z.mod_pos_bound (z + 2147483648) 4294967296). lia.
Qed.

Lemma wrap32_zero (z : Z) : wrap32 z = 0 <-> z mod 4294967296 = 0.
Proof.
  unfold wrap32.
  rewrite (Z.div_mod z 4294967296) at 1 by lia.
  pose proof (Z.mod_pos_bound z 4294967296).
  set (q := z / 4294967296) in *. set (r := z mod 4294967296) in *.
  replace (4294967296 * q + r + 2147483648)
    with (r + 2147483648 + q * 4294967296) by ring.
  rewrite Z.mod_add by lia.
  destruct (Z_lt_ge_dec r 2147483648) as [Hr|Hr].
  - rewrite Z.mod_small by lia. lia.
  - replace (r + 2147483648) with (r - 2147483648 + 1 * 4294967296) by ring.
    rewrite Z.mod_add by lia. rewrite Z.mod_small by lia. lia.
Qed.

Lemma wrap32_mod (z : Z) : wrap32 z mod 4294967296 = z mod 4294967296.
Proof.
  unfold wrap32.
  pose proof (Z.mod_pos_bound (z + 2147483648) 4294967296).
  rewrite <- Zminus_mod_idemp_l.
  replace ((z + 2147483648) mod 4294967296 mod 4294967296)
    with ((z + 2147483648) mod 4294967296) by (rewrite Z.mod_mod; lia).
  rewrite Zminus_mod_idemp_l. f_equal. lia.
Qed.

Lemma add32_id (a b : Z) : int32 (a + b) -> add32 a b = a + b.
Proof. apply wrap32_id. Qed.

Lemma sub32_id (a b : Z) : int32 (a - b) -> sub32 a b = a - b.
Proof. apply wrap32_id. Qed.

Lemma mul32_id (a b : Z) : int32 (a * b) -> mul32 a b = a * b.
Proof. apply wrap32_id. Qed.

End Int32Facts.

(** ** The pixel buffer *)

Section PixelBuffer.

Lemma setPixel_width s x y c : width (setPixel s x y c) = width s.
Proof. unfold setPixel. destruct (_ || _); reflexivity. Qed.

Lemma setPixel_height s x y c : height (setPixel s x y c) = height s.
Proof. unfold setPixel. destruct (_ || _); reflexivity. Qed.

Lemma store_length l i c : length (store l i c) = length l.
Proof. unfold store. destruct (0 <=? i); [apply length_insert | reflexivity]. Qed.

Lemma setPixel_length s x y c :
  length (pixels (setPixel s x y c)) = length (pixels s).
Proof.
  unfold setPixel. destruct (_ || _); [reflexivity | apply store_length].
Qed.

Lemma setPixel_outside s x y c :
  x < 0 \/ x >= width s \/ y < 0 \/ y >= height s -> setPixel s x y c = s.
Proof.
  intros H. unfold setPixel.
  destruct (x <? 0) eqn:E1; [reflexivity|].
  destruct (x >=? width s) eqn:E2; [reflexivity|].
  destruct (y <? 0) eqn:E3; [reflexivity|].
  destruct (y >=? height s) eqn:E4; [reflexivity|].
  exfalso. lia.
Qed.

Lemma index_in_range s x y :
  screen_wf s -> 0 <= x < width s -> 0 <= y < height s ->
  0 <= y * width s + x < width s * height s.
Proof. intros (Hw & Hh & Hmax & Hlen) Hx Hy. nia. Qed.

Lemma index_exact s x y :
  screen_wf s -> 0 <= x < width s -> 0 <= y < height s ->
  add32 (mul32 y (width s)) x = y * width s + x.
Proof.
  intros Hwf Hx Hy.
  pose proof (index_in_range s x y Hwf Hx Hy) as Hi.
  destruct Hwf as (Hw & Hh & Hmax & Hlen).
  assert (0 <= y * width s) by nia.
  rewrite mul32_id by int32_arith.
  apply add32_id. int32_arith.
Qed.

Lemma setPixel_inside s x y c :
  screen_wf s -> 0 <= x < width s -> 0 <= y < height s ->
  pixels (setPixel s x y c)
  = <[Z.to_nat (y * width s + x) := c]> (pixels s).
Proof.
  intros Hwf Hx Hy. unfold setPixel.
  destruct (x <? 0) eqn:E1; [lia|].
  destruct (x >=? width s) eqn:E2; [lia|].
  destruct (y <? 0) eqn:E3; [lia|].
  destruct (y >=? height s) eqn:E4; [lia|].
  cbn [orb pixels]. rewrite index_exact by assumption.
  pose proof (index_in_range s x y Hwf Hx Hy).
  unfold store. destruct (0 <=? y * width s + x) eqn:E5; [reflexivity | lia].
Qed.

Lemma setPixel_wf s x y c : screen_wf s -> screen_wf (setPixel s x y c).
Proof.
  unfold screen_wf.
  rewrite setPixel_width, setPixel_height, setPixel_length. tauto.
Qed.

Lemma black_screen_wf w h :
  0 <= w -> 0 <= h -> w * h <= INT_MAX -> screen_wf (black_screen w h).
Proof.
  intros Hw Hh Hmax. unfold screen_wf, black_screen.
  cbn [width height pixels].
  repeat split; try assumption. apply length_replicate.
Qed.

Lemma black_screen_pixel w h x y :
  0 <= w -> 0 <= h -> 0 <= x < w -> 0 <= y < h ->
  pixel_at (black_screen w h) x y = Some BLACK.
Proof.
  intros Hw Hh Hx Hy. unfold pixel_at, black_screen. cbn [width pixels].
  apply lookup_replicate_2. nia.
Qed.

End PixelBuffer.

(** ** Counted loops *)

Section Loops.
Context {S : Type}.
Implicit Types (body : Z -> S -> option S) (st : S).

Lemma for_le_done fuel body i hi st :
  hi < i -> for_le (Datatypes.S fuel) body i hi st = Some st.
Proof. intros H. cbn. destruct (i <=? hi) eqn:E; [lia | reflexivity]. Qed.

(** More fuel, and a body that returns at least as often, do not change
    a result. *)
Lemma for_le_mono body body' fuel fuel' i hi st r :
  (forall j s r', body j s = Some r' -> body' j s = Some r') ->
  (fuel <= fuel')%nat ->
  for_le fuel body i hi st = Some r -> for_le fuel' body' i hi st = Some r.
Proof.
  intros Hb. revert fuel' i st.
  induction fuel as [|fuel IH]; intros fuel' i st Hle H; [discriminate|].
  destruct fuel' as [|fuel']; [lia|].
  cbn in *. destruct (i <=? hi); [|assumption].
  destruct (body i st) as [st'|] eqn:E; [|discriminate].
  rewrite (Hb _ _ _ E). apply IH; [lia | assumption].
Qed.

(** A loop whose bound is [INT_MAX] does not return. *)
Lemma for_le_diverges fuel body i st :
  int32 i -> for_le fuel body i INT_MAX st = None.
Proof.
  revert i st. induction fuel as [|fuel IH]; intros i st Hi; [reflexivity|].
  cbn. destruct (i <=? INT_MAX) eqn:E; [|unfold int32 in Hi; lia].
  destruct (body i st); [|reflexivity].
  apply IH, wrap32_range.
Qed.

(** Total correctness: an invariant that each iteration re-establishes
    holds at the exit, and the loop returns when the fuel exceeds the
    number of iterations. *)
Lemma for_le_total (I : Z -> S -> Prop) body fuel lo hi st :
  int32 lo -> hi < INT_MAX -> lo <= hi + 1 ->
  hi - lo + 1 < Z.of_nat fuel ->
  I lo st ->
  (forall i s, lo <= i <= hi -> I i s ->
     exists s', body i s = Some s' /\ I (i + 1) s') ->
  exists r, for_le fuel body lo hi st = Some r /\ I (hi + 1) r.
Proof.
  intros Hlo Hhi. revert lo st Hlo.
  induction fuel as [|fuel IH]; intros lo st Hlo Hle Hfuel HI Hstep; [lia|].
  cbn. destruct (lo <=? hi) eqn:E.
  - destruct (Hstep lo st ltac:(lia) HI) as (s' & Hb & HI').
    rewrite Hb.
    assert (Hnext : add32 lo 1 = lo + 1)
      by (apply add32_id; int32_arith).
    rewrite Hnext. apply IH.
    + int32_arith.
    + lia.
    + lia.
    + assumption.
    + intros i s Hi. apply Hstep. lia.
  - exists st. split; [reflexivity|].
    replace (hi + 1) with lo by lia. assumption.
Qed.

(** Partial correctness, for any bound: whatever the loop returns
    satisfies the invariant at the exit. *)
Lemma for_le_partial (I : Z -> S -> Prop) body fuel lo hi st r :
  int32 lo -> int32 hi ->
  for_le fuel body lo hi st = Some r ->
  I lo st ->
  (forall i s s', lo <= i <= hi -> I i s -> body i s = Some s' ->
     I (i + 1) s') ->
  I (Z.max lo (hi + 1)) r.
Proof.
  intros Hlo Hhi. revert lo st Hlo.
  induction fuel as [|fuel IH]; intros lo st Hlo H HI Hstep; [discriminate|].
  cbn in H. destruct (lo <=? hi) eqn:E.
  - destruct (body lo st) as [s'|] eqn:Hb; [|discriminate].
    destruct (Z.eq_dec hi INT_MAX) as [->|Hne].
    { rewrite for_le_diverges in H by apply wrap32_range. discriminate. }
    assert (Hnext : add32 lo 1 = lo + 1)
      by (apply add32_id; int32_arith).
    rewrite Hnext in H.
    replace (Z.max lo (hi + 1)) with (Z.max (lo + 1) (hi + 1)) by lia.
    apply (IH (lo + 1) s').
    + int32_arith.
    + assumption.
    + apply (Hstep lo st); [lia | assumption | assumption].
    + intros i s s'' Hi. apply Hstep. lia.
  - injection H as <-. replace (Z.max lo (hi + 1)) with lo by lia. assumption.
Qed.

End Loops.

(** Two loops whose bodies keep their states related return related
    states, and run out of fuel together. *)
Lemma for_le_sim {S T : Type} (R : S -> T -> Prop)
    (bodyS : Z -> S -> option S) (bodyT : Z -> T -> option T)
    fuel i hi s t :
  (forall j s t, R s t -> option_Forall2 R (bodyS j s) (bodyT j t)) ->
  R s t ->
  option_Forall2 R (for_le fuel bodyS i hi s) (for_le fuel bodyT i hi t).
Proof.
  intros Hb. revert i s t.
  induction fuel as [|fuel IH]; intros i s t HR; cbn; [constructor|].
  destruct (i <=? hi); [|constructor; assumption].
  destruct (Hb i s t HR) as [s' t' HR'|]; [|constructor].
  apply IH, HR'.
Qed.

Section LoopsBelow.
Context {S : Type}.
Implicit Types (body : Z -> S -> option S) (st : S).

(** More fuel does not change what a loop returns. *)
Lemma for_lt_mono body fuel fuel' i hi st r :
  (fuel <= fuel')%nat ->
  for_lt fuel body i hi st = Some r -> for_lt fuel' body i hi st = Some r.
Proof.
  revert fuel' i st.
  induction fuel as [|fuel IH]; intros fuel' i st Hle H; [discriminate|].
  destruct fuel' as [|fuel']; [lia|].
  cbn in *. destruct (i <? hi); [|assumption].
  destruct (body i st) as [st'|]; [|discriminate].
  apply IH; [lia | assumption].
Qed.

(** Total correctness: an invariant that each iteration re-establishes
    holds at the exit, and the loop returns when the fuel exceeds the
    number of iterations. *)
Lemma for_lt_total (I : Z -> S -> Prop) body fuel lo hi st :
  int32 lo -> int32 hi -> lo <= hi ->
  hi - lo < Z.of_nat fuel ->
  I lo st ->
  (forall i s, lo <= i < hi -> I i s ->
     exists s', body i s = Some s' /\ I (i + 1) s') ->
  exists r, for_lt fuel body lo hi st = Some r /\ I hi r.
Proof.
  intros Hlo Hhi. revert lo st Hlo.
  induction fuel as [|fuel IH]; intros lo st Hlo Hle Hfuel HI Hstep; [lia|].
  cbn. destruct (lo <? hi) eqn:E.
  - destruct (Hstep lo st ltac:(lia) HI) as (s' & Hb & HI').
    rewrite Hb.
    assert (Hnext : add32 lo 1 = lo + 1)
      by (apply add32_id; int32_arith).
    rewrite Hnext. apply IH.
    + int32_arith.
    + lia.
    + lia.
    + assumption.
    + intros i s Hi. apply Hstep. lia.
  - exists st. split; [reflexivity|].
    replace hi with lo by lia. assumption.
Qed.

End LoopsBelow.

(** ** Setting up the screen *)

Section SettingUp.

(** Clearing the first [i] entries of a buffer. *)
Lemma store_cleared (l : list Z) (i : Z) :
  0 <= i -> (Z.to_nat i < length l)%nat ->
  store (replicate (Z.to_nat i) BLACK ++ drop (Z.to_nat i) l) i BLACK
  = replicate (Z.to_nat (i + 1)) BLACK ++ drop (Z.to_nat (i + 1)) l.
Proof.
  intros Hi Hlen. unfold store.
  destruct (0 <=? i) eqn:E; [|lia].
  replace (Z.to_nat (i + 1)) with (Datatypes.S (Z.to_nat i)) by lia.
  set (n := Z.to_nat i) in *.
  destruct (lookup_lt_is_Some_2 l n Hlen) as [c Hc].
  rewrite (drop_S l c n Hc).
  rewrite insert_app_r_alt by (rewrite length_replicate; lia).
  rewrite length_replicate, Nat.sub_diag. cbn [insert list_insert].
  rewrite replicate_S_end, <- app_assoc. reflexivity.
Qed.

(** The clearing loop of [drawScreen] (lines 139-141) makes every entry
    of the buffer black. *)
Lemma clearing_loop fuel (l : list Z) n :
  0 <= n <= INT_MAX -> length l = Z.to_nat n -> n < Z.of_nat fuel ->
  for_lt fuel (fun i pixels => Some (store pixels i BLACK)) 0 n l
  = Some (replicate (Z.to_nat n) BLACK).
Proof.
  intros Hn Hlen Hfuel.
  destruct (for_lt_total
              (fun i pixels =>
                 pixels = replicate (Z.to_nat i) BLACK ++ drop (Z.to_nat i) l)
              (fun i pixels => Some (store pixels i BLACK)) fuel 0 n l)
    as (r & Hr & HI).
  - int32_arith.
  - int32_arith.
  - lia.
  - lia.
  - reflexivity.
  - intros i s Hi ->. eexists. split; [reflexivity|].
    apply store_cleared; lia.
  - rewrite Hr, HI. f_equal.
    rewrite drop_ge by lia. apply app_nil_r.
Qed.

Lemma new_array_length fresh n l :
  new_array fresh n = Some l -> 0 <= n /\ length l = Z.to_nat n.
Proof.
  unfold new_array. destruct (n <? 0) eqn:E; [discriminate|].
  intros [= <-]. rewrite length_map, length_seq. lia.
Qed.

(** [drawScreen] returns, given fuel for one iteration for each
    entry. *)
Lemma drawScreen_returns fuel fresh w h :
  mul32 w h < Z.of_nat fuel ->
  drawScreen fuel true fresh w h = Some (started w h).
Proof.
  intros Hfuel. unfold drawScreen, started. cbn [negb].
  pose proof (wrap32_range (w * h)) as Hr. fold (mul32 w h) in Hr.
  destruct (new_array fresh (mul32 w h)) as [l|] eqn:El.
  - destruct (new_array_length _ _ _ El) as [Hn Hlen].
    rewrite clearing_loop by (assumption || int32_arith).
    destruct (mul32 w h <? 0) eqn:E; [lia | reflexivity].
  - unfold new_array in El.
    destruct (mul32 w h <? 0) eqn:E; [reflexivity | discriminate].
Qed.

(** Whatever fuel it returns with, it returns the same. *)
Lemma drawScreen_result fuel fresh w h r :
  drawScreen fuel true fresh w h = Some r -> r = started w h.
Proof.
  intros Hrun.
  assert (Hfuel : mul32 w h
                  < Z.of_nat (Nat.max fuel (Datatypes.S (Z.to_nat (mul32 w h)))))
    by lia.
  pose proof (drawScreen_returns _ fresh w h Hfuel) as Hbig.
  unfold drawScreen in Hrun, Hbig. cbn [negb] in Hrun, Hbig.
  destruct (new_array fresh (mul32 w h)) as [l|]; [|congruence].
  destruct (for_lt fuel _ 0 (mul32 w h) l) as [l'|] eqn:E; [|discriminate].
  apply (for_lt_mono _ fuel
           (Nat.max fuel (Datatypes.S (Z.to_nat (mul32 w h))))) in E; [|lia].
  rewrite E in Hbig. congruence.
Qed.

(** For a size in the range of [int] that is the black screen. *)
Lemma started_black w h :
  0 <= w -> 0 <= h -> w * h <= INT_MAX -> started w h = Ready (black_screen w h).
Proof.
  intros Hw Hh Hmax. unfold started, black_screen.
  assert (Hp : 0 <= w * h) by nia.
  rewrite mul32_id by int32_arith.
  destruct (w * h <? 0) eqn:E; [lia | reflexivity].
Qed.


End SettingUp.

(** ** Replaying the calls of a fill *)

Section Replay.

Lemma replay_width s log : width (replay s log) = width s.
Proof.
  induction log as [|[[x y] c] log IH]; [reflexivity|].
  cbn. rewrite setPixel_width. exact IH.
Qed.

Lemma replay_height s log : height (replay s log) = height s.
Proof.
  induction log as [|[[x y] c] log IH]; [reflexivity|].
  cbn. rewrite setPixel_height. exact IH.
Qed.

Lemma replay_length s log :
  length (pixels (replay s log)) = length (pixels s).
Proof.
  induction log as [|[[x y] c] log IH]; [reflexivity|].
  cbn. rewrite setPixel_length. exact IH.
Qed.

Lemma replay_wf s log : screen_wf s -> screen_wf (replay s log).
Proof.
  unfold screen_wf. rewrite replay_width, replay_height, replay_length. tauto.
Qed.

Lemma setPixel_target s x y c :
  pixels (setPixel s x y c)
  = match target (width s) (height s) x y with
    | Some i => <[i := c]> (pixels s)
    | None => pixels s
    end.
Proof.
  unfold setPixel, target.
  destruct (_ || _); [reflexivity|]. cbn [pixels]. unfold store.
  destruct (0 <=? _); reflexivity.
Qed.

(** Last write wins: an entry holds the colour of the latest call that
    writes it, or what it held before. *)
Lemma lookup_replay s log (i : nat) :
  (i < length (pixels s))%nat ->
  pixels (replay s log) !! i
  = match latest (width s) (height s) log i with
    | Some c => Some c
    | None => pixels s !! i
    end.
Proof.
  intros Hi. induction log as [|[[x y] c] log IH]; [reflexivity|].
  cbn [replay latest]. rewrite setPixel_target, replay_width, replay_height.
  destruct (decide (target (width s) (height s) x y = Some i)) as [->|Hne].
  - apply list_lookup_insert_eq. rewrite replay_length. exact Hi.
  - destruct (target (width s) (height s) x y) as [j|]; [|exact IH].
    rewrite list_lookup_insert_ne by congruence. exact IH.
Qed.

Lemma screen_eq (s1 s2 : Screen) :
  width s1 = width s2 -> height s1 = height s2 -> pixels s1 = pixels s2 ->
  s1 = s2.
Proof. destruct s1, s2. cbn. intros -> -> ->. reflexivity. Qed.

(** Replaying a log on its own result changes nothing. *)
Lemma replay_idempotent s log : replay (replay s log) log = replay s log.
Proof.
  apply screen_eq; rewrite ?replay_width, ?replay_height; try reflexivity.
  apply list_eq. intros i.
  destruct (decide (i < length (pixels s))%nat) as [Hi|Hi].
  - rewrite (lookup_replay (replay s log)) by (rewrite replay_length; exact Hi).
    rewrite replay_width, replay_height.
    rewrite (lookup_replay s log i Hi).
    destruct (latest (width s) (height s) log i); reflexivity.
  - rewrite !lookup_ge_None_2; [reflexivity | |];
      rewrite ?replay_length; lia.
Qed.

Lemma target_inside s x y :
  screen_wf s -> 0 <= x < width s -> 0 <= y < height s ->
  target (width s) (height s) x y = Some (Z.to_nat (y * width s + x)).
Proof.
  intros Hwf Hx Hy. unfold target.
  destruct (x <? 0) eqn:E1; [lia|].
  destruct (x >=? width s) eqn:E2; [lia|].
  destruct (y <? 0) eqn:E3; [lia|].
  destruct (y >=? height s) eqn:E4; [lia|].
  cbn [orb]. rewrite index_exact by assumption.
  pose proof (index_in_range s x y Hwf Hx Hy).
  destruct (0 <=? y * width s + x) eqn:E5; [reflexivity | lia].
Qed.

Lemma target_outside w h x y :
  x < 0 \/ x >= w \/ y < 0 \/ y >= h -> target w h x y = None.
Proof.
  intros H. unfold target.
  destruct (x <? 0) eqn:E1; [reflexivity|].
  destruct (x >=? w) eqn:E2; [reflexivity|].
  destruct (y <? 0) eqn:E3; [reflexivity|].
  destruct (y >=? h) eqn:E4; [reflexivity|].
  exfalso. lia.
Qed.

(** On a well-formed screen distinct positions have distinct entries. *)
Lemma target_position s x y x' y' :
  screen_wf s -> 0 <= x < width s -> 0 <= y < height s ->
  target (width s) (height s) x' y' = Some (Z.to_nat (y * width s + x))
  <-> x' = x /\ y' = y.
Proof.
  intros Hwf Hx Hy. split.
  - intros H.
    destruct (Z_lt_ge_dec x' 0) as [?|?];
      [rewrite target_outside in H by lia; discriminate|].
    destruct (Z_lt_ge_dec x' (width s)) as [?|?];
      [|rewrite target_outside in H by lia; discriminate].
    destruct (Z_lt_ge_dec y' 0) as [?|?];
      [rewrite target_outside in H by lia; discriminate|].
    destruct (Z_lt_ge_dec y' (height s)) as [?|?];
      [|rewrite target_outside in H by lia; discriminate].
    rewrite target_inside in H by (assumption || lia).
    injection H as H.
    pose proof (index_in_range s x y Hwf Hx Hy).
    pose proof (index_in_range s x' y' Hwf ltac:(lia) ltac:(lia)).
    apply Z2Nat.inj in H; [|lia|lia].
    assert (y' = y) by nia. split; [nia | assumption].
  - intros [-> ->]. apply target_inside; assumption.
Qed.

Lemma latest_find_call s log x y :
  screen_wf s -> 0 <= x < width s -> 0 <= y < height s ->
  latest (width s) (height s) log (Z.to_nat (y * width s + x))
  = find_call log x y.
Proof.
  intros Hwf Hx Hy. induction log as [|[[x' y'] c] log IH]; [reflexivity|].
  cbn [latest find_call].
  pose proof (target_position s x y x' y' Hwf Hx Hy) as Ht.
  destruct (decide _) as [He|Hne].
  - apply Ht in He as [-> ->]. rewrite !Z.eqb_refl. reflexivity.
  - destruct (x' =? x) eqn:Ex; destruct (y' =? y) eqn:Ey; cbn [andb];
      try exact IH.
    exfalso. apply Hne, Ht. lia.
Qed.

(** The pixel at an on-screen position after a replay. *)
Lemma pixel_at_replay s log x y :
  screen_wf s -> 0 <= x < width s -> 0 <= y < height s ->
  pixel_at (replay s log) x y
  = match find_call log x y with
    | Some c => Some c
    | None => pixel_at s x y
    end.
Proof.
  intros Hwf Hx Hy. unfold pixel_at. rewrite replay_width.
  pose proof (index_in_range s x y Hwf Hx Hy) as Hi.
  rewrite lookup_replay.
  - rewrite latest_find_call by assumption. reflexivity.
  - destruct Hwf as (_ & _ & _ & ->). lia.
Qed.

(** A log without a call for row [y] leaves that row alone. *)
Lemma find_call_other_row log x y :
  Forall (fun c : Call => snd (fst c) <> y) log -> find_call log x y = None.
Proof.
  induction 1 as [|[[x' y'] c] log Hc _ IH]; [reflexivity|].
  cbn in *. destruct (y' =? y) eqn:E; [lia|].
  rewrite andb_false_r. exact IH.
Qed.

End Replay.

(** ** Conversions *)

Lemma int_of_float_range f : int32 (int_of_float f).
Proof.
  unfold int_of_float, int32.
  destruct (ftrunc f) as [z|]; [|unfold INT_MIN, INT_MAX; lia].
  destruct (INT_MIN <=? z) eqn:E1; destruct (z <=? INT_MAX) eqn:E2; cbn [andb];
    unfold INT_MIN, INT_MAX in *; lia.
Qed.

(** ** Rounding to binary32 *)

(** [SpecFloat] computes each result by shifting the exact mantissa right
    until it fits the precision. The lemmas below follow that shift to
    show that the mantissa of every result is below 2^24, which is what
    keeps [(int)f] away from [INT_MAX]. *)
Section Rounding.

Lemma digits2_pos_size m : digits2_pos m = Pos.size m.
Proof. induction m as [m IH|m IH|]; cbn; congruence. Qed.

Lemma digits2_upper m : 0 <= m -> m < 2 ^ Zdigits2 m.
Proof.
  intros Hm. destruct m as [|p|p]; [reflexivity| |lia].
  cbn [Zdigits2]. rewrite digits2_pos_size.
  pose proof (Pos.size_gt p) as H.
  apply Pos2Z.pos_lt_pos in H. rewrite Pos2Z.inj_pow in H. exact H.
Qed.

Lemma shr_1_div2 mrs : 0 <= shr_m mrs -> shr_m (shr_1 mrs) = shr_m mrs / 2.
Proof.
  destruct mrs as [m r s]. cbn [shr_m]. intros Hm.
  rewrite <- Z.div2_div.
  destruct m as [|[p|p|]|p]; cbn; try reflexivity; lia.
Qed.

Lemma pow2_xO p : 2 ^ Z.pos p~0 = 2 ^ Z.pos p * 2 ^ Z.pos p.
Proof. rewrite <- Z.pow_add_r by lia. f_equal. lia. Qed.

Lemma pow2_xI p : 2 ^ Z.pos p~1 = 2 * (2 ^ Z.pos p * 2 ^ Z.pos p).
Proof.
  rewrite <- Z.pow_add_r, <- Z.pow_succ_r by lia. f_equal. lia.
Qed.

Lemma iter_shr_1 p mrs :
  0 <= shr_m mrs ->
  shr_m (SpecFloat.iter_pos shr_1 p mrs) = shr_m mrs / 2 ^ Z.pos p.
Proof.
  revert mrs.
  induction p as [p IH|p IH|]; intros mrs Hm; cbn [SpecFloat.iter_pos].
  - assert (H1 : 0 <= shr_m (shr_1 mrs))
      by (rewrite shr_1_div2 by assumption; apply Z.div_pos; lia).
    assert (H2 : 0 <= shr_m (SpecFloat.iter_pos shr_1 p (shr_1 mrs)))
      by (rewrite IH by assumption; apply Z.div_pos; lia).
    rewrite IH, IH, shr_1_div2 by assumption.
    rewrite !Z.div_div by lia. rewrite pow2_xI. f_equal; ring.
  - assert (H2 : 0 <= shr_m (SpecFloat.iter_pos shr_1 p mrs))
      by (rewrite IH by assumption; apply Z.div_pos; lia).
    rewrite IH, IH by assumption.
    rewrite !Z.div_div by lia. rewrite pow2_xO. reflexivity.
  - rewrite shr_1_div2 by assumption. reflexivity.
Qed.

Lemma shr_record_of_loc_m m l : shr_m (shr_record_of_loc m l) = m.
Proof. destruct l as [|[]]; reflexivity. Qed.

Lemma shr_fexp_bound m e l :
  0 <= m -> 0 <= shr_m (fst (shr_fexp prec emax m e l)) < 2 ^ prec.
Proof.
  intros Hm. unfold shr_fexp, shr.
  pose proof (digits2_upper m Hm) as Hd.
  set (d := Zdigits2 m) in *.
  assert (Hd0 : 0 <= d) by (subst d; destruct m; cbn; lia).
  assert (Hn : d - prec <= fexp prec emax (d + e) - e)
    by (unfold fexp; lia).
  destruct (fexp prec emax (d + e) - e) as [|n|n] eqn:En; cbn [fst].
  - rewrite shr_record_of_loc_m. split; [assumption|].
    apply Z.lt_le_trans with (1 := Hd).
    apply Z.pow_le_mono_r; unfold prec in *; lia.
  - rewrite iter_shr_1 by (rewrite shr_record_of_loc_m; assumption).
    rewrite shr_record_of_loc_m. split; [apply Z.div_pos; lia|].
    apply Z.div_lt_upper_bound; [lia|].
    rewrite <- Z.pow_add_r by (unfold prec; lia).
    apply Z.lt_le_trans with (1 := Hd).
    apply Z.pow_le_mono_r; unfold prec in *; lia.
  - rewrite shr_record_of_loc_m. split; [assumption|].
    apply Z.lt_le_trans with (1 := Hd).
    apply Z.pow_le_mono_r; unfold prec in *; lia.
Qed.

Lemma round_nearest_even_nonneg m l : 0 <= m -> 0 <= round_nearest_even m l.
Proof.
  intros Hm. destruct l as [|[]]; cbn; try lia.
  destruct (Z.even m); lia.
Qed.

Lemma binary_round_aux_short sx mx ex lx :
  0 <= mx -> short_mantissa (binary_round_aux prec emax sx mx ex lx).
Proof.
  intros Hm. unfold binary_round_aux.
  pose proof (shr_fexp_bound mx ex lx Hm) as H1.
  destruct (shr_fexp prec emax mx ex lx) as [mrs' e']. cbn [fst] in H1.
  pose proof (shr_fexp_bound
                (round_nearest_even (shr_m mrs') (loc_of_shr_record mrs'))
                e' loc_Exact
                (round_nearest_even_nonneg _ _ (proj1 H1))) as H2.
  destruct (shr_fexp prec emax _ e' loc_Exact) as [mrs'' e'']. cbn [fst] in H2.
  destruct (shr_m mrs'') as [|m|m]; cbn; try exact I.
  destruct (e'' <=? emax - prec); cbn; [apply H2 | exact I].
Qed.

Lemma binary_round_short sx mx ex :
  short_mantissa (binary_round prec emax sx mx ex).
Proof.
  unfold binary_round. destruct (shl_align _ _ _) as [mz ez].
  apply binary_round_aux_short. lia.
Qed.

Lemma float_of_int_short z : short_mantissa (float_of_int z).
Proof.
  unfold float_of_int, binary_normalize.
  destruct z; [exact I | apply binary_round_short ..].
Qed.

Lemma fmul_short a b : short_mantissa (fmul a b).
Proof.
  unfold fmul, SFmul.
  destruct a as [sa|sa| |sa ma ea], b as [sb|sb| |sb mb eb]; try exact I.
  apply binary_round_aux_short. lia.
Qed.

Lemma fadd_short a b :
  short_mantissa a -> short_mantissa b -> short_mantissa (fadd a b).
Proof.
  intros Ha Hb. unfold fadd, SFadd.
  destruct a as [sa|sa| |sa ma ea], b as [sb|sb| |sb mb eb];
    try exact I; try assumption.
  - destruct sa, sb; exact I.
  - destruct sa, sb; exact I.
  - unfold binary_normalize.
    destruct (_ + _); [exact I | apply binary_round_short ..].
Qed.

Lemma fmin_short a b :
  short_mantissa a -> short_mantissa b -> short_mantissa (fmin a b).
Proof. intros Ha Hb. unfold fmin. destruct (flt b a); assumption. Qed.

Lemma fmax_short a b :
  short_mantissa a -> short_mantissa b -> short_mantissa (fmax a b).
Proof. intros Ha Hb. unfold fmax. destruct (flt a b); assumption. Qed.

(** No binary32 value converts to [INT_MAX]: between 2^30 and 2^31 the
    floats are 128 apart. *)
Lemma int_of_float_below_max f :
  short_mantissa f -> int_of_float f < INT_MAX.
Proof.
  intros Hf. pose proof (int_of_float_range f) as [_ Hle].
  destruct (Z.eq_dec (int_of_float f) INT_MAX) as [Heq|]; [exfalso|lia].
  unfold int_of_float in Heq.
  destruct f as [s|s| |s m e]; cbn [ftrunc] in Heq;
    [discriminate Heq ..|].
  cbn [short_mantissa] in Hf. unfold prec in Hf.
  assert (H24 : 2 ^ 24 = 16777216) by reflexivity.
  match type of Heq with
  | (if ?c then ?z else _) = _ =>
      destruct c; [|discriminate Heq];
      assert (Hz : z = INT_MAX) by exact Heq; clear Heq
  end.
  unfold INT_MAX in Hz.
  assert (Hpow : forall p, 1 <= 2 ^ Z.pos p)
    by (intros p; change 1 with (2 ^ 0); apply Z.pow_le_mono_r; lia).
  destruct s.
  - assert (0 <= match e with
                 | Z.neg p => Z.pos m / 2 ^ Z.pos p
                 | _ => Z.pos m * 2 ^ e
                 end); [|lia].
    destruct e as [|p|p].
    + lia.
    + specialize (Hpow p). nia.
    + apply Z.div_pos; [lia | specialize (Hpow p); lia].
  - destruct e as [|p|p].
    + rewrite Z.pow_0_r in Hz. lia.
    + replace (Z.pos p) with (1 + (Z.pos p - 1)) in Hz by lia.
      rewrite Z.pow_add_r, Z.pow_1_r in Hz by lia. lia.
    + assert (Z.pos m / 2 ^ Z.pos p <= Z.pos m); [|lia].
      specialize (Hpow p).
      apply Z.div_le_upper_bound; [lia | nia].
Qed.

End Rounding.

(** ** Exponents *)

(** The same shifts bound the exponent of a result, which shows that the
    conversion of an [int] and the quotient of two such floats are never
    an infinity or a NaN. *)
Section Exponents.

Lemma digits2_nonneg m : 0 <= Zdigits2 m.
Proof. destruct m; cbn; lia. Qed.

Lemma digits2_lower m : 0 < m -> 2 ^ (Zdigits2 m - 1) <= m.
Proof.
  intros Hm. destruct m as [|p|p]; try lia.
  cbn [Zdigits2]. rewrite digits2_pos_size.
  pose proof (Pos.size_le p) as H.
  apply Pos2Z.pos_le_pos in H. rewrite Pos2Z.inj_pow in H.
  pose proof (Pos2Z.inj_xO p) as H2.
  replace (Z.pos (Pos.size p)) with (1 + (Z.pos (Pos.size p) - 1)) in H by lia.
  rewrite Z.pow_add_r, Z.pow_1_r in H by lia. lia.
Qed.

Lemma digits2_le m k : 0 <= m -> 0 <= k -> m < 2 ^ k -> Zdigits2 m <= k.
Proof.
  intros Hm Hk Hlt.
  destruct (Z.eq_dec m 0) as [->|Hne]; [cbn; lia|].
  pose proof (digits2_lower m ltac:(lia)) as Hlow.
  pose proof (digits2_nonneg m).
  destruct (Z_le_gt_dec (Zdigits2 m) k) as [|Hgt]; [assumption|exfalso].
  assert (2 ^ k <= 2 ^ (Zdigits2 m - 1)) by (apply Z.pow_le_mono_r; lia).
  lia.
Qed.

Lemma digits2_ge m k : 0 <= k -> 2 ^ k <= m -> k < Zdigits2 m.
Proof.
  intros Hk Hle.
  assert (0 < 2 ^ k) by (apply Z.pow_pos_nonneg; lia).
  pose proof (digits2_upper m ltac:(lia)) as Hup.
  pose proof (digits2_nonneg m).
  destruct (Z_lt_ge_dec k (Zdigits2 m)) as [|Hge]; [assumption|exfalso].
  assert (2 ^ Zdigits2 m <= 2 ^ k) by (apply Z.pow_le_mono_r; lia).
  lia.
Qed.

(** One shift to the precision: the exponent it reaches and the bounds of
    the mantissa it leaves. *)
Lemma shr_fexp_spec m e l :
  0 <= m ->
  snd (shr_fexp prec emax m e l)
  = Z.max e (fexp prec emax (Zdigits2 m + e)) /\
  0 <= shr_m (fst (shr_fexp prec emax m e l)) < 2 ^ prec /\
  (2 ^ 23 <= m -> emin prec emax <= e ->
   2 ^ 23 <= shr_m (fst (shr_fexp prec emax m e l))).
Proof.
  intros Hm. split; [|split; [apply shr_fexp_bound, Hm|]].
  - unfold shr_fexp, shr.
    destruct (fexp prec emax (Zdigits2 m + e) - e) eqn:En; cbn [snd]; lia.
  - intros Hlow He. unfold shr_fexp, shr.
    pose proof (digits2_ge m 23 ltac:(lia) Hlow) as Hd.
    pose proof (digits2_lower m ltac:(lia)) as Hdl.
    assert (Hf : fexp prec emax (Zdigits2 m + e) - e = Zdigits2 m - 24)
      by (unfold fexp, prec in *; lia).
    rewrite Hf.
    destruct (Zdigits2 m - 24) as [|n|n] eqn:En; cbn [fst].
    + rewrite shr_record_of_loc_m. exact Hlow.
    + rewrite iter_shr_1 by (rewrite shr_record_of_loc_m; assumption).
      rewrite shr_record_of_loc_m.
      apply Z.div_le_lower_bound; [apply Z.pow_pos_nonneg; lia|].
      rewrite <- Z.pow_add_r by lia.
      replace (Z.pos n + 23) with (Zdigits2 m - 1) by lia. exact Hdl.
    + rewrite shr_record_of_loc_m. exact Hlow.
Qed.

Lemma round_nearest_even_bounds m l :
  m <= round_nearest_even m l <= m + 1.
Proof. destruct l as [|[]]; cbn; try lia. destruct (Z.even m); lia. Qed.

(** The outcome of a rounding: never a NaN, an infinity only beyond the
    largest exponent, and otherwise an exponent within one of the
    exponent of the first shift. *)
Lemma binary_round_aux_spec sx mx ex lx :
  0 <= mx ->
  let top :=
    Z.max (Z.max ex (Zdigits2 mx + ex - prec)) (emin prec emax) + 1 in
  match binary_round_aux prec emax sx mx ex lx with
  | S754_zero _ => ~ (2 ^ 23 <= mx /\ emin prec emax <= ex)
  | S754_finite _ m e => Z.pos m < 2 ^ prec /\ ex <= e <= top
  | S754_infinity _ => emax - prec < top
  | S754_nan => False
  end.
Proof.
  intros Hm top. unfold binary_round_aux.
  destruct (shr_fexp_spec mx ex lx Hm) as (He1 & Hb1 & Hn1).
  destruct (shr_fexp prec emax mx ex lx) as [mrs' e'].
  cbn [fst snd] in He1, Hb1, Hn1.
  pose proof (round_nearest_even_bounds (shr_m mrs') (loc_of_shr_record mrs'))
    as Hr.
  set (m1 := round_nearest_even (shr_m mrs') (loc_of_shr_record mrs')) in *.
  destruct (shr_fexp_spec m1 e' loc_Exact ltac:(lia)) as (He2 & Hb2 & Hn2).
  destruct (shr_fexp prec emax m1 e' loc_Exact) as [mrs'' e''].
  cbn [fst snd] in He2, Hb2, Hn2.
  assert (Hd1 : Zdigits2 m1 <= 25).
  { apply digits2_le; [lia | lia |].
    unfold prec in Hb1. change (2 ^ 25) with (2 * 2 ^ 24). lia. }
  pose proof (digits2_nonneg m1).
  assert (Htop : ex <= e'' <= top).
  { subst top. fexp_arith. }
  destruct (shr_m mrs'') as [|m|m] eqn:Em.
  - intros [Hlow Hex].
    assert (emin prec emax <= e') by (unfold fexp in He1; lia).
    specialize (Hn1 Hlow Hex). specialize (Hn2 ltac:(lia) ltac:(lia)).
    change (2 ^ 23) with 8388608 in Hn2. lia.
  - destruct (e'' <=? emax - prec) eqn:Ele.
    + split; [apply Hb2 | exact Htop].
    + lia.
  - lia.
Qed.

Lemma pos_iter_xO (m d : positive) :
  Z.pos (Pos.iter xO m d) = Z.pos m * 2 ^ Z.pos d.
Proof.
  revert m. induction d as [d IH|d IH|]; intros m; cbn [Pos.iter].
  - rewrite Pos2Z.inj_xO, !IH, pow2_xI. ring.
  - rewrite !IH, pow2_xO. ring.
  - rewrite Pos2Z.inj_xO. lia.
Qed.

(** The conversion of an [int]. *)
Lemma float_of_int_spec z :
  int32 z ->
  int_float (float_of_int z) /\
  (z <> 0 -> exists s m e, float_of_int z = S754_finite s m e).
Proof.
  intros Hz. unfold float_of_int, binary_normalize.
  destruct z as [|p|p]; [split; [exact I | congruence] | |].
  all: unfold binary_round.
  all: pose proof (digits2_upper (Z.pos p) ltac:(lia)) as Hup.
  all: pose proof (digits2_lower (Z.pos p) ltac:(lia)) as Hlow.
  all: cbn [Zdigits2] in Hup, Hlow.
  all: assert (Hd32 : Z.pos (digits2_pos p) <= 32)
         by (apply (digits2_le (Z.pos p) 32); [lia | lia |];
             unfold int32, INT_MIN, INT_MAX in Hz;
             change (2 ^ 32) with 4294967296; lia).
  all: set (d := Z.pos (digits2_pos p)) in *.
  all: assert (Hfexp : fexp prec emax (d + 0) = d - 24)
         by (fexp_arith).
  all: rewrite Hfexp; unfold shl_align.
  all: destruct (d - 24 - 0) as [|k|k] eqn:Ek.
  all: match goal with
       | |- context [binary_round_aux prec emax ?s (Z.pos ?mz) ?ez loc_Exact] =>
           pose proof (binary_round_aux_spec s (Z.pos mz) ez loc_Exact
                         ltac:(lia)) as Hspec;
           cbv zeta in Hspec;
           assert (Hmz : 2 ^ 23 <= Z.pos mz /\ emin prec emax <= ez /\
                         Zdigits2 (Z.pos mz) + ez <= 32 /\ -23 <= ez <= 0);
           [|destruct (binary_round_aux prec emax s (Z.pos mz) ez loc_Exact)
               as [s'|s'| |s' m' e'];
             [exfalso; apply Hspec; tauto
             |exfalso; fexp_arith
             |contradiction
             |split; [cbn; fexp_arith | eauto]]]
       end.
  all: try (split; [|split; [fexp_arith|split; [cbn [Zdigits2]; lia | lia]]]).
  all: try (apply Z.le_trans with (2 ^ (d - 1)); [apply Z.pow_le_mono_r; lia | exact Hlow]).
  all: rewrite pos_iter_xO.
  all: assert (Hk : Z.pos k = 24 - d) by lia.
  all: assert (Hpk : 2 ^ (d - 1) * 2 ^ Z.pos k = 2 ^ 23)
         by (rewrite <- Z.pow_add_r by lia; f_equal; lia).
  all: assert (Hpk' : 2 ^ d * 2 ^ Z.pos k = 2 ^ 24)
         by (rewrite <- Z.pow_add_r by lia; f_equal; lia).
  all: assert (0 < 2 ^ Z.pos k) by (apply Z.pow_pos_nonneg; lia).
  all: split; [nia|].
  all: split; [fexp_arith|].
  all: split; [|lia].
  all: assert (Zdigits2 (Z.pos p * 2 ^ Z.pos k) <= 24)
         by (apply digits2_le; [nia | lia | nia]).
  all: lia.
Qed.

(** The quotient of two converted [int]s is a zero or a finite float. *)
Lemma fdiv_finite x y :
  int_float x ->
  (exists s m e, y = S754_finite s m e /\ int_float y) ->
  finite_float (fdiv x y).
Proof.
  intros Hx (sy & my & ey & -> & Hmy & Hey).
  destruct x as [sx|sx| |sx mx ex]; try contradiction; [exact I|].
  destruct Hx as [Hmx Hex].
  unfold fdiv, SFdiv, SFdiv_core_binary.
  pose proof (digits2_upper (Z.pos mx) ltac:(lia)) as Hdx.
  pose proof (digits2_le (Z.pos mx) 24 ltac:(lia) ltac:(lia) Hmx) as Hdx'.
  set (d1 := Zdigits2 (Z.pos mx)) in *. set (d2 := Zdigits2 (Z.pos my)) in *.
  set (e' := Z.min (fexp prec emax (d1 + ex - (d2 + ey))) (ex - ey)).
  assert (He' : e' <= ex - ey) by (subst e'; lia).
  set (m' := match ex - ey - e' with
             | 0 => Z.pos mx
             | Z.pos _ => Z.shiftl (Z.pos mx) (ex - ey - e')
             | Z.neg _ => 0
             end).
  assert (Hm' : 0 <= m' < 2 ^ (d1 + (ex - ey - e'))).
  { subst m'. destruct (ex - ey - e') as [|s|s] eqn:Es.
    - rewrite Z.add_0_r. lia.
    - rewrite Z.shiftl_mul_pow2 by lia. rewrite Z.pow_add_r by (subst d1; cbn; lia).
      assert (0 < 2 ^ Z.pos s) by (apply Z.pow_pos_nonneg; lia). nia.
    - lia. }
  pose proof (Z_div_mod m' (Z.pos my) ltac:(lia)) as Hdiv.
  destruct (Z.div_eucl m' (Z.pos my)) as [q r].
  destruct Hdiv as [Hq Hr].
  assert (Hq0 : 0 <= q <= m') by nia.
  pose proof (binary_round_aux_spec (xorb sx sy) q e'
                (new_location (Z.pos my) r) ltac:(lia)) as Hspec.
  cbv zeta in Hspec.
  assert (Hdq : Zdigits2 q <= d1 + (ex - ey - e')).
  { apply digits2_le; [lia | subst d1; cbn; lia | lia]. }
  destruct (binary_round_aux prec emax (xorb sx sy) q e'
              (new_location (Z.pos my) r)); try exact I.
  - fexp_arith.
  - contradiction.
Qed.

End Exponents.

(** ** Exact arithmetic on small integers *)

(** Integers below 2^24 in magnitude are binary32 values, and their sums
    and their products by 1.0 are computed without rounding as long as
    the result stays below 2^24. *)
Section ExactIntegers.

Lemma digits2_unique m n : 2 ^ (n - 1) <= m < 2 ^ n -> 1 <= n -> Zdigits2 m = n.
Proof.
  intros [Hlo Hhi] Hn.
  assert (0 < 2 ^ (n - 1)) by (apply Z.pow_pos_nonneg; lia).
  pose proof (digits2_le m n ltac:(lia) ltac:(lia) Hhi).
  pose proof (digits2_ge m (n - 1) ltac:(lia) Hlo). lia.
Qed.

Lemma shr_1_even m :
  0 <= m ->
  shr_1 (Build_shr_record (m * 2) false false) = Build_shr_record m false false.
Proof.
  intros Hm. destruct m as [|p|p]; [reflexivity | | lia].
  rewrite Z.mul_comm. reflexivity.
Qed.

Lemma iter_shr_1_exact p m :
  0 <= m ->
  SpecFloat.iter_pos shr_1 p (Build_shr_record (m * 2 ^ Z.pos p) false false)
  = Build_shr_record m false false.
Proof.
  revert m.
  induction p as [p IH|p IH|]; intros m Hm; cbn [SpecFloat.iter_pos].
  - rewrite pow2_xI.
    replace (m * (2 * (2 ^ Z.pos p * 2 ^ Z.pos p)))
      with (m * 2 ^ Z.pos p * 2 ^ Z.pos p * 2) by ring.
    assert (0 < 2 ^ Z.pos p) by (apply Z.pow_pos_nonneg; lia).
    rewrite shr_1_even by nia. rewrite IH by nia. apply IH, Hm.
  - rewrite pow2_xO.
    replace (m * (2 ^ Z.pos p * 2 ^ Z.pos p))
      with (m * 2 ^ Z.pos p * 2 ^ Z.pos p) by ring.
    assert (0 < 2 ^ Z.pos p) by (apply Z.pow_pos_nonneg; lia).
    rewrite IH by nia. apply IH, Hm.
  - change (2 ^ 1) with 2. apply shr_1_even, Hm.
Qed.

(** A 24-bit mantissa followed by [n] zero bits rounds to itself. *)
Lemma binary_round_aux_exact sx (m0 : positive) n e :
  2 ^ 23 <= Z.pos m0 < 2 ^ 24 -> 0 <= n ->
  emin prec emax <= e -> e + n <= emax - prec ->
  binary_round_aux prec emax sx (Z.pos m0 * 2 ^ n) e loc_Exact
  = S754_finite sx m0 (e + n).
Proof.
  intros Hm Hn He Htop.
  assert (Hpow : 0 < 2 ^ n) by (apply Z.pow_pos_nonneg; lia).
  assert (Hd : Zdigits2 (Z.pos m0 * 2 ^ n) = 24 + n).
  { apply digits2_unique; [|lia].
    replace (24 + n - 1) with (23 + n) by lia.
    rewrite !Z.pow_add_r by lia. nia. }
  assert (Hd0 : Zdigits2 (Z.pos m0) = 24)
    by (apply digits2_unique; [exact Hm | lia]).
  unfold binary_round_aux.
  assert (H1 : shr_fexp prec emax (Z.pos m0 * 2 ^ n) e loc_Exact
               = (Build_shr_record (Z.pos m0) false false, e + n)).
  { unfold shr_fexp. rewrite Hd.
    replace (fexp prec emax (24 + n + e) - e) with n
      by (unfold fexp, prec in *; lia).
    unfold shr, shr_record_of_loc.
    destruct n as [|p|p]; [|rewrite iter_shr_1_exact by lia; reflexivity | lia].
    rewrite Z.pow_0_r, Z.mul_1_r, Z.add_0_r. reflexivity. }
  rewrite H1. cbn [shr_m loc_of_shr_record round_nearest_even].
  assert (H2 : shr_fexp prec emax (Z.pos m0) (e + n) loc_Exact
               = (Build_shr_record (Z.pos m0) false false, e + n)).
  { unfold shr_fexp. rewrite Hd0.
    replace (fexp prec emax (24 + (e + n)) - (e + n)) with 0
      by (unfold fexp, prec in *; lia).
    reflexivity. }
  rewrite H2. cbn [shr_m].
  destruct (e + n <=? emax - prec) eqn:E; [reflexivity | lia].
Qed.

(** Rounding the exact mantissa [v * 2^k] at exponent [-k] gives the
    normalised form of [v]. *)
Lemma binary_round_exact sx (M : positive) v k :
  0 < v < 2 ^ 24 -> 0 <= k <= 64 -> Z.pos M = v * 2 ^ k ->
  holds_int (binary_round prec emax sx M (- k)) (if sx then - v else v).
Proof.
  intros Hv Hk HM. unfold binary_round.
  pose proof (digits2_upper v ltac:(lia)) as Hup.
  pose proof (digits2_lower v ltac:(lia)) as Hlow.
  pose proof (digits2_le v 24 ltac:(lia) ltac:(lia) ltac:(lia)) as Hd24.
  assert (Hd1 : 1 <= Zdigits2 v) by (destruct v; cbn; lia).
  set (d := Zdigits2 v) in *.
  assert (Hpk : 0 < 2 ^ k) by (apply Z.pow_pos_nonneg; lia).
  assert (HdM : Z.pos (digits2_pos M) = d + k).
  { change (Z.pos (digits2_pos M)) with (Zdigits2 (Z.pos M)). rewrite HM.
    apply digits2_unique; [|lia].
    replace (d + k - 1) with (d - 1 + k) by lia.
    rewrite !Z.pow_add_r by lia. nia. }
  rewrite HdM.
  replace (fexp prec emax (d + k + - k)) with (d - 24)
    by (fexp_arith).
  assert (Habs : Z.abs (if sx then - v else v) = v) by (destruct sx; lia).
  assert (Hsign : sx = ((if sx then - v else v) <? 0))
    by (destruct sx; symmetry; [apply Z.ltb_lt | apply Z.ltb_ge]; lia).
  (* the normalised mantissa *)
  assert (Hnorm : 2 ^ 23 <= v * 2 ^ (24 - d) < 2 ^ 24).
  { assert (E23 : 2 ^ (d - 1) * 2 ^ (24 - d) = 2 ^ 23)
      by (rewrite <- Z.pow_add_r by lia; f_equal; lia).
    assert (E24 : 2 ^ d * 2 ^ (24 - d) = 2 ^ 24)
      by (rewrite <- Z.pow_add_r by lia; f_equal; lia).
    assert (0 < 2 ^ (24 - d)) by (apply Z.pow_pos_nonneg; lia). nia. }
  unfold shl_align.
  destruct (d - 24 - - k) as [|q|q] eqn:Eq.
  - (* the mantissa has 24 bits already *)
    replace (Z.pos M) with (Z.pos M * 2 ^ 0) by (rewrite Z.pow_0_r; lia).
    rewrite binary_round_aux_exact;
      [|replace (24 - d) with k in Hnorm by lia; lia | lia
       |fexp_arith | fexp_arith].
    cbn [holds_int]. rewrite Habs.
    replace (- (- k + 0)) with k by lia.
    split; [lia|]. split; [replace (24 - d) with k in Hnorm by lia; lia|].
    split; [exact HM | exact Hsign].
  - (* more than 24 bits: the low ones are zero *)
    assert (Hm0 : exists m0 : positive, Z.pos m0 = v * 2 ^ (24 - d)).
    { exists (Z.to_pos (v * 2 ^ (24 - d))). rewrite Z2Pos.id; lia. }
    destruct Hm0 as [m0 Hm0].
    assert (HM' : Z.pos M = Z.pos m0 * 2 ^ Z.pos q).
    { rewrite HM, Hm0. rewrite <- Z.mul_assoc, <- Z.pow_add_r by lia.
      f_equal. f_equal. lia. }
    rewrite HM'.
    rewrite binary_round_aux_exact;
      [|lia | lia | fexp_arith
       |fexp_arith].
    cbn [holds_int]. rewrite Habs, Hm0.
    replace (- (- k + Z.pos q)) with (24 - d) by lia.
    split; [lia|]. split; [lia|]. split; [reflexivity | exact Hsign].
  - (* fewer than 24 bits: shift left *)
    assert (HMq : Z.pos (Pos.iter xO M q) = v * 2 ^ (24 - d)).
    { rewrite pos_iter_xO, HM. rewrite <- Z.mul_assoc, <- Z.pow_add_r by lia.
      f_equal. f_equal. lia. }
    replace (Z.pos (Pos.iter xO M q))
      with (Z.pos (Pos.iter xO M q) * 2 ^ 0) by (rewrite Z.pow_0_r; lia).
    rewrite binary_round_aux_exact;
      [|lia | lia | fexp_arith
       |fexp_arith].
    cbn [holds_int]. rewrite Habs, HMq.
    replace (- (d - 24 + 0)) with (24 - d) by lia.
    split; [lia|]. split; [lia|]. split; [reflexivity | exact Hsign].
Qed.

Lemma binary_normalize_exact z k :
  Z.abs z < 2 ^ 24 -> 0 <= k <= 64 ->
  holds_int (binary_normalize prec emax (z * 2 ^ k) (- k) false) z.
Proof.
  intros Hz Hk.
  assert (Hpk : 0 < 2 ^ k) by (apply Z.pow_pos_nonneg; lia).
  unfold binary_normalize.
  destruct (z * 2 ^ k) as [|M|M] eqn:EM.
  - cbn. nia.
  - apply (binary_round_exact false M z k); [nia | lia | lia].
  - pose proof (binary_round_exact true M (- z) k) as H.
    cbv iota in H. rewrite Z.opp_involutive in H.
    apply H; [nia | lia | lia].
Qed.

(** The conversion of a small [int] is exact. *)
Lemma float_of_int_exact z : Z.abs z < 2 ^ 24 -> holds_int (float_of_int z) z.
Proof.
  intros Hz. unfold float_of_int.
  replace z with (z * 2 ^ 0) at 1 by (rewrite Z.pow_0_r; lia).
  apply (binary_normalize_exact z 0); [exact Hz | lia].
Qed.

(** The signed mantissa of a normalised form, at a lower exponent. *)
Lemma holds_int_aligned s m e z ez :
  holds_int (S754_finite s m e) z -> ez <= e -> -23 <= ez ->
  cond_Zopp s (Z.pos (fst (shl_align m e ez))) = z * 2 ^ (- ez).
Proof.
  intros (He & Hm & Hval & Hs) Hle Hez. unfold shl_align.
  assert (Hc : forall P, cond_Zopp s (Z.abs z * P) = z * P).
  { intros P. subst s. unfold cond_Zopp.
    destruct (z <? 0) eqn:E;
      [rewrite Z.abs_neq by lia | rewrite Z.abs_eq by lia]; ring. }
  destruct (ez - e) as [|q|q] eqn:Eq; cbn [fst].
  - replace ez with e by lia. rewrite Hval. apply Hc.
  - lia.
  - rewrite pos_iter_xO, Hval.
    rewrite <- Z.mul_assoc, <- Z.pow_add_r by lia.
    replace (- e + Z.pos q) with (- ez) by lia. apply Hc.
Qed.

(** The sum of two small integers is exact. *)
Lemma fadd_exact x y a b :
  holds_int x a -> holds_int y b -> Z.abs (a + b) < 2 ^ 24 ->
  holds_int (fadd x y) (a + b).
Proof.
  intros Hx Hy Hab. unfold fadd, SFadd.
  destruct x as [sx|sx| |sx mx ex], y as [sy|sy| |sy my ey];
    try contradiction.
  - cbn in Hx, Hy. subst a b. destruct sx, sy; reflexivity.
  - cbn in Hx. subst a. exact Hy.
  - cbn in Hy. subst b. rewrite Z.add_0_r. exact Hx.
  - set (ez := Z.min ex ey).
    assert (Hez : -23 <= ez <= 0)
      by (destruct Hx as (? & _), Hy as (? & _); subst ez; lia).
    rewrite (holds_int_aligned sx mx ex a ez Hx) by (subst ez; lia).
    rewrite (holds_int_aligned sy my ey b ez Hy) by (subst ez; lia).
    rewrite <- Z.mul_add_distr_r.
    replace ez with (- (- ez)) at 2 by lia.
    apply binary_normalize_exact; [exact Hab | lia].
Qed.

(** The product of a small integer by 1.0 is exact. *)
Lemma fmul_one_exact x a : holds_int x a -> holds_int (fmul x fone) a.
Proof.
  intros Hx. unfold fmul, fone, SFmul.
  destruct x as [sx|sx| |sx mx ex]; try contradiction; [exact Hx|].
  destruct Hx as (He & Hm & Hval & Hs).
  rewrite xorb_false_r.
  replace (Z.pos (mx * 8388608)) with (Z.pos mx * 2 ^ 23) by reflexivity.
  rewrite binary_round_aux_exact;
    [|exact Hm | lia | fexp_arith
     |fexp_arith].
  replace (ex + -23 + 23) with ex by lia.
  cbn [holds_int]. tauto.
Qed.

(** The product of a small integer by 0.0 is a zero. *)
Lemma fmul_zero_exact x a : holds_int x a -> holds_int (fmul x fzero) 0.
Proof.
  intros Hx. unfold fmul, fzero, SFmul.
  destruct x as [sx|sx| |sx mx ex]; try contradiction; reflexivity.
Qed.

(** The conversion back to [int] and to [uint8_t]. *)
Lemma int_of_float_exact x z :
  holds_int x z -> int_of_float x = z.
Proof.
  intros Hx. unfold int_of_float.
  destruct x as [sx|sx| |sx mx ex]; try contradiction.
  - cbn in Hx. subst z. reflexivity.
  - destruct Hx as (He & Hm & Hval & Hs). cbn [ftrunc].
    assert (Hpow : 0 < 2 ^ (- ex)) by (apply Z.pow_pos_nonneg; lia).
    assert (Ha : match ex with
                 | Z.neg p => Z.pos mx / 2 ^ Z.pos p
                 | _ => Z.pos mx * 2 ^ ex
                 end = Z.abs z).
    { destruct ex as [|p|p]; [|lia|].
      - rewrite Hval. change (2 ^ (- 0)) with 1. change (2 ^ 0) with 1. lia.
      - rewrite Hval. change (- Z.neg p) with (Z.pos p).
        apply Z.div_mul. change (- Z.neg p) with (Z.pos p) in Hpow. lia. }
    rewrite Ha.
    assert (Hz : Z.abs z < 2 ^ 24) by nia.
    change (2 ^ 24) with 16777216 in Hz.
    assert (Hsz : (if sx then - Z.abs z else Z.abs z) = z)
      by (subst sx; destruct (z <? 0) eqn:E; lia).
    rewrite Hsz.
    destruct (INT_MIN <=? z) eqn:E1; destruct (z <=? INT_MAX) eqn:E2;
      cbn [andb]; unfold INT_MIN, INT_MAX in *; lia.
Qed.

Lemma uint8_of_float_exact x z :
  holds_int x z -> 0 <= z < 256 -> uint8_of_float x = z.
Proof.
  intros Hx Hz. unfold uint8_of_float, to_u8.
  rewrite (int_of_float_exact x z Hx). apply Z.mod_small, Hz.
Qed.

End ExactIntegers.

(** Both ends of the interpolation of one channel. *)
Lemma interpolateChannel_endpoints c1 c2 :
  0 <= c1 < 256 -> 0 <= c2 < 256 ->
  interpolateChannel c1 c2 fzero = c1 /\ interpolateChannel c1 c2 fone = c2.
Proof.
  intros H1 H2. unfold interpolateChannel.
  rewrite sub32_id by int32_arith.
  assert (Hc1 : holds_int (float_of_int c1) c1)
    by (apply float_of_int_exact; change (2 ^ 24) with 16777216; lia).
  assert (Hd : holds_int (float_of_int (c2 - c1)) (c2 - c1))
    by (apply float_of_int_exact; change (2 ^ 24) with 16777216; lia).
  split.
  - apply uint8_of_float_exact; [|exact H1].
    pose proof (fadd_exact _ _ c1 0 Hc1 (fmul_zero_exact _ _ Hd)) as H.
    rewrite Z.add_0_r in H. apply H. change (2 ^ 24) with 16777216. lia.
  - apply uint8_of_float_exact; [|exact H2].
    pose proof (fadd_exact _ _ c1 (c2 - c1) Hc1 (fmul_one_exact _ _ Hd)) as H.
    replace (c1 + (c2 - c1)) with c2 in H by lia.
    apply H. change (2 ^ 24) with 16777216. lia.
Qed.

(** ** Colours *)

Section Colours.

Lemma byte_range z : 0 <= to_u8 (Z.land z 255) < 256.
Proof. unfold to_u8. apply Z.mod_pos_bound. lia. Qed.

Lemma to_u8_byte z : to_u8 (Z.land z 255) = Z.land z 255.
Proof.
  unfold to_u8. change 255 with (Z.ones 8).
  rewrite Z.land_ones by lia. rewrite Z.mod_mod by lia. reflexivity.
Qed.

Lemma to_u32_lor a b : to_u32 (Z.lor a b) = Z.lor (to_u32 a) (to_u32 b).
Proof.
  unfold to_u32. change 4294967296 with (2 ^ 32).
  rewrite <- !Z.land_ones by lia. apply Z.land_lor_distr_l.
Qed.

Lemma to_u32_wrap32 z : to_u32 (wrap32 z) = to_u32 z.
Proof. apply wrap32_mod. Qed.

Lemma to_u32_small z : 0 <= z < 4294967296 -> to_u32 z = z.
Proof. apply Z.mod_small. Qed.

Lemma byte_shift_small z k :
  0 <= k <= 24 -> 0 <= Z.shiftl (Z.land z 255) k < 4294967296.
Proof.
  intros Hk. rewrite Z.shiftl_mul_pow2 by lia.
  change 255 with (Z.ones 8). rewrite Z.land_ones by lia.
  pose proof (Z.mod_pos_bound z (2 ^ 8) ltac:(lia)) as Hb.
  assert (0 < 2 ^ k <= 2 ^ 24)
    by (split; [apply Z.pow_pos_nonneg; lia | apply Z.pow_le_mono_r; lia]).
  change (2 ^ 8) with 256 in *. change (2 ^ 24) with 16777216 in *. nia.
Qed.

(** Packing the four bytes of a colour gives the colour back. *)
Lemma pack_unpack color :
  uint32 color ->
  to_u32 (Z.lor (Z.lor (Z.lor
     (wrap32 (Z.shiftl (Z.land (Z.shiftr color 24) 255) 24))
     (Z.shiftl (Z.land (Z.shiftr color 16) 255) 16))
     (Z.shiftl (Z.land (Z.shiftr color 8) 255) 8))
     (Z.land color 255)) = color.
Proof.
  intros Hc. rewrite !to_u32_lor, to_u32_wrap32.
  rewrite !to_u32_small
    by (try apply byte_shift_small; try lia;
        change (Z.land color 255) with (Z.land color (Z.ones 8));
        rewrite ?Z.land_ones by lia;
        pose proof (Z.mod_pos_bound color (2 ^ 8) ltac:(lia));
        change (2 ^ 8) with 256 in *; lia).
  apply Z.bits_inj'. intros n Hn.
  rewrite !Z.lor_spec, !Z.shiftl_spec, !Z.land_spec by lia.
  change 255 with (Z.ones 8).
  destruct (Z_lt_ge_dec n 8) as [H8|H8].
  { rewrite (Z.testbit_neg_r _ (n - 24)), (Z.testbit_neg_r _ (n - 16)),
      (Z.testbit_neg_r _ (n - 8)) by lia.
    rewrite (Z.ones_spec_low 8 n) by lia. cbn. apply andb_true_r. }
  destruct (Z_lt_ge_dec n 16) as [H16|H16].
  { rewrite (Z.testbit_neg_r _ (n - 24)), (Z.testbit_neg_r _ (n - 16)) by lia.
    rewrite Z.shiftr_spec by lia.
    rewrite (Z.ones_spec_low 8 (n - 8)) by lia.
    rewrite (Z.ones_spec_high 8 n) by lia.
    replace (n - 8 + 8) with n by lia. cbn.
    rewrite andb_true_r, andb_false_r, orb_false_r. reflexivity. }
  destruct (Z_lt_ge_dec n 24) as [H24|H24].
  { rewrite (Z.testbit_neg_r _ (n - 24)) by lia.
    rewrite !Z.shiftr_spec by lia.
    rewrite (Z.ones_spec_low 8 (n - 16)) by lia.
    rewrite (Z.ones_spec_high 8 n), (Z.ones_spec_high 8 (n - 8)) by lia.
    replace (n - 16 + 16) with n by lia. cbn.
    rewrite andb_true_r, !andb_false_r, !orb_false_r. reflexivity. }
  destruct (Z_lt_ge_dec n 32) as [H32|H32].
  { rewrite !Z.shiftr_spec by lia.
    rewrite (Z.ones_spec_low 8 (n - 24)) by lia.
    rewrite (Z.ones_spec_high 8 n), (Z.ones_spec_high 8 (n - 8)),
      (Z.ones_spec_high 8 (n - 16)) by lia.
    replace (n - 24 + 24) with n by lia. cbn.
    rewrite andb_true_r, !andb_false_r, !orb_false_r. reflexivity. }
  rewrite !Z.shiftr_spec by lia.
  rewrite (Z.ones_spec_high 8 n), (Z.ones_spec_high 8 (n - 8)),
    (Z.ones_spec_high 8 (n - 16)), (Z.ones_spec_high 8 (n - 24)) by lia.
  rewrite !andb_false_r. cbn. symmetry.
  apply Z.bits_above_log2; [unfold uint32 in Hc; lia|].
  destruct (Z.eq_dec color 0) as [->|Hne]; [cbn; lia|].
  apply Z.log2_lt_pow2; unfold uint32 in Hc; [lia|].
  apply Z.lt_le_trans with (2 ^ 32); [change (2 ^ 32) with 4294967296; lia|].
  apply Z.pow_le_mono_r; lia.
Qed.

End Colours.

(** ** Sorting the vertices *)

Lemma sortByY_spec v0 v1 v2 :
  forall a b c, sortByY v0 v1 v2 = (a, b, c) ->
  vy a <= vy b <= vy c /\
  vy a = Z.min (vy v0) (Z.min (vy v1) (vy v2)) /\
  vy c = Z.max (vy v0) (Z.max (vy v1) (vy v2)) /\
  forall P : Vertex -> Prop, P v0 -> P v1 -> P v2 -> P a /\ P b /\ P c.
Proof.
  intros a b c. unfold sortByY.
  destruct (vy v0 >? vy v1) eqn:E1;
    [destruct (vy v1 >? vy v2) eqn:E2 | destruct (vy v0 >? vy v2) eqn:E2];
    [destruct (vy v0 >? vy v1) eqn:E3 | destruct (vy v0 >? vy v2) eqn:E3
    |destruct (vy v1 >? vy v0) eqn:E3 | destruct (vy v1 >? vy v2) eqn:E3];
    intros [= <- <- <-]; (split; [lia|]); (split; [lia|]); (split; [lia|]);
    intros P; tauto.
Qed.

Lemma sortByY_flat v0 v1 v2 :
  vy v0 = vy v1 -> vy v1 = vy v2 -> sortByY v0 v1 v2 = (v0, v1, v2).
Proof.
  intros H1 H2. unfold sortByY.
  destruct (vy v0 >? vy v1) eqn:E1; [lia|].
  destruct (vy v0 >? vy v2) eqn:E2; [lia|].
  destruct (vy v1 >? vy v2) eqn:E3; [lia|]. reflexivity.
Qed.

(** ** The fill and its calls *)

Section FillFacts.

Lemma fillSpan_sim s0 fuel s log sp y :
  replays s0 s log ->
  option_Forall2 (replays s0)
    (fillSpan setPixel fuel s sp y) (fillSpan record fuel log sp y).
Proof.
  intros HR. unfold fillSpan. apply for_le_sim; [|exact HR].
  intros x s' log' HR'. unfold replays in HR'. subst s'.
  constructor. unfold replays, record.
  destruct (x_right sp =? x_left sp); reflexivity.
Qed.

Lemma scanline_sim s0 fuel v0 v1 v2 y s log :
  replays s0 s log ->
  option_Forall2 (replays s0)
    (scanline setPixel fuel v0 v1 v2 y s) (scanline record fuel v0 v1 v2 y log).
Proof.
  intros HR. unfold scanline.
  destruct (scanEdges v0 v1 v2 y) as [sp|];
    [apply fillSpan_sim | constructor]; exact HR.
Qed.

Lemma fillTriangleOn_sim s0 fuel s log v0 v1 v2 :
  replays s0 s log ->
  option_Forall2 (replays s0)
    (fillTriangleOn setPixel fuel s v0 v1 v2)
    (fillTriangleOn record fuel log v0 v1 v2).
Proof.
  intros HR. unfold fillTriangleOn.
  destruct (sortByY v0 v1 v2) as [[a b] c].
  destruct (vy a =? vy c); [constructor; exact HR|].
  apply for_le_sim; [|exact HR].
  intros y s' log'. apply scanline_sim.
Qed.

(** [fillTriangle] is the replay of the calls it issues. *)
Lemma fillTriangle_replay fuel s v0 v1 v2 :
  fillTriangle fuel s v0 v1 v2
  = option_map (replay s) (fillTriangle_calls fuel v0 v1 v2).
Proof.
  unfold fillTriangle, fillTriangle_calls.
  destruct (fillTriangleOn_sim s fuel s [] v0 v1 v2 eq_refl) as [r log ->|];
    reflexivity.
Qed.

Lemma drawAll_sim s0 fuel triangles s log :
  replays s0 s log ->
  option_Forall2 (replays s0)
    (drawAll setPixel fuel s triangles) (drawAll record fuel log triangles).
Proof.
  revert s log. induction triangles as [|[[v0 v1] v2] ts IH]; intros s log HR.
  - constructor. exact HR.
  - cbn. destruct (fillTriangleOn_sim s0 fuel s log v0 v1 v2 HR)
      as [s' log' HR'|]; [apply IH, HR' | constructor].
Qed.

(** More fuel does not change what a fill returns. *)
Lemma fillSpan_mono {Sink} (put : Sink -> Z -> Z -> Z -> Sink)
    fuel fuel' s sp y r :
  (fuel <= fuel')%nat ->
  fillSpan put fuel s sp y = Some r -> fillSpan put fuel' s sp y = Some r.
Proof. intros Hle. unfold fillSpan. apply for_le_mono; auto. Qed.

Lemma scanline_mono {Sink} (put : Sink -> Z -> Z -> Z -> Sink)
    fuel fuel' v0 v1 v2 y s r :
  (fuel <= fuel')%nat ->
  scanline put fuel v0 v1 v2 y s = Some r ->
  scanline put fuel' v0 v1 v2 y s = Some r.
Proof.
  intros Hle. unfold scanline.
  destruct (scanEdges v0 v1 v2 y); [apply fillSpan_mono; exact Hle | auto].
Qed.

Lemma fillTriangleOn_mono {Sink} (put : Sink -> Z -> Z -> Z -> Sink)
    fuel fuel' s v0 v1 v2 r :
  (fuel <= fuel')%nat ->
  fillTriangleOn put fuel s v0 v1 v2 = Some r ->
  fillTriangleOn put fuel' s v0 v1 v2 = Some r.
Proof.
  intros Hle. unfold fillTriangleOn.
  destruct (sortByY v0 v1 v2) as [[a b] c].
  destruct (vy a =? vy c); [auto|].
  apply for_le_mono; [|exact Hle].
  intros j s' r'. apply scanline_mono, Hle.
Qed.

Lemma scanEdges_range v0 v1 v2 y sp :
  scanEdges v0 v1 v2 y = Some sp -> int32 (x_left sp) /\ int32 (x_right sp).
Proof.
  unfold scanEdges.
  destruct (y <? vy v1);
    [destruct (vy v1 =? vy v0) | destruct (vy v2 =? vy v1)];
    try discriminate; intros [= <-]; cbn; split; apply int_of_float_range.
Qed.

Lemma fillSpan_rows fuel log sp y lo hi log' :
  int32 (x_left sp) -> int32 (x_right sp) -> lo <= y <= hi ->
  Forall (row_within lo hi) log ->
  fillSpan record fuel log sp y = Some log' ->
  Forall (row_within lo hi) log'.
Proof.
  intros Hl Hr Hy Hlog H. unfold fillSpan in H.
  apply (for_le_partial (fun _ l => Forall (row_within lo hi) l)) in H;
    try assumption.
  intros x l l' _ Hl' [= <-].
  destruct (x_right sp =? x_left sp); constructor; assumption.
Qed.

Lemma scanline_rows fuel v0 v1 v2 y log lo hi log' :
  lo <= y <= hi ->
  Forall (row_within lo hi) log ->
  scanline record fuel v0 v1 v2 y log = Some log' ->
  Forall (row_within lo hi) log'.
Proof.
  intros Hy Hlog. unfold scanline.
  destruct (scanEdges v0 v1 v2 y) as [sp|] eqn:E.
  - destruct (scanEdges_range _ _ _ _ _ E).
    apply fillSpan_rows; assumption.
  - intros [= <-]. exact Hlog.
Qed.

Lemma fillTriangle_calls_rows fuel v0 v1 v2 log :
  int32 (vy v0) -> int32 (vy v1) -> int32 (vy v2) ->
  fillTriangle_calls fuel v0 v1 v2 = Some log ->
  Forall (row_within (Z.min (vy v0) (Z.min (vy v1) (vy v2)))
                     (Z.max (vy v0) (Z.max (vy v1) (vy v2)))) log.
Proof.
  intros H0 H1 H2. unfold fillTriangle_calls, fillTriangleOn.
  destruct (sortByY v0 v1 v2) as [[a b] c] eqn:Es.
  destruct (sortByY_spec v0 v1 v2 a b c Es) as (Hord & <- & <- & Hin).
  destruct (Hin (fun v => int32 (vy v)) H0 H1 H2) as (Ha & Hb & Hc).
  destruct (vy a =? vy c); [intros [= <-]; constructor|].
  intros H.
  apply (for_le_partial (fun _ l => Forall (row_within (vy a) (vy c)) l))
    in H; try assumption; [constructor|].
  intros y l l' Hy Hl. apply scanline_rows; assumption.
Qed.

End FillFacts.

(** ** Results and calls *)

Section Results.

Lemma fillTriangle_calls_mono fuel fuel' v0 v1 v2 log :
  (fuel <= fuel')%nat ->
  fillTriangle_calls fuel v0 v1 v2 = Some log ->
  fillTriangle_calls fuel' v0 v1 v2 = Some log.
Proof. apply fillTriangleOn_mono. Qed.

(** Whatever fuel a fill returns with, its result is the replay of the
    calls that it issues. *)
Lemma fillTriangle_result fuel fuel' s v0 v1 v2 s' log :
  fillTriangle_calls fuel' v0 v1 v2 = Some log ->
  fillTriangle fuel s v0 v1 v2 = Some s' ->
  s' = replay s log.
Proof.
  intros Hlog Hrun.
  apply (fillTriangleOn_mono setPixel fuel (Nat.max fuel fuel')) in Hrun;
    [|lia].
  apply (fillTriangleOn_mono record fuel' (Nat.max fuel fuel')) in Hlog;
    [|lia].
  pose proof (fillTriangle_replay (Nat.max fuel fuel') s v0 v1 v2) as Hrep.
  unfold fillTriangle, fillTriangle_calls in Hrep.
  rewrite Hrun, Hlog in Hrep. injection Hrep as ->. reflexivity.
Qed.

(** A fill that returns has issued calls. *)
Lemma fillTriangle_has_calls fuel s v0 v1 v2 s' :
  fillTriangle fuel s v0 v1 v2 = Some s' ->
  exists log, fillTriangle_calls fuel v0 v1 v2 = Some log /\ s' = replay s log.
Proof.
  intros H. rewrite fillTriangle_replay in H.
  destruct (fillTriangle_calls fuel v0 v1 v2) as [log|]; [|discriminate].
  exists log. split; [reflexivity|]. injection H as <-. reflexivity.
Qed.

End Results.

(** ** Spans and termination *)

Section Termination.
Context {Sink : Type} (put : Sink -> Z -> Z -> Z -> Sink).

(** The ends of a span are 32-bit values below [INT_MAX]. *)
Lemma scanEdges_bounds v0 v1 v2 y sp :
  scanEdges v0 v1 v2 y = Some sp ->
  (int32 (x_left sp) /\ x_left sp < INT_MAX) /\
  (int32 (x_right sp) /\ x_right sp < INT_MAX).
Proof.
  unfold scanEdges.
  destruct (y <? vy v1);
    [destruct (vy v1 =? vy v0) | destruct (vy v2 =? vy v1)];
    try discriminate; intros [= <-]; cbn [x_left x_right];
    repeat split;
    try apply int_of_float_range;
    apply int_of_float_below_max;
    (apply fmin_short || apply fmax_short);
    apply fadd_short; (apply float_of_int_short || apply fmul_short).
Qed.

(** The inner loop returns: its bound is never [INT_MAX]. *)
Lemma fillSpan_returns fuel s sp y :
  int32 (x_left sp) -> int32 (x_right sp) -> x_right sp < INT_MAX ->
  4294967296 < Z.of_nat fuel ->
  exists r, fillSpan put fuel s sp y = Some r.
Proof.
  intros Hl Hr Hmax Hfuel. unfold fillSpan.
  destruct (Z_lt_ge_dec (x_right sp) (x_left sp)) as [Hlt|Hge].
  - destruct fuel as [|fuel]; [lia|].
    eexists. apply for_le_done. exact Hlt.
  - edestruct (for_le_total (S := Sink) (fun _ _ => True)) as (r & Hr' & _);
      [exact Hl | exact Hmax | | | exact I | | exists r; exact Hr'].
    + lia.
    + int32_arith.
    + intros i s' _ _. eexists. split; [reflexivity | exact I].
Qed.

Lemma scanline_returns fuel v0 v1 v2 y s :
  4294967296 < Z.of_nat fuel ->
  exists r, scanline put fuel v0 v1 v2 y s = Some r.
Proof.
  intros Hfuel. unfold scanline.
  destruct (scanEdges v0 v1 v2 y) as [sp|] eqn:E; [|eexists; reflexivity].
  destruct (scanEdges_bounds _ _ _ _ _ E) as ((Hl & _) & (Hr & Hmax)).
  apply fillSpan_returns; assumption.
Qed.

(** The fill returns whenever no vertex lies on the row [INT_MAX]. *)
Lemma fillTriangleOn_returns fuel s v0 v1 v2 :
  int32 (vy v0) -> int32 (vy v1) -> int32 (vy v2) ->
  vy v0 < INT_MAX -> vy v1 < INT_MAX -> vy v2 < INT_MAX ->
  4294967296 < Z.of_nat fuel ->
  exists r, fillTriangleOn put fuel s v0 v1 v2 = Some r.
Proof.
  intros H0 H1 H2 M0 M1 M2 Hfuel. unfold fillTriangleOn.
  destruct (sortByY v0 v1 v2) as [[a b] c] eqn:Es.
  destruct (sortByY_spec v0 v1 v2 a b c Es) as (Hord & _ & _ & Hin).
  destruct (Hin (fun v => int32 (vy v) /\ vy v < INT_MAX)) as (Ha & Hb & Hc);
    [tauto ..|].
  destruct (vy a =? vy c); [eexists; reflexivity|].
  edestruct (for_le_total (S := Sink) (fun _ _ => True)) as (r & Hr' & _);
    [apply Ha | apply Hc | | | exact I | | exists r; exact Hr'].
  - lia.
  - int32_arith.
  - intros y s' _ _.
    destruct (scanline_returns fuel a b c y s' Hfuel) as [r Hr].
    exists r. split; [exact Hr | exact I].
Qed.

Lemma ample_fuel_enough : 4294967296 < Z.of_nat ample_fuel.
Proof. unfold ample_fuel. rewrite Z2Nat.id; lia. Qed.

Lemma fillTriangleOn_returns_ample s v0 v1 v2 :
  rows_below_max v0 v1 v2 ->
  exists r, fillTriangleOn put ample_fuel s v0 v1 v2 = Some r.
Proof.
  intros ((H0 & M0) & (H1 & M1) & (H2 & M2)).
  exact (fillTriangleOn_returns ample_fuel s v0 v1 v2
           H0 H1 H2 M0 M1 M2 ample_fuel_enough).
Qed.

(** A span whose two ends coincide takes one iteration. *)
Lemma fillSpan_single fuel s sp y :
  int32 (x_left sp) -> x_left sp < INT_MAX -> x_left sp = x_right sp ->
  (2 <= fuel)%nat ->
  fillSpan put fuel s sp y = Some (put s (x_left sp) y (color_left sp)).
Proof.
  intros Hl Hmax Heq Hfuel. unfold fillSpan.
  destruct fuel as [|[|fuel]]; [lia | lia |].
  rewrite <- Heq. cbn [for_le].
  rewrite Z.leb_refl, Z.eqb_refl.
  rewrite add32_id by int32_arith.
  destruct (x_left sp + 1 <=? x_left sp) eqn:E; [lia | reflexivity].
Qed.

End Termination.

(** ** The calls of a fill, row by row *)

Section Rows.

Lemma find_call_app l1 l2 x y :
  find_call (l1 ++ l2) x y
  = match find_call l1 x y with
    | Some c => Some c
    | None => find_call l2 x y
    end.
Proof.
  induction l1 as [|[[x' y'] c] l1 IH]; [reflexivity|].
  cbn. destruct ((x' =? x) && (y' =? y)); [reflexivity | exact IH].
Qed.

Lemma find_call_outside log lo hi x y :
  Forall (row_within lo hi) log -> y < lo \/ hi < y -> find_call log x y = None.
Proof.
  intros Hlog Hy. apply find_call_other_row.
  eapply Forall_impl; [exact Hlog|].
  intros c Hc. unfold row_within in Hc. lia.
Qed.

(** The calls of a span are put in front of the log. *)
Lemma fillSpan_record_app fuel log sp y :
  fillSpan record fuel log sp y
  = option_map (fun l => l ++ log) (fillSpan record fuel [] sp y).
Proof.
  unfold fillSpan.
  match goal with
  | |- for_le fuel ?b _ _ _ = _ =>
      destruct (for_le_sim (fun l1 l2 : list Call => l1 = l2 ++ log)
                  b b fuel (x_left sp) (x_right sp) log [])
        as [l1 l2 ->|]
  end; try reflexivity.
  intros x l1 l2 ->. constructor.
  destruct (x_right sp =? x_left sp); reflexivity.
Qed.

Lemma scanline_record_app fuel v0 v1 v2 y log :
  scanline record fuel v0 v1 v2 y log
  = option_map (fun l => l ++ log) (scanline record fuel v0 v1 v2 y []).
Proof.
  unfold scanline.
  destruct (scanEdges v0 v1 v2 y); [apply fillSpan_record_app | reflexivity].
Qed.

Lemma scanline_row fuel v0 v1 v2 y l :
  scanline record fuel v0 v1 v2 y [] = Some l -> Forall (row_within y y) l.
Proof. apply scanline_rows; [lia | constructor]. Qed.

(** What a fill leaves at a position of a row of the triangle is what
    the scanline of that row leaves there. *)
Lemma fillTriangle_calls_by_row fuel v0 v1 v2 log x y :
  int32 (vy v0) -> int32 (vy v2) -> vy v0 <= y <= vy v2 ->
  sortByY v0 v1 v2 = (v0, v1, v2) -> vy v0 <> vy v2 ->
  fillTriangle_calls fuel v0 v1 v2 = Some log ->
  exists l,
    scanline record fuel v0 v1 v2 y [] = Some l /\
    find_call log x y = find_call l x y.
Proof.
  intros H0 H2 Hy Hs Hne. unfold fillTriangle_calls, fillTriangleOn.
  rewrite Hs. destruct (vy v0 =? vy v2) eqn:E; [lia|]. intros H.
  apply (for_le_partial (fun y' log =>
           Forall (row_within (vy v0) (y' - 1)) log /\
           (vy v0 <= y < y' ->
            exists l, scanline record fuel v0 v1 v2 y [] = Some l /\
                      find_call log x y = find_call l x y)))
    in H; try assumption.
  - apply H. lia.
  - split; [constructor | lia].
  - intros i l l' Hi [Hrows Hrow] Hstep.
    rewrite scanline_record_app in Hstep.
    destruct (scanline record fuel v0 v1 v2 i []) as [li|] eqn:Eli;
      [|discriminate].
    cbn [option_map] in Hstep. injection Hstep as <-.
    pose proof (scanline_row _ _ _ _ _ _ Eli) as Hli.
    split.
    + apply Forall_app. split.
      * eapply Forall_impl; [exact Hli|].
        intros c Hc. unfold row_within in *. lia.
      * eapply Forall_impl; [exact Hrows|].
        intros c Hc. unfold row_within in *. lia.
    + intros Hy'. rewrite find_call_app.
      destruct (Z.eq_dec y i) as [->|Hni].
      * exists li. split; [exact Eli|].
        rewrite (find_call_outside l (vy v0) (i - 1)) by (assumption || lia).
        destruct (find_call li x i); reflexivity.
      * rewrite (find_call_outside li i i) by (assumption || lia).
        apply Hrow. lia.
Qed.

End Rows.

(** ** The calls of a fill on one row *)

Section RowCalls.

Lemma calls_on_row_app l1 l2 y :
  calls_on_row (l1 ++ l2) y = calls_on_row l1 y ++ calls_on_row l2 y.
Proof. apply List.filter_app. Qed.

Lemma calls_on_row_same l y :
  Forall (row_within y y) l -> calls_on_row l y = l.
Proof.
  induction 1 as [|[[x' y'] c] l Hc _ IH]; [reflexivity|].
  unfold row_within in Hc. cbn in Hc |- *.
  destruct (y' =? y) eqn:E; [|lia].
  f_equal. exact IH.
Qed.

Lemma calls_on_row_other l lo hi y :
  Forall (row_within lo hi) l -> y < lo \/ hi < y -> calls_on_row l y = [].
Proof.
  intros Hl Hy. induction Hl as [|[[x' y'] c] l Hc _ IH]; [reflexivity|].
  unfold row_within in Hc. cbn in Hc |- *.
  destruct (y' =? y) eqn:E; [lia | exact IH].
Qed.

(** The colour of a position is found among the calls of its row. *)
Lemma find_call_on_row log x y :
  find_call log x y = find_call (calls_on_row log y) x y.
Proof.
  induction log as [|[[x' y'] c] log IH]; [reflexivity|].
  cbn. destruct (y' =? y) eqn:E.
  - cbn. rewrite E. destruct (x' =? x); [reflexivity | exact IH].
  - rewrite andb_false_r. exact IH.
Qed.

(** The calls that a fill issues for a row of the triangle are the
    calls of the scanline of that row, and no other. *)
Lemma fillTriangle_calls_on_row fuel v0 v1 v2 a b c log y :
  int32 (vy a) -> int32 (vy c) -> vy a <= y <= vy c ->
  sortByY v0 v1 v2 = (a, b, c) -> vy a <> vy c ->
  fillTriangle_calls fuel v0 v1 v2 = Some log ->
  scanline record fuel a b c y [] = Some (calls_on_row log y).
Proof.
  intros H0 H2 Hy Hs Hne. unfold fillTriangle_calls, fillTriangleOn.
  rewrite Hs. destruct (vy a =? vy c) eqn:E; [lia|]. intros H.
  pose (I := fun (y' : Z) (log : list Call) =>
          Forall (row_within (vy a) (y' - 1)) log /\
          (vy a <= y < y' ->
           scanline record fuel a b c y [] = Some (calls_on_row log y))).
  assert (Hfin : I (Z.max (vy a) (vy c + 1)) log).
  { eapply (for_le_partial I); [exact H0 | exact H2 | exact H | |].
    - split; [constructor | lia].
    - intros i l l' Hi [Hrows Hrow] Hstep.
      rewrite scanline_record_app in Hstep.
      destruct (scanline record fuel a b c i []) as [li|] eqn:Eli;
        [|discriminate].
      cbn [option_map] in Hstep. injection Hstep as <-.
      pose proof (scanline_row _ _ _ _ _ _ Eli) as Hli.
      split.
      + apply Forall_app. split.
        * eapply Forall_impl; [exact Hli|].
          intros q Hq. unfold row_within in *. lia.
        * eapply Forall_impl; [exact Hrows|].
          intros q Hq. unfold row_within in *. lia.
      + intros Hy'. rewrite calls_on_row_app.
        destruct (Z.eq_dec y i) as [->|Hni].
        * rewrite (calls_on_row_same li i Hli).
          rewrite (calls_on_row_other l (vy a) (i - 1)) by (assumption || lia).
          rewrite app_nil_r. exact Eli.
        * rewrite (calls_on_row_other li i i) by (assumption || lia).
          apply Hrow. lia. }
  apply Hfin. lia.
Qed.

(** On a row whose span has its two ends at the same position, a fill
    issues one call. *)
Lemma fillTriangle_single_call fuel v0 v1 v2 a b c log y sp :
  int32 (vy a) -> int32 (vy c) -> vy a <= y <= vy c ->
  sortByY v0 v1 v2 = (a, b, c) -> vy a <> vy c ->
  scanEdges a b c y = Some sp -> x_left sp = x_right sp ->
  fillTriangle_calls fuel v0 v1 v2 = Some log ->
  calls_on_row log y = [(x_left sp, y, color_left sp)].
Proof.
  intros H0 H2 Hy Hs Hne Hsp Heq Hlog.
  pose proof (fillTriangle_calls_on_row fuel v0 v1 v2 a b c log y
                H0 H2 Hy Hs Hne Hlog) as Hrow.
  apply (scanline_mono record fuel (Nat.max fuel 2)) in Hrow; [|lia].
  unfold scanline in Hrow. rewrite Hsp in Hrow.
  destruct (scanEdges_bounds _ _ _ _ _ Hsp) as ((Hl & Hmax) & _).
  rewrite (fillSpan_single record (Nat.max fuel 2) [] sp y Hl Hmax Heq
             ltac:(lia)) in Hrow.
  injection Hrow as <-. reflexivity.
Qed.

(** On a row that the loop skips, a fill issues no call. *)
Lemma fillTriangle_no_call fuel v0 v1 v2 a b c log y :
  int32 (vy a) -> int32 (vy c) ->
  sortByY v0 v1 v2 = (a, b, c) ->
  (vy a <= y <= vy c -> scanEdges a b c y = None) ->
  fillTriangle_calls fuel v0 v1 v2 = Some log ->
  calls_on_row log y = [].
Proof.
  intros H0 H2 Hs Hsp Hlog.
  destruct (sortByY_spec v0 v1 v2 a b c Hs) as (Hord & Hmin & Hmax & Hin).
  destruct (Z.eq_dec (vy a) (vy c)) as [Heq|Hne].
  - unfold fillTriangle_calls, fillTriangleOn in Hlog. rewrite Hs in Hlog.
    destruct (vy a =? vy c) eqn:E; [|lia].
    injection Hlog as <-. reflexivity.
  - destruct (Z_le_gt_dec (vy a) y) as [Hlo|Hlo];
      [destruct (Z_le_gt_dec y (vy c)) as [Hhi|Hhi]|].
    + pose proof (fillTriangle_calls_on_row fuel v0 v1 v2 a b c log y
                    H0 H2 (conj Hlo Hhi) Hs Hne Hlog) as Hrow.
      unfold scanline in Hrow. rewrite (Hsp (conj Hlo Hhi)) in Hrow.
      injection Hrow as <-. reflexivity.
    + unfold fillTriangle_calls, fillTriangleOn in Hlog. rewrite Hs in Hlog.
      destruct (vy a =? vy c) eqn:E; [lia|].
      apply (for_le_partial (fun _ l => Forall (row_within (vy a) (vy c)) l))
        in Hlog; try assumption; [|constructor|].
      * apply (calls_on_row_other log (vy a) (vy c)); [exact Hlog | lia].
      * intros i l l' Hi Hl. apply scanline_rows; assumption.
    + unfold fillTriangle_calls, fillTriangleOn in Hlog. rewrite Hs in Hlog.
      destruct (vy a =? vy c) eqn:E; [lia|].
      apply (for_le_partial (fun _ l => Forall (row_within (vy a) (vy c)) l))
        in Hlog; try assumption; [|constructor|].
      * apply (calls_on_row_other log (vy a) (vy c)); [exact Hlog | lia].
      * intros i l l' Hi Hl. apply scanline_rows; assumption.
Qed.

End RowCalls.

(** ** The alpha channel *)

Section Alpha.

Lemma sub32_nonzero a b : int32 a -> int32 b -> a <> b -> sub32 a b <> 0.
Proof.
  intros Ha Hb Hne H. unfold sub32 in H. apply wrap32_zero in H.
  pose proof (Z.div_mod (a - b) 4294967296 ltac:(lia)) as Hd.
  rewrite H in Hd. int32_arith.
Qed.

(** The fraction of two [int]s, the second not zero, is finite. *)
Lemma fraction_finite a b :
  int32 a -> int32 b -> b <> 0 ->
  finite_float (fdiv (float_of_int a) (float_of_int b)).
Proof.
  intros Ha Hb Hne.
  destruct (float_of_int_spec a Ha) as [Hfa _].
  destruct (float_of_int_spec b Hb) as [Hfb Hnz].
  destruct (Hnz Hne) as (s & m & e & Heq).
  apply fdiv_finite; [exact Hfa|].
  exists s, m, e. split; [exact Heq | exact Hfb].
Qed.

(** Between two opaque colours every finite fraction is opaque. *)
Lemma interpolateChannel_opaque t :
  finite_float t -> interpolateChannel 255 255 t = 255.
Proof.
  intros Ht. unfold interpolateChannel.
  change (float_of_int (sub32 255 255)) with (S754_zero false).
  destruct t as [s|s| |s m e]; try contradiction; destruct s; reflexivity.
Qed.

Lemma channel_alpha color : channel 0 color = Z.land color 255.
Proof. unfold channel. rewrite Z.shiftr_0_r. reflexivity. Qed.

Lemma low_byte_lor a b : Z.lor a b mod 256 = Z.lor (a mod 256) (b mod 256).
Proof.
  change 256 with (2 ^ 8). rewrite <- !Z.land_ones by lia.
  apply Z.land_lor_distr_l.
Qed.

Lemma low_byte_shift z k : 8 <= k -> Z.shiftl z k mod 256 = 0.
Proof.
  intros Hk. rewrite Z.shiftl_mul_pow2 by lia.
  replace k with ((k - 8) + 8) by lia.
  rewrite Z.pow_add_r by lia. change (2 ^ 8) with 256.
  rewrite Z.mul_assoc. apply Z.mod_mul. lia.
Qed.

Lemma low_byte_u32 z : to_u32 z mod 256 = z mod 256.
Proof.
  unfold to_u32. apply Z.mod_mod_divide. exists 16777216. reflexivity.
Qed.

(** The low byte of a packed colour is its fourth component. *)
Lemma pack_low_byte r g b a :
  0 <= a < 256 ->
  Z.land (to_u32 (Z.lor (Z.lor (Z.lor (wrap32 (Z.shiftl r 24))
                                      (Z.shiftl g 16))
                               (Z.shiftl b 8)) a)) 255 = a.
Proof.
  intros Ha. change 255 with (Z.ones 8). rewrite Z.land_ones by lia.
  change (2 ^ 8) with 256.
  rewrite low_byte_u32, !low_byte_lor.
  rewrite <- (low_byte_u32 (wrap32 _)), to_u32_wrap32, low_byte_u32.
  rewrite !low_byte_shift by lia. rewrite !Z.lor_0_l.
  apply Z.mod_small, Ha.
Qed.

Lemma interpolateChannel_range c1 c2 t : 0 <= interpolateChannel c1 c2 t < 256.
Proof.
  unfold interpolateChannel, uint8_of_float, to_u8.
  apply Z.mod_pos_bound. lia.
Qed.

(** The alpha of an interpolated colour is the interpolated alpha. *)
Lemma interpolateColor_alpha color0 color1 t :
  channel 0 (interpolateColor color0 color1 t)
  = interpolateChannel (channel 0 color0) (channel 0 color1) t.
Proof.
  rewrite !channel_alpha. unfold interpolateColor. cbv zeta.
  rewrite pack_low_byte by apply interpolateChannel_range.
  rewrite !to_u8_byte. reflexivity.
Qed.

Lemma interpolateColor_opaque color0 color1 t :
  channel 0 color0 = 255 -> channel 0 color1 = 255 -> finite_float t ->
  channel 0 (interpolateColor color0 color1 t) = 255.
Proof.
  intros H0 H1 Ht. rewrite interpolateColor_alpha, H0, H1.
  apply interpolateChannel_opaque, Ht.
Qed.

(** The colours at the two ends of a span are opaque. *)
Lemma scanEdges_opaque v0 v1 v2 y sp :
  int32 (vy v0) -> int32 (vy v1) -> int32 (vy v2) -> vy v0 <> vy v2 ->
  channel 0 (vcolor v0) = 255 -> channel 0 (vcolor v1) = 255 ->
  channel 0 (vcolor v2) = 255 ->
  scanEdges v0 v1 v2 y = Some sp ->
  channel 0 (color_left sp) = 255 /\ channel 0 (color_right sp) = 255.
Proof.
  intros H0 H1 H2 Hne A0 A1 A2. unfold scanEdges.
  assert (Hlong : forall a,
    channel 0 (interpolateColor (vcolor v0) (vcolor v2)
      (fdiv (float_of_int (sub32 a (vy v0)))
            (float_of_int (sub32 (vy v2) (vy v0))))) = 255).
  { intros a. apply interpolateColor_opaque; try assumption.
    apply fraction_finite; try apply wrap32_range.
    apply sub32_nonzero; auto. }
  destruct (y <? vy v1).
  - destruct (vy v1 =? vy v0) eqn:E; [discriminate|].
    assert (Hshort :
      channel 0 (interpolateColor (vcolor v0) (vcolor v1)
        (fdiv (float_of_int (sub32 y (vy v0)))
              (float_of_int (sub32 (vy v1) (vy v0))))) = 255).
    { apply interpolateColor_opaque; try assumption.
      apply fraction_finite; try apply wrap32_range.
      apply sub32_nonzero; auto. lia. }
    intros [= <-]. cbn [color_left color_right].
    destruct (flt _ _); split; auto.
  - destruct (vy v2 =? vy v1) eqn:E; [discriminate|].
    assert (Hshort :
      channel 0 (interpolateColor (vcolor v1) (vcolor v2)
        (fdiv (float_of_int (sub32 y (vy v1)))
              (float_of_int (sub32 (vy v2) (vy v1))))) = 255).
    { apply interpolateColor_opaque; try assumption.
      apply fraction_finite; try apply wrap32_range.
      apply sub32_nonzero; auto. lia. }
    intros [= <-]. cbn [color_left color_right].
    destruct (flt _ _); split; auto.
Qed.

Lemma fillSpan_opaque fuel log sp y log' :
  int32 (x_left sp) -> int32 (x_right sp) ->
  channel 0 (color_left sp) = 255 -> channel 0 (color_right sp) = 255 ->
  Forall (fun c : Call => channel 0 (snd c) = 255) log ->
  fillSpan record fuel log sp y = Some log' ->
  Forall (fun c : Call => channel 0 (snd c) = 255) log'.
Proof.
  intros Hl Hr Al Ar Hlog H. unfold fillSpan in H.
  apply (for_le_partial
           (fun _ l => Forall (fun c : Call => channel 0 (snd c) = 255) l))
    in H; try assumption.
  intros x l l' _ Hl' [= <-].
  destruct (x_right sp =? x_left sp) eqn:E; constructor; try assumption.
  cbn [snd]. apply interpolateColor_opaque; try assumption.
  apply fraction_finite; try apply wrap32_range.
  apply sub32_nonzero; auto. lia.
Qed.

(** Every colour that the fill of a triangle with opaque vertices writes
    is opaque. *)
Lemma fillTriangle_calls_opaque fuel v0 v1 v2 log :
  int32 (vy v0) -> int32 (vy v1) -> int32 (vy v2) ->
  channel 0 (vcolor v0) = 255 -> channel 0 (vcolor v1) = 255 ->
  channel 0 (vcolor v2) = 255 ->
  fillTriangle_calls fuel v0 v1 v2 = Some log ->
  Forall (fun c : Call => channel 0 (snd c) = 255) log.
Proof.
  intros H0 H1 H2 A0 A1 A2. unfold fillTriangle_calls, fillTriangleOn.
  destruct (sortByY v0 v1 v2) as [[a b] c] eqn:Es.
  destruct (sortByY_spec v0 v1 v2 a b c Es) as (_ & _ & _ & Hin).
  destruct (Hin (fun v => int32 (vy v) /\ channel 0 (vcolor v) = 255))
    as ((Ha & Aa) & (Hb & Ab) & (Hc & Ac)); [tauto ..|].
  destruct (vy a =? vy c) eqn:E; [intros [= <-]; constructor|].
  intros H.
  apply (for_le_partial
           (fun _ l => Forall (fun c : Call => channel 0 (snd c) = 255) l))
    in H; try assumption; [constructor|].
  intros y l l' _ Hl. unfold scanline.
  destruct (scanEdges a b c y) as [sp|] eqn:Ee; [|intros [= <-]; exact Hl].
  destruct (scanEdges_opaque a b c y sp) as [Al Ar]; try assumption; [lia|].
  destruct (scanEdges_range _ _ _ _ _ Ee).
  apply fillSpan_opaque; assumption.
Qed.

End Alpha.

(** ** The line rasterizer *)

Section Bresenham.

Lemma bresenhamLow_stepLine fuel x0 y0 c0 x1 y1 c1 :
  bresenhamLow fuel x0 y0 c0 x1 y1 c1
  = stepLine lowPixel fuel x0 y0 c0 x1 y1 c1.
Proof. reflexivity. Qed.

Lemma bresenhamHigh_stepLine fuel x0 y0 c0 x1 y1 c1 :
  bresenhamHigh fuel x0 y0 c0 x1 y1 c1
  = stepLine highPixel fuel y0 x0 c0 y1 x1 c1.
Proof. reflexivity. Qed.

Lemma wrap32_add_l a b : wrap32 (wrap32 a + b) = wrap32 (a + b).
Proof.
  unfold wrap32. f_equal.
  replace ((a + 2147483648) mod 4294967296 - 2147483648 + b + 2147483648)
    with ((a + 2147483648) mod 4294967296 + b) by ring.
  rewrite Zplus_mod_idemp_l. f_equal. ring.
Qed.

(** On the line, the first offset is 0 and the last is [dd]. *)
Lemma on_line_first di dd j : 0 < di -> on_line di dd 0 j -> j = 0.
Proof. unfold on_line. intros Hdi H. nia. Qed.

Lemma on_line_last di dd j : 0 < di -> on_line di dd di j -> j = dd.
Proof. unfold on_line. intros Hdi H. nia. Qed.

Lemma on_line_offset di dd k j :
  0 < di -> 0 <= dd <= di -> 0 <= k <= di -> on_line di dd k j ->
  0 <= j <= dd.
Proof. unfold on_line. intros Hdi Hdd Hk H. nia. Qed.

Lemma stepLine_spec mk fuel i0 d0 c0 i1 d1 c1 :
  int32 i0 -> int32 i1 -> int32 d0 -> int32 d1 -> i1 < INT_MAX ->
  0 < i1 - i0 < 1073741824 ->
  Z.abs (d1 - d0) <= i1 - i0 ->
  i1 - i0 + 1 < Z.of_nat fuel ->
  exists pixels,
    stepLine mk fuel i0 d0 c0 i1 d1 c1 = Some pixels /\
    Z.of_nat (length pixels) = i1 - i0 + 1 /\
    forall (k : nat) p, pixels !! k = Some p ->
      exists d c,
        p = mk (i0 + Z.of_nat k) d c /\
        (k = 0%nat -> d = d0) /\ (Z.of_nat k = i1 - i0 -> d = d1).
Proof.
  intros Hi0 Hi1 Hd0 Hd1 Hmax Hdi Hdd Hfuel.
  unfold stepLine.
  assert (Edi : sub32 i1 i0 = i1 - i0)
    by (apply sub32_id; int32_arith).
  assert (Edd : sub32 d1 d0 = d1 - d0)
    by (apply sub32_id; int32_arith).
  rewrite Edi, Edd.
  set (di := i1 - i0) in *.
  assert (Ead : (if d1 - d0 <? 0 then neg32 (d1 - d0) else d1 - d0)
                = Z.abs (d1 - d0)).
  { destruct (d1 - d0 <? 0) eqn:E; [|lia].
    unfold neg32. rewrite wrap32_id; int32_arith. }
  rewrite Ead.
  assert (Esi : (if d1 - d0 <? 0 then -1 else 1) * Z.abs (d1 - d0) = d1 - d0)
    by (destruct (d1 - d0 <? 0) eqn:E; lia).
  set (dd := Z.abs (d1 - d0)) in *.
  set (si := if d1 - d0 <? 0 then -1 else 1) in *.
  assert (Hdd0 : 0 <= dd) by (subst dd; lia).
  assert (ED0 : sub32 (mul32 2 dd) di = 2 * dd - di).
  { rewrite mul32_id by int32_arith.
    apply sub32_id. int32_arith. }
  assert (Eup : mul32 2 (sub32 dd di) = 2 * (dd - di)).
  { rewrite sub32_id by int32_arith.
    apply mul32_id. int32_arith. }
  assert (Estay : mul32 2 dd = 2 * dd)
    by (apply mul32_id; int32_arith).
  rewrite ED0, Eup, Estay.
  set (Inv := fun (i : Z) (st : LineState) =>
    exists j,
      ls_dep st = wrap32 (d0 + si * j) /\
      on_line di dd (i - i0) j /\
      ls_D st = 2 * dd * (i - i0 + 1) - di - 2 * di * j /\
      ls_currentStep st = i - i0 /\
      Z.of_nat (length (ls_pixels st)) = i - i0 /\
      forall (k : nat) p, ls_pixels st !! k = Some p ->
        exists j' c, p = mk (i0 + Z.of_nat k) (wrap32 (d0 + si * j')) c /\
                     on_line di dd (Z.of_nat k) j').
  match goal with
  | |- context [for_le fuel ?b i0 i1 ?s] =>
      destruct (for_le_total Inv b fuel i0 i1 s) as (r & Hr & HI)
  end; try assumption; try lia.
  - (* the invariant holds on entry *)
    exists 0. cbn [ls_dep ls_D ls_currentStep ls_pixels]. split_and!.
    + rewrite Z.mul_0_r, Z.add_0_r. symmetry. apply wrap32_id, Hd0.
    + unfold on_line. lia.
    + lia.
    + lia.
    + cbn. lia.
    + intros k p Hk. rewrite lookup_nil in Hk. discriminate.
  - (* each iteration keeps it *)
    intros i st Hi (j & Hdep & Hline & HD & Hcs & Hlen & Hpix).
    eexists. split; [reflexivity|].
    assert (Ecs : add32 (ls_currentStep st) 1 = i + 1 - i0)
      by (rewrite Hcs; rewrite add32_id;
          int32_arith).
    assert (Hpix' : forall (k : nat) p,
      (ls_pixels st ++ [mk i (ls_dep st)
         (interpolateColor c0 c1 (stepFraction (ls_currentStep st) di))])
        !! k = Some p ->
      exists j' c, p = mk (i0 + Z.of_nat k) (wrap32 (d0 + si * j')) c /\
                   on_line di dd (Z.of_nat k) j').
    { intros k p Hk. apply lookup_app_Some in Hk as [Hk|[Hge Hk]].
      - apply Hpix, Hk.
      - destruct (k - length (ls_pixels st))%nat as [|n] eqn:En;
          [|rewrite lookup_cons, lookup_nil in Hk; discriminate].
        cbn in Hk. injection Hk as <-.
        exists j. eexists. split.
        + rewrite Hdep. f_equal. lia.
        + replace (Z.of_nat k) with (i - i0) by lia. exact Hline. }
    unfold on_line in Hline.
    destruct (ls_D st >? 0) eqn:ED.
    + exists (j + 1). cbn [ls_dep ls_D ls_currentStep ls_pixels].
      split_and!.
      * rewrite Hdep. unfold add32. rewrite wrap32_add_l. f_equal. ring.
      * unfold on_line. lia.
      * rewrite HD. rewrite add32_id; [ring|].
        int32_arith.
      * exact Ecs.
      * rewrite length_app. cbn. lia.
      * exact Hpix'.
    + exists j. cbn [ls_dep ls_D ls_currentStep ls_pixels].
      split_and!.
      * exact Hdep.
      * unfold on_line. lia.
      * rewrite HD. rewrite add32_id; [ring|].
        int32_arith.
      * exact Ecs.
      * rewrite length_app. cbn. lia.
      * exact Hpix'.
  - (* the result *)
    destruct HI as (j & _ & _ & _ & _ & Hlen & Hpix).
    exists (ls_pixels r). rewrite Hr. split; [reflexivity|].
    split; [lia|].
    intros k p Hk.
    assert (Hklt : (k < length (ls_pixels r))%nat)
      by (apply lookup_lt_is_Some; eauto).
    destruct (Hpix k p Hk) as (j' & c & -> & Hline).
    pose proof (on_line_offset di dd (Z.of_nat k) j' ltac:(lia) ltac:(lia)
                  ltac:(lia) Hline) as Hj.
    assert (Hexact : wrap32 (d0 + si * j') = d0 + si * j').
    { apply wrap32_id. subst si.
      destruct (d1 - d0 <? 0) eqn:E; int32_arith. }
    exists (d0 + si * j'), c. rewrite Hexact. split_and!; [reflexivity| |].
    + intros ->. apply on_line_first in Hline; [|lia]. subst j'. lia.
    + intros Ek. rewrite Ek in Hline. apply on_line_last in Hline; [|lia].
      subst j'. lia.
Qed.

End Bresenham.

Section BresenhamLine.

Lemma abs32_id a : - 2147483648 < a < 2147483648 -> abs32 a = Z.abs a.
Proof.
  intros Ha. unfold abs32, neg32. destruct (a <? 0) eqn:E; [|lia].
  rewrite wrap32_id; int32_arith.
Qed.

(** What one stepper returns, read through the projections [ind] and
    [dep] of the coordinate it walks and the one that depends on it. *)
Lemma stepLine_line mk (ind dep : Vertex -> Z) fuel i0 d0 c0 i1 d1 c1 :
  (forall i d c, ind (mk i d c) = i /\ dep (mk i d c) = d) ->
  int32 i0 -> int32 i1 -> int32 d0 -> int32 d1 -> i1 < INT_MAX ->
  0 < i1 - i0 < 1073741824 ->
  Z.abs (d1 - d0) <= i1 - i0 ->
  i1 - i0 + 1 < Z.of_nat fuel ->
  exists pixels first final,
    stepLine mk fuel i0 d0 c0 i1 d1 c1 = Some pixels /\
    Z.of_nat (length pixels) = i1 - i0 + 1 /\
    head pixels = Some first /\ last pixels = Some final /\
    (ind first = i0 /\ dep first = d0) /\
    (ind final = i1 /\ dep final = d1) /\
    forall (k : nat) p q, pixels !! k = Some p -> pixels !! Datatypes.S k = Some q ->
      ind q = ind p + 1.
Proof.
  intros Hmk Hi0 Hi1 Hd0 Hd1 Hmax Hdi Hdd Hfuel.
  assert (Hind : forall i d c, ind (mk i d c) = i) by (intros; apply Hmk).
  assert (Hdep : forall i d c, dep (mk i d c) = d) by (intros; apply Hmk).
  destruct (stepLine_spec mk fuel i0 d0 c0 i1 d1 c1)
    as (pixels & Hrun & Hlen & Hpix); try assumption.
  assert (Hfirst : is_Some (pixels !! 0%nat))
    by (apply lookup_lt_is_Some; lia).
  assert (Hlast : is_Some (pixels !! Z.to_nat (i1 - i0)))
    by (apply lookup_lt_is_Some; lia).
  destruct Hfirst as [first Hfirst]. destruct Hlast as [final Hlast].
  exists pixels, first, final.
  split; [exact Hrun|]. split; [exact Hlen|].
  split; [rewrite head_lookup; exact Hfirst|].
  split.
  { rewrite last_lookup.
    replace (Nat.pred (length pixels)) with (Z.to_nat (i1 - i0)) by lia.
    exact Hlast. }
  split.
  { destruct (Hpix _ _ Hfirst) as (d & c & -> & Hd & _).
    rewrite Hind, Hdep. split; [lia | auto]. }
  split.
  { destruct (Hpix _ _ Hlast) as (d & c & -> & _ & Hd).
    rewrite Hind, Hdep. split; [lia | apply Hd; lia]. }
  intros k p q Hp Hq.
  destruct (Hpix _ _ Hp) as (d & c & -> & _).
  destruct (Hpix _ _ Hq) as (d' & c' & -> & _).
  rewrite !Hind. lia.
Qed.

Lemma lowPixel_proj i d c : vx (lowPixel i d c) = i /\ vy (lowPixel i d c) = d.
Proof. split; reflexivity. Qed.

Lemma highPixel_proj i d c :
  vy (highPixel i d c) = i /\ vx (highPixel i d c) = d.
Proof. split; reflexivity. Qed.

(** More fuel does not change the line. *)
Lemma bresenham_mono fuel fuel' x0 y0 c0 x1 y1 c1 pixels :
  (fuel <= fuel')%nat ->
  bresenham fuel x0 y0 c0 x1 y1 c1 = Some pixels ->
  bresenham fuel' x0 y0 c0 x1 y1 c1 = Some pixels.
Proof.
  intros Hle. unfold bresenham, bresenhamLow, bresenhamHigh.
  repeat match goal with |- context [if ?b then _ else _] => destruct b end;
    intros H;
    match type of H with
    | option_map _ ?l = _ => destruct l as [r|] eqn:E; [|discriminate]
    end;
    (erewrite for_le_mono; [exact H | | exact Hle | exact E]); auto.
Qed.

End BresenhamLine.

(** ** The gathering loop of [main] *)

Section GatheringLoop.
Implicit Types (input : nat -> Z) (acc ts : list Triangle).

(** [i--] and then [i++] give [i] back. *)
Lemma retry_same i : int32 i -> add32 (sub32 i 1) 1 = i.
Proof.
  intros Hi. destruct (Z.eq_dec i INT_MIN) as [->|Hne]; [reflexivity|].
  rewrite sub32_id by int32_arith. rewrite add32_id by int32_arith. lia.
Qed.

Lemma readTriangles_step fuel input pos i n acc :
  readTriangles (S fuel) input pos i n acc
  = if i <? n then
      let '(v0, v1, v2) := readTriangle input pos in
      if isCollinear v0 v1 v2
      then readTriangles fuel input (pos + 9)%nat (add32 (sub32 i 1) 1) n acc
      else readTriangles fuel input (pos + 9)%nat (add32 i 1) n
             (acc ++ [(v0, v1, v2)])
    else Some acc.
Proof. reflexivity. Qed.

(** More fuel does not change what the loop returns. *)
Lemma readTriangles_mono fuel fuel' input pos i n acc ts :
  (fuel <= fuel')%nat ->
  readTriangles fuel input pos i n acc = Some ts ->
  readTriangles fuel' input pos i n acc = Some ts.
Proof.
  revert fuel' pos i acc.
  induction fuel as [|fuel IH]; intros fuel' pos i acc Hle H; [discriminate|].
  destruct fuel' as [|fuel']; [lia|].
  rewrite readTriangles_step in H |- *.
  destruct (i <? n); [|exact H].
  destruct (readTriangle input pos) as [[v0 v1] v2].
  destruct (isCollinear v0 v1 v2); (apply IH; [lia | exact H]).
Qed.

Lemma triplesFrom_S input j m :
  triplesFrom input j (S m) = tripleAt input j :: triplesFrom input (S j) m.
Proof. reflexivity. Qed.

Lemma next_triple (j : nat) : (9 * j + 9 = 9 * S j)%nat.
Proof. lia. Qed.

Lemma filter_triplesFrom_S input j m :
  List.filter proper (triplesFrom input j (S m))
  = if proper (tripleAt input j)
    then tripleAt input j :: List.filter proper (triplesFrom input (S j) m)
    else List.filter proper (triplesFrom input (S j) m).
Proof. reflexivity. Qed.

Lemma proper_tripleAt input j v0 v1 v2 :
  readTriangle input (9 * j) = (v0, v1, v2) ->
  tripleAt input j = (v0, v1, v2) /\
  proper (tripleAt input j) = negb (isCollinear v0 v1 v2).
Proof. intros Et. unfold tripleAt. rewrite Et. split; reflexivity. Qed.

(** What the loop returns: it has read some number [m] of triples, kept
    those that are not collinear, and brought [i] to [numTriangles]; the
    last triple that it read is one that it kept. *)
Lemma readTriangles_spec fuel input j i n acc ts :
  int32 i -> int32 n ->
  readTriangles fuel input (9 * j) i n acc = Some ts ->
  exists m : nat,
    (m < fuel)%nat /\
    ts = acc ++ List.filter proper (triplesFrom input j m) /\
    i + Z.of_nat (length (List.filter proper (triplesFrom input j m)))
    = Z.max i n /\
    (m = 0%nat \/ proper (tripleAt input (j + m - 1)) = true).
Proof.
  intros Hi Hn. revert j i acc Hi.
  induction fuel as [|fuel IH]; intros j i acc Hi H; [discriminate|].
  rewrite readTriangles_step in H.
  destruct (i <? n) eqn:E.
  - destruct (readTriangle input (9 * j)) as [[v0 v1] v2] eqn:Et.
    destruct (proper_tripleAt input j v0 v1 v2 Et) as [Hat Hp].
    rewrite next_triple in H.
    destruct (isCollinear v0 v1 v2) eqn:Ec; cbn [negb] in Hp.
    + rewrite retry_same in H by exact Hi.
      apply IH in H as (m & Hm & Hts & Hc & Hlast); [|exact Hi].
      exists (S m). split; [lia|].
      rewrite filter_triplesFrom_S, Hp.
      split; [exact Hts|]. split; [exact Hc|].
      right. destruct Hlast as [->|Hlast].
      * exfalso. cbn in Hc. lia.
      * replace (j + S m - 1)%nat with (S j + m - 1)%nat by lia. exact Hlast.
    + rewrite add32_id in H by int32_arith.
      apply IH in H as (m & Hm & Hts & Hc & Hlast); [|int32_arith].
      exists (S m). split; [lia|].
      rewrite filter_triplesFrom_S, Hp, Hat. cbn [length].
      split; [rewrite Hts, <- app_assoc; reflexivity|]. split; [lia|].
      right. destruct Hlast as [->|Hlast].
      * replace (j + 1 - 1)%nat with j by lia. exact Hp.
      * replace (j + S m - 1)%nat with (S j + m - 1)%nat by lia. exact Hlast.
  - injection H as <-. exists 0%nat. split; [lia|].
    cbn. rewrite app_nil_r.
    split; [reflexivity|]. split; [lia | left; reflexivity].
Qed.

(** The loop returns once enough triples that are not collinear have
    come. *)
Lemma readTriangles_returns fuel input j i n acc (m : nat) :
  int32 i -> int32 n -> (m < fuel)%nat ->
  n - i <= Z.of_nat (length (List.filter proper (triplesFrom input j m))) ->
  exists ts, readTriangles fuel input (9 * j) i n acc = Some ts.
Proof.
  intros Hi Hn. revert fuel j i acc Hi.
  induction m as [|m IH]; intros fuel j i acc Hi Hfuel Hcount;
    (destruct fuel as [|fuel]; [lia|]);
    rewrite readTriangles_step;
    (destruct (i <? n) eqn:E; [|eexists; reflexivity]).
  - cbn in Hcount. lia.
  - rewrite filter_triplesFrom_S in Hcount.
    destruct (readTriangle input (9 * j)) as [[v0 v1] v2] eqn:Et.
    destruct (proper_tripleAt input j v0 v1 v2 Et) as [Hat Hp].
    rewrite Hp in Hcount. rewrite next_triple.
    destruct (isCollinear v0 v1 v2) eqn:Ec; cbn [negb length] in Hcount.
    + rewrite retry_same by exact Hi.
      apply IH; [exact Hi | lia | exact Hcount].
    + rewrite add32_id by int32_arith.
      apply IH; [int32_arith | lia | lia].
Qed.

(** Every triangle that the loop keeps is a triple of the input that is
    not collinear. *)
Lemma readTriangles_In fuel input j i n acc ts t :
  readTriangles fuel input (9 * j) i n acc = Some ts -> In t ts ->
  In t acc \/ exists k, tripleAt input k = t /\ proper t = true.
Proof.
  revert j i acc.
  induction fuel as [|fuel IH]; intros j i acc H Hin; [discriminate|].
  rewrite readTriangles_step in H.
  destruct (i <? n).
  - destruct (readTriangle input (9 * j)) as [[v0 v1] v2] eqn:Et.
    rewrite next_triple in H.
    destruct (isCollinear v0 v1 v2) eqn:Ec.
    + apply (IH _ _ _ H Hin).
    + destruct (IH _ _ _ H Hin) as [Hacc|Hk]; [|right; exact Hk].
      apply in_app_or in Hacc as [Hacc|[<-|[]]]; [left; exact Hacc|].
      right. exists j. split; [exact Et|].
      cbn [proper]. rewrite Ec. reflexivity.
  - injection H as <-. left. exact Hin.
Qed.

(** Two inputs that agree from the two positions on are read alike. *)
Lemma readTriangle_shift input input' pos pos' :
  (forall p : nat, input (pos + p)%nat = input' (pos' + p)%nat) ->
  readTriangle input pos = readTriangle input' pos'.
Proof.
  intros H. unfold readTriangle, readVertex.
  pose proof (H 0%nat) as H0. rewrite !Nat.add_0_r in H0.
  rewrite <- !Nat.add_assoc. cbn [Nat.add].
  rewrite H0, (H 1%nat), (H 2%nat), (H 3%nat), (H 4%nat), (H 5%nat),
    (H 6%nat), (H 7%nat), (H 8%nat).
  reflexivity.
Qed.

Lemma readTriangles_shift fuel input input' pos pos' i n acc :
  (forall p : nat, input (pos + p)%nat = input' (pos' + p)%nat) ->
  readTriangles fuel input pos i n acc = readTriangles fuel input' pos' i n acc.
Proof.
  revert pos pos' i acc.
  induction fuel as [|fuel IH]; intros pos pos' i acc H; [reflexivity|].
  rewrite !readTriangles_step.
  destruct (i <? n); [|reflexivity].
  rewrite (readTriangle_shift input input' pos pos' H).
  assert (Hnext : forall p : nat,
            input (pos + 9 + p)%nat = input' (pos' + 9 + p)%nat).
  { intros p. rewrite <- !Nat.add_assoc. apply H. }
  destruct (readTriangle input' pos') as [[v0 v1] v2].
  destruct (isCollinear v0 v1 v2); apply IH, Hnext.
Qed.

Lemma without_before input (k p : nat) :
  (p < 9 * k)%nat -> without input k p = input p.
Proof.
  intros H. unfold without.
  destruct (p <? 9 * k)%nat eqn:E; [reflexivity|].
  apply Nat.ltb_ge in E. lia.
Qed.

Lemma without_after input (k p : nat) :
  (9 * k <= p)%nat -> without input k p = input (p + 9)%nat.
Proof.
  intros H. unfold without.
  destruct (p <? 9 * k)%nat eqn:E; [|reflexivity].
  apply Nat.ltb_lt in E. lia.
Qed.

Lemma readTriangle_without input (k j : nat) :
  (j < k)%nat -> readTriangle (without input k) (9 * j) = readTriangle input (9 * j).
Proof.
  intros H. unfold readTriangle, readVertex.
  rewrite !without_before by lia. reflexivity.
Qed.

Lemma readTriangles_after input k fuel i n acc :
  readTriangles fuel input (9 * k + 9) i n acc
  = readTriangles fuel (without input k) (9 * k) i n acc.
Proof.
  apply readTriangles_shift. intros p.
  rewrite without_after by lia. f_equal. lia.
Qed.

(** A collinear triple put into the input costs the loop one more
    iteration and changes nothing of what it keeps. *)
Lemma readTriangles_with fuel input k j i n acc ts v0 v1 v2 :
  tripleAt input k = (v0, v1, v2) -> isCollinear v0 v1 v2 = true ->
  (j <= k)%nat -> int32 i ->
  readTriangles fuel (without input k) (9 * j) i n acc = Some ts ->
  readTriangles (S fuel) input (9 * j) i n acc = Some ts.
Proof.
  intros Ht Hc. unfold tripleAt in Ht. revert j i acc.
  induction fuel as [|fuel IH]; intros j i acc Hj Hi H; [discriminate|].
  destruct (Nat.eq_dec j k) as [->|Hne].
  - rewrite readTriangles_step.
    destruct (i <? n) eqn:E.
    + rewrite Ht, Hc, retry_same by exact Hi.
      rewrite readTriangles_after. exact H.
    + rewrite readTriangles_step, E in H. exact H.
  - rewrite readTriangles_step in H.
    rewrite (readTriangles_step (S fuel)).
    destruct (i <? n); [|exact H].
    rewrite readTriangle_without in H by lia.
    destruct (readTriangle input (9 * j)) as [[a b] c].
    rewrite next_triple in H |- *.
    destruct (isCollinear a b c);
      (apply IH; [lia | apply wrap32_range | exact H]).
Qed.

(** A collinear triple taken out of the input changes nothing of what
    the loop keeps. *)
Lemma readTriangles_drop fuel input k j i n acc ts v0 v1 v2 :
  tripleAt input k = (v0, v1, v2) -> isCollinear v0 v1 v2 = true ->
  (j <= k)%nat -> int32 i ->
  readTriangles fuel input (9 * j) i n acc = Some ts ->
  readTriangles fuel (without input k) (9 * j) i n acc = Some ts.
Proof.
  intros Ht Hc. unfold tripleAt in Ht. revert j i acc.
  induction fuel as [|fuel IH]; intros j i acc Hj Hi H; [discriminate|].
  destruct (Nat.eq_dec j k) as [->|Hne].
  - rewrite readTriangles_step in H.
    destruct (i <? n) eqn:E.
    + rewrite Ht, Hc, retry_same in H by exact Hi.
      rewrite readTriangles_after in H.
      apply (readTriangles_mono fuel); [lia | exact H].
    + rewrite readTriangles_step, E. exact H.
  - rewrite readTriangles_step in H |- *.
    destruct (i <? n); [|exact H].
    rewrite readTriangle_without by lia.
    destruct (readTriangle input (9 * j)) as [[a b] c].
    rewrite next_triple in H |- *.
    destruct (isCollinear a b c);
      (apply IH; [lia | apply wrap32_range | exact H]).
Qed.

End GatheringLoop.

Section DrawingLoop.
Context {Sink : Type} (put : Sink -> Z -> Z -> Z -> Sink).

(** More fuel does not change what the drawing loop returns. *)
Lemma drawAll_mono fuel fuel' s triangles r :
  (fuel <= fuel')%nat ->
  drawAll put fuel s triangles = Some r ->
  drawAll put fuel' s triangles = Some r.
Proof.
  intros Hle. revert s.
  induction triangles as [|[[v0 v1] v2] ts IH]; intros s H; [exact H|].
  cbn [drawAll] in H |- *.
  destruct (fillTriangleOn put fuel s v0 v1 v2) as [s1|] eqn:E; [|discriminate].
  rewrite (fillTriangleOn_mono put fuel fuel' s v0 v1 v2 s1 Hle E).
  apply IH, H.
Qed.

(** The custom mode draws the triangles that the gathering loop kept. *)
Lemma customMode_draws fuel s n input r :
  customMode put fuel s n input = Some r ->
  exists triangles,
    readTriangles fuel input 0 0 n [] = Some triangles /\
    drawAll put fuel s triangles = Some r.
Proof.
  unfold customMode.
  destruct (readTriangles fuel input 0 0 n []) as [ts|]; [|discriminate].
  intros H. exists ts. split; [reflexivity | exact H].
Qed.

Lemma int32_zero : int32 0.
Proof. int32_arith. Qed.

(** A collinear triple in the input leaves no trace in the picture. *)
Lemma customMode_without fuel s n input k v0 v1 v2 r :
  tripleAt input k = (v0, v1, v2) -> isCollinear v0 v1 v2 = true ->
  (customMode put fuel s n input = Some r ->
   customMode put fuel s n (without input k) = Some r) /\
  (customMode put fuel s n (without input k) = Some r ->
   customMode put (S fuel) s n input = Some r).
Proof.
  intros Ht Hc. split; intros H.
  - destruct (customMode_draws _ _ _ _ _ H) as (ts & Hts & Hdraw).
    unfold customMode.
    pose proof (readTriangles_drop fuel input k 0 0 n [] ts v0 v1 v2 Ht Hc
                  (Nat.le_0_l k) int32_zero Hts) as Hk.
    change (9 * 0)%nat with 0%nat in Hk. rewrite Hk. exact Hdraw.
  - destruct (customMode_draws _ _ _ _ _ H) as (ts & Hts & Hdraw).
    unfold customMode.
    pose proof (readTriangles_with fuel input k 0 0 n [] ts v0 v1 v2 Ht Hc
                  (Nat.le_0_l k) int32_zero Hts) as Hk.
    change (9 * 0)%nat with 0%nat in Hk. rewrite Hk.
    apply (drawAll_mono fuel); [lia | exact Hdraw].
Qed.

(** The rows of the vertices that [main] reads are numbers of the
    input. *)
Lemma tripleAt_rows (P : Z -> Prop) (input : nat -> Z) (k : nat) v0 v1 v2 :
  (forall pos, P (input pos)) ->
  tripleAt input k = (v0, v1, v2) ->
  P (vy v0) /\ P (vy v1) /\ P (vy v2).
Proof.
  intros HP. unfold tripleAt, readTriangle, readVertex. intros [= <- <- <-].
  cbn [vy]. repeat split; apply HP.
Qed.

(** The drawing loop returns when no vertex lies on the row
    [INT_MAX]. *)
Lemma drawAll_returns_on (s : Sink) triangles :
  Forall (fun t : Triangle =>
            let '(v0, v1, v2) := t in rows_below_max v0 v1 v2) triangles ->
  exists r, drawAll put ample_fuel s triangles = Some r.
Proof.
  intros H. revert s. induction H as [|[[v0 v1] v2] ts Ht Hts IH]; intros s.
  - exists s. reflexivity.
  - destruct (fillTriangleOn_returns_ample put s v0 v1 v2 Ht) as [s1 H1].
    destruct (IH s1) as [r Hr]. exists r.
    cbn [drawAll]. rewrite H1. exact Hr.
Qed.

(** The custom mode returns once the input has brought [numTriangles]
    triples that are not collinear, when no number read is
    [INT_MAX]. *)
Lemma customMode_returns (s : Sink) n (input : nat -> Z) (m : nat) :
  int32 n ->
  (forall pos, int32 (input pos) /\ input pos < INT_MAX) ->
  n <= Z.of_nat (length (List.filter proper (triplesFrom input 0 m))) ->
  exists fuel r, customMode put fuel s n input = Some r.
Proof.
  intros Hn Hin Hcount.
  pose (fuel := Nat.max ample_fuel (S m)).
  assert (Hample : (ample_fuel <= fuel)%nat) by apply Nat.le_max_l.
  assert (Hm : (m < fuel)%nat)
    by (apply Nat.lt_le_trans with (S m);
        [apply Nat.lt_succ_diag_r | apply Nat.le_max_r]).
  destruct (readTriangles_returns fuel input 0 0 n [] m
              int32_zero Hn Hm ltac:(lia)) as [ts Hts].
  change (9 * 0)%nat with 0%nat in Hts.
  destruct (drawAll_returns_on s ts) as [r Hr].
  - apply List.Forall_forall. intros [[v0 v1] v2] Ht.
    destruct (readTriangles_In fuel input 0 0 n [] ts _ Hts Ht)
      as [[]|(k & Hk & _)].
    destruct (tripleAt_rows (fun z => int32 z /\ z < INT_MAX) input k v0 v1 v2
                Hin Hk) as (Y0 & Y1 & Y2).
    unfold rows_below_max. tauto.
  - exists fuel, r. unfold customMode. rewrite Hts.
    apply (drawAll_mono ample_fuel); [exact Hample | exact Hr].
Qed.

End DrawingLoop.

(** * The claims *)

(** ** C1: the default triangle *)

Section DefaultTriangle.

Lemma default_size :
  0 <= SCREEN_WIDTH /\ 0 <= SCREEN_HEIGHT /\
  SCREEN_WIDTH * SCREEN_HEIGHT <= INT_MAX.
Proof. unfold SCREEN_WIDTH, SCREEN_HEIGHT, INT_MAX. lia. Qed.

Lemma default_screen_wf : screen_wf (black_screen SCREEN_WIDTH SCREEN_HEIGHT).
Proof.
  destruct default_size as (Hw & Hh & Hmax).
  apply black_screen_wf; assumption.
Qed.

(** The screen that [main] gets from [drawScreen] is the black screen
    of 500 by 500. *)
Lemma default_screen fuel fresh s :
  drawScreen fuel true fresh SCREEN_WIDTH SCREEN_HEIGHT = Some (Ready s) ->
  s = black_screen SCREEN_WIDTH SCREEN_HEIGHT.
Proof.
  intros Hrun. destruct default_size as (Hw & Hh & Hmax).
  apply drawScreen_result in Hrun.
  rewrite (started_black _ _ Hw Hh Hmax) in Hrun.
  injection Hrun as ->. reflexivity.
Qed.

Lemma default_rows : rows_below_max tri_v0 tri_v1 tri_v2.
Proof. vm_compute. repeat split; discriminate. Qed.

Lemma default_sorted : sortByY tri_v0 tri_v1 tri_v2 = (tri_v0, tri_v1, tri_v2).
Proof. reflexivity. Qed.

(** On the row of the apex both edges are at x = 250. *)
Lemma default_top_row :
  scanEdges tri_v0 tri_v1 tri_v2 100 = Some (mkSpan 250 250 RED RED).
Proof. vm_compute. reflexivity. Qed.

(** The bottom row belongs to the lower half, which is flat. *)
Lemma default_bottom_row : scanEdges tri_v0 tri_v1 tri_v2 400 = None.
Proof. reflexivity. Qed.

(** What the calls of the fill say about the rows of the three
    vertices: one call on the row of the apex, none on the bottom
    row. *)
Lemma default_triangle_calls fuel log :
  fillTriangle_calls fuel tri_v0 tri_v1 tri_v2 = Some log ->
  calls_on_row log 100 = [(250, 100, RED)] /\
  calls_on_row log 400 = [].
Proof.
  intros Hlog.
  destruct default_rows as ((H0 & _) & _ & (H2 & _)).
  assert (Hne : vy tri_v0 <> vy tri_v2) by discriminate.
  split.
  - apply (fillTriangle_single_call fuel tri_v0 tri_v1 tri_v2
             tri_v0 tri_v1 tri_v2 log 100 (mkSpan 250 250 RED RED)
             H0 H2 ltac:(split; discriminate) default_sorted Hne
             default_top_row eq_refl Hlog).
  - apply (fillTriangle_no_call fuel tri_v0 tri_v1 tri_v2
             tri_v0 tri_v1 tri_v2 log 400 H0 H2 default_sorted
             (fun _ => default_bottom_row) Hlog).
Qed.

(** With RED, GREEN and BLUE at the vertices the red, green and blue
    channels may take any value, and alpha is 255 at each of them. *)
Lemma opaque_within color :
  channel 0 color = 255 -> color_within RED GREEN BLUE color = true.
Proof.
  intros Ha. unfold color_within, channel_within. rewrite Ha.
  assert (Hb : forall k, 0 <= channel k color <= 255).
  { intros k. unfold channel. change 255 with (Z.ones 8).
    rewrite Z.land_ones by lia.
    change (2 ^ 8) with 256. change (Z.ones 8) with 255.
    pose proof (Z.mod_pos_bound (Z.shiftr color k) 256 ltac:(lia)). lia. }
  change (channel 24 RED) with 255. change (channel 24 GREEN) with 0.
  change (channel 24 BLUE) with 0. change (channel 16 RED) with 0.
  change (channel 16 GREEN) with 255. change (channel 16 BLUE) with 0.
  change (channel 8 RED) with 0. change (channel 8 GREEN) with 0.
  change (channel 8 BLUE) with 255. change (channel 0 RED) with 255.
  change (channel 0 GREEN) with 255. change (channel 0 BLUE) with 255.
  pose proof (Hb 24). pose proof (Hb 16). pose proof (Hb 8).
  repeat (apply andb_true_iff; split); apply Z.leb_le; lia.
Qed.

(** The picture of the fill at the three vertices. *)
Lemma default_triangle_pixels fuel s' :
  fillTriangle fuel (black_screen SCREEN_WIDTH SCREEN_HEIGHT)
    tri_v0 tri_v1 tri_v2 = Some s' ->
  pixel_at s' 250 100 = Some RED /\
  pixel_at s' 100 400 = Some BLACK /\
  pixel_at s' 400 400 = Some BLACK.
Proof.
  intros Hrun.
  destruct (fillTriangle_has_calls _ _ _ _ _ _ Hrun) as (log & Hlog & ->).
  destruct (default_triangle_calls fuel log Hlog) as (Htop & Hbottom).
  pose proof default_screen_wf as Hwf.
  assert (Hw : width (black_screen SCREEN_WIDTH SCREEN_HEIGHT) = 500)
    by reflexivity.
  assert (Hh : height (black_screen SCREEN_WIDTH SCREEN_HEIGHT) = 500)
    by reflexivity.
  rewrite !pixel_at_replay by (assumption || rewrite ?Hw, ?Hh; lia).
  rewrite (find_call_on_row log 250 100), (find_call_on_row log 100 400),
    (find_call_on_row log 400 400), Htop, Hbottom.
  split; [reflexivity|].
  split; apply black_screen_pixel; unfold SCREEN_WIDTH, SCREEN_HEIGHT; lia.
Qed.

End DefaultTriangle.

(** C1, as the code has it. On the screen of 500 by 500 that
    [drawScreen] has set up, the fill of the triangle (250,100,RED),
    (100,400,GREEN), (400,400,BLUE) returns and leaves RED at (250,100).
    The two lower vertices lie on the flat bottom row 400, which the
    loop skips: the fill issues no call of [setPixel] for that row, so
    (100,400) and (400,400) are not written and keep the black of the
    cleared screen. On the row of the apex the fill issues one call, for
    (250,100) with RED. Every colour written has each of its four
    channels between the least and the greatest value of that channel
    among RED, GREEN and BLUE. *)
Theorem default_triangle_fill (fresh : nat -> Z) :
  (exists fuel s s',
     drawScreen fuel true fresh SCREEN_WIDTH SCREEN_HEIGHT = Some (Ready s) /\
     fillTriangle fuel s tri_v0 tri_v1 tri_v2 = Some s') /\
  (forall fuel0 fuel s s',
     drawScreen fuel0 true fresh SCREEN_WIDTH SCREEN_HEIGHT = Some (Ready s) ->
     fillTriangle fuel s tri_v0 tri_v1 tri_v2 = Some s' ->
     pixel_at s' 250 100 = Some RED /\
     pixel_at s' 100 400 = Some BLACK /\
     pixel_at s' 400 400 = Some BLACK) /\
  (forall fuel log,
     fillTriangle_calls fuel tri_v0 tri_v1 tri_v2 = Some log ->
     calls_on_row log 100 = [(250, 100, RED)] /\
     calls_on_row log 400 = [] /\
     find_call log 250 100 = Some RED /\
     find_call log 100 400 = None /\
     find_call log 400 400 = None /\
     Forall (fun c : Call => color_within RED GREEN BLUE (snd c) = true) log).
Proof.
  split; [|split].
  - destruct default_size as (Hw & Hh & Hmax).
    pose proof (drawScreen_returns ample_fuel fresh SCREEN_WIDTH SCREEN_HEIGHT)
      as Hscreen.
    rewrite (started_black _ _ Hw Hh Hmax) in Hscreen.
    destruct (fillTriangleOn_returns_ample setPixel
                (black_screen SCREEN_WIDTH SCREEN_HEIGHT) _ _ _ default_rows)
      as [s' Hrun].
    exists ample_fuel, (black_screen SCREEN_WIDTH SCREEN_HEIGHT), s'.
    split; [|exact Hrun].
    apply Hscreen.
    pose proof (wrap32_range (SCREEN_WIDTH * SCREEN_HEIGHT)) as Hr.
    pose proof ample_fuel_enough as Hf.
    unfold mul32. unfold int32, INT_MAX in Hr. lia.
  - intros fuel0 fuel s s' Hscreen Hrun.
    rewrite (default_screen fuel0 fresh s Hscreen) in Hrun.
    exact (default_triangle_pixels fuel s' Hrun).
  - intros fuel log Hlog.
    destruct (default_triangle_calls fuel log Hlog) as (Htop & Hbottom).
    split; [exact Htop|]. split; [exact Hbottom|].
    rewrite (find_call_on_row log 250 100), (find_call_on_row log 100 400),
      (find_call_on_row log 400 400), Htop, Hbottom.
    split; [reflexivity|]. split; [reflexivity|]. split; [reflexivity|].
    destruct default_rows as ((H0 & _) & (H1 & _) & (H2 & _)).
    pose proof (fillTriangle_calls_opaque fuel _ _ _ log H0 H1 H2
                  eq_refl eq_refl eq_refl Hlog) as Hop.
    eapply Forall_impl; [exact Hop|].
    intros c Hc. apply opaque_within, Hc.
Qed.

Lemma default_triangle_fill_example :
  exists fuel s s',
    drawScreen fuel true (fun _ => 0) SCREEN_WIDTH SCREEN_HEIGHT
    = Some (Ready s) /\
    fillTriangle fuel s tri_v0 tri_v1 tri_v2 = Some s' /\
    pixel_at s' 250 100 = Some RED /\
    pixel_at s' 100 400 = Some BLACK /\
    pixel_at s' 400 400 = Some BLACK.
Proof.
  destruct (default_triangle_fill (fun _ => 0))
    as ((fuel & s & s' & Hscreen & Hrun) & Hpixels & _).
  exists fuel, s, s'.
  split; [exact Hscreen|]. split; [exact Hrun|].
  exact (Hpixels fuel fuel s s' Hscreen Hrun).
Defined.

(** C1, as the specification states it, fails: whatever the fuel and
    the contents of the fresh memory, the fill does not leave GREEN at
    (100,400). *)
Lemma default_triangle_bottom_row_unwritten :
  ~ exists fuel0 fuel fresh s s',
      drawScreen fuel0 true fresh SCREEN_WIDTH SCREEN_HEIGHT = Some (Ready s) /\
      fillTriangle fuel s tri_v0 tri_v1 tri_v2 = Some s' /\
      pixel_at s' 250 100 = Some RED /\
      pixel_at s' 100 400 = Some GREEN /\
      pixel_at s' 400 400 = Some BLUE.
Proof.
  intros (fuel0 & fuel & fresh & s & s' & Hscreen & Hrun & _ & Hgreen & _).
  rewrite (default_screen fuel0 fresh s Hscreen) in Hrun.
  destruct (default_triangle_pixels fuel s' Hrun) as (_ & Hblack & _).
  rewrite Hblack in Hgreen. discriminate Hgreen.
Qed.

(** ** C2: degenerate triangles *)

(** C2. A triangle whose three vertices share a row makes [fillTriangle]
    issue no call of [setPixel] and return the screen as it was. A triple
    on which [isCollinear] answers true never reaches [fillTriangle] in
    the custom mode of [main]: it is not among the triangles that the
    gathering loop keeps, and the picture and the calls of a run are
    those of the run on the input without that triple; with the triple,
    the run takes one more iteration of the gathering loop, and returns
    whenever the run without it does. The custom mode does return,
    given fuel, once the input has brought [numTriangles] triples that
    are not collinear, when no number read is [INT_MAX]. *)
Theorem degenerate_triangles_write_nothing :
  (forall fuel s v0 v1 v2,
     vy v0 = vy v1 -> vy v1 = vy v2 ->
     fillTriangle_calls fuel v0 v1 v2 = Some [] /\
     fillTriangle fuel s v0 v1 v2 = Some s) /\
  (forall fuel s numTriangles input k v0 v1 v2,
     tripleAt input k = (v0, v1, v2) -> isCollinear v0 v1 v2 = true ->
     (forall triangles,
        readTriangles fuel input 0 0 numTriangles [] = Some triangles ->
        ~ In (v0, v1, v2) triangles) /\
     (forall s',
        customMode setPixel fuel s numTriangles input = Some s' ->
        customMode setPixel fuel s numTriangles (without input k) = Some s') /\
     (forall s',
        customMode setPixel fuel s numTriangles (without input k) = Some s' ->
        customMode setPixel (S fuel) s numTriangles input = Some s') /\
     (forall log,
        customMode record fuel [] numTriangles input = Some log ->
        customMode record fuel [] numTriangles (without input k) = Some log) /\
     (forall log,
        customMode record fuel [] numTriangles (without input k) = Some log ->
        customMode record (S fuel) [] numTriangles input = Some log)) /\
  (forall s numTriangles input (m : nat),
     int32 numTriangles ->
     (forall pos, int32 (input pos) /\ input pos < INT_MAX) ->
     numTriangles
     <= Z.of_nat (length (List.filter proper (triplesFrom input 0 m))) ->
     (exists fuel s', customMode setPixel fuel s numTriangles input = Some s') /\
     (exists fuel log,
        customMode record fuel [] numTriangles input = Some log)).
Proof.
  split; [|split].
  - intros fuel s v0 v1 v2 H01 H12.
    unfold fillTriangle_calls, fillTriangle, fillTriangleOn.
    rewrite sortByY_flat by assumption.
    replace (vy v0 =? vy v2) with true by (symmetry; apply Z.eqb_eq; lia).
    split; reflexivity.
  - intros fuel s n input k v0 v1 v2 Ht Hc.
    split; [|split; [|split; [|split]]].
    + intros triangles Hts Hin.
      destruct (readTriangles_In fuel input 0 0 n [] triangles _ Hts Hin)
        as [[]|(j & _ & Hp)].
      cbn [proper] in Hp. rewrite Hc in Hp. discriminate Hp.
    + intros s'.
      apply (customMode_without setPixel fuel s n input k v0 v1 v2 s' Ht Hc).
    + intros s'.
      apply (customMode_without setPixel fuel s n input k v0 v1 v2 s' Ht Hc).
    + intros log.
      apply (customMode_without record fuel [] n input k v0 v1 v2 log Ht Hc).
    + intros log.
      apply (customMode_without record fuel [] n input k v0 v1 v2 log Ht Hc).
  - intros s n input m Hn Hin Hcount. split.
    + exact (customMode_returns setPixel s n input m Hn Hin Hcount).
    + exact (customMode_returns record [] n input m Hn Hin Hcount).
Qed.

Lemma degenerate_triangles_write_nothing_example :
  (vy (mkVertex 1 5 RED) = vy (mkVertex 4 5 GREEN) /\
   vy (mkVertex 4 5 GREEN) = vy (mkVertex 7 5 BLUE)) /\
  fillTriangle_calls 10 (mkVertex 1 5 RED) (mkVertex 4 5 GREEN)
    (mkVertex 7 5 BLUE) = Some [] /\
  (tripleAt (typed [0; 0; 1; 2; 2; 2; 5; 5; 3; 2; 0; 1; 0; 3; 2; 4; 3; 3]) 0
   = (mkVertex 0 0 RED, mkVertex 2 2 GREEN, mkVertex 5 5 BLUE) /\
   isCollinear (mkVertex 0 0 RED) (mkVertex 2 2 GREEN) (mkVertex 5 5 BLUE)
   = true) /\
  exists log,
    customMode record 10 [] 1
      (without
         (typed [0; 0; 1; 2; 2; 2; 5; 5; 3; 2; 0; 1; 0; 3; 2; 4; 3; 3]) 0)
    = Some log /\
    customMode record 11 [] 1
      (typed [0; 0; 1; 2; 2; 2; 5; 5; 3; 2; 0; 1; 0; 3; 2; 4; 3; 3])
    = Some log.
Proof.
  assert (Hflat : vy (mkVertex 1 5 RED) = vy (mkVertex 4 5 GREEN) /\
                  vy (mkVertex 4 5 GREEN) = vy (mkVertex 7 5 BLUE))
    by (split; reflexivity).
  assert (Ht : tripleAt
                 (typed [0; 0; 1; 2; 2; 2; 5; 5; 3; 2; 0; 1; 0; 3; 2; 4; 3; 3])
                 0
               = (mkVertex 0 0 RED, mkVertex 2 2 GREEN, mkVertex 5 5 BLUE))
    by reflexivity.
  assert (Hcol : isCollinear (mkVertex 0 0 RED) (mkVertex 2 2 GREEN)
                   (mkVertex 5 5 BLUE) = true) by reflexivity.
  split; [exact Hflat|].
  split.
  { exact (proj1 (proj1 degenerate_triangles_write_nothing 10%nat small_screen
             _ _ _ (proj1 Hflat) (proj2 Hflat))). }
  split; [exact (conj Ht Hcol)|].
  assert (Hrun : is_Some
            (customMode record 10 [] 1
               (without
                  (typed [0; 0; 1; 2; 2; 2; 5; 5; 3;
                          2; 0; 1; 0; 3; 2; 4; 3; 3]) 0)))
    by (vm_compute; eexists; reflexivity).
  destruct Hrun as [log Hrun].
  exists log. split; [exact Hrun|].
  destruct (proj1 (proj2 degenerate_triangles_write_nothing) 10%nat
              small_screen 1 _ 0%nat _ _ _ Ht Hcol)
    as (_ & _ & _ & _ & Hwith).
  exact (Hwith log Hrun).
Defined.

(** ** C3: the line rasterizer *)

(** From what a stepper returns to what [bresenham] returns; [side]
    tells which input point the stepper started from. *)
Ltac line_from H side :=
  let Hrun := fresh in let Hlen := fresh in
  destruct H as (Hrun & Hlen & ? & ? & ? & ? & ?);
  rewrite Hrun, Hlen;
  split; [reflexivity|]; split; [lia|];
  split; [assumption|]; split; [assumption|];
  split; [side; tauto | assumption].

(** C3, as the code has it. For two distinct points whose coordinates
    are 32-bit values below [INT_MAX] and less than 2^30 apart on each
    axis, [bresenham] returns max(|dx|,|dy|) + 1 pixels; the first is at
    one of the two points and the last at the other; and the coordinate
    along the dominant axis grows by 1 from each pixel to the next. *)
Theorem bresenham_line fuel x0 y0 color0 x1 y1 color1 :
  line_in_range x0 y0 x1 y1 ->
  (x0, y0) <> (x1, y1) ->
  Z.max (Z.abs (x1 - x0)) (Z.abs (y1 - y0)) + 1 < Z.of_nat fuel ->
  exists pixels first final,
    bresenham fuel x0 y0 color0 x1 y1 color1 = Some pixels /\
    Z.of_nat (length pixels)
    = Z.max (Z.abs (x1 - x0)) (Z.abs (y1 - y0)) + 1 /\
    head pixels = Some first /\ last pixels = Some final /\
    ((vx first = x0 /\ vy first = y0) /\ (vx final = x1 /\ vy final = y1) \/
     (vx first = x1 /\ vy first = y1) /\ (vx final = x0 /\ vy final = y0)) /\
    forall (k : nat) p q,
      pixels !! k = Some p -> pixels !! Datatypes.S k = Some q ->
      dominant x0 y0 x1 y1 q = dominant x0 y0 x1 y1 p + 1.
Proof.
  intros ((Hx0 & Mx0) & (Hy0 & My0) & (Hx1 & Mx1) & (Hy1 & My1) & Hdx & Hdy)
    Hne Hfuel.
  assert (Hdist : x0 <> x1 \/ y0 <> y1).
  { destruct (Z.eq_dec x0 x1) as [->|]; [|auto].
    destruct (Z.eq_dec y0 y1) as [->|]; [|auto]. congruence. }
  unfold bresenham, dominant.
  rewrite !sub32_id by int32_arith.
  rewrite !abs32_id by lia.
  destruct (Z.abs (y1 - y0) <? Z.abs (x1 - x0)) eqn:Edom.
  - (* shallow: walk along x *)
    destruct (x0 >? x1) eqn:Eswap; rewrite bresenhamLow_stepLine.
    + destruct (stepLine_line lowPixel vx vy fuel x1 y1 color1 x0 y0 color0
                  lowPixel_proj) as (pixels & first & final & Hline);
        try assumption; try lia.
      exists pixels, first, final. line_from Hline ltac:(right).
    + destruct (stepLine_line lowPixel vx vy fuel x0 y0 color0 x1 y1 color1
                  lowPixel_proj) as (pixels & first & final & Hline);
        try assumption; try lia.
      exists pixels, first, final. line_from Hline ltac:(left).
  - (* steep: walk along y *)
    destruct (y0 >? y1) eqn:Eswap; rewrite bresenhamHigh_stepLine.
    + destruct (stepLine_line highPixel vy vx fuel y1 x1 color1 y0 x0 color0
                  highPixel_proj) as (pixels & first & final & Hline);
        try assumption; try lia.
      exists pixels, first, final. line_from Hline ltac:(right).
    + destruct (stepLine_line highPixel vy vx fuel y0 x0 color0 y1 x1 color1
                  highPixel_proj) as (pixels & first & final & Hline);
        try assumption; try lia.
      exists pixels, first, final. line_from Hline ltac:(left).
Qed.

Lemma bresenham_line_example :
  line_in_range 0 0 5 2 /\ (0, 0) <> (5, 2) /\
  exists pixels,
    bresenham 10 0 0 RED 5 2 GREEN = Some pixels /\
    Z.of_nat (length pixels) = 6.
Proof.
  assert (Hr : line_in_range 0 0 5 2)
    by (unfold line_in_range, int32; vm_compute; repeat split; discriminate).
  assert (Hne : (0, 0) <> (5, 2)) by discriminate.
  split; [exact Hr|]. split; [exact Hne|].
  destruct (bresenham_line 10 0 0 RED 5 2 GREEN Hr Hne)
    as (pixels & _ & _ & Hrun & Hlen & _).
  - vm_compute. reflexivity.
  - exists pixels. split; [exact Hrun | exact Hlen].
Defined.

(** C3, as the specification states it, fails: from (-2^31, 0) to
    (2^31 - 1, 5) the difference of the x coordinates wraps to -1, the
    line is taken for a steep one and six pixels come back. *)
Lemma bresenham_wraps_on_wide_line :
  ~ exists fuel pixels,
      bresenham fuel (-2147483648) 0 RED 2147483647 5 RED = Some pixels /\
      Z.of_nat (length pixels)
      = Z.max (Z.abs (2147483647 - -2147483648)) (Z.abs (5 - 0)) + 1.
Proof.
  intros (fuel & pixels & Hrun & Hlen).
  apply (bresenham_mono fuel (Nat.max fuel 10)) in Hrun; [|lia].
  assert (H10 : exists six,
             bresenham 10 (-2147483648) 0 RED 2147483647 5 RED = Some six /\
             length six = 6%nat)
    by (eexists; split; [vm_compute; reflexivity | reflexivity]).
  destruct H10 as (six & Hsix & Hlen6).
  apply (bresenham_mono 10 (Nat.max fuel 10)) in Hsix; [|lia].
  rewrite Hrun in Hsix. injection Hsix as ->.
  rewrite Hlen6 in Hlen. vm_compute in Hlen. discriminate Hlen.
Qed.

(** ** C4: [setPixel] *)

(** C4. A call of [setPixel] outside the screen changes nothing at all.
    A call inside a well-formed screen keeps the size of the buffer,
    puts the colour at index [y * width + x] and leaves every other
    entry as it was. *)
Theorem setPixel_bounds_and_frame (s : Screen) (x y color : Z) :
  (x < 0 \/ x >= width s \/ y < 0 \/ y >= height s ->
   setPixel s x y color = s) /\
  (screen_wf s -> 0 <= x < width s -> 0 <= y < height s ->
   width (setPixel s x y color) = width s /\
   height (setPixel s x y color) = height s /\
   length (pixels (setPixel s x y color)) = length (pixels s) /\
   pixels (setPixel s x y color) !! Z.to_nat (y * width s + x) = Some color /\
   forall i : nat, i <> Z.to_nat (y * width s + x) ->
     pixels (setPixel s x y color) !! i = pixels s !! i).
Proof.
  split; [apply setPixel_outside|].
  intros Hwf Hx Hy.
  split; [apply setPixel_width|]. split; [apply setPixel_height|].
  split; [apply setPixel_length|].
  rewrite setPixel_inside by assumption.
  pose proof (index_in_range s x y Hwf Hx Hy) as Hi.
  destruct Hwf as (_ & _ & _ & Hlen).
  split.
  - apply list_lookup_insert_eq. lia.
  - intros i Hne. apply list_lookup_insert_ne. congruence.
Qed.

Lemma setPixel_bounds_and_frame_example :
  (8 < 0 \/ 8 >= width small_screen \/ 3 < 0 \/ 3 >= height small_screen) /\
  setPixel small_screen 8 3 RED = small_screen /\
  screen_wf small_screen /\
  pixels (setPixel small_screen 2 3 RED) !! 26%nat = Some RED /\
  pixels (setPixel small_screen 2 3 RED) !! 25%nat = Some BLACK.
Proof.
  assert (Hout : 8 < 0 \/ 8 >= width small_screen \/
                 3 < 0 \/ 3 >= height small_screen)
    by (right; left; vm_compute; discriminate).
  assert (Hwf : screen_wf small_screen)
    by (unfold screen_wf; vm_compute; repeat split; discriminate).
  assert (Hx : 0 <= 2 < width small_screen) by (vm_compute; split; congruence).
  assert (Hy : 0 <= 3 < height small_screen) by (vm_compute; split; congruence).
  split; [exact Hout|].
  split; [exact (proj1 (setPixel_bounds_and_frame small_screen 8 3 RED) Hout)|].
  split; [exact Hwf|].
  destruct (proj2 (setPixel_bounds_and_frame small_screen 2 3 RED) Hwf Hx Hy)
    as (_ & _ & _ & Hat & Hothers).
  split; [exact Hat|].
  rewrite (Hothers 25%nat) by (vm_compute; lia). reflexivity.
Defined.

(** ** C5: the ends of the interpolation *)

(** C5. For all 32-bit colours [A] and [B], [interpolateColor A B 0.0]
    is [A] and [interpolateColor A B 1.0] is [B], bit for bit. *)
Theorem interpolateColor_endpoints (A B : Z) :
  uint32 A -> uint32 B ->
  interpolateColor A B fzero = A /\ interpolateColor A B fone = B.
Proof.
  intros HA HB. unfold interpolateColor. cbv zeta.
  pose proof (fun zA zB =>
    interpolateChannel_endpoints _ _ (byte_range zA) (byte_range zB)) as Hch.
  split.
  - rewrite !(fun zA zB => proj1 (Hch zA zB)), !to_u8_byte.
    apply pack_unpack, HA.
  - rewrite !(fun zA zB => proj2 (Hch zA zB)), !to_u8_byte.
    apply pack_unpack, HB.
Qed.

Lemma interpolateColor_endpoints_example :
  (uint32 ORANGE /\ uint32 PINK) /\
  interpolateColor ORANGE PINK fzero = ORANGE /\
  interpolateColor ORANGE PINK fone = PINK.
Proof.
  assert (HA : uint32 ORANGE) by (vm_compute; split; congruence).
  assert (HB : uint32 PINK) by (vm_compute; split; congruence).
  split; [split; assumption|].
  exact (interpolateColor_endpoints ORANGE PINK HA HB).
Defined.

(** ** C6: [isCollinear] *)

Lemma isCollinear_mod v0 v1 v2 :
  isCollinear v0 v1 v2 = true <-> signedArea v0 v1 v2 mod 4294967296 = 0.
Proof.
  unfold isCollinear, signedArea. rewrite Z.eqb_eq.
  unfold sub32 at 1. rewrite wrap32_zero.
  rewrite Zminus_mod. unfold mul32. rewrite !wrap32_mod.
  rewrite (Zmult_mod (sub32 _ _) (sub32 _ _)).
  rewrite (Zmult_mod (sub32 (vx v2) _) (sub32 _ _)).
  unfold sub32. rewrite !wrap32_mod.
  rewrite <- !Zmult_mod, <- Zminus_mod. reflexivity.
Qed.

(** C6, as the code has it. [isCollinear] computes the signed area in
    32-bit arithmetic, so it answers whether the exact area is a multiple
    of 2^32. Where the exact area is below 2^32 in magnitude, and so for
    all coordinates between -16384 and 16384, that is whether the area is
    zero. The function takes no screen and returns a boolean only. *)
Theorem isCollinear_signed_area (v0 v1 v2 : Vertex) :
  (isCollinear v0 v1 v2 = true <-> signedArea v0 v1 v2 mod 4294967296 = 0) /\
  (- 4294967296 < signedArea v0 v1 v2 < 4294967296 ->
   (isCollinear v0 v1 v2 = true <-> signedArea v0 v1 v2 = 0)) /\
  ((forall v, In v [v0; v1; v2] ->
      - 16384 <= vx v <= 16384 /\ - 16384 <= vy v <= 16384) ->
   (isCollinear v0 v1 v2 = true <-> signedArea v0 v1 v2 = 0)).
Proof.
  assert (Hsmall : - 4294967296 < signedArea v0 v1 v2 < 4294967296 ->
                   (isCollinear v0 v1 v2 = true <-> signedArea v0 v1 v2 = 0)).
  { intros Hr. rewrite isCollinear_mod. split.
    - intros Hm.
      pose proof (Z.div_mod (signedArea v0 v1 v2) 4294967296 ltac:(lia)) as Hd.
      rewrite Hm in Hd. lia.
    - intros ->. reflexivity. }
  split; [apply isCollinear_mod|]. split; [exact Hsmall|].
  intros Hc. apply Hsmall.
  pose proof (Hc v0 ltac:(cbn; auto)) as H0.
  pose proof (Hc v1 ltac:(cbn; auto)) as H1.
  pose proof (Hc v2 ltac:(cbn; auto)) as H2.
  unfold signedArea. nia.
Qed.

Lemma isCollinear_signed_area_example :
  - 4294967296 < signedArea tri_v0 tri_v1 tri_v2 < 4294967296 /\
  (isCollinear tri_v0 tri_v1 tri_v2 = true
   <-> signedArea tri_v0 tri_v1 tri_v2 = 0).
Proof.
  assert (H : - 4294967296 < signedArea tri_v0 tri_v1 tri_v2 < 4294967296)
    by (vm_compute; split; reflexivity).
  split; [exact H|].
  exact (proj1 (proj2 (isCollinear_signed_area tri_v0 tri_v1 tri_v2)) H).
Defined.

(** C6, as the specification states it, fails: the area of the triangle
    (0,0), (65536,0), (0,65536) is 2^32, which 32-bit arithmetic takes
    for zero. *)
Lemma isCollinear_overflow :
  ~ (isCollinear (mkVertex 0 0 RED) (mkVertex 65536 0 GREEN)
                 (mkVertex 0 65536 BLUE) = true
     <-> signedArea (mkVertex 0 0 RED) (mkVertex 65536 0 GREEN)
                    (mkVertex 0 65536 BLUE) = 0).
Proof. intros [H _]. specialize (H eq_refl). discriminate H. Qed.

(** ** C7: a span of zero width *)

(** C7. On a row of the triangle whose two boundary positions truncate
    to the same integer, [fillTriangle] issues one call of [setPixel]
    for that row, at that position and with [color_left], and no other:
    on the screen the position takes [color_left] and the rest of the
    row is as it was. The vertices [a], [b], [c] are those of the
    triangle in the order in which [fillTriangle] has them after its
    sort. The fill does return, given fuel, whenever no vertex lies on
    the row [INT_MAX]. *)
Theorem zero_width_span_single_write v0 v1 v2 a b c y sp :
  int32 (vy v0) -> int32 (vy v1) -> int32 (vy v2) ->
  sortByY v0 v1 v2 = (a, b, c) -> vy a <> vy c -> vy a <= y <= vy c ->
  scanEdges a b c y = Some sp ->
  x_left sp = x_right sp ->
  (forall fuel log,
     fillTriangle_calls fuel v0 v1 v2 = Some log ->
     calls_on_row log y = [(x_left sp, y, color_left sp)]) /\
  (forall fuel s s',
     screen_wf s ->
     fillTriangle fuel s v0 v1 v2 = Some s' ->
     forall x, on_screen s x y ->
       pixel_at s' x y
       = if x =? x_left sp then Some (color_left sp) else pixel_at s x y) /\
  (rows_below_max v0 v1 v2 ->
   (exists fuel log, fillTriangle_calls fuel v0 v1 v2 = Some log) /\
   (forall s, exists fuel s', fillTriangle fuel s v0 v1 v2 = Some s')).
Proof.
  intros H0 H1 H2 Hs Hne Hy Hsp Heq.
  destruct (sortByY_spec v0 v1 v2 a b c Hs) as (_ & _ & _ & Hin).
  destruct (Hin (fun v => int32 (vy v)) H0 H1 H2) as (Ha & _ & Hc).
  assert (Hcalls : forall fuel log,
            fillTriangle_calls fuel v0 v1 v2 = Some log ->
            calls_on_row log y = [(x_left sp, y, color_left sp)]).
  { intros fuel log Hlog.
    exact (fillTriangle_single_call fuel v0 v1 v2 a b c log y sp
             Ha Hc Hy Hs Hne Hsp Heq Hlog). }
  split; [exact Hcalls|]. split.
  - intros fuel s s' Hwf Hrun x Hx.
    destruct (fillTriangle_has_calls fuel s v0 v1 v2 s' Hrun)
      as (log & Hlog & ->).
    rewrite (pixel_at_replay s log x y Hwf (proj1 Hx) (proj2 Hx)).
    rewrite (find_call_on_row log x y), (Hcalls fuel log Hlog).
    cbn [find_call]. rewrite Z.eqb_refl, andb_true_r, (Z.eqb_sym x).
    destruct (x_left sp =? x); reflexivity.
  - intros Hrows. split.
    + destruct (fillTriangleOn_returns_ample record [] v0 v1 v2 Hrows)
        as [log Hlog].
      exists ample_fuel, log. exact Hlog.
    + intros s.
      destruct (fillTriangleOn_returns_ample setPixel s v0 v1 v2 Hrows)
        as [s' Hrun].
      exists ample_fuel, s'. exact Hrun.
Qed.

Lemma zero_width_span_single_write_example :
  rows_below_max tri_v0 tri_v1 tri_v2 /\
  scanEdges tri_v0 tri_v1 tri_v2 100 = Some (mkSpan 250 250 RED RED) /\
  exists fuel log,
    fillTriangle_calls fuel tri_v0 tri_v1 tri_v2 = Some log /\
    calls_on_row log 100 = [(250, 100, RED)].
Proof.
  assert (Hy : vy tri_v0 <= 100 <= vy tri_v2) by (split; discriminate).
  assert (Hne : vy tri_v0 <> vy tri_v2) by discriminate.
  pose proof default_rows as Hrows.
  destruct Hrows as ((H0 & M0) & (H1 & M1) & (H2 & M2)).
  destruct (zero_width_span_single_write tri_v0 tri_v1 tri_v2
              tri_v0 tri_v1 tri_v2 100 (mkSpan 250 250 RED RED)
              H0 H1 H2 default_sorted Hne Hy default_top_row eq_refl)
    as (Hcalls & _ & Hret).
  split; [exact default_rows|]. split; [exact default_top_row|].
  destruct (Hret default_rows) as ((fuel & log & Hlog) & _).
  exists fuel, log. split; [exact Hlog | exact (Hcalls fuel log Hlog)].
Defined.

(** ** C8: idempotence *)

(** C8. When a call of [fillTriangle] returns a screen, the same call on
    that screen returns it unchanged: calling twice gives what calling
    once gives. The call does return, given fuel, whenever no vertex
    lies on the row [INT_MAX]. *)
Theorem fillTriangle_idempotent s v0 v1 v2 :
  (forall fuel s1,
     fillTriangle fuel s v0 v1 v2 = Some s1 ->
     fillTriangle fuel s1 v0 v1 v2 = Some s1) /\
  (rows_below_max v0 v1 v2 ->
   exists fuel s1,
     fillTriangle fuel s v0 v1 v2 = Some s1 /\
     fillTriangle fuel s1 v0 v1 v2 = Some s1).
Proof.
  assert (Hidem : forall fuel s1,
            fillTriangle fuel s v0 v1 v2 = Some s1 ->
            fillTriangle fuel s1 v0 v1 v2 = Some s1).
  { intros fuel s1 H. rewrite fillTriangle_replay in *.
    destruct (fillTriangle_calls fuel v0 v1 v2) as [log|]; [|discriminate].
    cbn [option_map] in *. injection H as <-.
    rewrite replay_idempotent. reflexivity. }
  split; [exact Hidem|].
  intros Hrows.
  destruct (fillTriangleOn_returns_ample setPixel s v0 v1 v2 Hrows)
    as [s1 Hrun].
  exists ample_fuel, s1. split; [exact Hrun | apply Hidem, Hrun].
Qed.

Lemma fillTriangle_idempotent_example :
  (exists s1,
     fillTriangle 10 small_screen small_v0 small_v1 small_v2 = Some s1 /\
     fillTriangle 10 s1 small_v0 small_v1 small_v2 = Some s1) /\
  rows_below_max small_v0 small_v1 small_v2 /\
  (exists fuel s1,
     fillTriangle fuel small_screen small_v0 small_v1 small_v2 = Some s1 /\
     fillTriangle fuel s1 small_v0 small_v1 small_v2 = Some s1).
Proof.
  assert (Hrun : is_Some
            (fillTriangle 10 small_screen small_v0 small_v1 small_v2))
    by (vm_compute; eexists; reflexivity).
  assert (Hrows : rows_below_max small_v0 small_v1 small_v2)
    by (vm_compute; repeat split; discriminate).
  destruct Hrun as [s1 Hrun].
  split.
  { exists s1. split; [exact Hrun|].
    exact (proj1 (fillTriangle_idempotent small_screen
                    small_v0 small_v1 small_v2) 10%nat s1 Hrun). }
  split; [exact Hrows|].
  exact (proj2 (fillTriangle_idempotent small_screen
                  small_v0 small_v1 small_v2) Hrows).
Defined.

(** ** C9: determinism

    In this embedding [fillTriangle] is a function of the fuel, the
    screen and the vertices. That two runs on equal inputs return equal
    screens holds of every function and tells nothing of the C++
    program, so it is not stated as a theorem here. What C++ leaves
    open, the conversion of a float outside the range of its target and
    the overflow of an [int], the model fixes as x86-64 does. What is
    proved of the code: the fill never reads the screen and is the
    replay of calls that the vertices determine ([fillTriangle_replay],
    C8); it returns whenever no vertex lies on the row [INT_MAX]; and
    for coordinates below 2^23 its writes stay in the box of the
    vertices, where no conversion leaves the range of [int] (X21). *)

(** ** C10: the rows of the triangle *)

(** C10. On a well-formed screen, a row above the topmost vertex or below
    the lowest one holds after [fillTriangle] what it held before. The
    call does return, given fuel, whenever no vertex lies on the row
    [INT_MAX]. *)
Theorem fillTriangle_rows_outside_unchanged s v0 v1 v2 :
  screen_wf s -> vertex_wf v0 -> vertex_wf v1 -> vertex_wf v2 ->
  (forall fuel s' x y,
     fillTriangle fuel s v0 v1 v2 = Some s' ->
     0 <= x < width s -> 0 <= y < height s ->
     y < Z.min (vy v0) (Z.min (vy v1) (vy v2)) \/
     y > Z.max (vy v0) (Z.max (vy v1) (vy v2)) ->
     pixel_at s' x y = pixel_at s x y) /\
  (rows_below_max v0 v1 v2 ->
   exists fuel s', fillTriangle fuel s v0 v1 v2 = Some s').
Proof.
  intros Hwf (_ & H0 & _) (_ & H1 & _) (_ & H2 & _). split.
  - intros fuel s' x y Hrun Hx Hy Hout.
    rewrite fillTriangle_replay in Hrun.
    destruct (fillTriangle_calls fuel v0 v1 v2) as [log|] eqn:Hlog;
      [|discriminate].
    cbn [option_map] in Hrun. injection Hrun as <-.
    rewrite pixel_at_replay by assumption.
    rewrite find_call_other_row; [reflexivity|].
    pose proof (fillTriangle_calls_rows fuel v0 v1 v2 log H0 H1 H2 Hlog)
      as Hrows.
    eapply Forall_impl; [exact Hrows|].
    intros c Hc. unfold row_within in Hc. lia.
  - intros Hrows.
    destruct (fillTriangleOn_returns_ample setPixel s v0 v1 v2 Hrows)
      as [s' Hrun].
    exists ample_fuel, s'. exact Hrun.
Qed.

Lemma fillTriangle_rows_outside_unchanged_example :
  (screen_wf small_screen /\ vertex_wf small_v0 /\ vertex_wf small_v1 /\
   vertex_wf small_v2 /\ rows_below_max small_v0 small_v1 small_v2) /\
  (exists s',
     fillTriangle 10 small_screen small_v0 small_v1 small_v2 = Some s' /\
     pixel_at s' 2 5 = pixel_at small_screen 2 5) /\
  (exists fuel s',
     fillTriangle fuel small_screen small_v0 small_v1 small_v2 = Some s').
Proof.
  assert (Hwf : screen_wf small_screen)
    by (unfold screen_wf; vm_compute; repeat split; discriminate).
  assert (W0 : vertex_wf small_v0) by (vm_compute; repeat split; discriminate).
  assert (W1 : vertex_wf small_v1) by (vm_compute; repeat split; discriminate).
  assert (W2 : vertex_wf small_v2) by (vm_compute; repeat split; discriminate).
  assert (Hrows : rows_below_max small_v0 small_v1 small_v2)
    by (vm_compute; repeat split; discriminate).
  assert (H : is_Some (fillTriangle 10 small_screen small_v0 small_v1 small_v2))
    by (vm_compute; eexists; reflexivity).
  destruct H as [s' H].
  destruct (fillTriangle_rows_outside_unchanged small_screen
              small_v0 small_v1 small_v2 Hwf W0 W1 W2) as [Hframe Hret].
  split; [exact (conj Hwf (conj W0 (conj W1 (conj W2 Hrows))))|].
  split; [|exact (Hret Hrows)].
  exists s'. split; [exact H|].
  apply (Hframe 10%nat s' 2 5 H).
  - vm_compute. split; congruence.
  - vm_compute. split; congruence.
  - right. vm_compute. reflexivity.
Defined.

(** * Further properties of the model *)

(** ** The pixel buffer, by position *)

Section Positions.

Lemma setPixel_pixel_at s x y c x' y' :
  screen_wf s ->
  0 <= x < width s -> 0 <= y < height s ->
  0 <= x' < width s -> 0 <= y' < height s ->
  pixel_at (setPixel s x y c) x' y'
  = if (x' =? x) && (y' =? y) then Some c else pixel_at s x' y'.
Proof.
  intros Hwf Hx Hy Hx' Hy'. unfold pixel_at.
  rewrite setPixel_width, setPixel_inside by assumption.
  pose proof (index_in_range s x y Hwf Hx Hy) as Hi.
  pose proof (index_in_range s x' y' Hwf Hx' Hy') as Hi'.
  destruct (x' =? x) eqn:Ex; destruct (y' =? y) eqn:Ey; cbn [andb].
  - apply Z.eqb_eq in Ex, Ey. subst x' y'.
    apply list_lookup_insert_eq.
    destruct Hwf as (_ & _ & _ & ->). lia.
  - apply list_lookup_insert_ne. apply Z.eqb_neq in Ey.
    intros H. apply Z2Nat.inj in H; [|lia|lia].
    destruct Hwf as (Hw & _). nia.
  - apply list_lookup_insert_ne. apply Z.eqb_neq in Ex.
    intros H. apply Z2Nat.inj in H; [|lia|lia].
    apply Z.eqb_eq in Ey. subst y'. lia.
  - apply list_lookup_insert_ne. apply Z.eqb_neq in Ex, Ey.
    intros H. apply Z2Nat.inj in H; [|lia|lia].
    destruct Hwf as (Hw & _). nia.
Qed.

Lemma store_store l i c c' : store (store l i c) i c' = store l i c'.
Proof.
  unfold store. destruct (0 <=? i); [|reflexivity].
  apply list_insert_insert_eq.
Qed.

Lemma setPixel_twice s x y c c' :
  setPixel (setPixel s x y c) x y c' = setPixel s x y c'.
Proof.
  unfold setPixel at 1. rewrite setPixel_width, setPixel_height.
  unfold setPixel.
  destruct (_ || _); [reflexivity|].
  cbn [pixels width height]. rewrite store_store. reflexivity.
Qed.

Lemma setPixel_commute s x y c x' y' c' :
  screen_wf s -> (x, y) <> (x', y') ->
  setPixel (setPixel s x y c) x' y' c' = setPixel (setPixel s x' y' c') x y c.
Proof.
  intros Hwf Hne.
  destruct (Z_lt_ge_dec x 0) as [?|?];
    [rewrite !(setPixel_outside _ x y) by (rewrite ?setPixel_width; lia);
     reflexivity|].
  destruct (Z_lt_ge_dec x (width s)) as [?|?];
    [|rewrite !(setPixel_outside _ x y) by (rewrite ?setPixel_width; lia);
      reflexivity].
  destruct (Z_lt_ge_dec y 0) as [?|?];
    [rewrite !(setPixel_outside _ x y) by (rewrite ?setPixel_height; lia);
     reflexivity|].
  destruct (Z_lt_ge_dec y (height s)) as [?|?];
    [|rewrite !(setPixel_outside _ x y) by (rewrite ?setPixel_height; lia);
      reflexivity].
  destruct (Z_lt_ge_dec x' 0) as [?|?];
    [rewrite !(setPixel_outside _ x' y') by (rewrite ?setPixel_width; lia);
     reflexivity|].
  destruct (Z_lt_ge_dec x' (width s)) as [?|?];
    [|rewrite !(setPixel_outside _ x' y') by (rewrite ?setPixel_width; lia);
      reflexivity].
  destruct (Z_lt_ge_dec y' 0) as [?|?];
    [rewrite !(setPixel_outside _ x' y') by (rewrite ?setPixel_height; lia);
     reflexivity|].
  destruct (Z_lt_ge_dec y' (height s)) as [?|?];
    [|rewrite !(setPixel_outside _ x' y') by (rewrite ?setPixel_height; lia);
      reflexivity].
  apply screen_eq; rewrite ?setPixel_width, ?setPixel_height; try reflexivity.
  rewrite (setPixel_inside (setPixel s x y c))
    by (rewrite ?setPixel_width, ?setPixel_height;
        (apply setPixel_wf; assumption) || lia).
  rewrite (setPixel_inside (setPixel s x' y' c'))
    by (rewrite ?setPixel_width, ?setPixel_height;
        (apply setPixel_wf; assumption) || lia).
  rewrite !setPixel_width.
  rewrite !setPixel_inside by (assumption || lia).
  apply list_insert_insert_ne.
  pose proof (index_in_range s x y Hwf ltac:(lia) ltac:(lia)).
  pose proof (index_in_range s x' y' Hwf ltac:(lia) ltac:(lia)).
  intros Heq. apply Z2Nat.inj in Heq; [|lia|lia].
  apply Hne. assert (y = y') by nia. f_equal; nia.
Qed.

End Positions.

(** ** Packed colours *)

Section Packing.

Lemma lor_shift_add hi lo k :
  0 <= k -> 0 <= lo < 2 ^ k -> Z.lor (Z.shiftl hi k) lo = hi * 2 ^ k + lo.
Proof.
  intros Hk Hlo. rewrite Z.shiftl_mul_pow2 by lia.
  rewrite <- Z.lxor_lor.
  - symmetry. apply Z.add_nocarry_lxor.
    apply Z.bits_inj'. intros n Hn. rewrite Z.land_spec, Z.bits_0.
    destruct (Z_lt_ge_dec n k) as [Hlt|Hge].
    + rewrite Z.mul_pow2_bits_low by lia. reflexivity.
    + destruct (Z.eq_dec lo 0) as [->|Hne];
        [rewrite Z.bits_0; apply andb_false_r|].
      rewrite (Z.bits_above_log2 lo n); [apply andb_false_r | lia |].
      apply Z.lt_le_trans with k; [apply Z.log2_lt_pow2; lia | lia].
  - apply Z.bits_inj'. intros n Hn. rewrite Z.land_spec, Z.bits_0.
    destruct (Z_lt_ge_dec n k) as [Hlt|Hge].
    + rewrite Z.mul_pow2_bits_low by lia. reflexivity.
    + destruct (Z.eq_dec lo 0) as [->|Hne];
        [rewrite Z.bits_0; apply andb_false_r|].
      rewrite (Z.bits_above_log2 lo n); [apply andb_false_r | lia |].
      apply Z.lt_le_trans with k; [apply Z.log2_lt_pow2; lia | lia].
Qed.

(** The value of the four bytes that [interpolateColor] packs. *)
Lemma pack_value r g b a :
  0 <= r < 256 -> 0 <= g < 256 -> 0 <= b < 256 -> 0 <= a < 256 ->
  to_u32 (Z.lor (Z.lor (Z.lor (wrap32 (Z.shiftl r 24)) (Z.shiftl g 16))
                       (Z.shiftl b 8)) a)
  = r * 16777216 + g * 65536 + b * 256 + a.
Proof.
  intros Hr Hg Hb Ha.
  rewrite !to_u32_lor, to_u32_wrap32.
  rewrite !to_u32_small
    by (rewrite ?Z.shiftl_mul_pow2 by lia;
        change (2 ^ 24) with 16777216; change (2 ^ 16) with 65536;
        change (2 ^ 8) with 256; lia).
  assert (E1 : Z.lor (Z.shiftl r 24) (Z.shiftl g 16)
               = Z.shiftl (r * 256 + g) 16).
  { replace (Z.shiftl r 24) with (Z.shiftl (Z.shiftl r 8) 16)
      by (rewrite Z.shiftl_shiftl by lia; reflexivity).
    rewrite <- Z.shiftl_lor.
    rewrite lor_shift_add by (change (2 ^ 8) with 256; lia).
    reflexivity. }
  assert (E2 : Z.lor (Z.shiftl (r * 256 + g) 16) (Z.shiftl b 8)
               = Z.shiftl ((r * 256 + g) * 256 + b) 8).
  { replace (Z.shiftl (r * 256 + g) 16)
      with (Z.shiftl (Z.shiftl (r * 256 + g) 8) 8)
      by (rewrite Z.shiftl_shiftl by lia; reflexivity).
    rewrite <- Z.shiftl_lor.
    rewrite lor_shift_add by (change (2 ^ 8) with 256; lia).
    reflexivity. }
  rewrite E1, E2.
  rewrite lor_shift_add by (change (2 ^ 8) with 256; lia).
  change (2 ^ 8) with 256. ring.
Qed.

Lemma channel_div shift color :
  0 <= shift -> channel shift color = (color / 2 ^ shift) mod 256.
Proof.
  intros Hs. unfold channel. rewrite Z.shiftr_div_pow2 by lia.
  change 255 with (Z.ones 8). rewrite Z.land_ones by lia. reflexivity.
Qed.

Lemma channel_range shift color : 0 <= channel shift color < 256.
Proof.
  unfold channel. change 255 with (Z.ones 8). rewrite Z.land_ones by lia.
  apply Z.mod_pos_bound. reflexivity.
Qed.

Lemma pack_channels r g b a :
  0 <= r < 256 -> 0 <= g < 256 -> 0 <= b < 256 -> 0 <= a < 256 ->
  let color := r * 16777216 + g * 65536 + b * 256 + a in
  channel 24 color = r /\ channel 16 color = g /\
  channel 8 color = b /\ channel 0 color = a.
Proof.
  intros Hr Hg Hb Ha color. subst color.
  rewrite !channel_div by lia.
  change (2 ^ 24) with 16777216. change (2 ^ 16) with 65536.
  change (2 ^ 8) with 256. change (2 ^ 0) with 1.
  repeat split.
  - replace (r * 16777216 + g * 65536 + b * 256 + a)
      with (r * 16777216 + (g * 65536 + b * 256 + a)) by ring.
    rewrite Z.div_add_l by lia. rewrite (Z.div_small (_ + a)) by lia.
    rewrite Z.add_0_r. apply Z.mod_small, Hr.
  - replace (r * 16777216 + g * 65536 + b * 256 + a)
      with ((r * 256 + g) * 65536 + (b * 256 + a)) by ring.
    rewrite Z.div_add_l by lia. rewrite (Z.div_small (_ + a)) by lia.
    rewrite Z.add_0_r, Z.add_comm, Z.mod_add by lia. apply Z.mod_small, Hg.
  - replace (r * 16777216 + g * 65536 + b * 256 + a)
      with ((r * 65536 + g * 256 + b) * 256 + a) by ring.
    rewrite Z.div_add_l by lia. rewrite (Z.div_small a) by lia.
    rewrite Z.add_0_r.
    replace (r * 65536 + g * 256 + b) with (b + (r * 256 + g) * 256) by ring.
    rewrite Z.mod_add by lia. apply Z.mod_small, Hb.
  - rewrite Z.div_1_r.
    replace (r * 16777216 + g * 65536 + b * 256 + a)
      with (a + (r * 65536 + g * 256 + b) * 256) by ring.
    rewrite Z.mod_add by lia. apply Z.mod_small, Ha.
Qed.

(** Each channel of an interpolated colour is the interpolation of that
    channel. *)
Lemma interpolateColor_channel color0 color1 t :
  let color := interpolateColor color0 color1 t in
  uint32 color /\
  channel 24 color = interpolateChannel (channel 24 color0) (channel 24 color1) t /\
  channel 16 color = interpolateChannel (channel 16 color0) (channel 16 color1) t /\
  channel 8 color = interpolateChannel (channel 8 color0) (channel 8 color1) t /\
  channel 0 color = interpolateChannel (channel 0 color0) (channel 0 color1) t.
Proof.
  intros color. subst color. unfold interpolateColor. cbv zeta.
  rewrite !to_u8_byte.
  change (Z.land color0 255) with (Z.land (Z.shiftr color0 0) 255).
  change (Z.land color1 255) with (Z.land (Z.shiftr color1 0) 255).
  fold (channel 24 color0) (channel 16 color0) (channel 8 color0)
       (channel 0 color0) (channel 24 color1) (channel 16 color1)
       (channel 8 color1) (channel 0 color1).
  set (r := interpolateChannel (channel 24 color0) (channel 24 color1) t).
  set (g := interpolateChannel (channel 16 color0) (channel 16 color1) t).
  set (b := interpolateChannel (channel 8 color0) (channel 8 color1) t).
  set (a := interpolateChannel (channel 0 color0) (channel 0 color1) t).
  pose proof (interpolateChannel_range (channel 24 color0) (channel 24 color1) t).
  pose proof (interpolateChannel_range (channel 16 color0) (channel 16 color1) t).
  pose proof (interpolateChannel_range (channel 8 color0) (channel 8 color1) t).
  pose proof (interpolateChannel_range (channel 0 color0) (channel 0 color1) t).
  rewrite pack_value by assumption.
  split; [unfold uint32; subst r g b a; lia|].
  apply pack_channels; assumption.
Qed.

(** A colour is the value of its four channels. *)
Lemma color_of_channels color :
  uint32 color ->
  color = channel 24 color * 16777216 + channel 16 color * 65536
          + channel 8 color * 256 + channel 0 color.
Proof.
  intros Hc. unfold uint32 in Hc. rewrite !channel_div by lia.
  change (2 ^ 24) with 16777216. change (2 ^ 16) with 65536.
  change (2 ^ 8) with 256. change (2 ^ 0) with 1.
  rewrite Z.div_1_r.
  assert (H24 : (color / 16777216) mod 256 = color / 16777216).
  { apply Z.mod_small. split; [apply Z.div_pos; lia|].
    apply Z.div_lt_upper_bound; lia. }
  rewrite H24.
  assert (D1 : color / 256 / 256 = color / 65536)
    by (rewrite Z.div_div by lia; reflexivity).
  assert (D2 : color / 65536 / 256 = color / 16777216)
    by (rewrite Z.div_div by lia; reflexivity).
  pose proof (Z.div_mod color 256 ltac:(lia)) as H0.
  pose proof (Z.div_mod (color / 256) 256 ltac:(lia)) as H1.
  pose proof (Z.div_mod (color / 65536) 256 ltac:(lia)) as H2.
  rewrite D1 in H1. rewrite D2 in H2. lia.
Qed.

Lemma interpolateColor_by_channels color0 color1 t target :
  uint32 target ->
  interpolateChannel (channel 24 color0) (channel 24 color1) t = channel 24 target ->
  interpolateChannel (channel 16 color0) (channel 16 color1) t = channel 16 target ->
  interpolateChannel (channel 8 color0) (channel 8 color1) t = channel 8 target ->
  interpolateChannel (channel 0 color0) (channel 0 color1) t = channel 0 target ->
  interpolateColor color0 color1 t = target.
Proof.
  intros Ht H24 H16 H8 H0.
  destruct (interpolateColor_channel color0 color1 t) as (Hu & E24 & E16 & E8 & E0).
  rewrite (color_of_channels _ Hu), (color_of_channels _ Ht).
  rewrite E24, E16, E8, E0, H24, H16, H8, H0. reflexivity.
Qed.

End Packing.

(** ** Fractions at the two ends *)

Section Fractions.

(** A finite float divided by itself is 1.0. *)
Lemma fdiv_self s m e : fdiv (S754_finite s m e) (S754_finite s m e) = fone.
Proof.
  unfold fdiv, SFdiv, SFdiv_core_binary.
  rewrite xorb_nilpotent.
  replace (Zdigits2 (Z.pos m) + e - (Zdigits2 (Z.pos m) + e)) with 0 by lia.
  rewrite Z.sub_diag.
  change (fexp prec emax 0) with (-24). change (Z.min (-24) 0) with (-24).
  change (0 - -24) with 24. cbv iota.
  rewrite Z.shiftl_mul_pow2 by lia.
  pose proof (Z_div_mod (Z.pos m * 2 ^ 24) (Z.pos m) ltac:(lia)) as Hdiv.
  destruct (Z.div_eucl (Z.pos m * 2 ^ 24) (Z.pos m)) as [q r].
  destruct Hdiv as [Hq Hr].
  assert (Er : r = 0).
  { assert (Hm : r = Z.pos m * (2 ^ 24 - q)) by lia.
    assert (0 <= 2 ^ 24 - q) by nia.
    destruct (Z.eq_dec (2 ^ 24 - q) 0) as [E0|Hne]; [rewrite E0 in Hm; lia | nia]. }
  subst r. assert (Eq : q = 2 ^ 24) by nia. subst q.
  replace (new_location (Z.pos m) 0) with loc_Exact
    by (unfold new_location, new_location_even, new_location_odd;
        destruct (Z.even (Z.pos m)); reflexivity).
  change (2 ^ 24) with (Z.pos 8388608 * 2 ^ 1).
  rewrite binary_round_aux_exact; [reflexivity | | lia | |];
    unfold emin, prec, emax; cbn; lia.
Qed.

(** The fraction of a nonzero [int] by itself. *)
Lemma fraction_self n :
  int32 n -> n <> 0 -> fdiv (float_of_int n) (float_of_int n) = fone.
Proof.
  intros Hn Hne.
  destruct (float_of_int_spec n Hn) as [_ Hex].
  destruct (Hex Hne) as (s & m & e & ->). apply fdiv_self.
Qed.

(** The fraction of zero by a nonzero [int] is a zero. *)
Lemma fraction_zero n :
  int32 n -> n <> 0 -> exists s, fdiv (float_of_int 0) (float_of_int n) = S754_zero s.
Proof.
  intros Hn Hne.
  destruct (float_of_int_spec n Hn) as [_ Hex].
  destruct (Hex Hne) as (s & m & e & ->). eexists. reflexivity.
Qed.

Lemma holds_int_zero s : holds_int (S754_zero s) 0.
Proof. reflexivity. Qed.

(** The product of a converted [int] by a zero is a zero. *)
Lemma fmul_any_zero x a s : holds_int x a -> holds_int (fmul x (S754_zero s)) 0.
Proof.
  intros Hx. unfold fmul, SFmul.
  destruct x as [sx|sx| |sx mx ex]; try contradiction; reflexivity.
Qed.

(** At a zero fraction a channel keeps its first value. *)
Lemma interpolateChannel_zero c1 c2 s :
  0 <= c1 < 256 -> 0 <= c2 < 256 ->
  interpolateChannel c1 c2 (S754_zero s) = c1.
Proof.
  intros H1 H2. unfold interpolateChannel.
  rewrite sub32_id by int32_arith.
  assert (Hc1 : holds_int (float_of_int c1) c1)
    by (apply float_of_int_exact; change (2 ^ 24) with 16777216; lia).
  assert (Hd : holds_int (float_of_int (c2 - c1)) (c2 - c1))
    by (apply float_of_int_exact; change (2 ^ 24) with 16777216; lia).
  apply uint8_of_float_exact; [|exact H1].
  pose proof (fadd_exact _ _ c1 0 Hc1 (fmul_any_zero _ _ s Hd)) as H.
  rewrite Z.add_0_r in H. apply H. change (2 ^ 24) with 16777216. lia.
Qed.

(** Between a value and itself a channel does not move, whatever the
    finite fraction. *)
Lemma interpolateChannel_constant c t :
  0 <= c < 256 -> finite_float t -> interpolateChannel c c t = c.
Proof.
  intros Hc Ht. unfold interpolateChannel.
  rewrite sub32_id by int32_arith. rewrite Z.sub_diag.
  assert (Hc1 : holds_int (float_of_int c) c)
    by (apply float_of_int_exact; change (2 ^ 24) with 16777216; lia).
  apply uint8_of_float_exact; [|exact Hc].
  assert (Hz : holds_int (fmul (float_of_int 0) t) 0)
    by (destruct t as [s|s| |s m e]; try contradiction; reflexivity).
  pose proof (fadd_exact _ _ c 0 Hc1 Hz) as H.
  rewrite Z.add_0_r in H. apply H. change (2 ^ 24) with 16777216. lia.
Qed.

Lemma interpolateColor_zero A B s :
  uint32 A -> interpolateColor A B (S754_zero s) = A.
Proof.
  intros HA.
  apply interpolateColor_by_channels; try assumption;
    apply interpolateChannel_zero; apply channel_range.
Qed.

Lemma interpolateColor_one A B :
  uint32 B -> interpolateColor A B fone = B.
Proof.
  intros HB.
  apply interpolateColor_by_channels; try assumption;
    apply interpolateChannel_endpoints; apply channel_range.
Qed.

Lemma interpolateColor_same A t :
  uint32 A -> finite_float t -> interpolateColor A A t = A.
Proof.
  intros HA Ht.
  apply interpolateColor_by_channels; try assumption;
    apply interpolateChannel_constant; try assumption; apply channel_range.
Qed.

End Fractions.

(** ** Permutations of the vertices *)

Section Permutations.

Lemma isCollinear_true_iff v0 v1 v2 w0 w1 w2 :
  (signedArea w0 w1 w2 = signedArea v0 v1 v2 \/
   signedArea w0 w1 w2 = - signedArea v0 v1 v2) ->
  isCollinear w0 w1 w2 = isCollinear v0 v1 v2.
Proof.
  intros H.
  apply eq_true_iff_eq. rewrite !isCollinear_mod.
  destruct H as [->| ->]; [reflexivity|].
  split; intros Hm.
  - apply Z.mod_divide in Hm; [|lia]. apply Z.mod_divide; [lia|].
    apply -> Z.divide_opp_r. exact Hm.
  - apply Z.mod_divide in Hm; [|lia]. apply Z.mod_divide; [lia|].
    apply <- Z.divide_opp_r. exact Hm.
Qed.

Lemma sortByY_distinct v0 v1 v2 a b c :
  vy v0 <> vy v1 -> vy v1 <> vy v2 -> vy v0 <> vy v2 ->
  sortByY v0 v1 v2 = (a, b, c) ->
  vy a < vy b < vy c /\
  ((a, b, c) = (v0, v1, v2) \/ (a, b, c) = (v0, v2, v1) \/
   (a, b, c) = (v1, v0, v2) \/ (a, b, c) = (v1, v2, v0) \/
   (a, b, c) = (v2, v0, v1) \/ (a, b, c) = (v2, v1, v0)).
Proof.
  intros H01 H12 H02. unfold sortByY.
  destruct (vy v0 >? vy v1) eqn:E1;
    [destruct (vy v1 >? vy v2) eqn:E2 | destruct (vy v0 >? vy v2) eqn:E2];
    [destruct (vy v0 >? vy v1) eqn:E3 | destruct (vy v0 >? vy v2) eqn:E3
    |destruct (vy v1 >? vy v0) eqn:E3 | destruct (vy v1 >? vy v2) eqn:E3];
    intros [= <- <- <-]; (split; [lia|]); tauto.
Qed.

(** With three distinct rows the sorted triple does not depend on the
    order of the arguments. *)
Lemma sortByY_permutation v0 v1 v2 w0 w1 w2 :
  vy v0 <> vy v1 -> vy v1 <> vy v2 -> vy v0 <> vy v2 ->
  (w0, w1, w2) = (v0, v2, v1) \/ (w0, w1, w2) = (v1, v0, v2) \/
  (w0, w1, w2) = (v1, v2, v0) \/ (w0, w1, w2) = (v2, v0, v1) \/
  (w0, w1, w2) = (v2, v1, v0) ->
  sortByY w0 w1 w2 = sortByY v0 v1 v2.
Proof.
  intros H01 H12 H02 Hp.
  destruct (sortByY v0 v1 v2) as [[a b] c] eqn:Ev.
  destruct (sortByY w0 w1 w2) as [[a' b'] c'] eqn:Ew.
  destruct (sortByY_distinct v0 v1 v2 a b c H01 H12 H02 Ev) as [Hord Hin].
  assert (Hw : vy w0 <> vy w1 /\ vy w1 <> vy w2 /\ vy w0 <> vy w2).
  { destruct Hp as [Hp|[Hp|[Hp|[Hp|Hp]]]]; injection Hp as -> -> ->;
      repeat split; congruence. }
  destruct Hw as (Hw01 & Hw12 & Hw02).
  destruct (sortByY_distinct w0 w1 w2 a' b' c' Hw01 Hw12 Hw02 Ew) as [Hord' Hin'].
  destruct Hp as [Hp|[Hp|[Hp|[Hp|Hp]]]]; injection Hp as -> -> ->;
    destruct Hin as [Hi|[Hi|[Hi|[Hi|[Hi|Hi]]]]]; injection Hi as -> -> ->;
    destruct Hin' as [Hi|[Hi|[Hi|[Hi|[Hi|Hi]]]]]; injection Hi as -> -> ->;
    first [reflexivity | exfalso; lia].
Qed.

End Permutations.

(** ** The pixels of a line *)

Section LinePixels.

(** Every pixel that a stepper returns: [k] steps along the walked
    coordinate it lies [j] steps along the other one, with [j] on the
    line, and its colour is the interpolation at [k] of the steps. *)
Lemma stepLine_pixels mk fuel i0 d0 c0 i1 d1 c1 :
  int32 i0 -> int32 i1 -> int32 d0 -> int32 d1 -> i1 < INT_MAX ->
  0 < i1 - i0 < 1073741824 ->
  Z.abs (d1 - d0) <= i1 - i0 ->
  i1 - i0 + 1 < Z.of_nat fuel ->
  exists pixels,
    stepLine mk fuel i0 d0 c0 i1 d1 c1 = Some pixels /\
    Z.of_nat (length pixels) = i1 - i0 + 1 /\
    forall (k : nat) p, pixels !! k = Some p ->
      exists j,
        p = mk (i0 + Z.of_nat k) (d0 + stepSign d0 d1 * j)
              (interpolateColor c0 c1 (stepFraction (Z.of_nat k) (i1 - i0))) /\
        on_line (i1 - i0) (Z.abs (d1 - d0)) (Z.of_nat k) j.
Proof.
  intros Hi0 Hi1 Hd0 Hd1 Hmax Hdi Hdd Hfuel.
  unfold stepLine, stepSign.
  assert (Edi : sub32 i1 i0 = i1 - i0)
    by (apply sub32_id; int32_arith).
  assert (Edd : sub32 d1 d0 = d1 - d0)
    by (apply sub32_id; int32_arith).
  rewrite Edi, Edd.
  set (di := i1 - i0) in *.
  assert (Ead : (if d1 - d0 <? 0 then neg32 (d1 - d0) else d1 - d0)
                = Z.abs (d1 - d0)).
  { destruct (d1 - d0 <? 0) eqn:E; [|lia].
    unfold neg32. rewrite wrap32_id; int32_arith. }
  rewrite Ead.
  assert (Esi : (if d1 - d0 <? 0 then -1 else 1) * Z.abs (d1 - d0) = d1 - d0)
    by (destruct (d1 - d0 <? 0) eqn:E; lia).
  set (dd := Z.abs (d1 - d0)) in *.
  set (si := if d1 - d0 <? 0 then -1 else 1) in *.
  assert (Hdd0 : 0 <= dd) by (subst dd; lia).
  assert (ED0 : sub32 (mul32 2 dd) di = 2 * dd - di).
  { rewrite mul32_id by int32_arith.
    apply sub32_id. int32_arith. }
  assert (Eup : mul32 2 (sub32 dd di) = 2 * (dd - di)).
  { rewrite sub32_id by int32_arith.
    apply mul32_id. int32_arith. }
  assert (Estay : mul32 2 dd = 2 * dd)
    by (apply mul32_id; int32_arith).
  rewrite ED0, Eup, Estay.
  set (Inv := fun (i : Z) (st : LineState) =>
    exists j,
      ls_dep st = wrap32 (d0 + si * j) /\
      on_line di dd (i - i0) j /\
      ls_D st = 2 * dd * (i - i0 + 1) - di - 2 * di * j /\
      ls_currentStep st = i - i0 /\
      Z.of_nat (length (ls_pixels st)) = i - i0 /\
      forall (k : nat) p, ls_pixels st !! k = Some p ->
        exists j',
          p = mk (i0 + Z.of_nat k) (wrap32 (d0 + si * j'))
                (interpolateColor c0 c1 (stepFraction (Z.of_nat k) di)) /\
          on_line di dd (Z.of_nat k) j').
  match goal with
  | |- context [for_le fuel ?b i0 i1 ?s] =>
      destruct (for_le_total Inv b fuel i0 i1 s) as (r & Hr & HI)
  end; try assumption; try lia.
  - (* the invariant holds on entry *)
    exists 0. cbn [ls_dep ls_D ls_currentStep ls_pixels]. split_and!.
    + rewrite Z.mul_0_r, Z.add_0_r. symmetry. apply wrap32_id, Hd0.
    + unfold on_line. lia.
    + lia.
    + lia.
    + cbn. lia.
    + intros k p Hk. rewrite lookup_nil in Hk. discriminate.
  - (* each iteration keeps it *)
    intros i st Hi (j & Hdep & Hline & HD & Hcs & Hlen & Hpix).
    eexists. split; [reflexivity|].
    assert (Ecs : add32 (ls_currentStep st) 1 = i + 1 - i0)
      by (rewrite Hcs; rewrite add32_id;
          int32_arith).
    assert (Hpix' : forall (k : nat) p,
      (ls_pixels st ++ [mk i (ls_dep st)
         (interpolateColor c0 c1 (stepFraction (ls_currentStep st) di))])
        !! k = Some p ->
      exists j',
        p = mk (i0 + Z.of_nat k) (wrap32 (d0 + si * j'))
              (interpolateColor c0 c1 (stepFraction (Z.of_nat k) di)) /\
        on_line di dd (Z.of_nat k) j').
    { intros k p Hk. apply lookup_app_Some in Hk as [Hk|[Hge Hk]].
      - apply Hpix, Hk.
      - destruct (k - length (ls_pixels st))%nat as [|n] eqn:En;
          [|rewrite lookup_cons, lookup_nil in Hk; discriminate].
        cbn in Hk. injection Hk as <-.
        exists j. split.
        + rewrite Hdep, Hcs.
          replace (Z.of_nat k) with (i - i0) by lia.
          f_equal. lia.
        + replace (Z.of_nat k) with (i - i0) by lia. exact Hline. }
    unfold on_line in Hline.
    destruct (ls_D st >? 0) eqn:ED.
    + exists (j + 1). cbn [ls_dep ls_D ls_currentStep ls_pixels].
      split_and!.
      * rewrite Hdep. unfold add32. rewrite wrap32_add_l. f_equal. ring.
      * unfold on_line. lia.
      * rewrite HD. rewrite add32_id; [ring|].
        int32_arith.
      * exact Ecs.
      * rewrite length_app. cbn. lia.
      * exact Hpix'.
    + exists j. cbn [ls_dep ls_D ls_currentStep ls_pixels].
      split_and!.
      * exact Hdep.
      * unfold on_line. lia.
      * rewrite HD. rewrite add32_id; [ring|].
        int32_arith.
      * exact Ecs.
      * rewrite length_app. cbn. lia.
      * exact Hpix'.
  - (* the result *)
    destruct HI as (j & _ & _ & _ & _ & Hlen & Hpix).
    exists (ls_pixels r). rewrite Hr. split; [reflexivity|].
    split; [lia|].
    intros k p Hk.
    assert (Hklt : (k < length (ls_pixels r))%nat)
      by (apply lookup_lt_is_Some; eauto).
    destruct (Hpix k p Hk) as (j' & -> & Hline).
    pose proof (on_line_offset di dd (Z.of_nat k) j' ltac:(lia) ltac:(lia)
                  ltac:(lia) Hline) as Hj.
    assert (Hexact : wrap32 (d0 + si * j') = d0 + si * j').
    { apply wrap32_id. subst si.
      destruct (d1 - d0 <? 0) eqn:E; int32_arith. }
    exists j'. rewrite Hexact. split; [reflexivity | exact Hline].
Qed.

(** Offsets on the line: one for each step, and from one step to the
    next the offset stays or grows by one. *)
Lemma on_line_unique di dd k j j' :
  0 < di -> on_line di dd k j -> on_line di dd k j' -> j = j'.
Proof. unfold on_line. intros Hdi H H'. nia. Qed.

Lemma on_line_next di dd k j j' :
  0 < di -> 0 <= dd <= di ->
  on_line di dd k j -> on_line di dd (k + 1) j' -> j' = j \/ j' = j + 1.
Proof. unfold on_line. intros Hdi Hdd H H'. nia. Qed.

Lemma on_line_close di dd k j :
  on_line di dd k j -> 2 * Z.abs (dd * k - di * j) <= di.
Proof. unfold on_line. intros H. lia. Qed.

End LinePixels.

(** ** What [bresenham] returns *)

Section BresenhamPixels.

Lemma linePixel_low a b k j c :
  Z.abs (vy b - vy a) < Z.abs (vx b - vx a) ->
  linePixel a b k j c
  = lowPixel (vx a + k) (vy a + stepSign (vy a) (vy b) * j) c.
Proof.
  intros H. unfold linePixel.
  destruct (Z.abs (vy b - vy a) <? Z.abs (vx b - vx a)) eqn:E;
    [reflexivity | lia].
Qed.

Lemma linePixel_high a b k j c :
  Z.abs (vx b - vx a) <= Z.abs (vy b - vy a) ->
  linePixel a b k j c
  = highPixel (vy a + k) (vx a + stepSign (vx a) (vx b) * j) c.
Proof.
  intros H. unfold linePixel.
  destruct (Z.abs (vy b - vy a) <? Z.abs (vx b - vx a)) eqn:E;
    [lia | reflexivity].
Qed.

(** The pixels of a line between two distinct points, from the start of
    the walk: pixel [k] lies [k] steps along the dominant axis and [j]
    steps along the other, [j] being on the line, and its colour is the
    interpolation at [k] steps out of the length of the line. *)
Lemma bresenham_pixels fuel x0 y0 c0 x1 y1 c1 :
  line_in_range x0 y0 x1 y1 -> (x0, y0) <> (x1, y1) ->
  Z.max (Z.abs (x1 - x0)) (Z.abs (y1 - y0)) + 1 < Z.of_nat fuel ->
  let a := lineStart x0 y0 c0 x1 y1 c1 in
  let b := lineEnd x0 y0 c0 x1 y1 c1 in
  let n := Z.max (Z.abs (x1 - x0)) (Z.abs (y1 - y0)) in
  let m := Z.min (Z.abs (x1 - x0)) (Z.abs (y1 - y0)) in
  exists pixels,
    bresenham fuel x0 y0 c0 x1 y1 c1 = Some pixels /\
    Z.of_nat (length pixels) = n + 1 /\
    forall (k : nat) p, pixels !! k = Some p ->
      exists j,
        p = linePixel a b (Z.of_nat k) j
              (interpolateColor (vcolor a) (vcolor b)
                 (stepFraction (Z.of_nat k) n)) /\
        on_line n m (Z.of_nat k) j.
Proof.
  intros ((Hx0 & Mx0) & (Hy0 & My0) & (Hx1 & Mx1) & (Hy1 & My1) & Hdx & Hdy)
    Hne Hfuel a b n m.
  assert (Hdist : x0 <> x1 \/ y0 <> y1).
  { destruct (Z.eq_dec x0 x1) as [->|]; [|auto].
    destruct (Z.eq_dec y0 y1) as [->|]; [|auto]. congruence. }
  subst a b. unfold bresenham, lineStart, lineEnd.
  rewrite !sub32_id by int32_arith.
  rewrite !abs32_id by lia.
  destruct (Z.abs (y1 - y0) <? Z.abs (x1 - x0)) eqn:Edom.
  - (* shallow: walk along x *)
    assert (En : n = Z.abs (x1 - x0)) by (subst n; lia).
    assert (Em : m = Z.abs (y1 - y0)) by (subst m; lia).
    destruct (x0 >? x1) eqn:Eswap; rewrite bresenhamLow_stepLine.
    + destruct (stepLine_pixels lowPixel fuel x1 y1 c1 x0 y0 c0)
        as (pixels & Hrun & Hlen & Hpix); try assumption; try lia.
      exists pixels. split; [exact Hrun|]. split; [lia|].
      intros k p Hk. destruct (Hpix k p Hk) as (j & -> & Hline).
      exists j. rewrite linePixel_low by (cbn [vx vy]; lia).
      cbn [vx vy vcolor].
      replace n with (x0 - x1) by lia. replace m with (Z.abs (y0 - y1)) by lia.
      split; [reflexivity | exact Hline].
    + destruct (stepLine_pixels lowPixel fuel x0 y0 c0 x1 y1 c1)
        as (pixels & Hrun & Hlen & Hpix); try assumption; try lia.
      exists pixels. split; [exact Hrun|]. split; [lia|].
      intros k p Hk. destruct (Hpix k p Hk) as (j & -> & Hline).
      exists j. rewrite linePixel_low by (cbn [vx vy]; lia).
      cbn [vx vy vcolor].
      replace n with (x1 - x0) by lia. replace m with (Z.abs (y1 - y0)) by lia.
      split; [reflexivity | exact Hline].
  - (* steep: walk along y *)
    assert (En : n = Z.abs (y1 - y0)) by (subst n; lia).
    assert (Em : m = Z.abs (x1 - x0)) by (subst m; lia).
    destruct (y0 >? y1) eqn:Eswap; rewrite bresenhamHigh_stepLine.
    + destruct (stepLine_pixels highPixel fuel y1 x1 c1 y0 x0 c0)
        as (pixels & Hrun & Hlen & Hpix); try assumption; try lia.
      exists pixels. split; [exact Hrun|]. split; [lia|].
      intros k p Hk. destruct (Hpix k p Hk) as (j & -> & Hline).
      exists j. rewrite linePixel_high by (cbn [vx vy]; lia).
      cbn [vx vy vcolor].
      replace n with (y0 - y1) by lia. replace m with (Z.abs (x0 - x1)) by lia.
      split; [reflexivity | exact Hline].
    + destruct (stepLine_pixels highPixel fuel y0 x0 c0 y1 x1 c1)
        as (pixels & Hrun & Hlen & Hpix); try assumption; try lia.
      exists pixels. split; [exact Hrun|]. split; [lia|].
      intros k p Hk. destruct (Hpix k p Hk) as (j & -> & Hline).
      exists j. rewrite linePixel_high by (cbn [vx vy]; lia).
      cbn [vx vy vcolor].
      replace n with (y1 - y0) by lia. replace m with (Z.abs (x1 - x0)) by lia.
      split; [reflexivity | exact Hline].
Qed.

(** The two ends of the walk are the two points given, in one order or
    the other. *)
Lemma line_ends x0 y0 c0 x1 y1 c1 :
  (lineStart x0 y0 c0 x1 y1 c1 = mkVertex x0 y0 c0 /\
   lineEnd x0 y0 c0 x1 y1 c1 = mkVertex x1 y1 c1) \/
  (lineStart x0 y0 c0 x1 y1 c1 = mkVertex x1 y1 c1 /\
   lineEnd x0 y0 c0 x1 y1 c1 = mkVertex x0 y0 c0).
Proof.
  unfold lineStart, lineEnd.
  destruct (_ <? _); [destruct (x0 >? x1) | destruct (y0 >? y1)]; auto.
Qed.

(** The walk goes up the dominant axis by the length of the line. *)
Lemma line_ends_dominant x0 y0 c0 x1 y1 c1 :
  let a := lineStart x0 y0 c0 x1 y1 c1 in
  let b := lineEnd x0 y0 c0 x1 y1 c1 in
  let n := Z.max (Z.abs (x1 - x0)) (Z.abs (y1 - y0)) in
  let m := Z.min (Z.abs (x1 - x0)) (Z.abs (y1 - y0)) in
  if Z.abs (vy b - vy a) <? Z.abs (vx b - vx a)
  then vx b - vx a = n /\ Z.abs (vy b - vy a) = m
  else vy b - vy a = n /\ Z.abs (vx b - vx a) = m.
Proof.
  unfold lineStart, lineEnd.
  destruct (Z.abs (y1 - y0) <? Z.abs (x1 - x0)) eqn:E;
    [destruct (x0 >? x1) eqn:E' | destruct (y0 >? y1) eqn:E'];
    cbn [vx vy];
    match goal with
    | |- if ?c then _ else _ => destruct c eqn:E''
    end; lia.
Qed.

End BresenhamPixels.

Section LineFacts.

Lemma stepFraction_first n : int32 n -> exists s, stepFraction 0 n = S754_zero s.
Proof.
  intros Hn. unfold stepFraction.
  destruct (n >? 0) eqn:E; [|exists false; reflexivity].
  apply fraction_zero; [exact Hn | lia].
Qed.

Lemma stepFraction_last n : int32 n -> 0 < n -> stepFraction n n = fone.
Proof.
  intros Hn Hpos. unfold stepFraction.
  destruct (n >? 0) eqn:E; [|lia].
  apply fraction_self; [exact Hn | lia].
Qed.

Lemma vertex_eta v : mkVertex (vx v) (vy v) (vcolor v) = v.
Proof. destruct v. reflexivity. Qed.

Lemma stepSign_abs d0 d1 : stepSign d0 d1 * Z.abs (d1 - d0) = d1 - d0.
Proof. unfold stepSign. destruct (d1 - d0 <? 0) eqn:E; lia. Qed.

Lemma stepSign_unit d0 d1 : stepSign d0 d1 = 1 \/ stepSign d0 d1 = -1.
Proof. unfold stepSign. destruct (d1 - d0 <? 0); auto. Qed.

(** The first and the last position of the walk. *)
Lemma linePixel_first a b c : linePixel a b 0 0 c = mkVertex (vx a) (vy a) c.
Proof.
  unfold linePixel. destruct (_ <? _); f_equal; lia.
Qed.

Lemma linePixel_last x0 y0 c0 x1 y1 c1 c :
  let a := lineStart x0 y0 c0 x1 y1 c1 in
  let b := lineEnd x0 y0 c0 x1 y1 c1 in
  linePixel a b (Z.max (Z.abs (x1 - x0)) (Z.abs (y1 - y0)))
    (Z.min (Z.abs (x1 - x0)) (Z.abs (y1 - y0))) c
  = mkVertex (vx b) (vy b) c.
Proof.
  intros a b.
  pose proof (line_ends_dominant x0 y0 c0 x1 y1 c1) as H. cbv zeta in H.
  fold a b in H. unfold linePixel.
  destruct (Z.abs (vy b - vy a) <? Z.abs (vx b - vx a)) eqn:E;
    destruct H as [Hn Hm]; rewrite <- Hn, <- Hm, stepSign_abs; f_equal; lia.
Qed.

Lemma line_range_max x0 y0 x1 y1 :
  line_in_range x0 y0 x1 y1 ->
  int32 (Z.max (Z.abs (x1 - x0)) (Z.abs (y1 - y0))).
Proof. intros (_ & _ & _ & _ & Hdx & Hdy). int32_arith. Qed.

Lemma line_colors_wf x0 y0 c0 x1 y1 c1 :
  uint32 c0 -> uint32 c1 ->
  uint32 (vcolor (lineStart x0 y0 c0 x1 y1 c1)) /\
  uint32 (vcolor (lineEnd x0 y0 c0 x1 y1 c1)).
Proof.
  intros H0 H1.
  destruct (line_ends x0 y0 c0 x1 y1 c1) as [[-> ->]|[-> ->]]; auto.
Qed.

(** The line starts at the start of the walk and ends at its end, each
    with the colour given for it. *)
Lemma bresenham_ends fuel x0 y0 c0 x1 y1 c1 :
  line_in_range x0 y0 x1 y1 -> (x0, y0) <> (x1, y1) ->
  uint32 c0 -> uint32 c1 ->
  Z.max (Z.abs (x1 - x0)) (Z.abs (y1 - y0)) + 1 < Z.of_nat fuel ->
  exists pixels,
    bresenham fuel x0 y0 c0 x1 y1 c1 = Some pixels /\
    head pixels = Some (lineStart x0 y0 c0 x1 y1 c1) /\
    last pixels = Some (lineEnd x0 y0 c0 x1 y1 c1).
Proof.
  intros Hr Hne Hc0 Hc1 Hfuel.
  destruct (bresenham_pixels fuel x0 y0 c0 x1 y1 c1 Hr Hne Hfuel)
    as (pixels & Hrun & Hlen & Hpix).
  pose proof (line_range_max x0 y0 x1 y1 Hr) as Hn.
  destruct (line_colors_wf x0 y0 c0 x1 y1 c1 Hc0 Hc1) as [Ha Hb].
  set (a := lineStart x0 y0 c0 x1 y1 c1) in *.
  set (b := lineEnd x0 y0 c0 x1 y1 c1) in *.
  set (n := Z.max (Z.abs (x1 - x0)) (Z.abs (y1 - y0))) in *.
  set (m := Z.min (Z.abs (x1 - x0)) (Z.abs (y1 - y0))) in *.
  assert (Hpos : 0 < n).
  { destruct (Z.eq_dec x0 x1) as [->|]; [|subst n; lia].
    destruct (Z.eq_dec y0 y1) as [->|]; [congruence | subst n; lia]. }
  assert (Hfirst : is_Some (pixels !! 0%nat))
    by (apply lookup_lt_is_Some; lia).
  assert (Hlast : is_Some (pixels !! Z.to_nat n))
    by (apply lookup_lt_is_Some; lia).
  destruct Hfirst as [first Hfirst]. destruct Hlast as [final Hlast].
  exists pixels. split; [exact Hrun|]. split.
  - rewrite head_lookup, Hfirst. f_equal.
    destruct (Hpix _ _ Hfirst) as (j & -> & Hline).
    change (Z.of_nat 0) with 0 in *.
    apply on_line_first in Hline; [|lia]. subst j.
    destruct (stepFraction_first n Hn) as [s ->].
    rewrite interpolateColor_zero by exact Ha.
    rewrite linePixel_first. apply vertex_eta.
  - rewrite last_lookup.
    replace (Nat.pred (length pixels)) with (Z.to_nat n) by lia.
    rewrite Hlast. f_equal.
    destruct (Hpix _ _ Hlast) as (j & -> & Hline).
    rewrite Z2Nat.id in * by lia.
    apply on_line_last in Hline; [|lia]. subst j.
    rewrite stepFraction_last by (assumption || lia).
    rewrite interpolateColor_one by exact Hb.
    subst a b n m. rewrite linePixel_last. apply vertex_eta.
Qed.

(** Where a pixel of the walk lies. *)
Lemma linePixel_offset x0 y0 c0 x1 y1 c1 k j c :
  let a := lineStart x0 y0 c0 x1 y1 c1 in
  let b := lineEnd x0 y0 c0 x1 y1 c1 in
  let n := Z.max (Z.abs (x1 - x0)) (Z.abs (y1 - y0)) in
  let m := Z.min (Z.abs (x1 - x0)) (Z.abs (y1 - y0)) in
  Z.abs (lineOffset x0 y0 x1 y1 (linePixel a b k j c)) = Z.abs (m * k - n * j).
Proof.
  intros a b n m.
  pose proof (line_ends_dominant x0 y0 c0 x1 y1 c1) as H. cbv zeta in H.
  fold a b n m in H.
  assert (Hab : (vx a = x0 /\ vy a = y0 /\ vx b = x1 /\ vy b = y1) \/
                (vx a = x1 /\ vy a = y1 /\ vx b = x0 /\ vy b = y0)).
  { subst a b.
    destruct (line_ends x0 y0 c0 x1 y1 c1) as [[-> ->]|[-> ->]];
      cbn [vx vy]; tauto. }
  unfold lineOffset, linePixel.
  destruct (Z.abs (vy b - vy a) <? Z.abs (vx b - vx a)) eqn:E;
    destruct H as [Hn Hm]; cbn [vx vy].
  - pose proof (stepSign_abs (vy a) (vy b)) as Hs.
    assert (Em : m = stepSign (vy a) (vy b) * (vy b - vy a))
      by (destruct (stepSign_unit (vy a) (vy b)) as [Hu|Hu];
          rewrite Hu in *; lia).
    rewrite Em, <- Hn.
    destruct (stepSign_unit (vy a) (vy b)) as [Hu|Hu]; rewrite Hu;
      destruct Hab as [(Ea & Eb & Ec & Ed)|(Ea & Eb & Ec & Ed)];
      rewrite Ea, Eb, Ec, Ed;
      first [f_equal; ring | rewrite <- Z.abs_opp; f_equal; ring].
  - pose proof (stepSign_abs (vx a) (vx b)) as Hs.
    assert (Em : m = stepSign (vx a) (vx b) * (vx b - vx a))
      by (destruct (stepSign_unit (vx a) (vx b)) as [Hu|Hu];
          rewrite Hu in *; lia).
    rewrite Em, <- Hn.
    destruct (stepSign_unit (vx a) (vx b)) as [Hu|Hu]; rewrite Hu;
      destruct Hab as [(Ea & Eb & Ec & Ed)|(Ea & Eb & Ec & Ed)];
      rewrite Ea, Eb, Ec, Ed;
      first [f_equal; ring | rewrite <- Z.abs_opp; f_equal; ring].
Qed.

Lemma linePixel_box x0 y0 c0 x1 y1 c1 k j c :
  let a := lineStart x0 y0 c0 x1 y1 c1 in
  let b := lineEnd x0 y0 c0 x1 y1 c1 in
  let n := Z.max (Z.abs (x1 - x0)) (Z.abs (y1 - y0)) in
  let m := Z.min (Z.abs (x1 - x0)) (Z.abs (y1 - y0)) in
  0 <= k <= n -> 0 <= j <= m ->
  Z.min x0 x1 <= vx (linePixel a b k j c) <= Z.max x0 x1 /\
  Z.min y0 y1 <= vy (linePixel a b k j c) <= Z.max y0 y1.
Proof.
  intros a b n m Hk Hj.
  pose proof (line_ends_dominant x0 y0 c0 x1 y1 c1) as H. cbv zeta in H.
  fold a b n m in H.
  assert (Hab : (vx a = x0 /\ vy a = y0 /\ vx b = x1 /\ vy b = y1) \/
                (vx a = x1 /\ vy a = y1 /\ vx b = x0 /\ vy b = y0)).
  { subst a b.
    destruct (line_ends x0 y0 c0 x1 y1 c1) as [[-> ->]|[-> ->]];
      cbn [vx vy]; tauto. }
  unfold linePixel.
  destruct (Z.abs (vy b - vy a) <? Z.abs (vx b - vx a)) eqn:E;
    destruct H as [Hn Hm]; cbn [vx vy].
  - pose proof (stepSign_abs (vy a) (vy b)) as Hs.
    destruct (stepSign_unit (vy a) (vy b)) as [Hu|Hu];
      rewrite Hu in *;
      destruct Hab as [(? & ? & ? & ?)|(? & ? & ? & ?)]; lia.
  - pose proof (stepSign_abs (vx a) (vx b)) as Hs.
    destruct (stepSign_unit (vx a) (vx b)) as [Hu|Hu];
      rewrite Hu in *;
      destruct Hab as [(? & ? & ? & ?)|(? & ? & ? & ?)]; lia.
Qed.

(** From one pixel of the walk to the next. *)
Lemma linePixel_next a b k j j' c c' :
  j' = j \/ j' = j + 1 ->
  Z.abs (vx (linePixel a b (k + 1) j' c') - vx (linePixel a b k j c)) <= 1 /\
  Z.abs (vy (linePixel a b (k + 1) j' c') - vy (linePixel a b k j c)) <= 1.
Proof.
  intros Hj. unfold linePixel.
  destruct (_ <? _); cbn [vx vy].
  - destruct (stepSign_unit (vy a) (vy b)) as [Hu|Hu]; rewrite Hu; lia.
  - destruct (stepSign_unit (vx a) (vx b)) as [Hu|Hu]; rewrite Hu; lia.
Qed.

Lemma line_minor_le x0 y0 x1 y1 :
  0 <= Z.min (Z.abs (x1 - x0)) (Z.abs (y1 - y0))
    <= Z.max (Z.abs (x1 - x0)) (Z.abs (y1 - y0)).
Proof. lia. Qed.

(** A line from a point to itself is that point, in the first colour. *)
Lemma bresenham_point fuel x y c0 c1 :
  int32 x -> int32 y -> y < INT_MAX -> uint32 c0 -> (2 <= fuel)%nat ->
  bresenham fuel x y c0 x y c1 = Some [mkVertex x y c0].
Proof.
  intros Hx Hy Hmax Hc Hfuel.
  assert (E0 : forall z, int32 z -> sub32 z z = 0)
    by (intros z Hz; rewrite sub32_id by int32_arith; lia).
  unfold bresenham. rewrite !E0 by assumption.
  change (abs32 0 <? abs32 0) with false. cbv iota.
  destruct (y >? y) eqn:E; [lia|].
  unfold bresenhamHigh.
  destruct fuel as [|[|fuel]]; [lia | lia |].
  cbn [for_le]. rewrite Z.leb_refl.
  cbn [ls_D ls_dep ls_currentStep ls_pixels].
  rewrite !E0 by assumption.
  change (sub32 (mul32 2 (if 0 <? 0 then neg32 0 else 0)) 0 >? 0) with false.
  cbv iota.
  rewrite add32_id by int32_arith.
  destruct (y + 1 <=? y) eqn:E'; [lia|].
  cbn [option_map ls_pixels app].
  change (stepFraction 0 0) with (S754_zero false).
  rewrite interpolateColor_zero by exact Hc. reflexivity.
Qed.

Lemma abs_sym a b : Z.abs (a - b) = Z.abs (b - a).
Proof. lia. Qed.

(** The line does not depend on which end is given first. *)
Lemma bresenham_swap fuel x0 y0 c0 x1 y1 c1 :
  int32 x0 -> int32 y0 -> int32 x1 -> int32 y1 ->
  Z.abs (x1 - x0) <= INT_MAX -> Z.abs (y1 - y0) <= INT_MAX ->
  (x0, y0) <> (x1, y1) ->
  bresenham fuel x1 y1 c1 x0 y0 c0 = bresenham fuel x0 y0 c0 x1 y1 c1.
Proof.
  intros Hx0 Hy0 Hx1 Hy1 Hdx Hdy Hne. unfold bresenham.
  rewrite !sub32_id by int32_arith.
  rewrite !abs32_id by (unfold INT_MAX in *; lia).
  rewrite (abs_sym y0 y1), (abs_sym x0 x1).
  destruct (Z.abs (y1 - y0) <? Z.abs (x1 - x0)) eqn:Edom.
  - destruct (x0 >? x1) eqn:E0; destruct (x1 >? x0) eqn:E1;
      try reflexivity; exfalso; lia.
  - destruct (y0 >? y1) eqn:E0; destruct (y1 >? y0) eqn:E1;
      try reflexivity; exfalso.
    + lia.
    + apply Hne. assert (y0 = y1) by lia. assert (x0 = x1) by lia. congruence.
Qed.

End LineFacts.

(** ** Drawing a list of pixels *)

Section DrawPixels.

Lemma replay_app s l1 l2 : replay s (l1 ++ l2) = replay (replay s l2) l1.
Proof.
  induction l1 as [|[[x y] c] l1 IH]; [reflexivity|].
  cbn. rewrite IH. reflexivity.
Qed.

(** Drawing the pixels of an edge replays their calls, the last pixel
    being the latest call. *)
Lemma drawPixels_replay s edge :
  drawPixels s edge = replay s (rev (map call_of edge)).
Proof.
  unfold drawPixels. revert s.
  induction edge as [|v edge IH]; intros s; [reflexivity|].
  cbn [fold_left map rev]. rewrite IH, replay_app. reflexivity.
Qed.



Lemma in_calls edge x y c :
  In (x, y, c) (rev (map call_of edge)) <->
  exists p, In p edge /\ vx p = x /\ vy p = y /\ vcolor p = c.
Proof.
  rewrite <- in_rev, in_map_iff. split.
  - intros (p & Heq & Hp). exists p. unfold call_of in Heq.
    injection Heq as <- <- <-. auto.
  - intros (p & Hp & <- & <- & <-). exists p. split; [reflexivity | exact Hp].
Qed.



Lemma in_lookup {A} (l : list A) x : In x l <-> exists k : nat, l !! k = Some x.
Proof. rewrite <- list_elem_of_In. apply list_elem_of_lookup. Qed.

End DrawPixels.

(** ** One edge *)

Section Edges.

(** What [drawTriangle] relies on for each edge, whether its two ends
    are distinct or not: the edge is returned, it holds its first end
    with the colour of that end, and its other end when the two are
    distinct; no two of its pixels share a position; and each pixel
    lies in the box of the two ends, within half a step of the line. *)
Lemma bresenham_edge fuel (a b : Vertex) :
  line_in_range (vx a) (vy a) (vx b) (vy b) ->
  uint32 (vcolor a) -> uint32 (vcolor b) ->
  lineLength a b < Z.of_nat fuel ->
  exists pixels,
    bresenham fuel (vx a) (vy a) (vcolor a) (vx b) (vy b) (vcolor b)
    = Some pixels /\
    In a pixels /\
    ((vx a, vy a) <> (vx b, vy b) -> In b pixels) /\
    (forall p q, In p pixels -> In q pixels ->
       vx q = vx p -> vy q = vy p -> q = p) /\
    (forall p, In p pixels ->
       (Z.min (vx a) (vx b) <= vx p <= Z.max (vx a) (vx b) /\
        Z.min (vy a) (vy b) <= vy p <= Z.max (vy a) (vy b)) /\
       2 * Z.abs (lineOffset (vx a) (vy a) (vx b) (vy b) p)
       <= Z.max (Z.abs (vx b - vx a)) (Z.abs (vy b - vy a))).
Proof.
  intros Hr Ha Hb Hfuel. unfold lineLength in Hfuel.
  destruct (decide ((vx a, vy a) = (vx b, vy b))) as [Heq|Hne].
  - (* a single point *)
    injection Heq as Ex Ey.
    destruct Hr as ((Hx & _) & (Hy & Hmax) & _).
    exists [a]. rewrite <- Ex, <- Ey.
    rewrite bresenham_point by (assumption || lia).
    rewrite vertex_eta. split; [reflexivity|].
    split; [left; reflexivity|].
    split; [congruence|].
    split.
    + intros p q [<-|[]] [<-|[]] _ _. reflexivity.
    + intros p [<-|[]].
      unfold lineOffset. split; [lia|].
      rewrite !Z.sub_diag. cbn. lia.
  - (* a proper line *)
    destruct (bresenham_ends fuel _ _ _ _ _ _ Hr Hne Ha Hb Hfuel)
      as (pixels & Hrun & Hhead & Hlast).
    destruct (bresenham_pixels fuel _ _ (vcolor a) _ _ (vcolor b) Hr Hne Hfuel)
      as (pixels' & Hrun' & Hlen & Hpix).
    rewrite Hrun in Hrun'. injection Hrun' as <-.
    exists pixels. split; [exact Hrun|].
    assert (Hends :
      In (lineStart (vx a) (vy a) (vcolor a) (vx b) (vy b) (vcolor b)) pixels /\
      In (lineEnd (vx a) (vy a) (vcolor a) (vx b) (vy b) (vcolor b)) pixels).
    { split; apply in_lookup.
      - rewrite head_lookup in Hhead. eauto.
      - rewrite last_lookup in Hlast. eauto. }
    assert (Hboth : In a pixels /\ In b pixels).
    { destruct (line_ends (vx a) (vy a) (vcolor a) (vx b) (vy b) (vcolor b))
        as [[Es Ee]|[Es Ee]]; rewrite Es, Ee, !vertex_eta in Hends; tauto. }
    split; [apply Hboth|]. split; [intros _; apply Hboth|].
    pose proof (line_minor_le (vx a) (vy a) (vx b) (vy b)) as Hmn.
    assert (Hpos : 0 < Z.max (Z.abs (vx b - vx a)) (Z.abs (vy b - vy a))).
    { destruct (Z.eq_dec (vx a) (vx b)) as [E1|]; [|lia].
      destruct (Z.eq_dec (vy a) (vy b)) as [E2|]; [|lia].
      exfalso. apply Hne. congruence. }
    split.
    + intros p q Hp Hq Hx Hy.
      apply in_lookup in Hp as [k Hk].
      apply in_lookup in Hq as [k' Hk'].
      destruct (Hpix k p Hk) as (j & Ep & Hj).
      destruct (Hpix k' q Hk') as (j' & Eq & Hj').
      assert (Ekk : Z.of_nat k' = Z.of_nat k).
      { rewrite Ep, Eq in Hx, Hy. unfold linePixel in Hx, Hy.
        destruct (_ <? _); cbn [vx vy] in Hx, Hy; lia. }
      apply Nat2Z.inj in Ekk. subst k'. congruence.
    + intros p Hp.
      apply in_lookup in Hp as [k Hk].
      assert (Hklt : (k < length pixels)%nat)
        by (apply lookup_lt_is_Some; eauto).
      destruct (Hpix k p Hk) as (j & -> & Hj).
      assert (Hkr : 0 <= Z.of_nat k
                    <= Z.max (Z.abs (vx b - vx a)) (Z.abs (vy b - vy a)))
        by lia.
      pose proof (on_line_offset _ _ _ _ Hpos Hmn Hkr Hj) as Hjr.
      split.
      * apply linePixel_box; lia.
      * rewrite linePixel_offset. apply on_line_close, Hj.
Qed.

End Edges.

(** ** The outline of a triangle *)

Section Outline.

(** The outline is the replay of the calls of the third edge over those
    of the second over those of the first. *)
Lemma drawPixels_three s e1 e2 e3 :
  drawPixels (drawPixels (drawPixels s e1) e2) e3
  = replay s (rev (map call_of e3) ++ rev (map call_of e2)
              ++ rev (map call_of e1)).
Proof. rewrite !drawPixels_replay, !replay_app. reflexivity. Qed.


(** The three edges of an outline in range are returned. *)
Lemma outline_edges fuel v0 v1 v2 :
  vertex_wf v0 -> vertex_wf v1 -> vertex_wf v2 ->
  outline_in_range v0 v1 v2 ->
  outlineLength v0 v1 v2 < Z.of_nat fuel ->
  exists e1 e2 e3,
    bresenham fuel (vx v0) (vy v0) (vcolor v0) (vx v1) (vy v1) (vcolor v1)
    = Some e1 /\
    bresenham fuel (vx v1) (vy v1) (vcolor v1) (vx v2) (vy v2) (vcolor v2)
    = Some e2 /\
    bresenham fuel (vx v2) (vy v2) (vcolor v2) (vx v0) (vy v0) (vcolor v0)
    = Some e3 /\
    forall s, drawTriangle fuel s v0 v1 v2
              = Some (replay s (rev (map call_of e3) ++ rev (map call_of e2)
                                ++ rev (map call_of e1))).
Proof.
  intros (_ & _ & C0) (_ & _ & C1) (_ & _ & C2) (R1 & R2 & R3) Hfuel.
  unfold outlineLength in Hfuel.
  destruct (bresenham_edge fuel v0 v1 R1 C0 C1 ltac:(lia)) as (e1 & H1 & _).
  destruct (bresenham_edge fuel v1 v2 R2 C1 C2 ltac:(lia)) as (e2 & H2 & _).
  destruct (bresenham_edge fuel v2 v0 R3 C2 C0 ltac:(lia)) as (e3 & H3 & _).
  exists e1, e2, e3. split; [exact H1|]. split; [exact H2|].
  split; [exact H3|].
  intros s. unfold drawTriangle. rewrite H1, H2, H3.
  rewrite drawPixels_three. reflexivity.
Qed.

End Outline.

(** ** The rows of the vertices *)

Section VertexRows.

Lemma sortByY_sorted a b c :
  vy a <= vy b <= vy c -> sortByY a b c = (a, b, c).
Proof.
  intros H. unfold sortByY.
  destruct (vy a >? vy b) eqn:E1; [lia|].
  destruct (vy a >? vy c) eqn:E2; [lia|].
  destruct (vy b >? vy c) eqn:E3; [lia|]. reflexivity.
Qed.

(** The fill of a triangle is the fill of its sorted vertices. *)
Lemma fillTriangleOn_sorted {Sink} (put : Sink -> Z -> Z -> Z -> Sink)
    fuel s v0 v1 v2 a b c :
  sortByY v0 v1 v2 = (a, b, c) ->
  fillTriangleOn put fuel s v0 v1 v2 = fillTriangleOn put fuel s a b c.
Proof.
  intros Hs. unfold fillTriangleOn. rewrite Hs.
  destruct (sortByY_spec v0 v1 v2 a b c Hs) as (Hord & _).
  rewrite (sortByY_sorted a b c Hord). reflexivity.
Qed.

(** An edge position at fraction zero is the first end of the edge, and
    at fraction one the other end. *)
Lemma edge_at_zero x d s :
  Z.abs x < 2 ^ 24 -> int32 d ->
  holds_int (fadd (float_of_int x) (fmul (float_of_int d) (S754_zero s))) x.
Proof.
  intros Hx Hd.
  pose proof (float_of_int_exact x Hx) as Hfx.
  destruct (float_of_int_spec d Hd) as [Hfd _].
  assert (Hz : holds_int (fmul (float_of_int d) (S754_zero s)) 0).
  { unfold fmul, SFmul.
    destruct (float_of_int d) as [sd|sd| |sd md ed]; try contradiction;
      reflexivity. }
  pose proof (fadd_exact _ _ x 0 Hfx Hz) as H.
  rewrite Z.add_0_r in H. apply H, Hx.
Qed.

Lemma edge_at_one x x' :
  Z.abs x < 2 ^ 23 -> Z.abs x' < 2 ^ 23 ->
  holds_int (fadd (float_of_int x) (fmul (float_of_int (sub32 x' x)) fone)) x'.
Proof.
  intros Hx Hx'.
  change (2 ^ 23) with 8388608 in *.
  rewrite sub32_id by int32_arith.
  assert (Hfx : holds_int (float_of_int x) x)
    by (apply float_of_int_exact; change (2 ^ 24) with 16777216; lia).
  assert (Hfd : holds_int (float_of_int (x' - x)) (x' - x))
    by (apply float_of_int_exact; change (2 ^ 24) with 16777216; lia).
  pose proof (fadd_exact _ _ x (x' - x) Hfx (fmul_one_exact _ _ Hfd)) as H.
  replace (x + (x' - x)) with x' in H by lia.
  apply H. change (2 ^ 24) with 16777216. lia.
Qed.

Lemma holds_int_fmin f g z : holds_int f z -> holds_int g z -> holds_int (fmin f g) z.
Proof. intros Hf Hg. unfold fmin. destruct (flt g f); assumption. Qed.

Lemma holds_int_fmax f g z : holds_int f z -> holds_int g z -> holds_int (fmax f g) z.
Proof. intros Hf Hg. unfold fmax. destruct (flt f g); assumption. Qed.

Lemma zero_fraction n d :
  int32 n -> int32 d -> n <> d ->
  exists s, fdiv (float_of_int (sub32 n n)) (float_of_int (sub32 d n))
            = S754_zero s.
Proof.
  intros Hn Hd Hne.
  replace (sub32 n n) with 0 by (rewrite sub32_id by int32_arith; lia).
  apply fraction_zero; [apply wrap32_range|].
  apply sub32_nonzero; auto.
Qed.

Lemma one_fraction n d :
  int32 n -> int32 d -> n <> d ->
  fdiv (float_of_int (sub32 d n)) (float_of_int (sub32 d n)) = fone.
Proof.
  intros Hn Hd Hne.
  apply fraction_self; [apply wrap32_range|].
  apply sub32_nonzero; auto.
Qed.

(** On the row of a top vertex that is alone on its row the span is that
    vertex. *)
Lemma scanEdges_top a b c :
  vertex_wf a -> vertex_wf b -> vertex_wf c ->
  Z.abs (vx a) < 2 ^ 24 ->
  vy a < vy b -> vy b <= vy c ->
  scanEdges a b c (vy a)
  = Some (mkSpan (vx a) (vx a) (vcolor a) (vcolor a)).
Proof.
  intros (Xa & Ya & Ca) (Xb & Yb & Cb) (Xc & Yc & Cc) Hx Hab Hbc.
  unfold scanEdges.
  destruct (vy a <? vy b) eqn:E1; [|lia].
  destruct (vy b =? vy a) eqn:E2; [lia|].
  destruct (zero_fraction (vy a) (vy c) Ya Yc ltac:(lia)) as [s1 ->].
  destruct (zero_fraction (vy a) (vy b) Ya Yb ltac:(lia)) as [s2 ->].
  rewrite !interpolateColor_zero by assumption.
  pose proof (edge_at_zero (vx a) (sub32 (vx c) (vx a)) s1 Hx
                (wrap32_range _)) as Hl.
  pose proof (edge_at_zero (vx a) (sub32 (vx b) (vx a)) s2 Hx
                (wrap32_range _)) as Hs.
  rewrite (int_of_float_exact _ _ (holds_int_fmin _ _ _ Hl Hs)).
  rewrite (int_of_float_exact _ _ (holds_int_fmax _ _ _ Hl Hs)).
  destruct (flt _ _); reflexivity.
Qed.

(** On the row of a bottom vertex that is alone on its row the span is
    that vertex. *)
Lemma scanEdges_bottom a b c :
  vertex_wf a -> vertex_wf b -> vertex_wf c ->
  Z.abs (vx a) < 2 ^ 23 -> Z.abs (vx b) < 2 ^ 23 -> Z.abs (vx c) < 2 ^ 23 ->
  vy a <= vy b -> vy b < vy c ->
  scanEdges a b c (vy c)
  = Some (mkSpan (vx c) (vx c) (vcolor c) (vcolor c)).
Proof.
  intros (Xa & Ya & Ca) (Xb & Yb & Cb) (Xc & Yc & Cc) Hxa Hxb Hxc Hab Hbc.
  unfold scanEdges.
  destruct (vy c <? vy b) eqn:E1; [lia|].
  destruct (vy c =? vy b) eqn:E2; [lia|].
  rewrite (one_fraction (vy a) (vy c)) by (assumption || lia).
  rewrite (one_fraction (vy b) (vy c)) by (assumption || lia).
  rewrite !interpolateColor_one by assumption.
  pose proof (edge_at_one (vx a) (vx c) Hxa Hxc) as Hl.
  pose proof (edge_at_one (vx b) (vx c) Hxb Hxc) as Hs.
  rewrite (int_of_float_exact _ _ (holds_int_fmin _ _ _ Hl Hs)).
  rewrite (int_of_float_exact _ _ (holds_int_fmax _ _ _ Hl Hs)).
  destruct (flt _ _); reflexivity.
Qed.

(** The row of a flat bottom edge is skipped. *)
Lemma scanEdges_flat_bottom a b c : vy b = vy c -> scanEdges a b c (vy c) = None.
Proof.
  intros H. unfold scanEdges.
  destruct (vy c <? vy b) eqn:E1; [lia|].
  destruct (vy c =? vy b) eqn:E2; [reflexivity | lia].
Qed.

(** What the calls of a fill leave on a row whose span is one pixel, and
    on a row that is skipped. *)
Lemma fill_row_single fuel a b c log x y color :
  int32 (vy a) -> int32 (vy c) -> vy a <= vy b <= vy c -> vy a <> vy c ->
  vy a <= y <= vy c ->
  int32 x -> x < INT_MAX ->
  scanEdges a b c y = Some (mkSpan x x color color) ->
  fillTriangle_calls fuel a b c = Some log ->
  find_call log x y = Some color.
Proof.
  intros Ha Hc Hord Hne Hy Hx Hmax He Hlog.
  destruct (fillTriangle_calls_by_row fuel a b c log x y Ha Hc Hy
              (sortByY_sorted a b c Hord) Hne Hlog) as (l & Hl & ->).
  apply (scanline_mono record fuel (Nat.max fuel 2)) in Hl; [|lia].
  unfold scanline in Hl. rewrite He in Hl.
  rewrite fillSpan_single in Hl; [|assumption | assumption | reflexivity | lia].
  injection Hl as <-. cbn. rewrite !Z.eqb_refl. reflexivity.
Qed.

Lemma fill_row_skipped fuel a b c log x y :
  int32 (vy a) -> int32 (vy c) -> vy a <= vy b <= vy c -> vy a <> vy c ->
  vy a <= y <= vy c ->
  scanEdges a b c y = None ->
  fillTriangle_calls fuel a b c = Some log ->
  find_call log x y = None.
Proof.
  intros Ha Hc Hord Hne Hy He Hlog.
  destruct (fillTriangle_calls_by_row fuel a b c log x y Ha Hc Hy
              (sortByY_sorted a b c Hord) Hne Hlog) as (l & Hl & ->).
  unfold scanline in Hl. rewrite He in Hl.
  injection Hl as <-. reflexivity.
Qed.

Lemma small_coords_wf v : small_coords v -> int32 (vx v) /\ int32 (vy v).
Proof. intros [Hx Hy]. split; int32_arith. Qed.

Lemma small_rows_below_max v0 v1 v2 :
  small_coords v0 -> small_coords v1 -> small_coords v2 ->
  rows_below_max v0 v1 v2.
Proof.
  intros [_ H0] [_ H1] [_ H2]. unfold rows_below_max.
  repeat split; int32_arith.
Qed.

End VertexRows.

(** ** Rounding between two integers *)

(** Rounding to nearest never crosses an integer: a value between two
    integers below 2^24 rounds to a float between them. The shift that
    [SpecFloat] performs divides the mantissa by a power of two, and
    reports whether digits were lost. *)
Section RoundingBounds.

Lemma shr_1_nonneg mrs : 0 <= shr_m mrs -> 0 <= shr_m (shr_1 mrs).
Proof.
  intros H. rewrite shr_1_div2 by assumption. apply Z.div_pos; lia.
Qed.

Lemma iter_shr_1_nonneg p mrs :
  0 <= shr_m mrs -> 0 <= shr_m (SpecFloat.iter_pos shr_1 p mrs).
Proof.
  intros H. rewrite iter_shr_1 by assumption.
  apply Z.div_pos; [assumption | apply Z.pow_pos_nonneg; lia].
Qed.

(** A shift by one that reports no loss lost nothing. *)
Lemma shr_1_lossless mrs :
  0 <= shr_m mrs ->
  loc_of_shr_record (shr_1 mrs) = loc_Exact ->
  loc_of_shr_record mrs = loc_Exact /\ shr_m mrs = shr_m (shr_1 mrs) * 2.
Proof.
  destruct mrs as [m r s]. cbn [shr_m]. intros Hm.
  destruct m as [|[p|p|]|p]; destruct r, s; cbn; intros H;
    try discriminate H; try lia; split; try reflexivity; lia.
Qed.

Lemma iter_shr_1_lossless p mrs :
  0 <= shr_m mrs ->
  loc_of_shr_record (SpecFloat.iter_pos shr_1 p mrs) = loc_Exact ->
  loc_of_shr_record mrs = loc_Exact /\
  shr_m mrs = shr_m (SpecFloat.iter_pos shr_1 p mrs) * 2 ^ Z.pos p.
Proof.
  revert mrs.
  induction p as [p IH|p IH|]; intros mrs Hm H; cbn [SpecFloat.iter_pos] in *.
  - pose proof (shr_1_nonneg mrs Hm) as H1.
    pose proof (iter_shr_1_nonneg p (shr_1 mrs) H1) as H2.
    destruct (IH _ H2 H) as [L2 E2].
    destruct (IH _ H1 L2) as [L1 E1].
    destruct (shr_1_lossless mrs Hm L1) as [L0 E0].
    split; [exact L0|].
    rewrite E0, E1, E2, pow2_xI. ring.
  - pose proof (iter_shr_1_nonneg p mrs Hm) as H2.
    destruct (IH _ H2 H) as [L2 E2].
    destruct (IH _ Hm L2) as [L1 E1].
    split; [exact L1|].
    rewrite E1, E2, pow2_xO. ring.
  - destruct (shr_1_lossless mrs Hm H) as [L0 E0].
    split; [exact L0|]. rewrite E0. change (2 ^ 1) with 2. reflexivity.
Qed.

Lemma loc_of_shr_record_of_loc m l :
  loc_of_shr_record (shr_record_of_loc m l) = l.
Proof. destruct l as [|[]]; reflexivity. Qed.

(** One shift to the precision: the exponent it reaches, the mantissa it
    leaves, and what it means that it reports no loss. *)
Lemma shr_fexp_floor m e l :
  0 <= m ->
  let e1 := Z.max e (fexp prec emax (Zdigits2 m + e)) in
  let mrs := fst (shr_fexp prec emax m e l) in
  snd (shr_fexp prec emax m e l) = e1 /\
  shr_m mrs = m / 2 ^ (e1 - e) /\
  (loc_of_shr_record mrs = loc_Exact ->
   l = loc_Exact /\ m = shr_m mrs * 2 ^ (e1 - e)) /\
  (l = loc_Exact -> m mod 2 ^ (e1 - e) = 0 ->
   loc_of_shr_record mrs = loc_Exact).
Proof.
  intros Hm e1 mrs. subst e1 mrs. unfold shr_fexp, shr.
  destruct (fexp prec emax (Zdigits2 m + e) - e) as [|n|n] eqn:En;
    cbn [fst snd].
  - replace (Z.max e (fexp prec emax (Zdigits2 m + e))) with e by lia.
    rewrite Z.sub_diag, Z.pow_0_r, Z.div_1_r, Z.mul_1_r.
    rewrite shr_record_of_loc_m, loc_of_shr_record_of_loc. tauto.
  - replace (Z.max e (fexp prec emax (Zdigits2 m + e))) with (e + Z.pos n)
      by lia.
    replace (e + Z.pos n - e) with (Z.pos n) by lia.
    split; [reflexivity|]. split.
    + rewrite iter_shr_1 by (rewrite shr_record_of_loc_m; assumption).
      rewrite shr_record_of_loc_m. reflexivity.
    + split.
      * intros Hloc.
        apply iter_shr_1_lossless in Hloc;
          [|rewrite shr_record_of_loc_m; assumption].
        rewrite loc_of_shr_record_of_loc, shr_record_of_loc_m in Hloc.
        exact Hloc.
      * intros -> Hmod. cbn [shr_record_of_loc].
        assert (Hp : 0 < 2 ^ Z.pos n) by (apply Z.pow_pos_nonneg; lia).
        pose proof (Z.div_mod m (2 ^ Z.pos n) ltac:(lia)) as Hd.
        rewrite Hmod, Z.add_0_r in Hd.
        rewrite Hd at 1. rewrite Z.mul_comm.
        rewrite iter_shr_1_exact by (apply Z.div_pos; lia).
        reflexivity.
  - replace (Z.max e (fexp prec emax (Zdigits2 m + e))) with e by lia.
    rewrite Z.sub_diag, Z.pow_0_r, Z.div_1_r, Z.mul_1_r.
    rewrite shr_record_of_loc_m, loc_of_shr_record_of_loc. tauto.
Qed.

Lemma round_nearest_even_exact m : round_nearest_even m loc_Exact = m.
Proof. reflexivity. Qed.

(** The exponent of the shift stays at or below zero while the mantissa
    is below 2^24 in value. *)
Lemma shift_exponent_nonpos m e :
  0 <= m -> e <= 0 -> m < 2 ^ (24 - e) ->
  Z.max e (fexp prec emax (Zdigits2 m + e)) <= 0.
Proof.
  intros Hm He Hlt.
  pose proof (digits2_le m (24 - e) Hm ltac:(lia) Hlt).
  fexp_arith.
Qed.

Lemma pow2_split a b : 0 <= a -> 0 <= b -> 2 ^ (a + b) = 2 ^ a * 2 ^ b.
Proof. intros. apply Z.pow_add_r; assumption. Qed.

(** The rounding of a mantissa whose value lies between two integers. *)
Lemma binary_round_aux_between s m e l lo hi :
  0 <= m -> e <= 0 -> 0 <= lo -> hi < 2 ^ 24 ->
  lo * 2 ^ (- e) <= m ->
  mantissa_above m l <= hi * 2 ^ (- e) ->
  match binary_round_aux prec emax s m e l with
  | S754_zero _ => lo = 0
  | S754_finite s' m' e' =>
      s' = s /\ e' <= 0 /\
      lo * 2 ^ (- e') <= Z.pos m' <= hi * 2 ^ (- e')
  | _ => False
  end.
Proof.
  intros Hm He Hlo Hhi Hlow Hup.
  assert (Hmup : m <= mantissa_above m l) by (destruct l; cbn; lia).
  assert (Pe : 0 < 2 ^ (- e)) by (apply Z.pow_pos_nonneg; lia).
  assert (Hm24 : m < 2 ^ (24 - e)).
  { replace (24 - e) with (24 + - e) by lia.
    rewrite pow2_split by lia.
    assert (hi * 2 ^ (- e) < 2 ^ 24 * 2 ^ (- e))
      by (apply Z.mul_lt_mono_pos_r; lia).
    lia. }
  unfold binary_round_aux.
  destruct (shr_fexp_floor m e l Hm) as (He1 & Hm1 & Hex1 & Hex1').
  pose proof (shift_exponent_nonpos m e Hm He Hm24) as He1le.
  destruct (shr_fexp prec emax m e l) as [mrs1 e1].
  cbn [fst snd] in He1, Hm1, Hex1, Hex1'.
  assert (Hk1 : 0 <= e1 - e) by lia.
  rewrite <- He1 in Hm1, Hex1, Hex1', He1le. clear He1.
  assert (Pk1 : 0 < 2 ^ (e1 - e)) by (apply Z.pow_pos_nonneg; lia).
  assert (Pe1 : 0 < 2 ^ (- e1)) by (apply Z.pow_pos_nonneg; lia).
  assert (Esplit : 2 ^ (- e) = 2 ^ (- e1) * 2 ^ (e1 - e))
    by (rewrite <- pow2_split by lia; f_equal; lia).
  (* the first shift *)
  assert (Hlow1 : lo * 2 ^ (- e1) <= shr_m mrs1).
  { rewrite Hm1. apply Z.div_le_lower_bound; [lia|]. nia. }
  pose proof (round_nearest_even_bounds (shr_m mrs1) (loc_of_shr_record mrs1))
    as Hr.
  set (r1 := round_nearest_even (shr_m mrs1) (loc_of_shr_record mrs1)) in *.
  assert (Hup1 : r1 <= hi * 2 ^ (- e1)).
  { destruct (loc_of_shr_record mrs1) as [|c] eqn:Eloc.
    - destruct (Hex1 eq_refl) as [-> Em]. cbn in Hup. subst r1. cbn.
      rewrite Esplit in Hup. nia.
    - assert (Hstrict : m < hi * 2 ^ (- e)).
      { destruct l as [|c'].
        - cbn in Hup.
          destruct (Z.eq_dec m (hi * 2 ^ (- e))) as [Eq|]; [|lia].
          exfalso.
          assert (Hmod : m mod 2 ^ (e1 - e) = 0).
          { rewrite Eq, Esplit, Z.mul_assoc. apply Z.mod_mul. lia. }
          specialize (Hex1' eq_refl Hmod). discriminate Hex1'.
        - cbn in Hup. lia. }
      assert (shr_m mrs1 < hi * 2 ^ (- e1)).
      { rewrite Hm1. apply Z.div_lt_upper_bound; [lia|]. nia. }
      lia. }
  assert (Hr0 : 0 <= r1).
  { assert (0 <= shr_m mrs1) by (rewrite Hm1; apply Z.div_pos; lia). lia. }
  assert (Hr24 : r1 < 2 ^ (24 - e1)).
  { replace (24 - e1) with (24 + - e1) by lia.
    rewrite pow2_split by lia.
    assert (hi * 2 ^ (- e1) < 2 ^ 24 * 2 ^ (- e1))
      by (apply Z.mul_lt_mono_pos_r; lia).
    lia. }
  (* the second shift *)
  destruct (shr_fexp_floor r1 e1 loc_Exact Hr0) as (He2 & Hm2 & _ & _).
  pose proof (shift_exponent_nonpos r1 e1 Hr0 He1le Hr24) as He2le.
  destruct (shr_fexp prec emax r1 e1 loc_Exact) as [mrs2 e2].
  cbn [fst snd] in He2, Hm2.
  assert (Hk2 : 0 <= e2 - e1) by lia.
  rewrite <- He2 in Hm2, He2le. clear He2.
  assert (Pk2 : 0 < 2 ^ (e2 - e1)) by (apply Z.pow_pos_nonneg; lia).
  assert (Pe2 : 0 < 2 ^ (- e2)) by (apply Z.pow_pos_nonneg; lia).
  assert (Esplit2 : 2 ^ (- e1) = 2 ^ (- e2) * 2 ^ (e2 - e1))
    by (rewrite <- pow2_split by lia; f_equal; lia).
  assert (Hlow2 : lo * 2 ^ (- e2) <= shr_m mrs2).
  { rewrite Hm2. apply Z.div_le_lower_bound; [lia|]. nia. }
  assert (Hup2 : shr_m mrs2 <= hi * 2 ^ (- e2)).
  { rewrite Hm2. apply Z.div_le_upper_bound; [lia|]. nia. }
  destruct (shr_m mrs2) as [|m2|m2] eqn:Em2.
  - nia.
  - destruct (e2 <=? emax - prec) eqn:Ele.
    + split; [reflexivity|]. split; [exact He2le|]. lia.
    + unfold emax, prec in Ele. lia.
  - nia.
Qed.

End RoundingBounds.

(** ** Interpolation stays between its ends *)

Section Between.

Lemma float_between_weaken lo hi lo' hi' f :
  float_between lo hi f -> lo' <= lo -> hi <= hi' -> float_between lo' hi' f.
Proof.
  intros H Hlo Hhi. destruct f as [s|s| |s m e]; cbn in *; try contradiction.
  - lia.
  - destruct H as (He & Hl & Hu). split; [exact He|].
    assert (0 < 2 ^ (- e)) by (apply Z.pow_pos_nonneg; lia). nia.
Qed.

(** A converted integer lies between itself and itself. *)
Lemma holds_int_between f z : holds_int f z -> float_between z z f.
Proof.
  destruct f as [s|s| |s m e]; cbn; try contradiction.
  - intros ->. lia.
  - intros (He & Hm & Hval & Hs). split; [lia|].
    rewrite Hval. subst s. unfold cond_Zopp.
    destruct (z <? 0) eqn:E; lia.
Qed.

(** A fraction: a float between 0 and 1. *)
Lemma unit_fraction_cases t :
  float_between 0 1 t ->
  match t with
  | S754_zero _ => True
  | S754_finite s m e => s = false /\ e <= 0 /\ Z.pos m <= 2 ^ (- e)
  | _ => False
  end.
Proof.
  destruct t as [s|s| |s m e]; cbn; try tauto.
  intros (He & Hl & Hu). destruct s; cbn in *; [lia|].
  split; [reflexivity|]. split; [exact He | lia].
Qed.

(** The magnitude and the sign of a rounding between two integers. *)
Lemma binary_round_aux_signed (s : bool) m e l lo hi :
  0 <= m -> e <= 0 -> 0 <= lo -> hi < 2 ^ 24 ->
  lo * 2 ^ (- e) <= m ->
  mantissa_above m l <= hi * 2 ^ (- e) ->
  float_between (if s then - hi else lo) (if s then - lo else hi)
    (binary_round_aux prec emax s m e l).
Proof.
  intros Hm He Hlo Hhi Hlow Hup.
  pose proof (binary_round_aux_between s m e l lo hi Hm He Hlo Hhi Hlow Hup)
    as H.
  assert (Hle : lo <= hi).
  { assert (0 < 2 ^ (- e)) by (apply Z.pow_pos_nonneg; lia).
    assert (m <= mantissa_above m l) by (destruct l; cbn; lia). nia. }
  destruct (binary_round_aux prec emax s m e l) as [s'|s'| |s' m' e'];
    cbn; try contradiction.
  - subst lo. destruct s; lia.
  - destruct H as (-> & He' & Hb). split; [exact He'|].
    destruct s; cbn; lia.
Qed.

(** The product of a small integer by a fraction lies between zero and
    the integer. *)
Lemma fmul_between x d t :
  holds_int x d -> float_between 0 1 t ->
  float_between (Z.min 0 d) (Z.max 0 d) (fmul x t).
Proof.
  intros Hx Ht. apply unit_fraction_cases in Ht. unfold fmul, SFmul.
  destruct x as [sx|sx| |sx mx ex], t as [st|st| |st mt et];
    try contradiction; cbn [float_between]; try lia.
  destruct Hx as (Hex & Hmx & Hval & Hs).
  destruct Ht as (-> & Het & Hmt).
  rewrite xorb_false_r.
  assert (Pex : 0 < 2 ^ (- ex)) by (apply Z.pow_pos_nonneg; lia).
  assert (Pet : 0 < 2 ^ (- et)) by (apply Z.pow_pos_nonneg; lia).
  assert (Hd24 : Z.abs d < 2 ^ 24) by nia.
  assert (Esplit : 2 ^ (- (ex + et)) = 2 ^ (- ex) * 2 ^ (- et))
    by (rewrite <- pow2_split by lia; f_equal; lia).
  pose proof (binary_round_aux_signed sx (Z.pos (mx * mt)) (ex + et) loc_Exact
                0 (Z.abs d) ltac:(lia) ltac:(lia) ltac:(lia) Hd24 ltac:(lia))
    as H.
  eapply float_between_weaken; [apply H| |].
  - cbn [mantissa_above]. rewrite Pos2Z.inj_mul, Hval, Esplit. nia.
  - subst sx. destruct (d <? 0) eqn:E; lia.
  - subst sx. destruct (d <? 0) eqn:E; lia.
Qed.

(** The signed mantissa of a float between two integers, at a lower
    exponent. *)
Lemma float_between_aligned lo hi s m e ez :
  float_between lo hi (S754_finite s m e) -> ez <= e ->
  lo * 2 ^ (- ez) <= cond_Zopp s (Z.pos (fst (shl_align m e ez)))
    <= hi * 2 ^ (- ez).
Proof.
  intros (He & Hl & Hu) Hle. unfold shl_align.
  assert (Pe : 0 < 2 ^ (- e)) by (apply Z.pow_pos_nonneg; lia).
  destruct (ez - e) as [|q|q] eqn:Eq; cbn [fst].
  - replace ez with e by lia. lia.
  - lia.
  - rewrite pos_iter_xO.
    assert (Pq : 0 < 2 ^ Z.pos q) by (apply Z.pow_pos_nonneg; lia).
    assert (Esplit : 2 ^ (- ez) = 2 ^ (- e) * 2 ^ Z.pos q)
      by (rewrite <- pow2_split by lia; f_equal; lia).
    rewrite Esplit.
    assert (Ec : cond_Zopp s (Z.pos m * 2 ^ Z.pos q)
                 = cond_Zopp s (Z.pos m) * 2 ^ Z.pos q)
      by (destruct s; cbn; ring).
    rewrite Ec. nia.
Qed.

(** A rounding that starts by aligning the mantissa to the precision. *)
Lemma binary_round_signed (s : bool) (M : positive) e lo hi :
  e <= 0 -> 0 <= lo -> hi < 2 ^ 24 ->
  lo * 2 ^ (- e) <= Z.pos M <= hi * 2 ^ (- e) ->
  float_between (if s then - hi else lo) (if s then - lo else hi)
    (binary_round prec emax s M e).
Proof.
  intros He Hlo Hhi [Hl Hu]. unfold binary_round.
  assert (Pe : 0 < 2 ^ (- e)) by (apply Z.pow_pos_nonneg; lia).
  set (e' := fexp prec emax (Z.pos (digits2_pos M) + e)).
  unfold shl_align.
  destruct (e' - e) as [|q|q] eqn:Eq.
  - apply binary_round_aux_signed; cbn [mantissa_above]; lia.
  - apply binary_round_aux_signed; cbn [mantissa_above]; lia.
  - assert (Pq : 0 < 2 ^ Z.pos q) by (apply Z.pow_pos_nonneg; lia).
    assert (Esplit : 2 ^ (- e') = 2 ^ (- e) * 2 ^ Z.pos q)
      by (rewrite <- pow2_split by lia; f_equal; lia).
    apply binary_round_aux_signed; cbn [mantissa_above];
      rewrite ?pos_iter_xO, ?Esplit; try lia; nia.
Qed.

(** The normalisation of a signed mantissa between two integers. *)
Lemma binary_normalize_between z e lo hi :
  e <= 0 -> - 2 ^ 24 < lo -> hi < 2 ^ 24 ->
  lo * 2 ^ (- e) <= z <= hi * 2 ^ (- e) ->
  float_between lo hi (binary_normalize prec emax z e false).
Proof.
  intros He Hlo Hhi [Hl Hu]. unfold binary_normalize.
  assert (Pe : 0 < 2 ^ (- e)) by (apply Z.pow_pos_nonneg; lia).
  destruct z as [|M|M].
  - cbn. nia.
  - assert (Hhi0 : 0 < hi) by nia.
    pose proof (binary_round_signed false M e (Z.max 0 lo) hi He
                  ltac:(lia) Hhi ltac:(nia)) as H.
    eapply float_between_weaken; [apply H | cbn; lia | cbn; lia].
  - assert (Hlo0 : lo < 0) by nia.
    pose proof (binary_round_signed true M e (Z.max 0 (- hi)) (- lo) He
                  ltac:(lia) ltac:(lia) ltac:(nia)) as H.
    eapply float_between_weaken; [apply H | cbn; lia | cbn; lia].
Qed.

(** The sum of a small integer and a float between two integers. *)
Lemma fadd_between x c p lo hi :
  holds_int x c -> float_between lo hi p ->
  - 2 ^ 24 < c + lo -> c + hi < 2 ^ 24 ->
  float_between (c + lo) (c + hi) (fadd x p).
Proof.
  intros Hx Hp Hlo Hhi. unfold fadd, SFadd.
  destruct x as [sx|sx| |sx mx ex], p as [sp|sp| |sp mp ep];
    try contradiction.
  - cbn in Hx, Hp. subst c. destruct sx, sp; cbn; lia.
  - cbn in Hx. subst c. exact Hp.
  - cbn in Hp.
    eapply float_between_weaken; [apply holds_int_between, Hx | lia | lia].
  - set (ez := Z.min ex ep).
    assert (Hex : -23 <= ex <= 0) by (destruct Hx as (? & _); lia).
    assert (Hep : ep <= 0) by (destruct Hp as (? & _); lia).
    apply binary_normalize_between; [subst ez; lia | exact Hlo | exact Hhi|].
    pose proof (float_between_aligned c c sx mx ex ez
                  (holds_int_between _ _ Hx) ltac:(subst ez; lia)) as Hxa.
    pose proof (float_between_aligned lo hi sp mp ep ez Hp
                  ltac:(subst ez; lia)) as Hpa.
    lia.
Qed.

(** The position between two small integers at a fraction of the way. *)
Lemma lerp_between a b t :
  Z.abs a < 2 ^ 23 -> Z.abs b < 2 ^ 23 -> float_between 0 1 t ->
  float_between (Z.min a b) (Z.max a b)
    (fadd (float_of_int a) (fmul (float_of_int (sub32 b a)) t)).
Proof.
  intros Ha Hb Ht. change (2 ^ 23) with 8388608 in *.
  rewrite sub32_id by int32_arith.
  assert (Hfa : holds_int (float_of_int a) a)
    by (apply float_of_int_exact; change (2 ^ 24) with 16777216; lia).
  assert (Hfd : holds_int (float_of_int (b - a)) (b - a))
    by (apply float_of_int_exact; change (2 ^ 24) with 16777216; lia).
  pose proof (fmul_between _ _ t Hfd Ht) as Hp.
  eapply float_between_weaken;
    [apply (fadd_between _ a _ _ _ Hfa Hp) | |];
    change (2 ^ 24) with 16777216; lia.
Qed.

(** The conversion to [int] of a float between two integers. *)
Lemma int_of_float_between lo hi f :
  float_between lo hi f -> int32 lo -> int32 hi ->
  lo <= int_of_float f <= hi.
Proof.
  intros Hf Hlo Hhi. unfold int_of_float.
  destruct f as [s|s| |s m e]; cbn [float_between ftrunc] in *;
    try contradiction.
  - cbn. lia.
  - destruct Hf as (He & Hl & Hu).
    assert (Pe : 0 < 2 ^ (- e)) by (apply Z.pow_pos_nonneg; lia).
    assert (Ea : match e with
                 | Z.neg p => Z.pos m / 2 ^ Z.pos p
                 | _ => Z.pos m * 2 ^ e
                 end = Z.pos m / 2 ^ (- e)).
    { destruct e as [|p|p]; [|lia|reflexivity].
      cbn. rewrite Z.div_1_r. lia. }
    rewrite Ea.
    set (q := Z.pos m / 2 ^ (- e)).
    assert (Hq : q * 2 ^ (- e) <= Z.pos m < (q + 1) * 2 ^ (- e)).
    { subst q. pose proof (Z.div_mod (Z.pos m) (2 ^ (- e)) ltac:(lia)).
      pose proof (Z.mod_pos_bound (Z.pos m) (2 ^ (- e)) Pe). nia. }
    assert (Hz : lo <= (if s then - q else q) <= hi).
    { destruct s; cbn in Hl, Hu; nia. }
    destruct ((INT_MIN <=? (if s then - q else q))
              && ((if s then - q else q) <=? INT_MAX)) eqn:E; [exact Hz|].
    unfold int32, INT_MIN, INT_MAX in *. lia.
Qed.

(** One channel stays between its two ends. *)
Lemma interpolateChannel_between c1 c2 t :
  0 <= c1 < 256 -> 0 <= c2 < 256 -> float_between 0 1 t ->
  Z.min c1 c2 <= interpolateChannel c1 c2 t <= Z.max c1 c2.
Proof.
  intros H1 H2 Ht. unfold interpolateChannel, uint8_of_float, to_u8.
  pose proof (lerp_between c1 c2 t ltac:(change (2 ^ 23) with 8388608; lia)
                ltac:(change (2 ^ 23) with 8388608; lia) Ht) as Hb.
  apply int_of_float_between in Hb; [|int32_arith|int32_arith].
  rewrite Z.mod_small by lia. exact Hb.
Qed.

End Between.

(** ** Fractions *)

Section UnitFractions.

Lemma new_location_zero n : new_location n 0 = loc_Exact.
Proof.
  unfold new_location, new_location_even, new_location_odd.
  destruct (Z.even n); reflexivity.
Qed.

Lemma mantissa_above_le m l : mantissa_above m l <= m + 1.
Proof. destruct l; cbn; lia. Qed.

Lemma holds_int_digits s m e z : holds_int (S754_finite s m e) z -> Zdigits2 (Z.pos m) = 24.
Proof.
  intros (_ & Hm & _). apply digits2_unique; [|lia].
  change (24 - 1) with 23. exact Hm.
Qed.

(** The quotient of two small integers, the first between zero and the
    second, is a float between 0 and 1. *)
Lemma fraction_between a b :
  0 <= a <= b -> 0 < b -> b < 2 ^ 24 ->
  float_between 0 1 (fdiv (float_of_int a) (float_of_int b)).
Proof.
  intros Ha Hb Hb24.
  assert (Hfa : holds_int (float_of_int a) a)
    by (apply float_of_int_exact; lia).
  assert (Hfb : holds_int (float_of_int b) b)
    by (apply float_of_int_exact; lia).
  destruct (float_of_int b) as [sb|sb| |sb mb eb]; try contradiction;
    [cbn in Hfb; lia|].
  destruct (float_of_int a) as [sa|sa| |sa ma ea]; try contradiction;
    [cbn; lia|].
  pose proof (holds_int_digits _ _ _ _ Hfa) as Hda.
  pose proof (holds_int_digits _ _ _ _ Hfb) as Hdb.
  destruct Hfa as (Hea & Hma & Hva & Hsa).
  destruct Hfb as (Heb & Hmb & Hvb & Hsb).
  assert (Esa : sa = false) by (subst sa; apply Z.ltb_ge; lia).
  assert (Esb : sb = false) by (subst sb; apply Z.ltb_ge; lia).
  rewrite Z.abs_eq in Hva, Hvb by lia.
  unfold fdiv, SFdiv, SFdiv_core_binary.
  rewrite Hda, Hdb, Esa, Esb. cbn [xorb].
  replace (fexp prec emax (24 + ea - (24 + eb))) with (ea - eb - 24)
    by fexp_arith.
  replace (Z.min (ea - eb - 24) (ea - eb)) with (ea - eb - 24) by lia.
  replace (ea - eb - (ea - eb - 24)) with 24 by lia. cbv iota.
  rewrite Z.shiftl_mul_pow2 by lia.
  pose proof (Z_div_mod (Z.pos ma * 2 ^ 24) (Z.pos mb) ltac:(lia)) as Hdiv.
  destruct (Z.div_eucl (Z.pos ma * 2 ^ 24) (Z.pos mb)) as [q r].
  destruct Hdiv as [Hq Hr].
  set (P := 2 ^ (- (ea - eb - 24))).
  assert (PP : 0 < P) by (apply Z.pow_pos_nonneg; lia).
  assert (Pa : 0 < 2 ^ (- ea)) by (apply Z.pow_pos_nonneg; lia).
  assert (Pb : 0 < 2 ^ (- eb)) by (apply Z.pow_pos_nonneg; lia).
  assert (EP : 2 ^ (- eb) * P = 2 ^ (- ea) * 2 ^ 24).
  { subst P. rewrite <- !pow2_split by lia. f_equal. lia. }
  assert (Hle : Z.pos ma * 2 ^ 24 <= Z.pos mb * P).
  { rewrite Hva, Hvb.
    replace (b * 2 ^ (- eb) * P) with (b * (2 ^ (- eb) * P)) by ring.
    rewrite EP.
    replace (a * 2 ^ (- ea) * 2 ^ 24) with (a * (2 ^ (- ea) * 2 ^ 24)) by ring.
    apply Z.mul_le_mono_nonneg_r; lia. }
  assert (Hq0 : 0 <= q) by nia.
  assert (HqP : q <= P) by nia.
  assert (Hup : mantissa_above q (new_location (Z.pos mb) r) <= 1 * P).
  { destruct (Z.eq_dec r 0) as [->|Hne].
    - rewrite new_location_zero. cbn. lia.
    - pose proof (mantissa_above_le q (new_location (Z.pos mb) r)).
      assert (q < P) by nia. lia. }
  apply (binary_round_aux_signed false q (ea - eb - 24)
           (new_location (Z.pos mb) r) 0 1).
  - exact Hq0.
  - lia.
  - lia.
  - reflexivity.
  - lia.
  - exact Hup.
Qed.

(** The same for the fractions that the code computes, from
    differences of [int]s. *)
Lemma fraction_of_differences i lo hi :
  lo <= i <= hi -> lo < hi -> hi - lo < 2 ^ 24 ->
  int32 i -> int32 lo -> int32 hi ->
  float_between 0 1
    (fdiv (float_of_int (sub32 i lo)) (float_of_int (sub32 hi lo))).
Proof.
  intros Hi Hlt Hd Ii Ilo Ihi. change (2 ^ 24) with 16777216 in Hd.
  rewrite !sub32_id by int32_arith.
  apply fraction_between; [lia | lia | change (2 ^ 24) with 16777216; lia].
Qed.

End UnitFractions.

(** ** The fill stays in the box and in the colours of the vertices *)

Section FillBounds.

Lemma float_between_fmin lo hi f g :
  float_between lo hi f -> float_between lo hi g ->
  float_between lo hi (fmin f g).
Proof. intros Hf Hg. unfold fmin. destruct (flt g f); assumption. Qed.

Lemma float_between_fmax lo hi f g :
  float_between lo hi f -> float_between lo hi g ->
  float_between lo hi (fmax f g).
Proof. intros Hf Hg. unfold fmax. destruct (flt f g); assumption. Qed.

(** One channel of an interpolated colour, between bounds that hold at
    both ends. *)
Lemma interpolateColor_channel_between shift lo hi c0 c1 t :
  In shift [24; 16; 8; 0] -> float_between 0 1 t ->
  lo <= channel shift c0 <= hi -> lo <= channel shift c1 <= hi ->
  lo <= channel shift (interpolateColor c0 c1 t) <= hi.
Proof.
  intros Hs Ht H0 H1.
  pose proof (interpolateChannel_between (channel shift c0) (channel shift c1) t
                (channel_range _ _) (channel_range _ _) Ht) as Hb.
  destruct (interpolateColor_channel c0 c1 t) as (_ & E24 & E16 & E8 & E0).
  destruct Hs as [<-|[<-|[<-|[<-|[]]]]];
    [rewrite E24 | rewrite E16 | rewrite E8 | rewrite E0]; lia.
Qed.

(** The ends of the span of a row: between the least and the greatest
    [x] of the vertices, and in their range of colours. *)
Lemma scanEdges_between a b c y sp xlo xhi :
  small_coords a -> small_coords b -> small_coords c ->
  vy a <= vy b <= vy c -> vy a <= y <= vy c ->
  xlo <= vx a <= xhi -> xlo <= vx b <= xhi -> xlo <= vx c <= xhi ->
  scanEdges a b c y = Some sp ->
  (xlo <= x_left sp <= xhi /\ xlo <= x_right sp <= xhi) /\
  forall shift lo hi, In shift [24; 16; 8; 0] ->
    lo <= channel shift (vcolor a) <= hi ->
    lo <= channel shift (vcolor b) <= hi ->
    lo <= channel shift (vcolor c) <= hi ->
    lo <= channel shift (color_left sp) <= hi /\
    lo <= channel shift (color_right sp) <= hi.
Proof.
  intros [Xa Ya] [Xb Yb] [Xc Yc] Hord Hy Ba Bb Bc.
  assert (I8 : forall z, Z.abs z < 8388608 -> int32 z)
    by (intros z Hz; int32_arith).
  assert (Iy : int32 y) by int32_arith.
  assert (Ilo : int32 (Z.max xlo (-8388608))) by int32_arith.
  assert (Ihi : int32 (Z.min xhi 8388608)) by int32_arith.
  unfold scanEdges.
  destruct (y <? vy b) eqn:Etop.
  - destruct (vy b =? vy a) eqn:Eflat; [discriminate|].
    pose proof (fraction_of_differences y (vy a) (vy c) ltac:(lia) ltac:(lia)
                  ltac:(change (2 ^ 24) with 16777216; lia)
                  Iy (I8 _ Ya) (I8 _ Yc)) as Tl.
    pose proof (fraction_of_differences y (vy a) (vy b) ltac:(lia) ltac:(lia)
                  ltac:(change (2 ^ 24) with 16777216; lia)
                  Iy (I8 _ Ya) (I8 _ Yb)) as Ts.
    set (tl := fdiv (float_of_int (sub32 y (vy a)))
                    (float_of_int (sub32 (vy c) (vy a)))) in *.
    set (ts := fdiv (float_of_int (sub32 y (vy a)))
                    (float_of_int (sub32 (vy b) (vy a)))) in *.
    pose proof (lerp_between (vx a) (vx c) tl Xa Xc Tl) as Xl.
    pose proof (lerp_between (vx a) (vx b) ts Xa Xb Ts) as Xs.
    apply (float_between_weaken _ _ (Z.max xlo (-8388608)) (Z.min xhi 8388608))
      in Xl, Xs; try lia.
    intros [= <-]. cbn [x_left x_right color_left color_right]. split.
    + pose proof (int_of_float_between _ _ _
                    (float_between_fmin _ _ _ _ Xl Xs) Ilo Ihi).
      pose proof (int_of_float_between _ _ _
                    (float_between_fmax _ _ _ _ Xl Xs) Ilo Ihi).
      lia.
    + intros shift lo hi Hs Ca Cb Cc.
      pose proof (interpolateColor_channel_between shift lo hi _ _ tl Hs Tl Ca Cc).
      pose proof (interpolateColor_channel_between shift lo hi _ _ ts Hs Ts Ca Cb).
      destruct (flt _ _); split; assumption.
  - destruct (vy c =? vy b) eqn:Eflat; [discriminate|].
    pose proof (fraction_of_differences y (vy a) (vy c) ltac:(lia) ltac:(lia)
                  ltac:(change (2 ^ 24) with 16777216; lia)
                  Iy (I8 _ Ya) (I8 _ Yc)) as Tl.
    pose proof (fraction_of_differences y (vy b) (vy c) ltac:(lia) ltac:(lia)
                  ltac:(change (2 ^ 24) with 16777216; lia)
                  Iy (I8 _ Yb) (I8 _ Yc)) as Ts.
    set (tl := fdiv (float_of_int (sub32 y (vy a)))
                    (float_of_int (sub32 (vy c) (vy a)))) in *.
    set (ts := fdiv (float_of_int (sub32 y (vy b)))
                    (float_of_int (sub32 (vy c) (vy b)))) in *.
    pose proof (lerp_between (vx a) (vx c) tl Xa Xc Tl) as Xl.
    pose proof (lerp_between (vx b) (vx c) ts Xb Xc Ts) as Xs.
    apply (float_between_weaken _ _ (Z.max xlo (-8388608)) (Z.min xhi 8388608))
      in Xl, Xs; try lia.
    intros [= <-]. cbn [x_left x_right color_left color_right]. split.
    + pose proof (int_of_float_between _ _ _
                    (float_between_fmin _ _ _ _ Xl Xs) Ilo Ihi).
      pose proof (int_of_float_between _ _ _
                    (float_between_fmax _ _ _ _ Xl Xs) Ilo Ihi).
      lia.
    + intros shift lo hi Hs Ca Cb Cc.
      pose proof (interpolateColor_channel_between shift lo hi _ _ tl Hs Tl Ca Cc).
      pose proof (interpolateColor_channel_between shift lo hi _ _ ts Hs Ts Cb Cc).
      destruct (flt _ _); split; assumption.
Qed.

(** The calls of one span: each at a position of the span, with a colour
    in the range of the two ends. *)
Lemma fillSpan_between (P : Z -> Prop) fuel log sp y log' :
  Z.abs (x_left sp) <= 8388608 -> Z.abs (x_right sp) <= 8388608 ->
  P (color_left sp) ->
  (forall x, x_left sp <= x <= x_right sp -> x_left sp < x_right sp ->
     P (interpolateColor (color_left sp) (color_right sp)
          (fdiv (float_of_int (sub32 x (x_left sp)))
                (float_of_int (sub32 (x_right sp) (x_left sp)))))) ->
  Forall (fun c : Call =>
            x_left sp <= fst (fst c) <= x_right sp /\ P (snd c)) log ->
  fillSpan record fuel log sp y = Some log' ->
  Forall (fun c : Call =>
            x_left sp <= fst (fst c) <= x_right sp /\ P (snd c)) log'.
Proof.
  intros Hl Hr Pl Pmid Hlog H. unfold fillSpan in H.
  apply (for_le_partial
           (fun _ l => Forall (fun c : Call =>
              x_left sp <= fst (fst c) <= x_right sp /\ P (snd c)) l))
    in H; try assumption; try int32_arith.
  intros x l l' Hx Hl' [= <-].
  destruct (x_right sp =? x_left sp) eqn:E; constructor; try assumption;
    cbn [fst snd]; (split; [lia|]).
  - exact Pl.
  - apply Pmid; lia.
Qed.

End FillBounds.

Section FillCalls.

(** The calls of one row, on their own. *)
Lemma scanline_record_split fuel a b c y log log' :
  scanline record fuel a b c y log = Some log' ->
  exists l, scanline record fuel a b c y [] = Some l /\ log' = l ++ log.
Proof.
  rewrite scanline_record_app.
  destruct (scanline record fuel a b c y []) as [l|]; [|discriminate].
  intros [= <-]. exists l. auto.
Qed.

(** Every call of a fill lies between the least and the greatest [x] of
    the vertices, and each channel of its colour between bounds that
    hold for the three vertex colours. *)
Lemma fillTriangle_calls_bounds fuel v0 v1 v2 log xlo xhi (lo hi : Z -> Z) :
  small_coords v0 -> small_coords v1 -> small_coords v2 ->
  (forall v, In v [v0; v1; v2] ->
     xlo <= vx v <= xhi /\
     forall shift, In shift [24; 16; 8; 0] ->
       lo shift <= channel shift (vcolor v) <= hi shift) ->
  fillTriangle_calls fuel v0 v1 v2 = Some log ->
  Forall (fun c : Call =>
            xlo <= fst (fst c) <= xhi /\
            forall shift, In shift [24; 16; 8; 0] ->
              lo shift <= channel shift (snd c) <= hi shift) log.
Proof.
  intros S0 S1 S2 Hv. unfold fillTriangle_calls, fillTriangleOn.
  destruct (sortByY v0 v1 v2) as [[a b] c] eqn:Es.
  destruct (sortByY_spec v0 v1 v2 a b c Es) as (Hord & _ & _ & Hin).
  destruct (Hin (fun v => small_coords v /\
                   xlo <= vx v <= xhi /\
                   forall shift, In shift [24; 16; 8; 0] ->
                     lo shift <= channel shift (vcolor v) <= hi shift))
    as ((Sa & Xa & Ca) & (Sb & Xb & Cb) & (Sc & Xc & Cc));
    [split; [assumption | apply Hv; cbn; auto] ..|].
  destruct (vy a =? vy c) eqn:E; [intros [= <-]; constructor|].
  intros H.
  destruct (small_coords_wf a Sa) as [_ Ia].
  destruct (small_coords_wf c Sc) as [_ Ic].
  set (P := fun color : Z =>
              forall shift, In shift [24; 16; 8; 0] ->
                lo shift <= channel shift color <= hi shift).
  apply (for_le_partial
           (fun _ l => Forall (fun c : Call =>
              xlo <= fst (fst c) <= xhi /\ P (snd c)) l))
    in H; try assumption; [constructor|].
  intros y l l' Hy Hl Hstep.
  apply scanline_record_split in Hstep as (row & Hrow & ->).
  apply Forall_app. split; [|exact Hl].
  unfold scanline in Hrow.
  destruct (scanEdges a b c y) as [sp|] eqn:Ee;
    [|injection Hrow as <-; constructor].
  destruct (scanEdges_between a b c y sp
              (Z.max xlo (-8388607)) (Z.min xhi 8388607) Sa Sb Sc Hord Hy)
    as ((Hleft & Hright) & Hcol); try assumption;
    try (destruct Sa, Sb, Sc; lia).
  eapply Forall_impl.
  - apply (fillSpan_between P fuel [] sp y row); try lia.
    + intros shift Hs. apply (Hcol shift); auto.
    + intros x Hx Hlt shift Hs.
      apply interpolateColor_channel_between; try assumption.
      * apply fraction_of_differences;
          first [int32_arith | change (2 ^ 24) with 16777216; lia].
      * apply (Hcol shift); auto.
      * apply (Hcol shift); auto.
    + constructor.
    + exact Hrow.
  - intros call [Hx Hc]. split; [lia | exact Hc].
Qed.

(** The least and the greatest value of a channel among three colours
    bound the channel of a colour: what [color_within] tests. *)
Lemma color_within_true c0 c1 c2 color :
  (forall shift, In shift [24; 16; 8; 0] ->
     Z.min (channel shift c0) (Z.min (channel shift c1) (channel shift c2))
       <= channel shift color
       <= Z.max (channel shift c0) (Z.max (channel shift c1) (channel shift c2))) ->
  color_within c0 c1 c2 color = true.
Proof.
  intros H. unfold color_within, channel_within.
  pose proof (H 24 ltac:(cbn; auto)). pose proof (H 16 ltac:(cbn; auto)).
  pose proof (H 8 ltac:(cbn; auto)). pose proof (H 0 ltac:(cbn; auto)).
  repeat (apply andb_true_iff; split); apply Z.leb_le; lia.
Qed.

Lemma in_three {A} (P : A -> Prop) (v0 v1 v2 : A) :
  P v0 -> P v1 -> P v2 -> forall v, In v [v0; v1; v2] -> P v.
Proof. intros H0 H1 H2 v [<-|[<-|[<-|[]]]]; assumption. Qed.

(** Every call of the fill lies in the box of the vertices. *)
Lemma fillTriangle_calls_in_box fuel v0 v1 v2 log :
  small_coords v0 -> small_coords v1 -> small_coords v2 ->
  fillTriangle_calls fuel v0 v1 v2 = Some log ->
  Forall (fun c : Call => in_box v0 v1 v2 (fst (fst c)) (snd (fst c))) log.
Proof.
  intros S0 S1 S2 Hlog.
  pose proof (fillTriangle_calls_bounds fuel v0 v1 v2 log
                (Z.min (vx v0) (Z.min (vx v1) (vx v2)))
                (Z.max (vx v0) (Z.max (vx v1) (vx v2)))
                (fun _ => 0) (fun _ => 255) S0 S1 S2) as Hx.
  destruct (small_coords_wf v0 S0) as [_ I0].
  destruct (small_coords_wf v1 S1) as [_ I1].
  destruct (small_coords_wf v2 S2) as [_ I2].
  pose proof (fillTriangle_calls_rows fuel v0 v1 v2 log I0 I1 I2 Hlog) as Hy.
  assert (Hb : forall k c, 0 <= channel k c <= 255)
    by (intros k c; pose proof (channel_range k c); lia).
  specialize (Hx ltac:(apply in_three; (split; [lia | intros; apply Hb])) Hlog).
  rewrite Forall_forall in Hx, Hy. apply Forall_forall. intros call Hc.
  specialize (Hx call Hc). specialize (Hy call Hc).
  unfold in_box, row_within in *. split; [apply Hx | exact Hy].
Qed.

(** Every colour that the fill writes lies, channel by channel, between
    the least and the greatest value of that channel at the vertices. *)
Lemma fillTriangle_calls_within fuel v0 v1 v2 log :
  small_coords v0 -> small_coords v1 -> small_coords v2 ->
  fillTriangle_calls fuel v0 v1 v2 = Some log ->
  Forall (fun c : Call =>
            color_within (vcolor v0) (vcolor v1) (vcolor v2) (snd c) = true)
    log.
Proof.
  intros S0 S1 S2 Hlog.
  pose proof (fillTriangle_calls_bounds fuel v0 v1 v2 log
                (Z.min (vx v0) (Z.min (vx v1) (vx v2)))
                (Z.max (vx v0) (Z.max (vx v1) (vx v2)))
                (fun k => Z.min (channel k (vcolor v0))
                            (Z.min (channel k (vcolor v1))
                               (channel k (vcolor v2))))
                (fun k => Z.max (channel k (vcolor v0))
                            (Z.max (channel k (vcolor v1))
                               (channel k (vcolor v2))))
                S0 S1 S2) as Hx.
  specialize (Hx ltac:(apply in_three; (split; [lia | intros; lia])) Hlog).
  eapply Forall_impl; [exact Hx|].
  intros call [_ Hc]. apply color_within_true, Hc.
Qed.

End FillCalls.

(** ** Small lines *)

Lemma small_line_range : line_in_range 0 0 5 2.
Proof.
  unfold line_in_range, int32. vm_compute. repeat split; discriminate.
Qed.

(** ** Outlines *)

Section OutlineFacts.


Lemma small_outline_wf :
  screen_wf small_screen /\
  vertex_wf small_v0 /\ vertex_wf small_v1 /\ vertex_wf small_v2.
Proof.
  split; [unfold screen_wf; vm_compute; repeat split; discriminate|].
  repeat split; vm_compute; congruence.
Qed.

Lemma small_outline_range : outline_in_range small_v0 small_v1 small_v2.
Proof.
  unfold outline_in_range, line_in_range, int32. vm_compute.
  repeat split; discriminate.
Qed.

End OutlineFacts.

(** ** The picture of a fill *)

Section FillPictures.

Lemma find_call_In log x y c : find_call log x y = Some c -> In (x, y, c) log.
Proof.
  induction log as [|[[x' y'] c'] log IH]; [discriminate|].
  cbn. destruct ((x' =? x) && (y' =? y)) eqn:E.
  - apply andb_true_iff in E as [Ex Ey]. apply Z.eqb_eq in Ex, Ey.
    intros [= <-]. subst. left. reflexivity.
  - intros H. right. apply IH, H.
Qed.

Lemma find_call_Forall (P : Call -> Prop) log x y c :
  Forall P log -> find_call log x y = Some c -> P (x, y, c).
Proof.
  intros HP H. rewrite List.Forall_forall in HP. apply HP, find_call_In, H.
Qed.

(** What a position of the screen holds after a fill: the colour of the
    latest call for it, or what it held before. *)
Lemma fillTriangle_pixel fuel s v0 v1 v2 s' x y :
  screen_wf s -> on_screen s x y ->
  fillTriangle fuel s v0 v1 v2 = Some s' ->
  exists log,
    fillTriangle_calls fuel v0 v1 v2 = Some log /\
    pixel_at s' x y = match find_call log x y with
                      | Some c => Some c
                      | None => pixel_at s x y
                      end.
Proof.
  intros Hwf [Hx Hy] Hrun.
  destruct (fillTriangle_has_calls fuel s v0 v1 v2 s' Hrun) as (log & Hlog & ->).
  exists log. split; [exact Hlog|]. apply pixel_at_replay; assumption.
Qed.

Lemma fillTriangle_returns s v0 v1 v2 :
  rows_below_max v0 v1 v2 ->
  exists fuel s', fillTriangle fuel s v0 v1 v2 = Some s'.
Proof.
  intros Hrows.
  destruct (fillTriangleOn_returns_ample setPixel s v0 v1 v2 Hrows)
    as [s' Hrun].
  exists ample_fuel, s'. exact Hrun.
Qed.

Lemma setPixel_Forall (P : Z -> Prop) s x y color :
  Forall P (pixels s) -> P color -> Forall P (pixels (setPixel s x y color)).
Proof.
  intros Hs Hc. unfold setPixel.
  destruct ((x <? 0) || (x >=? width s) || (y <? 0) || (y >=? height s));
    [exact Hs|].
  cbn [pixels]. unfold store.
  destruct (0 <=? add32 (mul32 y (width s)) x); [|exact Hs].
  apply Forall_insert; assumption.
Qed.

Lemma replay_Forall (P : Z -> Prop) s log :
  Forall P (pixels s) -> Forall (fun c : Call => P (snd c)) log ->
  Forall P (pixels (replay s log)).
Proof.
  intros Hs. induction log as [|[[x y] c] log IH]; intros Hlog; [exact Hs|].
  cbn [replay]. inversion Hlog; subst. apply setPixel_Forall; auto.
Qed.

(** A fill with opaque vertex colours keeps an opaque buffer opaque. *)
Lemma fillTriangle_opaque_screen fuel s v0 v1 v2 s' :
  int32 (vy v0) -> int32 (vy v1) -> int32 (vy v2) ->
  opaque (vcolor v0) -> opaque (vcolor v1) -> opaque (vcolor v2) ->
  Forall opaque (pixels s) ->
  fillTriangle fuel s v0 v1 v2 = Some s' -> Forall opaque (pixels s').
Proof.
  intros H0 H1 H2 A0 A1 A2 Hs Hrun.
  destruct (fillTriangle_has_calls fuel s v0 v1 v2 s' Hrun) as (log & Hlog & ->).
  apply replay_Forall; [exact Hs|].
  apply (fillTriangle_calls_opaque fuel v0 v1 v2 log H0 H1 H2 A0 A1 A2 Hlog).
Qed.

Lemma small_fill_wf :
  screen_wf small_screen /\
  (small_coords small_v0 /\ small_coords small_v1 /\ small_coords small_v2) /\
  (vertex_wf small_v0 /\ vertex_wf small_v1 /\ vertex_wf small_v2).
Proof.
  split; [unfold screen_wf; vm_compute; repeat split; discriminate|].
  split; [unfold small_coords; vm_compute; repeat split|].
  repeat split; vm_compute; congruence.
Qed.

Lemma small_fill_runs :
  is_Some (fillTriangle 10 small_screen small_v0 small_v1 small_v2).
Proof. vm_compute. eexists. reflexivity. Qed.

End FillPictures.

(** ** The triangles that [main] gathers *)

Section GatheredFacts.

Lemma isCollinear_false_area v0 v1 v2 :
  isCollinear v0 v1 v2 = false -> signedArea v0 v1 v2 <> 0.
Proof.
  intros Hc Ha.
  assert (Ht : isCollinear v0 v1 v2 = true)
    by (apply isCollinear_mod; rewrite Ha; reflexivity).
  congruence.
Qed.

Lemma area_zero_collinear v0 v1 v2 :
  signedArea v0 v1 v2 = 0 -> isCollinear v0 v1 v2 = true.
Proof. intros Ha. apply isCollinear_mod. rewrite Ha. reflexivity. Qed.

Lemma drawAll_app {Sink} (put : Sink -> Z -> Z -> Z -> Sink)
    fuel s ts us :
  drawAll put fuel s (ts ++ us)
  = match drawAll put fuel s ts with
    | Some s1 => drawAll put fuel s1 us
    | None => None
    end.
Proof.
  revert s. induction ts as [|[[v0 v1] v2] ts IH]; intros s; [reflexivity|].
  cbn [app drawAll].
  destruct (fillTriangleOn put fuel s v0 v1 v2); [apply IH | reflexivity].
Qed.

(** What holds of a screen before [drawAll] and is kept by each fill
    holds of the screen that [drawAll] returns. *)
Lemma drawAll_invariant (I : Screen -> Prop) (Q : Triangle -> Prop)
    fuel triangles :
  (forall s v0 v1 v2 s', I s -> Q (v0, v1, v2) ->
     fillTriangle fuel s v0 v1 v2 = Some s' -> I s') ->
  Forall Q triangles ->
  forall s s', I s -> drawAll setPixel fuel s triangles = Some s' -> I s'.
Proof.
  intros Hstep HQ. induction HQ as [|[[v0 v1] v2] ts Ht Hts IH];
    intros s s' Hs Hrun.
  - injection Hrun as <-. exact Hs.
  - cbn [drawAll] in Hrun.
    destruct (fillTriangleOn setPixel fuel s v0 v1 v2) as [s1|] eqn:E;
      [|discriminate].
    apply (IH s1 s'); [|exact Hrun].
    apply (Hstep s v0 v1 v2 s1 Hs Ht E).
Qed.

Lemma drawAll_shape fuel triangles s s' :
  screen_wf s -> drawAll setPixel fuel s triangles = Some s' ->
  screen_wf s' /\ width s' = width s /\ height s' = height s.
Proof.
  intros Hwf Hrun.
  apply (drawAll_invariant
           (fun r => screen_wf r /\ width r = width s /\ height r = height s)
           (fun _ => True) fuel triangles) with (s := s); auto.
  - intros r v0 v1 v2 r' (Hr & Hw & Hh) _ Hfill.
    destruct (fillTriangle_has_calls fuel r v0 v1 v2 r' Hfill) as (log & _ & ->).
    rewrite replay_width, replay_height. split; [apply replay_wf, Hr | auto].
  - apply Forall_forall. auto.
Qed.

Lemma drawAll_returns s triangles :
  Forall (fun t : Triangle =>
            let '(v0, v1, v2) := t in rows_below_max v0 v1 v2) triangles ->
  exists s', drawAll setPixel ample_fuel s triangles = Some s'.
Proof.
  intros H. revert s. induction H as [|[[v0 v1] v2] ts Ht Hts IH]; intros s.
  - exists s. reflexivity.
  - destruct (fillTriangleOn_returns_ample setPixel s v0 v1 v2 Ht) as [s1 H1].
    destruct (IH s1) as [s' Hs']. exists s'.
    cbn [drawAll]. rewrite H1. exact Hs'.
Qed.




End GatheredFacts.

(** ** The colours of a line *)

Section LineColours.

Lemma linePixel_color a b k j color : vcolor (linePixel a b k j color) = color.
Proof. unfold linePixel. destruct (_ <? _); reflexivity. Qed.

(** Each channel of each pixel of a line shorter than [2^24] lies
    between bounds that hold for the colours of the two ends. *)
Lemma bresenham_channels fuel x0 y0 c0 x1 y1 c1 :
  line_in_range x0 y0 x1 y1 -> uint32 c0 -> uint32 c1 ->
  Z.max (Z.abs (x1 - x0)) (Z.abs (y1 - y0)) < 16777216 ->
  Z.max (Z.abs (x1 - x0)) (Z.abs (y1 - y0)) + 1 < Z.of_nat fuel ->
  exists pixels,
    bresenham fuel x0 y0 c0 x1 y1 c1 = Some pixels /\
    forall p, In p pixels ->
    forall shift lo hi, In shift [24; 16; 8; 0] ->
      lo <= channel shift c0 <= hi -> lo <= channel shift c1 <= hi ->
      lo <= channel shift (vcolor p) <= hi.
Proof.
  intros Hr Hc0 Hc1 Hshort Hfuel.
  destruct (decide ((x0, y0) = (x1, y1))) as [Heq|Hne].
  - injection Heq as <- <-.
    destruct Hr as ((Hx & _) & (Hy & Hmax) & _).
    exists [mkVertex x0 y0 c0].
    split; [apply bresenham_point; assumption || lia|].
    intros p [<-|[]] shift lo hi _ H0 _. exact H0.
  - destruct (bresenham_pixels fuel x0 y0 c0 x1 y1 c1 Hr Hne Hfuel)
      as (pixels & Hrun & Hlen & Hpix).
    exists pixels. split; [exact Hrun|].
    intros p Hp shift lo hi Hs H0 H1.
    apply in_lookup in Hp as [k Hk].
    pose proof (lookup_lt_Some _ _ _ Hk) as Hlt.
    destruct (Hpix k p Hk) as (j & -> & _).
    rewrite linePixel_color.
    assert (Hpos : 0 < Z.max (Z.abs (x1 - x0)) (Z.abs (y1 - y0))).
    { destruct (Z.eq_dec x0 x1) as [E1|]; [|lia].
      destruct (Z.eq_dec y0 y1) as [E2|]; [|lia].
      exfalso. apply Hne. congruence. }
    apply interpolateColor_channel_between; try assumption.
    + unfold stepFraction.
      destruct (_ >? 0) eqn:E; [|lia].
      apply fraction_between; [lia | lia | change (2 ^ 24) with 16777216; lia].
    + destruct (line_ends x0 y0 c0 x1 y1 c1) as [[-> _]|[-> _]]; assumption.
    + destruct (line_ends x0 y0 c0 x1 y1 c1) as [[_ ->]|[_ ->]]; assumption.
Qed.

Lemma in_app3 {A} (x : A) l1 l2 l3 :
  In x (l1 ++ l2 ++ l3) -> In x l1 \/ In x l2 \/ In x l3.
Proof. rewrite !in_app_iff. tauto. Qed.

End LineColours.

(** ** The spans of the rows *)

Section SpanFacts.

(** What the calls of a span leave at each position: the colour of the
    span for the positions from [x_left] to [x_right] of its row, and
    what the log held for every other position. *)
Lemma fillSpan_find fuel sp y log log' :
  int32 (x_left sp) -> int32 (x_right sp) ->
  fillSpan record fuel log sp y = Some log' ->
  forall x y',
    find_call log' x y'
    = if (y' =? y) && (x_left sp <=? x) && (x <=? x_right sp)
      then Some (spanColor sp x)
      else find_call log x y'.
Proof.
  intros Hl Hr H. unfold fillSpan in H.
  pose (I := fun (i : Z) (l : list Call) => forall x y',
               find_call l x y'
               = if (y' =? y) && (x_left sp <=? x) && (x <? i)
                 then Some (spanColor sp x)
                 else find_call log x y').
  assert (Hfin : I (Z.max (x_left sp) (x_right sp + 1)) log');
    [eapply (for_le_partial I); [exact Hl | exact Hr | exact H | |]|];
    unfold I in *; clear I.
  - intros x y'.
    destruct (y' =? y); [|reflexivity].
    destruct (x_left sp <=? x) eqn:E1; [|reflexivity]. cbn [andb].
    destruct (x <? x_left sp) eqn:E2; [lia | reflexivity].
  - intros i l l' Hi Hinv Hbody x y'.
    assert (El : l' = record l i y (spanColor sp i)).
    { unfold spanColor. destruct (x_right sp =? x_left sp); congruence. }
    rewrite El. unfold record. cbn [find_call]. rewrite (Hinv x y').
    destruct (i =? x) eqn:Ex; destruct (y =? y') eqn:Ey; cbn [andb].
    + apply Z.eqb_eq in Ex, Ey. subst x y'.
      rewrite Z.eqb_refl. cbn [andb].
      destruct (x_left sp <=? i) eqn:E1; [|lia]. cbn [andb].
      destruct (i <? i + 1) eqn:E2; [reflexivity | lia].
    + destruct (y' =? y) eqn:Ey'; [lia | reflexivity].
    + destruct (y' =? y); [|reflexivity].
      destruct (x_left sp <=? x); [|reflexivity]. cbn [andb].
      destruct (x <? i) eqn:E2; destruct (x <? i + 1) eqn:E3;
        try reflexivity; lia.
    + destruct (y' =? y) eqn:Ey'; [lia | reflexivity].
  - intros x y'. rewrite (Hfin x y').
    destruct (y' =? y); [|reflexivity].
    destruct (x_left sp <=? x) eqn:E1; [|reflexivity]. cbn [andb].
    destruct (x <? Z.max (x_left sp) (x_right sp + 1)) eqn:E2;
      destruct (x <=? x_right sp) eqn:E3; try reflexivity; lia.
Qed.

(** The two ends of a span of more than one pixel hold the two colours
    of the span. *)
Lemma spanColor_ends sp :
  int32 (x_left sp) -> int32 (x_right sp) ->
  uint32 (color_left sp) -> uint32 (color_right sp) ->
  x_left sp <> x_right sp ->
  spanColor sp (x_left sp) = color_left sp /\
  spanColor sp (x_right sp) = color_right sp.
Proof.
  intros Hl Hr Cl Cr Hne. unfold spanColor.
  destruct (x_right sp =? x_left sp) eqn:E; [lia|]. split.
  - destruct (zero_fraction (x_left sp) (x_right sp) Hl Hr Hne) as [s ->].
    apply interpolateColor_zero; assumption.
  - rewrite (one_fraction (x_left sp) (x_right sp) Hl Hr Hne).
    apply interpolateColor_one; assumption.
Qed.

(** The order of two floats that hold integers is the order of the
    integers. *)
Lemma holds_int_flt f g a b :
  holds_int f a -> holds_int g b -> flt f g = (a <? b).
Proof.
  intros Hf Hg. unfold flt, SFltb.
  destruct f as [sf|sf| |sf mf ef], g as [sg|sg| |sg mg eg];
    try contradiction; cbn [holds_int] in Hf, Hg.
  - subst. reflexivity.
  - destruct Hg as (He & Hm & Hv & ->). subst a. cbn [SFcompare].
    destruct (Z.eq_dec b 0) as [->|Hb]; [cbn in Hv; lia|].
    destruct (b <? 0) eqn:E; symmetry;
      [apply Z.ltb_ge | apply Z.ltb_lt]; lia.
  - destruct Hf as (He & Hm & Hv & ->). subst b. cbn [SFcompare].
    destruct (a <? 0) eqn:E; reflexivity.
  - destruct Hf as (Hef & Hmf & Hvf & Hsf), Hg as (Heg & Hmg & Hvg & Hsg).
    subst sf sg. cbn [SFcompare].
    assert (Hpf : 0 < 2 ^ (- ef)) by (apply Z.pow_pos_nonneg; lia).
    assert (Hpg : 0 < 2 ^ (- eg)) by (apply Z.pow_pos_nonneg; lia).
    assert (Hstep : forall e e', e < e' -> e' <= 0 ->
              2 * 2 ^ (- e') <= 2 ^ (- e)).
    { intros e e' Hlt Hle.
      replace (- e) with (Z.succ (- e' + (e' - e - 1))) by lia.
      rewrite Z.pow_succ_r, Z.pow_add_r by lia.
      assert (0 < 2 ^ (- e')) by (apply Z.pow_pos_nonneg; lia).
      assert (0 < 2 ^ (e' - e - 1)) by (apply Z.pow_pos_nonneg; lia).
      nia. }
    change (2 ^ 23) with 8388608 in *. change (2 ^ 24) with 16777216 in *.
    assert (Hlt_e : forall x y ex ey mx my : Z,
              ex < ey -> ey <= 0 ->
              8388608 <= mx < 16777216 -> 8388608 <= my < 16777216 ->
              mx = x * 2 ^ (- ex) -> my = y * 2 ^ (- ey) ->
              0 <= x -> 0 <= y -> x < y).
    { intros x y ex ey mx my Hlt Hle Hx Hy Ex Ey Hx0 Hy0.
      pose proof (Hstep ex ey Hlt Hle) as Hs.
      assert (0 < 2 ^ (- ey)) by (apply Z.pow_pos_nonneg; lia).
      destruct (Z.lt_ge_cases x y) as [|Hge]; [assumption|].
      exfalso.
      assert (y * (2 * 2 ^ (- ey)) <= x * 2 ^ (- ex)).
      { transitivity (x * (2 * 2 ^ (- ey))).
        - apply Z.mul_le_mono_nonneg_r; lia.
        - apply Z.mul_le_mono_nonneg_l; lia. }
      lia. }
    pose proof (Z.abs_nonneg a) as Ha0. pose proof (Z.abs_nonneg b) as Hb0.
    assert (Hcmp : ef = eg ->
              PosDef.Pos.compare_cont Eq mf mg = (Z.abs a ?= Z.abs b)).
    { intros Ee. change (PosDef.Pos.compare_cont Eq mf mg)
        with (Z.pos mf ?= Z.pos mg).
      rewrite Hvf, Hvg, Ee. symmetry. apply Zmult_compare_compat_r. lia. }
    destruct (a <? 0) eqn:Ea, (b <? 0) eqn:Eb.
    + (* both negative *)
      destruct (Z.compare_spec ef eg) as [Ee|Ee|Ee].
      * rewrite (Hcmp Ee).
        destruct (Z.compare_spec (Z.abs a) (Z.abs b)) as [Em|Em|Em];
          cbn [CompOpp]; symmetry;
          [apply Z.ltb_ge | apply Z.ltb_ge | apply Z.ltb_lt]; lia.
      * pose proof (Hlt_e _ _ _ _ _ _ Ee (proj2 Heg) Hmf Hmg Hvf Hvg Ha0 Hb0).
        symmetry. apply Z.ltb_ge. lia.
      * pose proof (Hlt_e _ _ _ _ _ _ Ee (proj2 Hef) Hmg Hmf Hvg Hvf Hb0 Ha0).
        symmetry. apply Z.ltb_lt. lia.
    + symmetry. apply Z.ltb_lt. lia.
    + symmetry. apply Z.ltb_ge. lia.
    + destruct (Z.compare_spec ef eg) as [Ee|Ee|Ee].
      * rewrite (Hcmp Ee).
        destruct (Z.compare_spec (Z.abs a) (Z.abs b)) as [Em|Em|Em];
          symmetry;
          [apply Z.ltb_ge | apply Z.ltb_lt | apply Z.ltb_ge]; lia.
      * pose proof (Hlt_e _ _ _ _ _ _ Ee (proj2 Heg) Hmf Hmg Hvf Hvg Ha0 Hb0).
        symmetry. apply Z.ltb_lt. lia.
      * pose proof (Hlt_e _ _ _ _ _ _ Ee (proj2 Hef) Hmg Hmf Hvg Hvf Hb0 Ha0).
        symmetry. apply Z.ltb_ge. lia.
Qed.

End SpanFacts.

(** ** The rows of a fill *)

Section RowFacts.

(** A span returns within a fuel of its length. *)
Lemma fillSpan_returns_within {Sink} (put : Sink -> Z -> Z -> Z -> Sink)
    fuel s sp y :
  int32 (x_left sp) -> x_right sp < INT_MAX ->
  Z.max 0 (x_right sp - x_left sp + 1) < Z.of_nat fuel ->
  exists r, fillSpan put fuel s sp y = Some r.
Proof.
  intros Hl Hmax Hfuel. unfold fillSpan.
  destruct (Z_lt_ge_dec (x_right sp) (x_left sp)) as [Hlt|Hge].
  - destruct fuel as [|fuel]; [lia|].
    eexists. apply for_le_done. exact Hlt.
  - match goal with
    | |- exists r, for_le _ ?body _ _ _ = _ =>
        destruct (for_le_total (fun _ _ => True) body
                    fuel (x_left sp) (x_right sp) s Hl Hmax)
          as (r & Hr & _); [lia | lia | exact I | |]
    end.
    + intros i s' _ _. eexists. split; [reflexivity | exact I].
    + exists r. exact Hr.
Qed.

(** What the calls of a fill leave on a row of the triangle: the
    colours of the span of that row, from its left end to its right
    end, and nothing on a row that is skipped. *)
Lemma fill_row_span fuel a b c log x y :
  int32 (vy a) -> int32 (vy c) -> vy a <= vy b <= vy c -> vy a <> vy c ->
  vy a <= y <= vy c ->
  fillTriangle_calls fuel a b c = Some log ->
  find_call log x y
  = match scanEdges a b c y with
    | Some sp =>
        if (x_left sp <=? x) && (x <=? x_right sp)
        then Some (spanColor sp x) else None
    | None => None
    end.
Proof.
  intros Ha Hc Hord Hne Hy Hlog.
  destruct (fillTriangle_calls_by_row fuel a b c log x y Ha Hc Hy
              (sortByY_sorted a b c Hord) Hne Hlog) as (l & Hl & ->).
  unfold scanline in Hl.
  destruct (scanEdges a b c y) as [sp|] eqn:He;
    [|injection Hl as <-; reflexivity].
  destruct (scanEdges_bounds _ _ _ _ _ He) as ((Il & _) & (Ir & _)).
  rewrite (fillSpan_find fuel sp y [] l Il Ir Hl x y).
  rewrite Z.eqb_refl. reflexivity.
Qed.

(** The calls of a fill, outside the rows of the triangle. *)
Lemma fill_row_outside fuel v0 v1 v2 log x y :
  int32 (vy v0) -> int32 (vy v1) -> int32 (vy v2) ->
  y < Z.min (vy v0) (Z.min (vy v1) (vy v2)) \/
  Z.max (vy v0) (Z.max (vy v1) (vy v2)) < y ->
  fillTriangle_calls fuel v0 v1 v2 = Some log ->
  find_call log x y = None.
Proof.
  intros H0 H1 H2 Hy Hlog. apply find_call_other_row.
  eapply Forall_impl;
    [exact (fillTriangle_calls_rows fuel v0 v1 v2 log H0 H1 H2 Hlog)|].
  intros call Hc. unfold row_within in Hc. lia.
Qed.

(** On the row of a flat top edge the span runs from the left one of
    the two top vertices to the right one, with their colours. *)
Lemma scanEdges_flat_top a b c :
  vertex_wf a -> vertex_wf b -> vertex_wf c ->
  Z.abs (vx a) < 2 ^ 24 -> Z.abs (vx b) < 2 ^ 24 ->
  vy a = vy b -> vy b < vy c ->
  scanEdges a b c (vy a)
  = Some (if vx a <? vx b
          then mkSpan (vx a) (vx b) (vcolor a) (vcolor b)
          else mkSpan (vx b) (vx a) (vcolor b) (vcolor a)).
Proof.
  intros (Xa & Ya & Ca) (Xb & Yb & Cb) (Xc & Yc & Cc) Hxa Hxb Hab Hbc.
  unfold scanEdges. rewrite Hab.
  destruct (vy b <? vy b) eqn:E1; [lia|].
  destruct (vy c =? vy b) eqn:E2; [lia|].
  destruct (zero_fraction (vy b) (vy c) Yb Yc ltac:(lia)) as [s1 ->].
  rewrite !interpolateColor_zero by assumption.
  pose proof (edge_at_zero (vx a) (sub32 (vx c) (vx a)) s1 Hxa
                (wrap32_range _)) as Hl.
  pose proof (edge_at_zero (vx b) (sub32 (vx c) (vx b)) s1 Hxb
                (wrap32_range _)) as Hs.
  rewrite (holds_int_flt _ _ _ _ Hl Hs).
  unfold fmin, fmax.
  rewrite (holds_int_flt _ _ _ _ Hl Hs), (holds_int_flt _ _ _ _ Hs Hl).
  destruct (vx a <? vx b) eqn:E3; destruct (vx b <? vx a) eqn:E4; try lia;
    rewrite ?(int_of_float_exact _ _ Hl), ?(int_of_float_exact _ _ Hs);
    try reflexivity.
  replace (vx b) with (vx a) by lia. reflexivity.
Qed.

(** A position of a span of more than one pixel blends the two colours
    of the span. *)
Lemma spanColor_between sp x shift lo hi :
  int32 (x_left sp) -> int32 (x_right sp) ->
  x_left sp <= x <= x_right sp -> x_right sp - x_left sp < 2 ^ 24 ->
  In shift [24; 16; 8; 0] ->
  lo <= channel shift (color_left sp) <= hi ->
  lo <= channel shift (color_right sp) <= hi ->
  lo <= channel shift (spanColor sp x) <= hi.
Proof.
  intros Il Ir Hx Hd Hs Hl Hr. unfold spanColor.
  destruct (x_right sp =? x_left sp) eqn:E; [exact Hl|].
  apply interpolateColor_channel_between; try assumption.
  apply fraction_of_differences; try assumption; try lia.
  unfold int32 in *. lia.
Qed.

End RowFacts.

(** ** Normal forms *)

Section NormalForms.

(** A rounding of a mantissa of 24 bits or more, above the least
    exponent, has a mantissa of exactly 24 bits. *)
Lemma binary_round_aux_normal sx mx ex lx :
  2 ^ 23 <= mx -> emin prec emax <= ex ->
  normal_or_overflow ex (binary_round_aux prec emax sx mx ex lx).
Proof.
  intros Hlow Hex. unfold binary_round_aux.
  assert (Hm : 0 <= mx) by (change (2 ^ 23) with 8388608 in Hlow; lia).
  destruct (shr_fexp_spec mx ex lx Hm) as (He1 & Hb1 & Hn1).
  destruct (shr_fexp prec emax mx ex lx) as [mrs' e'].
  cbn [fst snd] in He1, Hb1, Hn1.
  pose proof (round_nearest_even_bounds (shr_m mrs') (loc_of_shr_record mrs'))
    as Hr.
  set (m1 := round_nearest_even (shr_m mrs') (loc_of_shr_record mrs')) in *.
  destruct (shr_fexp_spec m1 e' loc_Exact ltac:(lia)) as (He2 & Hb2 & Hn2).
  destruct (shr_fexp prec emax m1 e' loc_Exact) as [mrs'' e''].
  cbn [fst snd] in He2, Hb2, Hn2.
  specialize (Hn1 Hlow Hex).
  assert (He' : emin prec emax <= e') by lia.
  specialize (Hn2 ltac:(lia) He').
  change (2 ^ 23) with 8388608 in *. unfold prec in Hb2.
  change (2 ^ 24) with 16777216 in *.
  destruct (shr_m mrs'') as [|m|m] eqn:Em; [lia| |lia].
  destruct (e'' <=? emax - prec) eqn:Ele; cbn; [|exact I].
  split; [lia|]. lia.
Qed.

Lemma holds_int_normal f z : holds_int f z -> normal_float (-23) f.
Proof.
  destruct f as [s|s| |s m e]; cbn [holds_int normal_float];
    [tauto | tauto | tauto |].
  intros (He & Hm & _). split; [exact Hm | lia].
Qed.

(** A float between two integers that is a normal form or an overflow
    is a normal form. *)
Lemma normal_of_between k lo hi f :
  float_between lo hi f -> normal_or_overflow k f \/ normal_float k f ->
  normal_float k f.
Proof.
  destruct f as [s|s| |s m e]; cbn; tauto.
Qed.

(** The fraction of two small integers is a normal form. *)
Lemma fraction_normal a b :
  0 <= a <= b -> 0 < b -> b < 2 ^ 24 ->
  normal_float (-47) (fdiv (float_of_int a) (float_of_int b)).
Proof.
  intros Ha Hb Hb24.
  apply (normal_of_between _ 0 1); [apply fraction_between; assumption|].
  assert (Hfa : holds_int (float_of_int a) a)
    by (apply float_of_int_exact; lia).
  assert (Hfb : holds_int (float_of_int b) b)
    by (apply float_of_int_exact; lia).
  destruct (float_of_int b) as [sb|sb| |sb mb eb]; try contradiction;
    [cbn in Hfb; lia|].
  destruct (float_of_int a) as [sa|sa| |sa ma ea]; try contradiction;
    [right; exact I|].
  left.
  pose proof (holds_int_digits _ _ _ _ Hfa) as Hda.
  pose proof (holds_int_digits _ _ _ _ Hfb) as Hdb.
  destruct Hfa as (Hea & Hma & Hva & Hsa).
  destruct Hfb as (Heb & Hmb & Hvb & Hsb).
  unfold fdiv, SFdiv, SFdiv_core_binary.
  rewrite Hda, Hdb.
  replace (fexp prec emax (24 + ea - (24 + eb))) with (ea - eb - 24)
    by fexp_arith.
  replace (Z.min (ea - eb - 24) (ea - eb)) with (ea - eb - 24) by lia.
  replace (ea - eb - (ea - eb - 24)) with 24 by lia. cbv iota.
  rewrite Z.shiftl_mul_pow2 by lia.
  pose proof (Z_div_mod (Z.pos ma * 2 ^ 24) (Z.pos mb) ltac:(lia)) as Hdiv.
  destruct (Z.div_eucl (Z.pos ma * 2 ^ 24) (Z.pos mb)) as [q r].
  destruct Hdiv as [Hq Hr].
  change (2 ^ 23) with 8388608 in *. change (2 ^ 24) with 16777216 in *.
  assert (Hq23 : 8388608 <= q) by nia.
  pose proof (binary_round_aux_normal (xorb sa sb) q (ea - eb - 24)
                (new_location (Z.pos mb) r)
                ltac:(change (2 ^ 23) with 8388608; lia)
                ltac:(unfold emin, emax, prec; lia)) as H.
  destruct (binary_round_aux prec emax (xorb sa sb) q (ea - eb - 24)
              (new_location (Z.pos mb) r)) as [s|s| |s m e];
    cbn in H |- *; try tauto.
  change (2 ^ 23) with 8388608 in *. change (2 ^ 24) with 16777216 in *.
  split; [apply H | lia].
Qed.

(** The product of a converted integer and a normal form. *)
Lemma fmul_normal x d t k :
  holds_int x d -> normal_float k t -> -100 <= k ->
  normal_or_overflow (k - 23) (fmul x t) \/ normal_float (k - 23) (fmul x t).
Proof.
  intros Hx Ht Hk. unfold fmul, SFmul.
  destruct x as [sx|sx| |sx mx ex], t as [st|st| |st mt et];
    try contradiction; try (right; exact I).
  left. destruct Hx as (Hex & Hmx & _). destruct Ht as (Hmt & Het).
  change (2 ^ 23) with 8388608 in *. change (2 ^ 24) with 16777216 in *.
  pose proof (binary_round_aux_normal (xorb sx st) (Z.pos (mx * mt)) (ex + et)
                loc_Exact
                ltac:(change (2 ^ 23) with 8388608; rewrite Pos2Z.inj_mul; nia)
                ltac:(unfold emin, emax, prec; lia)) as H.
  destruct (binary_round_aux prec emax (xorb sx st) (Z.pos (mx * mt)) (ex + et)
              loc_Exact) as [s|s| |s m e]; cbn in H |- *; try tauto.
  split; [apply H | lia].
Qed.

(** Aligning a mantissa to the precision leaves 24 bits or more. *)
Lemma shl_align_fexp_normal (M : positive) e :
  -120 <= e ->
  2 ^ 23 <= Z.pos (fst (shl_align M e (fexp prec emax (Z.pos (digits2_pos M) + e)))) /\
  Z.min e (Z.pos (digits2_pos M) + e - 24)
    <= snd (shl_align M e (fexp prec emax (Z.pos (digits2_pos M) + e))) /\
  emin prec emax <= snd (shl_align M e (fexp prec emax (Z.pos (digits2_pos M) + e))).
Proof.
  intros He. unfold shl_align.
  pose proof (digits2_lower (Z.pos M) ltac:(lia)) as Hlow.
  cbn [Zdigits2] in Hlow.
  set (D := Z.pos (digits2_pos M)) in *.
  assert (HD : 1 <= D) by (subst D; lia).
  replace (fexp prec emax (D + e)) with (D + e - 24) by fexp_arith.
  destruct (D + e - 24 - e) as [|q|q] eqn:Eq; cbn [fst snd].
  - split; [|split; [lia | unfold emin, emax, prec; lia]].
    replace D with 24 in Hlow by lia. exact Hlow.
  - split; [|split; [lia | unfold emin, emax, prec; lia]].
    transitivity (2 ^ (D - 1)); [apply Z.pow_le_mono_r; lia | exact Hlow].
  - split; [|split; [lia | unfold emin, emax, prec; lia]].
    unfold shift_pos. rewrite pos_iter_xO.
    replace 23 with ((D - 1) + Z.pos q) by lia.
    rewrite Z.pow_add_r by lia.
    apply Z.mul_le_mono_nonneg_r; [apply Z.pow_nonneg; lia | exact Hlow].
Qed.

(** The sum of a converted integer and a normal form. *)
Lemma fadd_normal x a p k :
  holds_int x a -> normal_float k p -> -100 <= k <= 0 ->
  normal_or_overflow (k - 46) (fadd x p) \/ normal_float (k - 46) (fadd x p).
Proof.
  intros Hx Hp Hk. unfold fadd, SFadd.
  destruct x as [sx|sx| |sx mx ex], p as [sp|sp| |sp mp ep];
    try contradiction.
  - right. destruct sx, sp; exact I.
  - right. cbn in Hp |- *. split; [apply Hp | lia].
  - right. cbn in Hx |- *. destruct Hx as (He & Hm & _). split; [exact Hm | lia].
  - destruct Hx as (Hex & _). destruct Hp as (_ & Hep).
    set (ez := Z.min ex ep).
    set (z := cond_Zopp sx (Z.pos (fst (shl_align mx ex ez)))
              + cond_Zopp sp (Z.pos (fst (shl_align mp ep ez)))).
    unfold binary_normalize.
    assert (Hround : forall s M,
              normal_or_overflow (k - 46) (binary_round prec emax s M ez)).
    { intros s M. unfold binary_round.
      destruct (shl_align_fexp_normal M ez ltac:(subst ez; lia))
        as (Hm & He & Hmin).
      destruct (shl_align M ez (fexp prec emax (Z.pos (digits2_pos M) + ez))) as [mz e'].
      cbn [fst snd] in Hm, He, Hmin.
      pose proof (binary_round_aux_normal s (Z.pos mz) e' loc_Exact Hm Hmin)
        as H.
      destruct (binary_round_aux prec emax s (Z.pos mz) e' loc_Exact)
        as [s'|s'| |s' m' e'']; cbn in H |- *; try tauto.
      split; [apply H|].
      assert (1 <= Z.pos (digits2_pos M)) by lia.
      subst ez. lia. }
    destruct z as [|M|M]; [right; exact I | left; apply Hround ..].
Qed.

End NormalForms.

(** ** The order of floats *)

Section FloatOrder.

(** The conversion to [int] of a normal form below one: the quotient
    of the mantissa, with the sign. *)
Lemma int_of_float_normal k (s : bool) m e :
  normal_float k (S754_finite s m e) -> e <= 0 ->
  int_of_float (S754_finite s m e)
  = if s then - (Z.pos m / 2 ^ (- e)) else Z.pos m / 2 ^ (- e).
Proof.
  intros (Hm & _) He. unfold int_of_float. cbn [ftrunc].
  assert (Pe : 0 < 2 ^ (- e)) by (apply Z.pow_pos_nonneg; lia).
  assert (Ea : match e with
               | Z.neg p => Z.pos m / 2 ^ Z.pos p
               | _ => Z.pos m * 2 ^ e
               end = Z.pos m / 2 ^ (- e)).
  { destruct e as [|p|p]; [|lia|reflexivity].
    cbn. rewrite Z.div_1_r. lia. }
  rewrite Ea.
  set (q := Z.pos m / 2 ^ (- e)).
  assert (Hq : 0 <= q <= Z.pos m).
  { subst q. split; [apply Z.div_pos; lia|].
    apply Z.div_le_upper_bound; [lia|]. nia. }
  change (2 ^ 24) with 16777216 in Hm.
  destruct ((INT_MIN <=? (if s then - q else q))
            && ((if s then - q else q) <=? INT_MAX)) eqn:E; [reflexivity|].
  exfalso. apply andb_false_iff in E.
  unfold INT_MIN, INT_MAX in E. destruct s, E as [E|E];
    first [apply Z.leb_gt in E | idtac]; lia.
Qed.

(** The order of a normal form below one and a converted integer,
    read on the scaled mantissa. *)
Lemma normal_flt k (s : bool) m e g b :
  normal_float k (S754_finite s m e) -> e <= 0 -> holds_int g b ->
  flt (S754_finite s m e) g
  = (cond_Zopp s (Z.pos m) <? b * 2 ^ (- e)) /\
  flt g (S754_finite s m e)
  = (b * 2 ^ (- e) <? cond_Zopp s (Z.pos m)).
Proof.
  intros (Hm & _) He Hg. unfold flt, SFltb.
  assert (Pe : 0 < 2 ^ (- e)) by (apply Z.pow_pos_nonneg; lia).
  change (2 ^ 23) with 8388608 in Hm. change (2 ^ 24) with 16777216 in Hm.
  destruct g as [sg|sg| |sg mg eg]; try contradiction; cbn [holds_int] in Hg.
  - subst b. cbn [SFcompare]. rewrite Z.mul_0_l.
    destruct s; cbn [cond_Zopp]; split; reflexivity.
  - destruct Hg as (Heg & Hmg & Hvg & Hsg).
    change (2 ^ 23) with 8388608 in Hmg. change (2 ^ 24) with 16777216 in Hmg.
    assert (Pg : 0 < 2 ^ (- eg)) by (apply Z.pow_pos_nonneg; lia).
    set (B := Z.abs b * 2 ^ (- e)).
    assert (Hlt : e < eg -> Z.pos m < B).
    { intros Hlt. subst B.
      assert (Es : 2 ^ (- e) = 2 ^ (- eg) * 2 ^ (eg - e))
        by (rewrite <- Z.pow_add_r by lia; f_equal; lia).
      assert (2 <= 2 ^ (eg - e)).
      { change 2 with (2 ^ 1) at 1. apply Z.pow_le_mono_r; lia. }
      rewrite Es.
      replace (Z.abs b * (2 ^ (- eg) * 2 ^ (eg - e)))
        with (Z.pos mg * 2 ^ (eg - e)) by (rewrite Hvg; ring).
      nia. }
    assert (Hgt : eg < e -> B < Z.pos m).
    { intros Hgt. subst B.
      assert (Es : 2 ^ (- eg) = 2 ^ (- e) * 2 ^ (e - eg))
        by (rewrite <- Z.pow_add_r by lia; f_equal; lia).
      assert (2 <= 2 ^ (e - eg)).
      { change 2 with (2 ^ 1) at 1. apply Z.pow_le_mono_r; lia. }
      assert (Z.pos mg = Z.abs b * 2 ^ (- e) * 2 ^ (e - eg))
        by (rewrite Hvg, Es; ring).
      assert (0 <= Z.abs b * 2 ^ (- e)) by (pose proof (Z.abs_nonneg b); nia).
      nia. }
    assert (Heq : e = eg -> B = Z.pos mg).
    { intros ->. subst B. lia. }
    assert (Hb : b * 2 ^ (- e) = if b <? 0 then - B else B).
    { subst B. destruct (b <? 0) eqn:Eb.
      - rewrite Z.abs_neq by lia. ring.
      - rewrite Z.abs_eq by lia. ring. }
    assert (HB : 0 < B).
    { subst B. assert (0 < Z.abs b) by nia. nia. }
    rewrite Hb. subst sg. cbn [SFcompare].
    change (PosDef.Pos.compare_cont Eq m mg) with (Z.pos m ?= Z.pos mg).
    change (PosDef.Pos.compare_cont Eq mg m) with (Z.pos mg ?= Z.pos m).
    destruct s, (b <? 0) eqn:Eb; cbn [cond_Zopp];
      destruct (Z.compare_spec e eg) as [Ee|Ee|Ee];
      destruct (Z.compare_spec eg e) as [Ee'|Ee'|Ee']; try lia;
      try (specialize (Heq Ee)); try (specialize (Hlt Ee));
      try (specialize (Hgt Ee'));
      destruct (Z.compare_spec (Z.pos m) (Z.pos mg)) as [Em|Em|Em];
      destruct (Z.compare_spec (Z.pos mg) (Z.pos m)) as [Em'|Em'|Em'];
      try lia; cbn [CompOpp]; split; symmetry;
      first [apply Z.ltb_lt; lia | apply Z.ltb_ge; lia].
Qed.

(** What the comparison of a normal form [f] between two integers with
    a converted integer [b] tells of the conversion of [f] to [int]. *)
Lemma int_of_float_order k lo hi f g b :
  normal_float k f -> float_between lo hi f -> holds_int g b ->
  (flt f g = true -> flt g f = false) /\
  (flt f g = true -> 0 < b -> int_of_float f < b) /\
  (flt g f = true -> b <= int_of_float f) /\
  (flt f g = false -> flt g f = false -> int_of_float f = b).
Proof.
  intros Hn Hf Hg.
  destruct f as [s|s| |s m e]; try contradiction.
  - pose proof (holds_int_flt (S754_zero s) g 0 b eq_refl Hg) as E1.
    pose proof (holds_int_flt g (S754_zero s) b 0 Hg eq_refl) as E2.
    rewrite E1, E2. cbn.
    repeat split; intros; repeat match goal with
      | H : (_ <? _) = true |- _ => apply Z.ltb_lt in H
      | H : (_ <? _) = false |- _ => apply Z.ltb_ge in H
      end; first [lia | apply Z.ltb_ge; lia].
  - destruct Hf as (He & _).
    destruct (normal_flt k s m e g b Hn He Hg) as [E1 E2].
    rewrite E1, E2, (int_of_float_normal k s m e Hn He).
    assert (Pe : 0 < 2 ^ (- e)) by (apply Z.pow_pos_nonneg; lia).
    set (P := 2 ^ (- e)) in *.
    set (q := Z.pos m / P).
    assert (Hq : q * P <= Z.pos m < (q + 1) * P).
    { subst q. pose proof (Z.div_mod (Z.pos m) P ltac:(lia)).
      pose proof (Z.mod_pos_bound (Z.pos m) P Pe). nia. }
    assert (Hq0 : 0 <= q) by (subst q; apply Z.div_pos; lia).
    repeat split; intros; repeat match goal with
      | H : (_ <? _) = true |- _ => apply Z.ltb_lt in H
      | H : (_ <? _) = false |- _ => apply Z.ltb_ge in H
      end; destruct s; cbn [cond_Zopp] in *;
      first [lia | apply Z.ltb_ge; lia | nia].
Qed.

End FloatOrder.

(** ** The row of the middle vertex *)

Section MiddleRow.

Lemma spanColor_left sp :
  int32 (x_left sp) -> int32 (x_right sp) ->
  uint32 (color_left sp) -> uint32 (color_right sp) ->
  spanColor sp (x_left sp) = color_left sp.
Proof.
  intros Il Ir Cl Cr.
  destruct (Z.eq_dec (x_left sp) (x_right sp)) as [E|Hne].
  - unfold spanColor. rewrite E, Z.eqb_refl. reflexivity.
  - apply (spanColor_ends sp Il Ir Cl Cr Hne).
Qed.

(** The position of the long edge on a row between the top and the
    bottom vertex: a normal form between the two ends of the edge. *)
Lemma long_edge_normal a c y :
  small_coords a -> small_coords c -> vy a <= y <= vy c -> vy a < vy c ->
  let x_long :=
    fadd (float_of_int (vx a))
         (fmul (float_of_int (sub32 (vx c) (vx a)))
               (fdiv (float_of_int (sub32 y (vy a)))
                     (float_of_int (sub32 (vy c) (vy a))))) in
  normal_float (-116) x_long /\
  float_between (Z.min (vx a) (vx c)) (Z.max (vx a) (vx c)) x_long.
Proof.
  intros [Xa Ya] [Xc Yc] Hy Hlt x_long.
  assert (Hb : float_between (Z.min (vx a) (vx c)) (Z.max (vx a) (vx c)) x_long).
  { apply lerp_between; try (change (2 ^ 23) with 8388608; assumption).
    apply fraction_of_differences;
      first [int32_arith | change (2 ^ 24) with 16777216; lia]. }
  split; [|exact Hb].
  apply (normal_of_between _ _ _ _ Hb).
  subst x_long.
  assert (Ht : float_between 0 1
                 (fdiv (float_of_int (sub32 y (vy a)))
                       (float_of_int (sub32 (vy c) (vy a))))).
  { apply fraction_of_differences;
      first [int32_arith | change (2 ^ 24) with 16777216; lia]. }
  assert (Hn : normal_float (-47)
                 (fdiv (float_of_int (sub32 y (vy a)))
                       (float_of_int (sub32 (vy c) (vy a))))).
  { rewrite !sub32_id by int32_arith.
    apply fraction_normal;
      first [lia | change (2 ^ 24) with 16777216; lia]. }
  set (t := fdiv (float_of_int (sub32 y (vy a)))
                 (float_of_int (sub32 (vy c) (vy a)))) in *.
  assert (Hfd : holds_int (float_of_int (sub32 (vx c) (vx a))) (vx c - vx a)).
  { rewrite sub32_id by int32_arith.
    apply float_of_int_exact. change (2 ^ 24) with 16777216. lia. }
  assert (Hfa : holds_int (float_of_int (vx a)) (vx a))
    by (apply float_of_int_exact; change (2 ^ 24) with 16777216; lia).
  pose proof (normal_of_between _ _ _ _ (fmul_between _ _ t Hfd Ht)
                (fmul_normal _ _ t (-47) Hfd Hn ltac:(lia))) as Hp.
  change (-47 - 23) with (-70) in Hp.
  exact (fadd_normal _ _ _ (-70) Hfa Hp ltac:(lia)).
Qed.

(** On the row of a middle vertex that is right of column 0 the span
    holds the vertex, with its colour. *)
Lemma scanEdges_middle a b c :
  vertex_wf a -> vertex_wf b -> vertex_wf c ->
  small_coords a -> small_coords b -> small_coords c ->
  vy a < vy b -> vy b < vy c -> 0 < vx b ->
  exists sp,
    scanEdges a b c (vy b) = Some sp /\
    x_left sp <= vx b <= x_right sp /\
    spanColor sp (vx b) = vcolor b.
Proof.
  intros (Ixa & Iya & Ca) (Ixb & Iyb & Cb) (Ixc & Iyc & Cc) Sa Sb Sc
    Hab Hbc Hpos.
  destruct (long_edge_normal a c (vy b) Sa Sc ltac:(lia) ltac:(lia))
    as [Hn Hbt].
  destruct Sa as [Xa Ya], Sb as [Xb Yb], Sc as [Xc Yc].
  unfold scanEdges.
  destruct (vy b <? vy b) eqn:E1; [lia|].
  destruct (vy c =? vy b) eqn:E2; [lia|].
  destruct (zero_fraction (vy b) (vy c) Iyb Iyc ltac:(lia)) as [s1 ->].
  rewrite (interpolateColor_zero (vcolor b) (vcolor c) s1 Cb).
  pose proof (edge_at_zero (vx b) (sub32 (vx c) (vx b)) s1
                ltac:(change (2 ^ 24) with 16777216; lia)
                (wrap32_range _)) as Hs.
  set (x_long := fadd (float_of_int (vx a))
                   (fmul (float_of_int (sub32 (vx c) (vx a)))
                      (fdiv (float_of_int (sub32 (vy b) (vy a)))
                         (float_of_int (sub32 (vy c) (vy a)))))) in *.
  set (x_short := fadd (float_of_int (vx b))
                    (fmul (float_of_int (sub32 (vx c) (vx b)))
                       (S754_zero s1))) in *.
  set (color_long := interpolateColor (vcolor a) (vcolor c)
                       (fdiv (float_of_int (sub32 (vy b) (vy a)))
                          (float_of_int (sub32 (vy c) (vy a))))).
  assert (Cl : uint32 color_long)
    by (subst color_long; apply interpolateColor_channel).
  destruct (int_of_float_order _ _ _ x_long x_short (vx b) Hn Hbt Hs)
    as (Hasym & Hless & Hmore & Hsame).
  pose proof (int_of_float_exact _ _ Hs) as Es.
  pose proof (int_of_float_range x_long) as Il.
  eexists. split; [reflexivity|].
  unfold fmin, fmax.
  destruct (flt x_long x_short) eqn:F1.
  - (* the long edge is left of the vertex *)
    rewrite (Hasym eq_refl). cbn [x_left x_right]. rewrite Es.
    specialize (Hless eq_refl Hpos).
    split; [lia|].
    exact (proj2 (spanColor_ends
                    (mkSpan (int_of_float x_long) (vx b) color_long (vcolor b))
                    Il Ixb Cl Cb ltac:(cbn [x_left x_right]; lia))).
  - destruct (flt x_short x_long) eqn:F2.
    + (* the long edge is right of the vertex *)
      cbn [x_left x_right]. rewrite Es.
      specialize (Hmore eq_refl).
      split; [lia|].
      exact (spanColor_left
               (mkSpan (vx b) (int_of_float x_long) (vcolor b) color_long)
               Ixb Il Cb Cl).
    + (* the long edge passes through the vertex *)
      cbn [x_left x_right].
      specialize (Hsame eq_refl eq_refl). rewrite Hsame.
      split; [lia|].
      unfold spanColor. cbn [x_left x_right color_left].
      rewrite Z.eqb_refl. reflexivity.
Qed.

(** In column 0 the middle vertex can lose its colour to the long
    edge: the edge position -0.5 truncates to 0, the span is the one
    pixel of the vertex, and a span of one pixel takes the colour of
    its left end. *)
Lemma middle_vertex_in_column_zero :
  exists s',
    fillTriangle 10 small_screen
      (mkVertex (-1) 0 RED) (mkVertex 0 1 GREEN) (mkVertex 0 2 BLUE)
    = Some s' /\
    pixel_at s' 0 1 = Some 0x7F007FFF.
Proof.
  assert (H : is_Some (fillTriangle 10 small_screen
                         (mkVertex (-1) 0 RED) (mkVertex 0 1 GREEN)
                         (mkVertex 0 2 BLUE)))
    by (vm_compute; eexists; reflexivity).
  destruct H as [s' H]. exists s'. split; [exact H|].
  revert H. vm_compute. intros [= <-]. reflexivity.
Qed.

End MiddleRow.

(** * Further theorems *)

(** ** The screen *)

(** X1. [drawScreen] returns at once, with no screen, when [SDL_Init]
    fails. Otherwise it allocates [width * height] entries, the product
    of 32-bit arithmetic: a negative one makes [new] throw. For a width
    and a height that are not negative and whose product is in the range
    of [int], every run that returns gives a screen of that size, with
    one entry for each pixel and every entry opaque black, whatever the
    fresh memory held; and the clearing loop does return, given fuel for
    one iteration for each entry. *)
Theorem drawScreen_cleared (fresh : nat -> Z) (w h : Z) :
  (forall fuel, drawScreen fuel false fresh w h = Some NoVideo) /\
  (mul32 w h < 0 ->
   forall fuel, drawScreen fuel true fresh w h = Some BadArrayLength) /\
  (0 <= w -> 0 <= h -> w * h <= INT_MAX ->
   (forall fuel r,
      drawScreen fuel true fresh w h = Some r ->
      exists s,
        r = Ready s /\
        screen_wf s /\ width s = w /\ height s = h /\
        Z.of_nat (length (pixels s)) = w * h /\
        Forall (fun color => color = BLACK) (pixels s) /\
        forall x y, 0 <= x < w -> 0 <= y < h -> pixel_at s x y = Some BLACK) /\
   (forall fuel,
      w * h < Z.of_nat fuel ->
      exists s, drawScreen fuel true fresh w h = Some (Ready s))).
Proof.
  split; [reflexivity|]. split.
  - intros Hneg fuel. unfold drawScreen, new_array. cbn [negb].
    destruct (mul32 w h <? 0) eqn:E; [reflexivity | lia].
  - intros Hw Hh Hmax.
    assert (Hp : 0 <= w * h) by nia.
    split.
    + intros fuel r Hrun. apply drawScreen_result in Hrun.
      rewrite (started_black w h Hw Hh Hmax) in Hrun.
      exists (black_screen w h). split; [exact Hrun|].
      pose proof (black_screen_wf w h Hw Hh Hmax) as Hwf.
      split; [exact Hwf|]. split; [reflexivity|]. split; [reflexivity|].
      split; [|split].
      * unfold black_screen. cbn [pixels]. rewrite length_replicate. lia.
      * unfold black_screen. cbn [pixels]. apply Forall_replicate. reflexivity.
      * intros x y Hx Hy. apply black_screen_pixel; assumption.
    + intros fuel Hfuel. exists (black_screen w h).
      rewrite <- (started_black w h Hw Hh Hmax).
      apply drawScreen_returns.
      rewrite mul32_id by int32_arith. exact Hfuel.
Qed.

Lemma drawScreen_cleared_example :
  (0 <= 8 /\ 8 * 8 <= INT_MAX /\ 8 * 8 < Z.of_nat 65) /\
  (exists s,
     drawScreen 65 true (fun _ => 0) 8 8 = Some (Ready s) /\
     pixel_at s 7 7 = Some BLACK) /\
  (mul32 65536 32768 < 0 /\
   drawScreen 1 true (fun _ => 0) 65536 32768 = Some BadArrayLength).
Proof.
  assert (Hw : 0 <= 8) by lia.
  assert (Hmax : 8 * 8 <= INT_MAX) by (unfold INT_MAX; lia).
  assert (Hfuel : 8 * 8 < Z.of_nat 65) by lia.
  assert (Hneg : mul32 65536 32768 < 0) by reflexivity.
  destruct (drawScreen_cleared (fun _ => 0) 8 8) as (_ & _ & Hready).
  destruct (Hready Hw Hw Hmax) as [Hres Hret].
  split; [exact (conj Hw (conj Hmax Hfuel))|]. split.
  - destruct (Hret 65%nat Hfuel) as [s Hs].
    exists s. split; [exact Hs|].
    destruct (Hres 65%nat (Ready s) Hs) as (s1 & [= <-] & _ & _ & _ & _ & _ & Hpix).
    apply Hpix; lia.
  - split; [exact Hneg|].
    exact (proj1 (proj2 (drawScreen_cleared (fun _ => 0) 65536 32768))
             Hneg 1%nat).
Defined.

(** X2. Reading back after [setPixel]: on a well-formed screen, a write
    at an on-screen position is what that position holds afterwards,
    and every other on-screen position holds what it held before. No
    two positions of the screen share a buffer entry. *)
Theorem setPixel_read_back s x y color x' y' :
  screen_wf s -> on_screen s x y -> on_screen s x' y' ->
  pixel_at (setPixel s x y color) x' y'
  = if (x' =? x) && (y' =? y) then Some color else pixel_at s x' y'.
Proof.
  intros Hwf [Hx Hy] [Hx' Hy']. apply setPixel_pixel_at; assumption.
Qed.

Lemma setPixel_read_back_example :
  (screen_wf small_screen /\ on_screen small_screen 2 3 /\
   on_screen small_screen 3 2) /\
  pixel_at (setPixel small_screen 2 3 RED) 2 3 = Some RED /\
  pixel_at (setPixel small_screen 2 3 RED) 3 2 = Some BLACK.
Proof.
  assert (Hwf : screen_wf small_screen)
    by (unfold screen_wf; vm_compute; repeat split; discriminate).
  assert (H23 : on_screen small_screen 2 3)
    by (unfold on_screen; vm_compute; repeat split; congruence).
  assert (H32 : on_screen small_screen 3 2)
    by (unfold on_screen; vm_compute; repeat split; congruence).
  split; [exact (conj Hwf (conj H23 H32))|].
  split.
  - exact (setPixel_read_back small_screen 2 3 RED 2 3 Hwf H23 H23).
  - exact (setPixel_read_back small_screen 2 3 RED 3 2 Hwf H23 H32).
Defined.

(** X3. Two calls of [setPixel] in a row: at the same position the
    second write is the one that stays, as if the first had not been
    made; at two different positions of a well-formed screen the order
    of the two calls does not matter. *)
Theorem setPixel_overwrite_commute s x y color x' y' color' :
  setPixel (setPixel s x y color) x y color' = setPixel s x y color' /\
  (screen_wf s -> (x, y) <> (x', y') ->
   setPixel (setPixel s x y color) x' y' color'
   = setPixel (setPixel s x' y' color') x y color).
Proof.
  split; [apply setPixel_twice | apply setPixel_commute].
Qed.

Lemma setPixel_overwrite_commute_example :
  setPixel (setPixel small_screen 2 3 RED) 2 3 GREEN
  = setPixel small_screen 2 3 GREEN /\
  (screen_wf small_screen /\ (2, 3) <> (5, 1)) /\
  setPixel (setPixel small_screen 2 3 RED) 5 1 GREEN
  = setPixel (setPixel small_screen 5 1 GREEN) 2 3 RED.
Proof.
  assert (Hwf : screen_wf small_screen)
    by (unfold screen_wf; vm_compute; repeat split; discriminate).
  assert (Hne : (2, 3) <> (5, 1)) by discriminate.
  destruct (setPixel_overwrite_commute small_screen 2 3 RED 5 1 GREEN)
    as [_ Hcomm].
  split;
    [exact (proj1 (setPixel_overwrite_commute small_screen 2 3 RED 2 3 GREEN))|].
  split; [exact (conj Hwf Hne) | exact (Hcomm Hwf Hne)].
Defined.

(** ** Colours *)

(** X4. The four channels of an interpolated colour do not mix: the
    result is a 32-bit colour whose red, green, blue and alpha bytes are
    the interpolations of the red, green, blue and alpha bytes of the
    two colours, for every fraction (the shift of the red byte into the
    sign bit of an [int] is harmless). *)
Theorem interpolateColor_channels color0 color1 t :
  uint32 (interpolateColor color0 color1 t) /\
  channel 24 (interpolateColor color0 color1 t)
  = interpolateChannel (channel 24 color0) (channel 24 color1) t /\
  channel 16 (interpolateColor color0 color1 t)
  = interpolateChannel (channel 16 color0) (channel 16 color1) t /\
  channel 8 (interpolateColor color0 color1 t)
  = interpolateChannel (channel 8 color0) (channel 8 color1) t /\
  channel 0 (interpolateColor color0 color1 t)
  = interpolateChannel (channel 0 color0) (channel 0 color1) t.
Proof. apply interpolateColor_channel. Qed.

(** X5. Between a colour and itself the interpolation is that colour,
    for every fraction that is a number (no infinity, no NaN). *)
Theorem interpolateColor_constant (A : Z) (t : float) :
  uint32 A -> finite_float t -> interpolateColor A A t = A.
Proof. apply interpolateColor_same. Qed.

Lemma interpolateColor_constant_example :
  (uint32 ORANGE /\ finite_float (S754_finite false 12582912 (-24))) /\
  interpolateColor ORANGE ORANGE (S754_finite false 12582912 (-24)) = ORANGE.
Proof.
  assert (HA : uint32 ORANGE) by (vm_compute; split; congruence).
  assert (Ht : finite_float (S754_finite false 12582912 (-24))) by exact I.
  split; [exact (conj HA Ht)|].
  exact (interpolateColor_constant ORANGE _ HA Ht).
Defined.

(** X6. At a fraction between 0 and 1 each channel of the interpolated
    colour lies between the values of that channel in the two colours:
    rounding and truncation never take it outside. *)
Theorem interpolateColor_between color0 color1 t :
  float_between 0 1 t ->
  forall shift, In shift [24; 16; 8; 0] ->
    Z.min (channel shift color0) (channel shift color1)
      <= channel shift (interpolateColor color0 color1 t)
      <= Z.max (channel shift color0) (channel shift color1).
Proof.
  intros Ht shift Hs.
  apply interpolateColor_channel_between; try assumption; lia.
Qed.

Lemma interpolateColor_between_example :
  float_between 0 1 (S754_finite false 12582912 (-24)) /\
  Z.min (channel 16 ORANGE) (channel 16 PINK)
    <= channel 16 (interpolateColor ORANGE PINK
                     (S754_finite false 12582912 (-24)))
    <= Z.max (channel 16 ORANGE) (channel 16 PINK).
Proof.
  assert (Ht : float_between 0 1 (S754_finite false 12582912 (-24)))
    by (cbn; lia).
  split; [exact Ht|].
  apply (interpolateColor_between ORANGE PINK _ Ht 16). cbn. auto.
Defined.

(** ** Lines *)

(** X7. The line from a point to itself is that one pixel, in the
    colour given first. *)
Theorem bresenham_single_point fuel x y color0 color1 :
  int32 x -> int32 y -> y < INT_MAX -> uint32 color0 -> (2 <= fuel)%nat ->
  bresenham fuel x y color0 x y color1 = Some [mkVertex x y color0].
Proof. apply bresenham_point. Qed.

Lemma bresenham_single_point_example :
  (int32 3 /\ int32 4 /\ 4 < INT_MAX /\ uint32 RED /\ (2 <= 2)%nat) /\
  bresenham 2 3 4 RED 3 4 GREEN = Some [mkVertex 3 4 RED].
Proof.
  assert (H3 : int32 3) by (vm_compute; split; discriminate).
  assert (H4 : int32 4) by (vm_compute; split; discriminate).
  assert (Hm : 4 < INT_MAX) by reflexivity.
  assert (Hc : uint32 RED) by (vm_compute; split; congruence).
  split; [exact (conj H3 (conj H4 (conj Hm (conj Hc (le_n 2)))))|].
  exact (bresenham_single_point 2 3 4 RED GREEN H3 H4 Hm Hc (le_n 2)).
Defined.

(** X8. The line between two distinct points is the same list of pixels,
    in the same order and with the same colours, whichever of the two
    points is given first: [bresenham] always walks up the dominant
    axis. *)
Theorem bresenham_either_direction fuel x0 y0 color0 x1 y1 color1 :
  line_in_range x0 y0 x1 y1 -> (x0, y0) <> (x1, y1) ->
  bresenham fuel x1 y1 color1 x0 y0 color0
  = bresenham fuel x0 y0 color0 x1 y1 color1 /\
  (Z.max (Z.abs (x1 - x0)) (Z.abs (y1 - y0)) + 1 < Z.of_nat fuel ->
   exists pixels,
     bresenham fuel x0 y0 color0 x1 y1 color1 = Some pixels /\
     bresenham fuel x1 y1 color1 x0 y0 color0 = Some pixels).
Proof.
  intros Hr Hne.
  assert (Hswap : bresenham fuel x1 y1 color1 x0 y0 color0
                  = bresenham fuel x0 y0 color0 x1 y1 color1).
  { destruct Hr as ((Hx0 & _) & (Hy0 & _) & (Hx1 & _) & (Hy1 & _) & Hdx & Hdy).
    apply bresenham_swap; try assumption; unfold INT_MAX; lia. }
  split; [exact Hswap|].
  intros Hfuel.
  destruct (bresenham_pixels fuel x0 y0 color0 x1 y1 color1 Hr Hne Hfuel)
    as (pixels & Hrun & _).
  exists pixels. rewrite Hswap. split; exact Hrun.
Qed.

Lemma bresenham_either_direction_example :
  (line_in_range 0 0 5 2 /\ (0, 0) <> (5, 2)) /\
  bresenham 10 5 2 GREEN 0 0 RED = bresenham 10 0 0 RED 5 2 GREEN.
Proof.
  assert (Hne : (0, 0) <> (5, 2)) by discriminate.
  split; [exact (conj small_line_range Hne)|].
  exact (proj1 (bresenham_either_direction 10 0 0 RED 5 2 GREEN
                  small_line_range Hne)).
Defined.

(** X9. The two ends of a line carry the colours given for them: the
    first pixel is the end from which the walk starts and the last
    pixel is the other end, each with exactly its own colour, so that
    both points given are pixels of the line. *)
Theorem bresenham_ends_exact fuel x0 y0 color0 x1 y1 color1 :
  line_in_range x0 y0 x1 y1 -> (x0, y0) <> (x1, y1) ->
  uint32 color0 -> uint32 color1 ->
  Z.max (Z.abs (x1 - x0)) (Z.abs (y1 - y0)) + 1 < Z.of_nat fuel ->
  exists pixels,
    bresenham fuel x0 y0 color0 x1 y1 color1 = Some pixels /\
    head pixels = Some (lineStart x0 y0 color0 x1 y1 color1) /\
    last pixels = Some (lineEnd x0 y0 color0 x1 y1 color1) /\
    In (mkVertex x0 y0 color0) pixels /\ In (mkVertex x1 y1 color1) pixels.
Proof.
  intros Hr Hne Hc0 Hc1 Hfuel.
  destruct (bresenham_ends fuel x0 y0 color0 x1 y1 color1 Hr Hne Hc0 Hc1 Hfuel)
    as (pixels & Hrun & Hhead & Hlast).
  exists pixels. split; [exact Hrun|]. split; [exact Hhead|].
  split; [exact Hlast|].
  assert (Hs : In (lineStart x0 y0 color0 x1 y1 color1) pixels)
    by (apply in_lookup; rewrite head_lookup in Hhead; eauto).
  assert (He : In (lineEnd x0 y0 color0 x1 y1 color1) pixels)
    by (apply in_lookup; rewrite last_lookup in Hlast; eauto).
  destruct (line_ends x0 y0 color0 x1 y1 color1) as [[Es Ee]|[Es Ee]];
    rewrite Es in Hs; rewrite Ee in He; tauto.
Qed.

Lemma bresenham_ends_exact_example :
  (line_in_range 0 0 5 2 /\ (0, 0) <> (5, 2) /\ uint32 RED /\ uint32 GREEN) /\
  exists pixels,
    bresenham 10 5 2 GREEN 0 0 RED = Some pixels /\
    head pixels = Some (mkVertex 0 0 RED) /\
    last pixels = Some (mkVertex 5 2 GREEN).
Proof.
  assert (Hr : line_in_range 5 2 0 0)
    by (unfold line_in_range, int32; vm_compute; repeat split; discriminate).
  assert (Hne : (5, 2) <> (0, 0)) by discriminate.
  assert (Hne' : (0, 0) <> (5, 2)) by discriminate.
  assert (Hc0 : uint32 RED) by (vm_compute; split; congruence).
  assert (Hc1 : uint32 GREEN) by (vm_compute; split; congruence).
  split; [exact (conj small_line_range (conj Hne' (conj Hc0 Hc1)))|].
  destruct (bresenham_ends_exact 10 5 2 GREEN 0 0 RED Hr Hne Hc1 Hc0)
    as (pixels & Hrun & Hhead & Hlast & _).
  - vm_compute. reflexivity.
  - exists pixels. split; [exact Hrun|]. split; [exact Hhead | exact Hlast].
Defined.



(** X11. A line has no gap and no repeated pixel: from each pixel to the
    next both coordinates change by at most one, and no two pixels of
    the line are at the same position. *)
Theorem bresenham_connected fuel x0 y0 color0 x1 y1 color1 :
  line_in_range x0 y0 x1 y1 -> (x0, y0) <> (x1, y1) ->
  Z.max (Z.abs (x1 - x0)) (Z.abs (y1 - y0)) + 1 < Z.of_nat fuel ->
  exists pixels,
    bresenham fuel x0 y0 color0 x1 y1 color1 = Some pixels /\
    (forall (k : nat) p q,
       pixels !! k = Some p -> pixels !! Datatypes.S k = Some q ->
       Z.abs (vx q - vx p) <= 1 /\ Z.abs (vy q - vy p) <= 1) /\
    (forall (i j : nat) p q,
       pixels !! i = Some p -> pixels !! j = Some q ->
       vx p = vx q -> vy p = vy q -> i = j).
Proof.
  intros Hr Hne Hfuel.
  destruct (bresenham_pixels fuel x0 y0 color0 x1 y1 color1 Hr Hne Hfuel)
    as (pixels & Hrun & Hlen & Hpix).
  exists pixels. split; [exact Hrun|].
  pose proof (line_minor_le x0 y0 x1 y1) as Hmn.
  assert (Hpos : 0 < Z.max (Z.abs (x1 - x0)) (Z.abs (y1 - y0))).
  { destruct (Z.eq_dec x0 x1) as [E1|]; [|lia].
    destruct (Z.eq_dec y0 y1) as [E2|]; [|lia].
    exfalso. apply Hne. congruence. }
  split.
  - intros k p q Hp Hq.
    destruct (Hpix k p Hp) as (j & -> & Hj).
    destruct (Hpix (Datatypes.S k) q Hq) as (j' & -> & Hj').
    rewrite Nat2Z.inj_succ in *. unfold Z.succ in *.
    apply linePixel_next.
    exact (on_line_next _ _ _ _ _ Hpos Hmn Hj Hj').
  - intros i j p q Hp Hq Hx Hy.
    destruct (Hpix i p Hp) as (ji & Ep & _).
    destruct (Hpix j q Hq) as (jj & Eq & _).
    rewrite Ep, Eq in Hx, Hy. unfold linePixel in Hx, Hy.
    destruct (_ <? _); cbn [vx vy] in Hx, Hy; lia.
Qed.

Lemma bresenham_connected_example :
  (line_in_range 0 0 5 2 /\ (0, 0) <> (5, 2)) /\
  exists pixels,
    bresenham 10 0 0 RED 5 2 GREEN = Some pixels /\
    forall (k : nat) p q,
      pixels !! k = Some p -> pixels !! Datatypes.S k = Some q ->
      Z.abs (vx q - vx p) <= 1 /\ Z.abs (vy q - vy p) <= 1.
Proof.
  assert (Hne : (0, 0) <> (5, 2)) by discriminate.
  split; [exact (conj small_line_range Hne)|].
  destruct (bresenham_connected 10 0 0 RED 5 2 GREEN small_line_range Hne)
    as (pixels & Hrun & Hstep & _).
  - vm_compute. reflexivity.
  - exists pixels. split; [exact Hrun | exact Hstep].
Defined.

(** X12. A line invents no colour: on a line shorter than [2^24] pixels
    each of the four channels of each pixel lies between the values of
    that channel in the colours of the two ends. *)
Theorem bresenham_colours_between fuel x0 y0 color0 x1 y1 color1 :
  line_in_range x0 y0 x1 y1 -> uint32 color0 -> uint32 color1 ->
  Z.max (Z.abs (x1 - x0)) (Z.abs (y1 - y0)) < 16777216 ->
  Z.max (Z.abs (x1 - x0)) (Z.abs (y1 - y0)) + 1 < Z.of_nat fuel ->
  exists pixels,
    bresenham fuel x0 y0 color0 x1 y1 color1 = Some pixels /\
    forall p shift, In p pixels -> In shift [24; 16; 8; 0] ->
      Z.min (channel shift color0) (channel shift color1)
        <= channel shift (vcolor p)
        <= Z.max (channel shift color0) (channel shift color1).
Proof.
  intros Hr Hc0 Hc1 Hshort Hfuel.
  destruct (bresenham_channels fuel x0 y0 color0 x1 y1 color1
              Hr Hc0 Hc1 Hshort Hfuel) as (pixels & Hrun & Hpix).
  exists pixels. split; [exact Hrun|].
  intros p shift Hp Hs. apply (Hpix p Hp shift); [exact Hs | lia | lia].
Qed.

Lemma bresenham_colours_between_example :
  (line_in_range 0 0 5 2 /\ uint32 RED /\ uint32 GREEN) /\
  exists pixels,
    bresenham 10 0 0 RED 5 2 GREEN = Some pixels /\
    forall p, In p pixels ->
      Z.min (channel 24 RED) (channel 24 GREEN)
        <= channel 24 (vcolor p)
        <= Z.max (channel 24 RED) (channel 24 GREEN).
Proof.
  assert (Hr : line_in_range 0 0 5 2)
    by (unfold line_in_range, int32; vm_compute; repeat split; discriminate).
  assert (Hc0 : uint32 RED) by (vm_compute; split; congruence).
  assert (Hc1 : uint32 GREEN) by (vm_compute; split; congruence).
  split; [exact (conj Hr (conj Hc0 Hc1))|].
  destruct (bresenham_colours_between 10 0 0 RED 5 2 GREEN Hr Hc0 Hc1)
    as (pixels & Hrun & Hpix); [vm_compute; reflexivity ..|].
  exists pixels. split; [exact Hrun|].
  intros p Hp. apply (Hpix p 24 Hp). cbn. auto.
Defined.

(** ** The outline of a triangle *)





(** X15. [drawTriangle] invents no colour: when no edge is longer than
    [2^24] pixels, an on-screen position holds after the call what it
    held before, or a colour each of whose four channels lies between
    the least and the greatest value of that channel at the three
    vertices. *)
Theorem drawTriangle_colours_within fuel s v0 v1 v2 :
  screen_wf s -> vertex_wf v0 -> vertex_wf v1 -> vertex_wf v2 ->
  outline_in_range v0 v1 v2 ->
  outlineLength v0 v1 v2 <= 16777216 ->
  outlineLength v0 v1 v2 < Z.of_nat fuel ->
  exists s',
    drawTriangle fuel s v0 v1 v2 = Some s' /\
    forall x y, on_screen s x y ->
      pixel_at s' x y = pixel_at s x y \/
      exists color,
        pixel_at s' x y = Some color /\
        color_within (vcolor v0) (vcolor v1) (vcolor v2) color = true.
Proof.
  intros Hwf W0 W1 W2 Hr Hshort Hfuel.
  destruct (outline_edges fuel v0 v1 v2 W0 W1 W2 Hr Hfuel)
    as (e1 & e2 & e3 & H1 & H2 & H3 & Hdraw).
  destruct W0 as (_ & _ & C0), W1 as (_ & _ & C1), W2 as (_ & _ & C2).
  destruct Hr as (R1 & R2 & R3).
  unfold outlineLength, lineLength in Hfuel, Hshort.
  destruct (bresenham_channels fuel _ _ _ _ _ _ R1 C0 C1
              ltac:(lia) ltac:(lia)) as (e1' & H1' & Hpix1).
  rewrite H1 in H1'. injection H1' as <-.
  destruct (bresenham_channels fuel _ _ _ _ _ _ R2 C1 C2
              ltac:(lia) ltac:(lia)) as (e2' & H2' & Hpix2).
  rewrite H2 in H2'. injection H2' as <-.
  destruct (bresenham_channels fuel _ _ _ _ _ _ R3 C2 C0
              ltac:(lia) ltac:(lia)) as (e3' & H3' & Hpix3).
  rewrite H3 in H3'. injection H3' as <-.
  exists (replay s (rev (map call_of e3) ++ rev (map call_of e2)
                    ++ rev (map call_of e1))).
  split; [apply Hdraw|].
  intros x y [Hx Hy]. rewrite pixel_at_replay by assumption.
  destruct (find_call _ x y) as [color|] eqn:Hc; [right | left; reflexivity].
  exists color. split; [reflexivity|].
  apply find_call_In, in_app3 in Hc.
  apply color_within_true. intros shift Hs.
  pose (lo := Z.min (channel shift (vcolor v0))
               (Z.min (channel shift (vcolor v1)) (channel shift (vcolor v2)))).
  pose (hi := Z.max (channel shift (vcolor v0))
               (Z.max (channel shift (vcolor v1)) (channel shift (vcolor v2)))).
  assert (B0 : lo <= channel shift (vcolor v0) <= hi) by (subst lo hi; clear; lia).
  assert (B1 : lo <= channel shift (vcolor v1) <= hi) by (subst lo hi; clear; lia).
  assert (B2 : lo <= channel shift (vcolor v2) <= hi) by (subst lo hi; clear; lia).
  destruct Hc as [Hc|[Hc|Hc]];
    apply in_calls in Hc as (p & Hp & _ & _ & <-).
  - exact (Hpix3 p Hp shift lo hi Hs B2 B0).
  - exact (Hpix2 p Hp shift lo hi Hs B1 B2).
  - exact (Hpix1 p Hp shift lo hi Hs B0 B1).
Qed.

Lemma drawTriangle_colours_within_example :
  (screen_wf small_screen /\ outline_in_range small_v0 small_v1 small_v2) /\
  exists s',
    drawTriangle 10 small_screen small_v0 small_v1 small_v2 = Some s' /\
    (pixel_at s' 1 1 = pixel_at small_screen 1 1 \/
     exists color,
       pixel_at s' 1 1 = Some color /\
       color_within RED GREEN BLUE color = true).
Proof.
  destruct small_outline_wf as (Hwf & W0 & W1 & W2).
  split; [exact (conj Hwf small_outline_range)|].
  destruct (drawTriangle_colours_within 10 small_screen
              small_v0 small_v1 small_v2 Hwf W0 W1 W2 small_outline_range)
    as (s' & Hrun & Hcol).
  - vm_compute. discriminate.
  - vm_compute. reflexivity.
  - exists s'. split; [exact Hrun|].
    apply Hcol. unfold on_screen. vm_compute. repeat split; congruence.
Defined.

(** ** The fill of a triangle *)

(** X16. When the three vertices lie on three different rows,
    [fillTriangle] does not depend on the order in which they are
    passed: the six orders give the same result. *)
Theorem fillTriangle_vertex_order fuel s v0 v1 v2 :
  vy v0 <> vy v1 -> vy v1 <> vy v2 -> vy v0 <> vy v2 ->
  fillTriangle fuel s v0 v2 v1 = fillTriangle fuel s v0 v1 v2 /\
  fillTriangle fuel s v1 v0 v2 = fillTriangle fuel s v0 v1 v2 /\
  fillTriangle fuel s v1 v2 v0 = fillTriangle fuel s v0 v1 v2 /\
  fillTriangle fuel s v2 v0 v1 = fillTriangle fuel s v0 v1 v2 /\
  fillTriangle fuel s v2 v1 v0 = fillTriangle fuel s v0 v1 v2.
Proof.
  intros H01 H12 H02. unfold fillTriangle, fillTriangleOn.
  repeat split;
    rewrite (sortByY_permutation v0 v1 v2 _ _ _ H01 H12 H02); tauto.
Qed.

Lemma fillTriangle_vertex_order_example :
  (vy (mkVertex 2 0 RED) <> vy (mkVertex 0 3 GREEN) /\
   vy (mkVertex 0 3 GREEN) <> vy (mkVertex 5 6 BLUE) /\
   vy (mkVertex 2 0 RED) <> vy (mkVertex 5 6 BLUE)) /\
  is_Some (fillTriangle 10 small_screen (mkVertex 5 6 BLUE)
             (mkVertex 2 0 RED) (mkVertex 0 3 GREEN)) /\
  fillTriangle 10 small_screen
    (mkVertex 5 6 BLUE) (mkVertex 2 0 RED) (mkVertex 0 3 GREEN)
  = fillTriangle 10 small_screen
      (mkVertex 2 0 RED) (mkVertex 0 3 GREEN) (mkVertex 5 6 BLUE).
Proof.
  assert (H01 : vy (mkVertex 2 0 RED) <> vy (mkVertex 0 3 GREEN))
    by discriminate.
  assert (H12 : vy (mkVertex 0 3 GREEN) <> vy (mkVertex 5 6 BLUE))
    by discriminate.
  assert (H02 : vy (mkVertex 2 0 RED) <> vy (mkVertex 5 6 BLUE))
    by discriminate.
  split; [exact (conj H01 (conj H12 H02))|].
  split; [vm_compute; eexists; reflexivity|].
  exact (proj1 (proj2 (proj2 (proj2
           (fillTriangle_vertex_order 10 small_screen _ _ _ H01 H12 H02))))).
Defined.

(** X17. [fillTriangle] keeps a picture opaque: when the three vertex
    colours have alpha 255 and every entry of the buffer has alpha 255,
    every entry of the buffer has alpha 255 after the call. The call
    does return, given fuel, whenever no vertex lies on the row
    [INT_MAX]. *)
Theorem fillTriangle_keeps_opaque s v0 v1 v2 :
  vertex_wf v0 -> vertex_wf v1 -> vertex_wf v2 ->
  opaque (vcolor v0) -> opaque (vcolor v1) -> opaque (vcolor v2) ->
  Forall opaque (pixels s) ->
  (forall fuel s',
     fillTriangle fuel s v0 v1 v2 = Some s' -> Forall opaque (pixels s')) /\
  (rows_below_max v0 v1 v2 ->
   exists fuel s', fillTriangle fuel s v0 v1 v2 = Some s').
Proof.
  intros (_ & H0 & _) (_ & H1 & _) (_ & H2 & _) A0 A1 A2 Hs.
  split; [|apply fillTriangle_returns].
  intros fuel s'.
  apply fillTriangle_opaque_screen; assumption.
Qed.

Lemma fillTriangle_keeps_opaque_example :
  (opaque RED /\ opaque GREEN /\ opaque BLUE /\
   Forall opaque (pixels small_screen) /\
   rows_below_max small_v0 small_v1 small_v2) /\
  (exists s',
     fillTriangle 10 small_screen small_v0 small_v1 small_v2 = Some s' /\
     Forall opaque (pixels s')) /\
  (exists fuel s',
     fillTriangle fuel small_screen small_v0 small_v1 small_v2 = Some s').
Proof.
  destruct small_fill_wf as (Hwf & _ & W0 & W1 & W2).
  assert (A0 : opaque RED) by reflexivity.
  assert (A1 : opaque GREEN) by reflexivity.
  assert (A2 : opaque BLUE) by reflexivity.
  assert (Hs : Forall opaque (pixels small_screen))
    by (vm_compute; repeat constructor).
  assert (Hrows : rows_below_max small_v0 small_v1 small_v2)
    by (vm_compute; repeat split; discriminate).
  destruct small_fill_runs as [s' Hrun].
  destruct (fillTriangle_keeps_opaque small_screen small_v0 small_v1 small_v2
              W0 W1 W2 A0 A1 A2 Hs) as [Hkeep Hret].
  split; [exact (conj A0 (conj A1 (conj A2 (conj Hs Hrows))))|].
  split; [|exact (Hret Hrows)].
  exists s'. split; [exact Hrun | exact (Hkeep 10%nat s' Hrun)].
Defined.

(** X18. The top and the bottom of a filled triangle, for coordinates
    below [2^23] in magnitude, with [(a, b, c)] the vertices in
    ascending order of [y]. When [a] is alone on the top row, its
    position holds exactly its colour after the fill; when [c] is alone
    on the bottom row, its position holds exactly its colour. When the
    bottom edge is flat ([b] and [c] share the bottom row) that row is
    not drawn at all. *)
Theorem fillTriangle_top_and_bottom s v0 v1 v2 a b c :
  screen_wf s ->
  small_coords v0 -> small_coords v1 -> small_coords v2 ->
  vertex_wf v0 -> vertex_wf v1 -> vertex_wf v2 ->
  sortByY v0 v1 v2 = (a, b, c) ->
  (forall fuel s', fillTriangle fuel s v0 v1 v2 = Some s' ->
     (vy a < vy b -> on_screen s (vx a) (vy a) ->
      pixel_at s' (vx a) (vy a) = Some (vcolor a)) /\
     (vy b < vy c -> on_screen s (vx c) (vy c) ->
      pixel_at s' (vx c) (vy c) = Some (vcolor c)) /\
     (vy a < vy b -> vy b = vy c ->
      forall x, on_screen s x (vy c) ->
        pixel_at s' x (vy c) = pixel_at s x (vy c))) /\
  (exists fuel s', fillTriangle fuel s v0 v1 v2 = Some s').
Proof.
  intros Hwf S0 S1 S2 W0 W1 W2 Hs.
  split;
    [|apply fillTriangle_returns, small_rows_below_max; assumption].
  intros fuel s' Hrun.
  destruct (sortByY_spec v0 v1 v2 a b c Hs) as (Hord & _ & _ & Hin).
  destruct (Hin (fun v => small_coords v /\ vertex_wf v))
    as ((Sa & Wa) & (Sb & Wb) & (Sc & Wc)); [split; assumption ..|].
  unfold fillTriangle in Hrun.
  rewrite (fillTriangleOn_sorted setPixel fuel s v0 v1 v2 a b c Hs) in Hrun.
  destruct (small_coords_wf a Sa) as [Ixa Iya].
  destruct (small_coords_wf c Sc) as [Ixc Iyc].
  destruct Sa as [Xa Ya], Sb as [Xb Yb], Sc as [Xc Yc].
  split; [|split].
  - intros Hab Hon.
    destruct (fillTriangle_pixel fuel s a b c s' _ _ Hwf Hon Hrun)
      as (log & Hlog & ->).
    assert (He : scanEdges a b c (vy a)
                 = Some (mkSpan (vx a) (vx a) (vcolor a) (vcolor a))).
    { apply scanEdges_top; try assumption;
        try (change (2 ^ 24) with 16777216); lia. }
    rewrite (fill_row_single fuel a b c log (vx a) (vy a) (vcolor a)
               Iya Iyc Hord ltac:(lia) ltac:(lia) Ixa ltac:(int32_arith)
               He Hlog).
    reflexivity.
  - intros Hbc Hon.
    destruct (fillTriangle_pixel fuel s a b c s' _ _ Hwf Hon Hrun)
      as (log & Hlog & ->).
    assert (He : scanEdges a b c (vy c)
                 = Some (mkSpan (vx c) (vx c) (vcolor c) (vcolor c))).
    { apply scanEdges_bottom; try assumption;
        try (change (2 ^ 23) with 8388608); lia. }
    rewrite (fill_row_single fuel a b c log (vx c) (vy c) (vcolor c)
               Iya Iyc Hord ltac:(lia) ltac:(lia) Ixc ltac:(int32_arith)
               He Hlog).
    reflexivity.
  - intros Hab Hbc x Hon.
    destruct (fillTriangle_pixel fuel s a b c s' _ _ Hwf Hon Hrun)
      as (log & Hlog & ->).
    rewrite (fill_row_skipped fuel a b c log x (vy c)
               Iya Iyc Hord ltac:(lia) ltac:(lia)
               (scanEdges_flat_bottom a b c Hbc) Hlog).
    reflexivity.
Qed.

Lemma fillTriangle_top_and_bottom_example :
  (screen_wf small_screen /\ small_coords small_v0 /\ small_coords small_v1 /\
   small_coords small_v2 /\
   sortByY small_v0 small_v1 small_v2 = (small_v0, small_v1, small_v2)) /\
  exists s',
    fillTriangle 10 small_screen small_v0 small_v1 small_v2 = Some s' /\
    pixel_at s' 2 0 = Some RED /\
    pixel_at s' 0 3 = pixel_at small_screen 0 3.
Proof.
  destruct small_fill_wf as (Hwf & (S0 & S1 & S2) & W0 & W1 & W2).
  assert (Hs : sortByY small_v0 small_v1 small_v2
               = (small_v0, small_v1, small_v2)) by reflexivity.
  split; [exact (conj Hwf (conj S0 (conj S1 (conj S2 Hs))))|].
  destruct small_fill_runs as [s' Hrun].
  destruct (fillTriangle_top_and_bottom small_screen small_v0 small_v1 small_v2
              small_v0 small_v1 small_v2 Hwf S0 S1 S2 W0 W1 W2 Hs)
    as [Hpix _].
  destruct (Hpix 10%nat s' Hrun) as (Htop & _ & Hflat).
  exists s'. split; [exact Hrun|]. split.
  - apply Htop; [vm_compute; reflexivity|].
    unfold on_screen. vm_compute. repeat split; congruence.
  - apply (Hflat ltac:(vm_compute; reflexivity) eq_refl 0).
    unfold on_screen. vm_compute. repeat split; congruence.
Defined.

(** X19. A triangle with a flat top edge, for coordinates below [2^23]
    in magnitude, with [(a, b, c)] the vertices in ascending order of
    [y] and [a], [b] at two different positions of the top row: both
    top vertices hold exactly their own colours after the fill, and
    each position of the top row between them holds a blend of these
    two colours only. *)
Theorem fillTriangle_flat_top s v0 v1 v2 a b c :
  screen_wf s ->
  small_coords v0 -> small_coords v1 -> small_coords v2 ->
  vertex_wf v0 -> vertex_wf v1 -> vertex_wf v2 ->
  sortByY v0 v1 v2 = (a, b, c) ->
  vy a = vy b -> vy b < vy c -> vx a <> vx b ->
  (forall fuel s', fillTriangle fuel s v0 v1 v2 = Some s' ->
     (on_screen s (vx a) (vy a) ->
      pixel_at s' (vx a) (vy a) = Some (vcolor a)) /\
     (on_screen s (vx b) (vy b) ->
      pixel_at s' (vx b) (vy b) = Some (vcolor b)) /\
     (forall x, Z.min (vx a) (vx b) <= x <= Z.max (vx a) (vx b) ->
        on_screen s x (vy a) ->
        exists color,
          pixel_at s' x (vy a) = Some color /\
          forall shift, In shift [24; 16; 8; 0] ->
            Z.min (channel shift (vcolor a)) (channel shift (vcolor b))
              <= channel shift color
              <= Z.max (channel shift (vcolor a)) (channel shift (vcolor b)))) /\
  (exists fuel s', fillTriangle fuel s v0 v1 v2 = Some s').
Proof.
  intros Hwf S0 S1 S2 W0 W1 W2 Hs Hab Hbc Hne.
  split;
    [|apply fillTriangle_returns, small_rows_below_max; assumption].
  intros fuel s' Hrun.
  destruct (sortByY_spec v0 v1 v2 a b c Hs) as (Hord & _ & _ & Hin).
  destruct (Hin (fun v => small_coords v /\ vertex_wf v))
    as ((Sa & Wa) & (Sb & Wb) & (Sc & Wc)); [split; assumption ..|].
  unfold fillTriangle in Hrun.
  rewrite (fillTriangleOn_sorted setPixel fuel s v0 v1 v2 a b c Hs) in Hrun.
  destruct (small_coords_wf a Sa) as [Ixa Iya].
  destruct (small_coords_wf b Sb) as [Ixb Iyb].
  destruct (small_coords_wf c Sc) as [Ixc Iyc].
  pose proof Wa as (_ & _ & Ca). pose proof Wb as (_ & _ & Cb).
  destruct Sa as [Xa Ya], Sb as [Xb Yb], Sc as [Xc Yc].
  assert (He : scanEdges a b c (vy a)
               = Some (if vx a <? vx b
                       then mkSpan (vx a) (vx b) (vcolor a) (vcolor b)
                       else mkSpan (vx b) (vx a) (vcolor b) (vcolor a))).
  { apply scanEdges_flat_top; try assumption;
      try (change (2 ^ 24) with 16777216); lia. }
  assert (Hrow : forall x, on_screen s x (vy a) ->
            exists log,
              pixel_at s' x (vy a)
              = match find_call log x (vy a) with
                | Some color => Some color
                | None => pixel_at s x (vy a)
                end /\
              find_call log x (vy a)
              = (let sp := if vx a <? vx b
                           then mkSpan (vx a) (vx b) (vcolor a) (vcolor b)
                           else mkSpan (vx b) (vx a) (vcolor b) (vcolor a) in
                 if (x_left sp <=? x) && (x <=? x_right sp)
                 then Some (spanColor sp x) else None)).
  { intros x Hon.
    destruct (fillTriangle_pixel fuel s a b c s' _ _ Hwf Hon Hrun)
      as (log & Hlog & Hpix).
    exists log. split; [exact Hpix|].
    rewrite (fill_row_span fuel a b c log x (vy a) Iya Iyc Hord
               ltac:(lia) ltac:(lia) Hlog).
    rewrite He. reflexivity. }
  destruct (vx a <? vx b) eqn:Elt.
  - (* [a] is the left end *)
    destruct (spanColor_ends (mkSpan (vx a) (vx b) (vcolor a) (vcolor b))
                Ixa Ixb Ca Cb Hne) as [El Er].
    cbn [x_left x_right color_left color_right] in *.
    split; [|split].
    + intros Hon. destruct (Hrow _ Hon) as (log & -> & ->). cbv zeta.
      cbn [x_left x_right].
      destruct (vx a <=? vx a) eqn:E1; [|lia].
      destruct (vx a <=? vx b) eqn:E2; [|lia]. cbn [andb].
      rewrite El. reflexivity.
    + intros Hon. rewrite <- Hab in Hon.
      destruct (Hrow _ Hon) as (log & Hpix & Hcall).
      rewrite <- Hab, Hpix, Hcall. cbv zeta. cbn [x_left x_right].
      destruct (vx a <=? vx b) eqn:E1; [|lia].
      destruct (vx b <=? vx b) eqn:E2; [|lia]. cbn [andb].
      rewrite Er. reflexivity.
    + intros x Hx Hon. destruct (Hrow _ Hon) as (log & -> & ->). cbv zeta.
      cbn [x_left x_right].
      destruct (vx a <=? x) eqn:E1; [|lia].
      destruct (x <=? vx b) eqn:E2; [|lia]. cbn [andb].
      eexists. split; [reflexivity|].
      intros shift Hshift.
      apply spanColor_between; cbn [x_left x_right color_left color_right];
        try assumption; try (change (2 ^ 24) with 16777216); lia.
  - (* [b] is the left end *)
    destruct (spanColor_ends (mkSpan (vx b) (vx a) (vcolor b) (vcolor a))
                Ixb Ixa Cb Ca ltac:(cbn; lia)) as [El Er].
    cbn [x_left x_right color_left color_right] in *.
    split; [|split].
    + intros Hon. destruct (Hrow _ Hon) as (log & -> & ->). cbv zeta.
      cbn [x_left x_right].
      destruct (vx b <=? vx a) eqn:E1; [|lia].
      destruct (vx a <=? vx a) eqn:E2; [|lia]. cbn [andb].
      rewrite Er. reflexivity.
    + intros Hon. rewrite <- Hab in Hon.
      destruct (Hrow _ Hon) as (log & Hpix & Hcall).
      rewrite <- Hab, Hpix, Hcall. cbv zeta. cbn [x_left x_right].
      destruct (vx b <=? vx b) eqn:E1; [|lia].
      destruct (vx b <=? vx a) eqn:E2; [|lia]. cbn [andb].
      rewrite El. reflexivity.
    + intros x Hx Hon. destruct (Hrow _ Hon) as (log & -> & ->). cbv zeta.
      cbn [x_left x_right].
      destruct (vx b <=? x) eqn:E1; [|lia].
      destruct (x <=? vx a) eqn:E2; [|lia]. cbn [andb].
      eexists. split; [reflexivity|].
      intros shift Hshift.
      apply spanColor_between; cbn [x_left x_right color_left color_right];
        try assumption; try (change (2 ^ 24) with 16777216); lia.
Qed.

Lemma fillTriangle_flat_top_example :
  (screen_wf small_screen /\
   sortByY (mkVertex 5 1 GREEN) (mkVertex 3 4 BLUE) (mkVertex 1 1 RED)
   = (mkVertex 5 1 GREEN, mkVertex 1 1 RED, mkVertex 3 4 BLUE)) /\
  exists s',
    fillTriangle 10 small_screen
      (mkVertex 5 1 GREEN) (mkVertex 3 4 BLUE) (mkVertex 1 1 RED) = Some s' /\
    pixel_at s' 5 1 = Some GREEN /\ pixel_at s' 1 1 = Some RED.
Proof.
  destruct small_fill_wf as (Hwf & _).
  assert (Hs : sortByY (mkVertex 5 1 GREEN) (mkVertex 3 4 BLUE)
                 (mkVertex 1 1 RED)
               = (mkVertex 5 1 GREEN, mkVertex 1 1 RED, mkVertex 3 4 BLUE))
    by reflexivity.
  split; [exact (conj Hwf Hs)|].
  assert (Hrun : is_Some (fillTriangle 10 small_screen
                            (mkVertex 5 1 GREEN) (mkVertex 3 4 BLUE)
                            (mkVertex 1 1 RED)))
    by (vm_compute; eexists; reflexivity).
  destruct Hrun as [s' Hrun].
  destruct (fillTriangle_flat_top small_screen
              (mkVertex 5 1 GREEN) (mkVertex 3 4 BLUE) (mkVertex 1 1 RED)
              (mkVertex 5 1 GREEN) (mkVertex 1 1 RED) (mkVertex 3 4 BLUE) Hwf)
    as [Hpix _];
    try (unfold small_coords; vm_compute; repeat split; congruence);
    try (repeat split; vm_compute; congruence).
  destruct (Hpix 10%nat s' Hrun) as (Ha & Hb & _).
  exists s'. split; [exact Hrun|].
  split; [apply Ha | apply Hb];
    unfold on_screen; vm_compute; repeat split; congruence.
Defined.

(** X20. The middle vertex of a filled triangle, for coordinates below
    [2^23] in magnitude, with [(a, b, c)] the vertices in ascending
    order of [y] on three different rows: when [b] lies right of column
    0, its position holds exactly its colour after the fill, on
    whichever side of the long edge from [a] to [c] it lies. (In column
    0 the truncation of a negative edge position toward zero can give
    the pixel to the long edge.) *)
Theorem fillTriangle_middle_vertex s v0 v1 v2 a b c :
  screen_wf s ->
  small_coords v0 -> small_coords v1 -> small_coords v2 ->
  vertex_wf v0 -> vertex_wf v1 -> vertex_wf v2 ->
  sortByY v0 v1 v2 = (a, b, c) ->
  vy a < vy b -> vy b < vy c -> 0 < vx b ->
  (forall fuel s', fillTriangle fuel s v0 v1 v2 = Some s' ->
     on_screen s (vx b) (vy b) ->
     pixel_at s' (vx b) (vy b) = Some (vcolor b)) /\
  (exists fuel s', fillTriangle fuel s v0 v1 v2 = Some s').
Proof.
  intros Hwf S0 S1 S2 W0 W1 W2 Hs Hab Hbc Hpos.
  split;
    [|apply fillTriangle_returns, small_rows_below_max; assumption].
  intros fuel s' Hrun Hon.
  destruct (sortByY_spec v0 v1 v2 a b c Hs) as (Hord & _ & _ & Hin).
  destruct (Hin (fun v => small_coords v /\ vertex_wf v))
    as ((Sa & Wa) & (Sb & Wb) & (Sc & Wc)); [split; assumption ..|].
  unfold fillTriangle in Hrun.
  rewrite (fillTriangleOn_sorted setPixel fuel s v0 v1 v2 a b c Hs) in Hrun.
  destruct (small_coords_wf a Sa) as [_ Iya].
  destruct (small_coords_wf c Sc) as [_ Iyc].
  destruct (fillTriangle_pixel fuel s a b c s' _ _ Hwf Hon Hrun)
    as (log & Hlog & ->).
  rewrite (fill_row_span fuel a b c log (vx b) (vy b) Iya Iyc Hord
             ltac:(lia) ltac:(lia) Hlog).
  destruct (scanEdges_middle a b c Wa Wb Wc Sa Sb Sc Hab Hbc Hpos)
    as (sp & -> & Hx & Hc).
  destruct (x_left sp <=? vx b) eqn:E1; [|lia].
  destruct (vx b <=? x_right sp) eqn:E2; [|lia].
  cbn [andb]. rewrite Hc. reflexivity.
Qed.

Lemma fillTriangle_middle_vertex_example :
  (screen_wf small_screen /\
   sortByY (mkVertex 1 0 RED) (mkVertex 5 3 GREEN) (mkVertex 2 6 BLUE)
   = (mkVertex 1 0 RED, mkVertex 5 3 GREEN, mkVertex 2 6 BLUE)) /\
  exists s',
    fillTriangle 10 small_screen
      (mkVertex 1 0 RED) (mkVertex 5 3 GREEN) (mkVertex 2 6 BLUE) = Some s' /\
    pixel_at s' 5 3 = Some GREEN.
Proof.
  destruct small_fill_wf as (Hwf & _).
  assert (Hs : sortByY (mkVertex 1 0 RED) (mkVertex 5 3 GREEN)
                 (mkVertex 2 6 BLUE)
               = (mkVertex 1 0 RED, mkVertex 5 3 GREEN, mkVertex 2 6 BLUE))
    by reflexivity.
  split; [exact (conj Hwf Hs)|].
  assert (Hrun : is_Some (fillTriangle 10 small_screen
                            (mkVertex 1 0 RED) (mkVertex 5 3 GREEN)
                            (mkVertex 2 6 BLUE)))
    by (vm_compute; eexists; reflexivity).
  destruct Hrun as [s' Hrun].
  destruct (fillTriangle_middle_vertex small_screen
              (mkVertex 1 0 RED) (mkVertex 5 3 GREEN) (mkVertex 2 6 BLUE)
              (mkVertex 1 0 RED) (mkVertex 5 3 GREEN) (mkVertex 2 6 BLUE) Hwf)
    as [Hpix _];
    try (unfold small_coords; vm_compute; repeat split; congruence);
    try (repeat split; vm_compute; congruence).
  exists s'. split; [exact Hrun|].
  apply (Hpix 10%nat s' Hrun).
  unfold on_screen. vm_compute. repeat split; congruence.
Defined.

(** X21. [fillTriangle] draws inside the box of the three vertices only,
    for coordinates below [2^23] in magnitude: no rounding of an edge
    position takes a span beyond the leftmost or the rightmost vertex,
    so every on-screen position outside the box holds afterwards what
    it held before. *)
Theorem fillTriangle_inside_box s v0 v1 v2 :
  screen_wf s ->
  small_coords v0 -> small_coords v1 -> small_coords v2 ->
  (forall fuel s' x y,
     fillTriangle fuel s v0 v1 v2 = Some s' ->
     on_screen s x y -> ~ in_box v0 v1 v2 x y ->
     pixel_at s' x y = pixel_at s x y) /\
  (exists fuel s', fillTriangle fuel s v0 v1 v2 = Some s').
Proof.
  intros Hwf S0 S1 S2.
  split;
    [|apply fillTriangle_returns, small_rows_below_max; assumption].
  intros fuel s' x y Hrun Hon Hout.
  destruct (fillTriangle_pixel fuel s v0 v1 v2 s' x y Hwf Hon Hrun)
    as (log & Hlog & ->).
  destruct (find_call log x y) as [color|] eqn:Hc; [|reflexivity].
  exfalso. apply Hout.
  apply (find_call_Forall _ log x y color
           (fillTriangle_calls_in_box fuel v0 v1 v2 log S0 S1 S2 Hlog) Hc).
Qed.

Lemma fillTriangle_inside_box_example :
  (screen_wf small_screen /\ small_coords small_v0 /\ small_coords small_v1 /\
   small_coords small_v2) /\
  exists s',
    fillTriangle 10 small_screen small_v0 small_v1 small_v2 = Some s' /\
    pixel_at s' 5 2 = pixel_at small_screen 5 2.
Proof.
  destruct small_fill_wf as (Hwf & (S0 & S1 & S2) & _).
  split; [exact (conj Hwf (conj S0 (conj S1 S2)))|].
  destruct small_fill_runs as [s' Hrun].
  destruct (fillTriangle_inside_box small_screen small_v0 small_v1 small_v2
              Hwf S0 S1 S2) as [Hframe _].
  exists s'. split; [exact Hrun|].
  apply (Hframe 10%nat s' 5 2 Hrun).
  - unfold on_screen. vm_compute. repeat split; congruence.
  - unfold in_box. vm_compute. intros [[_ H] _]. apply H. reflexivity.
Defined.

(** X22. [fillTriangle] invents no colour, for coordinates below [2^23]
    in magnitude: after the fill an on-screen position holds what it
    held before, or a colour each of whose four channels lies between
    the least and the greatest value of that channel at the three
    vertices. *)
Theorem fillTriangle_colours_within s v0 v1 v2 :
  screen_wf s ->
  small_coords v0 -> small_coords v1 -> small_coords v2 ->
  (forall fuel s' x y,
     fillTriangle fuel s v0 v1 v2 = Some s' -> on_screen s x y ->
     pixel_at s' x y = pixel_at s x y \/
     exists color,
       pixel_at s' x y = Some color /\
       color_within (vcolor v0) (vcolor v1) (vcolor v2) color = true) /\
  (exists fuel s', fillTriangle fuel s v0 v1 v2 = Some s').
Proof.
  intros Hwf S0 S1 S2.
  split;
    [|apply fillTriangle_returns, small_rows_below_max; assumption].
  intros fuel s' x y Hrun Hon.
  destruct (fillTriangle_pixel fuel s v0 v1 v2 s' x y Hwf Hon Hrun)
    as (log & Hlog & ->).
  destruct (find_call log x y) as [color|] eqn:Hc; [right | left; reflexivity].
  exists color. split; [reflexivity|].
  apply (find_call_Forall _ log x y color
           (fillTriangle_calls_within fuel v0 v1 v2 log S0 S1 S2 Hlog) Hc).
Qed.

Lemma fillTriangle_colours_within_example :
  (screen_wf small_screen /\ small_coords small_v0 /\ small_coords small_v1 /\
   small_coords small_v2) /\
  exists s',
    fillTriangle 10 small_screen small_v0 small_v1 small_v2 = Some s' /\
    (pixel_at s' 2 1 = pixel_at small_screen 2 1 \/
     exists color,
       pixel_at s' 2 1 = Some color /\
       color_within RED GREEN BLUE color = true).
Proof.
  destruct small_fill_wf as (Hwf & (S0 & S1 & S2) & _).
  split; [exact (conj Hwf (conj S0 (conj S1 S2)))|].
  destruct small_fill_runs as [s' Hrun].
  destruct (fillTriangle_colours_within small_screen small_v0 small_v1 small_v2
              Hwf S0 S1 S2) as [Hcol _].
  exists s'. split; [exact Hrun|].
  apply (Hcol 10%nat s' 2 1 Hrun).
  unfold on_screen. vm_compute. repeat split; congruence.
Defined.

(** X23. The inner loop of [fillTriangle] over a span writes each
    position from [x_left] to [x_right] of the row and no other; the
    two ends of a span of more than one pixel receive exactly
    [color_left] and [color_right]; a span whose [x_left] exceeds
    [x_right] writes nothing. *)
Theorem fillSpan_covers_span fuel sp y log :
  int32 (x_left sp) -> int32 (x_right sp) -> x_right sp < INT_MAX ->
  uint32 (color_left sp) -> uint32 (color_right sp) ->
  Z.max 0 (x_right sp - x_left sp + 1) < Z.of_nat fuel ->
  exists log',
    fillSpan record fuel log sp y = Some log' /\
    (forall x, x_left sp <= x <= x_right sp ->
       find_call log' x y = Some (spanColor sp x)) /\
    (forall x y', ~ (y' = y /\ x_left sp <= x <= x_right sp) ->
       find_call log' x y' = find_call log x y') /\
    (x_left sp < x_right sp ->
     find_call log' (x_left sp) y = Some (color_left sp) /\
     find_call log' (x_right sp) y = Some (color_right sp)).
Proof.
  intros Il Ir Hmax Cl Cr Hfuel.
  destruct (fillSpan_returns_within record fuel log sp y Il Hmax Hfuel)
    as [log' Hrun].
  pose proof (fillSpan_find fuel sp y log log' Il Ir Hrun) as Hfind.
  assert (Hin : forall x, x_left sp <= x <= x_right sp ->
            find_call log' x y = Some (spanColor sp x)).
  { intros x Hx. rewrite Hfind, Z.eqb_refl.
    destruct (x_left sp <=? x) eqn:E1; [|lia].
    destruct (x <=? x_right sp) eqn:E2; [reflexivity | lia]. }
  exists log'. split; [exact Hrun|]. split; [exact Hin|]. split.
  - intros x y' Hout. rewrite Hfind.
    destruct (y' =? y) eqn:E0; [|reflexivity].
    destruct (x_left sp <=? x) eqn:E1; [|reflexivity].
    destruct (x <=? x_right sp) eqn:E2; [|reflexivity].
    exfalso. apply Hout. lia.
  - intros Hlt.
    destruct (spanColor_ends sp Il Ir Cl Cr ltac:(lia)) as [El Er].
    rewrite !Hin by lia. rewrite El, Er. auto.
Qed.

Lemma fillSpan_covers_span_example :
  (int32 2 /\ int32 5 /\ 5 < INT_MAX /\ uint32 RED /\ uint32 BLUE) /\
  exists log',
    fillSpan record 10 [] (mkSpan 2 5 RED BLUE) 3 = Some log' /\
    find_call log' 2 3 = Some RED /\ find_call log' 5 3 = Some BLUE /\
    find_call log' 6 3 = None.
Proof.
  assert (Il : int32 2) by (split; discriminate).
  assert (Ir : int32 5) by (split; discriminate).
  assert (Hmax : 5 < INT_MAX) by reflexivity.
  assert (Cl : uint32 RED) by (vm_compute; split; congruence).
  assert (Cr : uint32 BLUE) by (vm_compute; split; congruence).
  split; [exact (conj Il (conj Ir (conj Hmax (conj Cl Cr))))|].
  destruct (fillSpan_covers_span 10 (mkSpan 2 5 RED BLUE) 3 []
              Il Ir Hmax Cl Cr) as (log' & Hrun & _ & Hout & Hends);
    [vm_compute; reflexivity|].
  exists log'. split; [exact Hrun|].
  destruct (Hends ltac:(reflexivity)) as [Hl Hr].
  split; [exact Hl|]. split; [exact Hr|].
  rewrite (Hout 6 3); [reflexivity|].
  cbn [x_left x_right]. lia.
Defined.

(** X24. On every row [fillTriangle] writes a run of adjacent positions
    and nothing else: for each row there are two bounds such that the
    fill calls [setPixel] at a position of the row exactly when the
    position lies between them (no position at all when the bounds are
    crossed). A row of a filled triangle has no hole. The fill does
    return, given fuel, whenever no vertex lies on the row [INT_MAX]. *)
Theorem fillTriangle_rows_are_runs v0 v1 v2 :
  vertex_wf v0 -> vertex_wf v1 -> vertex_wf v2 ->
  (forall fuel log y,
     fillTriangle_calls fuel v0 v1 v2 = Some log ->
     exists xl xr, forall x,
       is_Some (find_call log x y) <-> xl <= x <= xr) /\
  (rows_below_max v0 v1 v2 ->
   exists fuel log, fillTriangle_calls fuel v0 v1 v2 = Some log).
Proof.
  intros W0 W1 W2. split.
  - intros fuel log y Hlog.
    assert (Hnone : (forall x, find_call log x y = None) ->
              exists xl xr, forall x,
                is_Some (find_call log x y) <-> xl <= x <= xr).
    { intros Hn. exists 1, 0. intros x. rewrite (Hn x). split.
      - intros [c Hc]. discriminate.
      - lia. }
    destruct (sortByY v0 v1 v2) as [[a b] c] eqn:Es.
    destruct (sortByY_spec v0 v1 v2 a b c Es) as (Hord & Hmin & Hmaxy & Hin).
    destruct (Hin vertex_wf W0 W1 W2) as ((_ & Ya & _) & _ & (_ & Yc & _)).
    destruct W0 as (_ & Y0 & _), W1 as (_ & Y1 & _), W2 as (_ & Y2 & _).
    destruct (Z_lt_ge_dec y (vy a)) as [Hlo|Hlo];
      [apply Hnone; intros x;
       apply (fill_row_outside fuel v0 v1 v2 log x y Y0 Y1 Y2); [lia | exact Hlog]|].
    destruct (Z_lt_ge_dec (vy c) y) as [Hhi|Hhi];
      [apply Hnone; intros x;
       apply (fill_row_outside fuel v0 v1 v2 log x y Y0 Y1 Y2); [lia | exact Hlog]|].
    unfold fillTriangle_calls in Hlog.
    rewrite (fillTriangleOn_sorted record fuel [] v0 v1 v2 a b c Es) in Hlog.
    destruct (Z.eq_dec (vy a) (vy c)) as [Eac|Hne].
    { apply Hnone. intros x.
      unfold fillTriangleOn in Hlog.
      rewrite (sortByY_sorted a b c Hord) in Hlog.
      destruct (vy a =? vy c) eqn:E; [|lia].
      injection Hlog as <-. reflexivity. }
    pose proof (fun x => fill_row_span fuel a b c log x y Ya Yc Hord Hne
                           ltac:(lia) Hlog) as Hrow.
    destruct (scanEdges a b c y) as [sp|].
    + exists (x_left sp), (x_right sp). intros x. rewrite (Hrow x).
      destruct (x_left sp <=? x) eqn:E1; destruct (x <=? x_right sp) eqn:E2;
        cbn [andb]; split; try lia; try (intros [? ?]; discriminate);
        intros _; eexists; reflexivity.
    + apply Hnone. exact Hrow.
  - intros Hrows.
    destruct (fillTriangleOn_returns_ample record [] v0 v1 v2 Hrows)
      as [log Hrun].
    exists ample_fuel, log. exact Hrun.
Qed.

Lemma fillTriangle_rows_are_runs_example :
  (vertex_wf small_v0 /\ vertex_wf small_v1 /\ vertex_wf small_v2) /\
  exists log xl xr,
    fillTriangle_calls 10 small_v0 small_v1 small_v2 = Some log /\
    forall x, is_Some (find_call log x 2) <-> xl <= x <= xr.
Proof.
  destruct small_fill_wf as (_ & _ & W0 & W1 & W2).
  split; [exact (conj W0 (conj W1 W2))|].
  assert (Hrun : is_Some (fillTriangle_calls 10 small_v0 small_v1 small_v2))
    by (vm_compute; eexists; reflexivity).
  destruct Hrun as [log Hrun].
  destruct (fillTriangle_rows_are_runs small_v0 small_v1 small_v2 W0 W1 W2)
    as [Hruns _].
  destruct (Hruns 10%nat log 2 Hrun) as (xl & xr & Hx).
  exists log, xl, xr. split; [exact Hrun | exact Hx].
Defined.

(** ** Collinear triples and the custom mode of [main] *)

(** X25. The answer of [isCollinear] does not depend on the order of
    the three vertices, whatever their coordinates: swapping two of them
    negates the area and a rotation keeps it, also after wrap-around. *)
Theorem isCollinear_order_irrelevant v0 v1 v2 :
  isCollinear v0 v2 v1 = isCollinear v0 v1 v2 /\
  isCollinear v1 v0 v2 = isCollinear v0 v1 v2 /\
  isCollinear v1 v2 v0 = isCollinear v0 v1 v2 /\
  isCollinear v2 v0 v1 = isCollinear v0 v1 v2 /\
  isCollinear v2 v1 v0 = isCollinear v0 v1 v2.
Proof.
  repeat split; apply isCollinear_true_iff; unfold signedArea;
    first [left; ring | right; ring].
Qed.

(** X26. [isCollinear] answers true for every triple that is no
    triangle: two vertices at the same position, three vertices on one
    row, or three vertices on one column, whatever the coordinates. *)
Theorem isCollinear_degenerate v0 v1 v2 :
  (vx v0, vy v0) = (vx v1, vy v1) \/ (vx v1, vy v1) = (vx v2, vy v2) \/
  (vx v0, vy v0) = (vx v2, vy v2) \/
  (vy v0 = vy v1 /\ vy v1 = vy v2) \/ (vx v0 = vx v1 /\ vx v1 = vx v2) ->
  isCollinear v0 v1 v2 = true.
Proof.
  intros H. apply area_zero_collinear. unfold signedArea.
  destruct H as [H|[H|[H|[[H1 H2]|[H1 H2]]]]];
    try (injection H as H1 H2); rewrite ?H1, ?H2; ring.
Qed.

Lemma isCollinear_degenerate_example :
  ((vx (mkVertex 7 3 RED), vy (mkVertex 7 3 RED))
   = (vx (mkVertex 7 3 BLUE), vy (mkVertex 7 3 BLUE))) /\
  isCollinear (mkVertex 7 3 RED) (mkVertex 7 3 BLUE) (mkVertex 1 5 GREEN)
  = true.
Proof.
  assert (H : (vx (mkVertex 7 3 RED), vy (mkVertex 7 3 RED))
              = (vx (mkVertex 7 3 BLUE), vy (mkVertex 7 3 BLUE)))
    by reflexivity.
  split; [exact H|].
  apply (isCollinear_degenerate (mkVertex 7 3 RED) (mkVertex 7 3 BLUE)
           (mkVertex 1 5 GREEN)).
  left. exact H.
Defined.

(** X27. The gathering loop of [main] leaves when it has kept
    [numTriangles] triangles, and not before. A run that returns has
    read some number [m] of triples and kept those of them that are not
    collinear, in the order in which they were typed; they are
    [numTriangles] triangles (none for a [numTriangles] that is zero or
    negative), and the last triple read is one of them. The loop returns
    once the input has brought [numTriangles] triples that are not
    collinear; on an input that never does, it does not return. *)
Theorem readTriangles_gathers numTriangles (input : nat -> Z) :
  int32 numTriangles ->
  (forall fuel triangles,
     readTriangles fuel input 0 0 numTriangles [] = Some triangles ->
     exists m : nat,
       (m < fuel)%nat /\
       triangles = List.filter proper (triplesFrom input 0 m) /\
       Z.of_nat (length triangles) = Z.max 0 numTriangles /\
       (m = 0%nat \/ proper (tripleAt input (m - 1)) = true)) /\
  (forall (m fuel : nat),
     (m < fuel)%nat ->
     numTriangles
     <= Z.of_nat (length (List.filter proper (triplesFrom input 0 m))) ->
     exists triangles,
       readTriangles fuel input 0 0 numTriangles [] = Some triangles) /\
  ((forall m : nat,
      Z.of_nat (length (List.filter proper (triplesFrom input 0 m)))
      < numTriangles) ->
   forall fuel, readTriangles fuel input 0 0 numTriangles [] = None).
Proof.
  intros Hn.
  assert (Hspec : forall fuel triangles,
            readTriangles fuel input 0 0 numTriangles [] = Some triangles ->
            exists m : nat,
              (m < fuel)%nat /\
              triangles = List.filter proper (triplesFrom input 0 m) /\
              Z.of_nat (length triangles) = Z.max 0 numTriangles /\
              (m = 0%nat \/ proper (tripleAt input (m - 1)) = true)).
  { intros fuel triangles Hts.
    destruct (readTriangles_spec fuel input 0 0 numTriangles [] triangles
                int32_zero Hn Hts) as (m & Hm & -> & Hc & Hlast).
    exists m. cbn [app Nat.add] in *.
    split; [exact Hm|]. split; [reflexivity|]. split; [lia | exact Hlast]. }
  split; [exact Hspec|]. split.
  - intros m fuel Hm Hcount.
    apply (readTriangles_returns fuel input 0 0 numTriangles [] m
             int32_zero Hn Hm).
    lia.
  - intros Hnever fuel.
    destruct (readTriangles fuel input 0 0 numTriangles []) as [ts|] eqn:E;
      [|reflexivity].
    exfalso. destruct (Hspec fuel ts E) as (m & _ & Hts & Hc & _).
    specialize (Hnever m). rewrite <- Hts in Hnever. lia.
Qed.

Lemma readTriangles_gathers_example :
  int32 1 /\
  (1 <= Z.of_nat
          (length
             (List.filter proper
                (triplesFrom
                   (typed [2; 0; 1; 2; 0; 1; 4; 3; 3;
                           2; 0; 1; 0; 3; 2; 4; 3; 3]) 0 2)))) /\
  readTriangles 3
    (typed [2; 0; 1; 2; 0; 1; 4; 3; 3; 2; 0; 1; 0; 3; 2; 4; 3; 3]) 0 0 1 []
  = Some [(small_v0, small_v1, small_v2)] /\
  (forall fuel, readTriangles fuel (typed []) 0 0 1 [] = None).
Proof.
  assert (Hn : int32 1) by (split; discriminate).
  assert (Hcount :
            1 <= Z.of_nat
                   (length
                      (List.filter proper
                         (triplesFrom
                            (typed [2; 0; 1; 2; 0; 1; 4; 3; 3;
                                    2; 0; 1; 0; 3; 2; 4; 3; 3]) 0 2))))
    by (vm_compute; discriminate).
  split; [exact Hn|]. split; [exact Hcount|].
  split.
  - destruct (readTriangles_gathers 1
                (typed [2; 0; 1; 2; 0; 1; 4; 3; 3;
                        2; 0; 1; 0; 3; 2; 4; 3; 3]) Hn)
      as (_ & Hret & _).
    destruct (Hret 2%nat 3%nat (le_n 3) Hcount) as [ts Hts].
    rewrite Hts. vm_compute in Hts. injection Hts as <-. reflexivity.
  - apply (readTriangles_gathers 1 (typed []) Hn).
    intros m. replace (List.filter proper (triplesFrom (typed []) 0 m))
      with (@nil Triangle); [reflexivity|].
    unfold triplesFrom. generalize 0%nat.
    induction m as [|m IH]; intros j; [reflexivity|].
    cbn [seq map List.filter]. rewrite <- IH.
    assert (Hp : proper (tripleAt (typed []) j) = false).
    { unfold tripleAt, readTriangle, readVertex, typed.
      destruct (9 * j)%nat; reflexivity. }
    rewrite Hp. reflexivity.
Defined.

(** X28. Every triangle that the gathering loop of [main] keeps is one
    of the typed triples, is not collinear, has its three vertices at
    three different positions, and spans more than one row: with
    [(a, b, c)] its vertices in ascending order of [y], [a] lies strictly
    above [c], so the fill of a gathered triangle never takes the early
    return of [fillTriangle]. *)
Theorem gathered_triangles_proper fuel numTriangles (input : nat -> Z)
    triangles v0 v1 v2 :
  readTriangles fuel input 0 0 numTriangles [] = Some triangles ->
  In (v0, v1, v2) triangles ->
  (exists k, tripleAt input k = (v0, v1, v2)) /\
  isCollinear v0 v1 v2 = false /\
  (vx v0, vy v0) <> (vx v1, vy v1) /\
  (vx v1, vy v1) <> (vx v2, vy v2) /\
  (vx v0, vy v0) <> (vx v2, vy v2) /\
  forall a b c, sortByY v0 v1 v2 = (a, b, c) -> vy a < vy c.
Proof.
  intros Hts Hin.
  destruct (readTriangles_In fuel input 0 0 numTriangles [] triangles _
              Hts Hin) as [[]|(k & Hk & Hp)].
  cbn [proper] in Hp. apply negb_true_iff in Hp.
  pose proof (isCollinear_false_area v0 v1 v2 Hp) as Ha.
  unfold signedArea in Ha.
  split; [exists k; exact Hk|]. split; [exact Hp|].
  split; [intros [= E1 E2]; apply Ha; rewrite E1, E2; ring|].
  split; [intros [= E1 E2]; apply Ha; rewrite E1, E2; ring|].
  split; [intros [= E1 E2]; apply Ha; rewrite E1, E2; ring|].
  intros a b c Hs.
  destruct (sortByY_spec v0 v1 v2 a b c Hs) as (Hord & Hmin & Hmax & _).
  destruct (Z.eq_dec (vy a) (vy c)) as [E|E]; [|lia].
  exfalso. apply Ha.
  assert (E01 : vy v0 = vy v1) by lia.
  assert (E12 : vy v1 = vy v2) by lia.
  rewrite E01, E12. ring.
Qed.

Lemma gathered_triangles_proper_example :
  readTriangles 3
    (typed [2; 0; 1; 2; 0; 1; 4; 3; 3; 2; 0; 1; 0; 3; 2; 4; 3; 3]) 0 0 1 []
  = Some [(small_v0, small_v1, small_v2)] /\
  In (small_v0, small_v1, small_v2) [(small_v0, small_v1, small_v2)] /\
  isCollinear small_v0 small_v1 small_v2 = false /\
  (forall a b c,
     sortByY small_v0 small_v1 small_v2 = (a, b, c) -> vy a < vy c).
Proof.
  assert (Hts : readTriangles 3
                  (typed [2; 0; 1; 2; 0; 1; 4; 3; 3;
                          2; 0; 1; 0; 3; 2; 4; 3; 3]) 0 0 1 []
                = Some [(small_v0, small_v1, small_v2)]) by reflexivity.
  assert (Hin : In (small_v0, small_v1, small_v2)
                  [(small_v0, small_v1, small_v2)])
    by (left; reflexivity).
  split; [exact Hts|]. split; [exact Hin|].
  destruct (gathered_triangles_proper 3 1 _ _ small_v0 small_v1 small_v2
              Hts Hin) as (_ & Hc & _ & _ & _ & Hrows).
  split; [exact Hc | exact Hrows].
Defined.

(** X29. The drawing loop of [main] paints in the order of the list, a
    later triangle over the earlier ones: after one more triangle, an
    on-screen position holds the colour of the latest call that the fill
    of this last triangle made there, and where it made none, what the
    picture of the earlier triangles holds. The size of the screen is
    kept. The loop does return, given fuel, when no vertex of a triangle
    lies on the row [INT_MAX]. *)
Theorem drawAll_last_on_top s triangles v0 v1 v2 :
  screen_wf s ->
  (forall fuel s',
     drawAll setPixel fuel s (triangles ++ [(v0, v1, v2)]) = Some s' ->
     exists s1 log,
       drawAll setPixel fuel s triangles = Some s1 /\
       fillTriangle_calls fuel v0 v1 v2 = Some log /\
       screen_wf s' /\ width s' = width s /\ height s' = height s /\
       forall x y, on_screen s x y ->
         pixel_at s' x y = match find_call log x y with
                           | Some color => Some color
                           | None => pixel_at s1 x y
                           end) /\
  (Forall (fun t : Triangle =>
             let '(a, b, c) := t in rows_below_max a b c)
     (triangles ++ [(v0, v1, v2)]) ->
   exists fuel s',
     drawAll setPixel fuel s (triangles ++ [(v0, v1, v2)]) = Some s').
Proof.
  intros Hwf. split.
  - intros fuel s' Hrun. rewrite drawAll_app in Hrun.
    destruct (drawAll setPixel fuel s triangles) as [s1|] eqn:E1;
      [|discriminate].
    destruct (drawAll_shape fuel triangles s s1 Hwf E1) as (Hwf1 & Hw1 & Hh1).
    cbn [drawAll] in Hrun.
    destruct (fillTriangleOn setPixel fuel s1 v0 v1 v2) as [s2|] eqn:E2;
      [|discriminate].
    injection Hrun as <-.
    destruct (fillTriangle_has_calls fuel s1 v0 v1 v2 s2 E2)
      as (log & Hlog & ->).
    exists s1, log. split; [reflexivity|]. split; [exact Hlog|].
    split; [apply replay_wf, Hwf1|].
    rewrite replay_width, replay_height.
    split; [exact Hw1|]. split; [exact Hh1|].
    intros x y [Hx Hy]. apply pixel_at_replay; [exact Hwf1 | lia | lia].
  - intros Hrows.
    destruct (drawAll_returns s (triangles ++ [(v0, v1, v2)]) Hrows)
      as [s' Hs'].
    exists ample_fuel, s'. exact Hs'.
Qed.

Lemma drawAll_last_on_top_example :
  screen_wf small_screen /\
  Forall (fun t : Triangle => let '(a, b, c) := t in rows_below_max a b c)
    ([(small_v2, small_v1, mkVertex 2 6 GOLD)]
       ++ [(small_v0, small_v1, small_v2)]) /\
  (exists fuel s',
     drawAll setPixel fuel small_screen
       ([(small_v2, small_v1, mkVertex 2 6 GOLD)]
          ++ [(small_v0, small_v1, small_v2)]) = Some s') /\
  exists s' s1 log,
    drawAll setPixel 10 small_screen
      ([(small_v2, small_v1, mkVertex 2 6 GOLD)]
         ++ [(small_v0, small_v1, small_v2)]) = Some s' /\
    drawAll setPixel 10 small_screen [(small_v2, small_v1, mkVertex 2 6 GOLD)]
    = Some s1 /\
    fillTriangle_calls 10 small_v0 small_v1 small_v2 = Some log /\
    pixel_at s' 2 1 = match find_call log 2 1 with
                      | Some color => Some color
                      | None => pixel_at s1 2 1
                      end.
Proof.
  destruct small_fill_wf as (Hwf & _).
  assert (Hrows : Forall (fun t : Triangle =>
                            let '(a, b, c) := t in rows_below_max a b c)
                    ([(small_v2, small_v1, mkVertex 2 6 GOLD)]
                       ++ [(small_v0, small_v1, small_v2)])).
  { repeat constructor; discriminate. }
  destruct (drawAll_last_on_top small_screen
              [(small_v2, small_v1, mkVertex 2 6 GOLD)]
              small_v0 small_v1 small_v2 Hwf) as [Hpic Hret].
  split; [exact Hwf|]. split; [exact Hrows|]. split; [exact (Hret Hrows)|].
  assert (Hrun : is_Some
            (drawAll setPixel 10 small_screen
               ([(small_v2, small_v1, mkVertex 2 6 GOLD)]
                  ++ [(small_v0, small_v1, small_v2)])))
    by (vm_compute; eexists; reflexivity).
  destruct Hrun as [s' Hrun].
  destruct (Hpic 10%nat s' Hrun) as (s1 & log & H1 & Hlog & _ & _ & _ & Hpix).
  exists s', s1, log.
  split; [exact Hrun|]. split; [exact H1|]. split; [exact Hlog|].
  apply Hpix. unfold on_screen. vm_compute. repeat split; congruence.
Defined.


